(** * nexus-cli: the cli-debate orchestration core

    A shallow embedding of the TypeScript sources under [src/cli-debate]:
    the executor ([agents/base-agent.ts] and the three backend agents), the
    structured-output parsing layer and the remediation fan-out of
    [code-review.ts], and the phase sequencing of the two orchestrators
    ([orchestrator.ts], [code-review.ts]); further the prompts of a debate
    ([prompts.ts]) and the argument parsing of the command line (the
    second part of [test.ts]).

    Modelling conventions.
    - A JavaScript string is a [string]: the sequence of its UTF-8 bytes.
      White space is the full set of JavaScript white-space characters
      (the class [\s], [trim], [parseInt]), each matched as its UTF-8
      encoding. [toLowerCase] is modelled on the ASCII letters: every key
      the sources compare against ([bug], [critical], [claude], ...) is
      ASCII and free of the letter [k], so no non-ASCII input lowers to one
      of them.
    - A value decoded from JSON is a [value]. A look-up in an object
      literal used as a table follows the prototype chain: it finds the
      literal's own properties and those inherited from [Object.prototype].
    - An exception is an explicit [Throw] outcome; [try/catch] is a match
      on the outcome.
    - The outside world (child processes, the clock, uuid generation and
      JSON.parse) is a parameter of the definitions that use it. For an
      executor, [spawn] may throw. For the orchestrators, the listeners
      of the events and the prompt builders are taken to return, and the
      build command to be spawned and to end. *)

From Stdlib Require Import String Ascii List Bool Arith ZArith Lia Permutation.
From Stdlib Require Import DecimalString DecimalNat DecimalFacts FinFun.
Import ListNotations.
Local Open Scope string_scope.
Local Open Scope list_scope.
Set Warnings "-register-all".

(* ===================================================================== *)
(** ** JavaScript strings *)
(* ===================================================================== *)

Module JsString.

(** [s.startsWith(p)], also returning what follows the prefix. *)
Fixpoint strip_prefix (p s : string) : option string :=
  match p, s with
  | EmptyString, _ => Some s
  | String a p', String b s' =>
      if Ascii.eqb a b then strip_prefix p' s' else None
  | String _ _, EmptyString => None
  end.

Definition starts_with (p s : string) : bool :=
  match strip_prefix p s with Some _ => true | None => false end.

(** The text made of the given bytes. *)
Fixpoint of_bytes (l : list nat) : string :=
  match l with
  | [] => EmptyString
  | n :: l' => String (ascii_of_nat n) (of_bytes l')
  end.

(** The white-space characters of JavaScript, each as its UTF-8 bytes:
    the members of the regular-expression class [\s], which are also the
    characters removed by [String.prototype.trim] and skipped by
    [parseInt] (WhiteSpace and LineTerminator of ECMAScript). *)
Definition white_space : list string :=
  [ of_bytes [9];              (* U+0009 tab *)
    of_bytes [10];             (* U+000A line feed *)
    of_bytes [11];             (* U+000B vertical tab *)
    of_bytes [12];             (* U+000C form feed *)
    of_bytes [13];             (* U+000D carriage return *)
    of_bytes [32];             (* U+0020 space *)
    of_bytes [194; 160];       (* U+00A0 no-break space *)
    of_bytes [225; 154; 128];  (* U+1680 *)
    of_bytes [226; 128; 128];  (* U+2000 *)
    of_bytes [226; 128; 129];  (* U+2001 *)
    of_bytes [226; 128; 130];  (* U+2002 *)
    of_bytes [226; 128; 131];  (* U+2003 *)
    of_bytes [226; 128; 132];  (* U+2004 *)
    of_bytes [226; 128; 133];  (* U+2005 *)
    of_bytes [226; 128; 134];  (* U+2006 *)
    of_bytes [226; 128; 135];  (* U+2007 *)
    of_bytes [226; 128; 136];  (* U+2008 *)
    of_bytes [226; 128; 137];  (* U+2009 *)
    of_bytes [226; 128; 138];  (* U+200A *)
    of_bytes [226; 128; 168];  (* U+2028 line separator *)
    of_bytes [226; 128; 169];  (* U+2029 paragraph separator *)
    of_bytes [226; 128; 175];  (* U+202F *)
    of_bytes [226; 129; 159];  (* U+205F *)
    of_bytes [227; 128; 128];  (* U+3000 *)
    of_bytes [239; 187; 191]   (* U+FEFF *) ].

(** What follows the first of the prefixes [ps] that [s] starts with. *)
Fixpoint strip_any (ps : list string) (s : string) : option string :=
  match ps with
  | [] => None
  | p :: ps' =>
      match strip_prefix p s with
      | Some r => Some r
      | None => strip_any ps' s
      end
  end.

(** One white-space character at the head of [s], removed. *)
Definition strip_space (s : string) : option string := strip_any white_space s.

(** White-space characters removed from the head of [s], at most [fuel]
    of them. *)
Fixpoint trimStart_upto (fuel : nat) (s : string) : string :=
  match fuel with
  | O => s
  | S fuel' =>
      match strip_space s with
      | Some r => trimStart_upto fuel' r
      | None => s
      end
  end.

(** [s.trimStart()]: a text holds no more characters than bytes. *)
Definition trimStart (s : string) : string := trimStart_upto (String.length s) s.

(** [s] consists of white-space characters only. *)
Definition all_spaces (s : string) : bool :=
  match trimStart s with EmptyString => true | String _ _ => false end.

(** [s.trimEnd()]: the text up to its longest all-white-space tail. *)
Fixpoint trimEnd (s : string) : string :=
  match s with
  | EmptyString => EmptyString
  | String c r => if all_spaces s then EmptyString else String c (trimEnd r)
  end.

(** [s.trim()] *)
Definition trim (s : string) : string := trimEnd (trimStart s).

Definition lower_ascii (c : ascii) : ascii :=
  let n := nat_of_ascii c in
  if Nat.leb 65 n && Nat.leb n 90 then ascii_of_nat (n + 32) else c.

(** [s.toLowerCase()] *)
Fixpoint toLowerCase (s : string) : string :=
  match s with
  | EmptyString => EmptyString
  | String c r => String (lower_ascii c) (toLowerCase r)
  end.

(** The text after the first occurrence of [p] in [s]. *)
Fixpoint after_first (p s : string) : option string :=
  match strip_prefix p s with
  | Some rest => Some rest
  | None =>
      match s with
      | EmptyString => None
      | String _ s' => after_first p s'
      end
  end.

(** [contains p s]: [p] occurs somewhere in [s]. *)
Definition contains (p s : string) : bool :=
  match after_first p s with Some _ => true | None => false end.

(** Decimal rendering of a natural number, as a template literal
    [`${n}`] renders a non-negative integer. *)
Definition decimal (n : nat) : string :=
  NilZero.string_of_uint (Nat.to_uint n).

End JsString.

(* ===================================================================== *)
(** ** JavaScript values, outcomes and property access *)
(* ===================================================================== *)

Module Js.
Import JsString.

(** A JSON number as written: [mantissa * 10 ^ exponent10]. *)
Record number := { mantissa : Z; exponent10 : Z }.

(** The double a lexeme denotes is zero exactly when its magnitude is at
    most [2 ^ -1075], half of the least subnormal (ties round to even). *)
Definition number_is_zero (n : number) : bool :=
  Z.eqb (mantissa n) 0
  || (Z.ltb (exponent10 n) 0
      && Z.leb (Z.abs (mantissa n) * 2 ^ 1075) (10 ^ (- exponent10 n))).

(** The values the parsing layer meets: what JSON.parse can return, plus
    [undefined]. An object is the list of its own properties; the first
    binding of a name is the property. *)
Inductive value :=
| VUndefined
| VNull
| VBool (b : bool)
| VNumber (n : number)
| VString (s : string)
| VArray (items : list value)
| VObject (props : list (string * value)).

(** What a thrown exception carries. *)
Inductive exn :=
| SyntaxError
| TypeError
| Error (message : string).

(** The outcome of evaluating an expression or a block. *)
Inductive completion (A : Type) :=
| Normal (a : A)
| Throw (e : exn).
Arguments Normal {A} a.
Arguments Throw {A} e.

Definition bind {A B} (c : completion A) (k : A -> completion B) : completion B :=
  match c with
  | Normal a => k a
  | Throw e => Throw e
  end.

Declare Scope js_scope.
Delimit Scope js_scope with js.
Notation "x <- c ;; k" := (bind c (fun x => k))
  (at level 61, c at next level, right associativity) : js_scope.

(** ToBoolean. *)
Definition truthy (v : value) : bool :=
  match v with
  | VUndefined | VNull => false
  | VBool b => b
  | VNumber n => negb (number_is_zero n)
  | VString s => negb (String.eqb s EmptyString)
  | VArray _ | VObject _ => true
  end.

(** [Array.isArray(v)] *)
Definition isArray (v : value) : bool :=
  match v with VArray _ => true | _ => false end.

Fixpoint assoc {A} (k : string) (l : list (string * A)) : option A :=
  match l with
  | [] => None
  | (k', a) :: r => if String.eqb k k' then Some a else assoc k r
  end.

(** The names [Object.prototype] defines. Every ordinary object, an
    object literal included, inherits them. *)
Definition object_prototype_names : list string :=
  [ "constructor"; "__defineGetter__"; "__defineSetter__"; "hasOwnProperty";
    "__lookupGetter__"; "__lookupSetter__"; "isPrototypeOf";
    "propertyIsEnumerable"; "toString"; "valueOf"; "__proto__";
    "toLocaleString" ].

Definition inherited (name : string) : bool :=
  existsb (String.eqb name) object_prototype_names.

(** [v.name] on a decoded value. Reading a property of [null] or
    [undefined] throws. The sources read only the names [issues],
    [confirmedIssues], [type], [severity], [description], [filePath],
    [lineNumber], [suggestedFix], [issueId], [confirmed] and [assignTo];
    no prototype defines any of them, so on an array or a primitive the
    read yields [undefined], and on an object the own property if any. *)
Definition get (v : value) (name : string) : completion value :=
  match v with
  | VUndefined | VNull => Throw TypeError
  | VObject props =>
      match assoc name props with
      | Some x => Normal x
      | None => Normal VUndefined
      end
  | _ => Normal VUndefined
  end.

(** [v?.toLowerCase()]: short-circuits on [null] and [undefined]; on a
    string it lowers; any other decoded value has no callable
    [toLowerCase], and the call throws. *)
Definition opt_toLowerCase (v : value) : completion value :=
  match v with
  | VUndefined | VNull => Normal VUndefined
  | VString s => Normal (VString (toLowerCase s))
  | _ => Throw TypeError
  end.

(** The result of [table[key]] on an object literal whose own values are
    the members of an enum [E]: an own value, a member inherited from
    [Object.prototype] (a function, or for [__proto__] the prototype
    itself), or [undefined]. *)
Inductive looked_up (E : Type) :=
| Member (e : E)
| Inherited (name : string).
Arguments Member {E} e.
Arguments Inherited {E} name.

(** [table[key]], with [key] the value of [v?.toLowerCase()]: a string
    or [undefined], which as a property key is the name [undefined]. *)
Definition property_key (v : value) : string :=
  match v with
  | VString s => s
  | _ => "undefined"
  end.

Definition table_get {E} (table : list (string * E)) (key : string)
  : option (looked_up E) :=
  match assoc key table with
  | Some e => Some (Member e)
  | None => if inherited key then Some (Inherited key) else None
  end.

(** [table[key] || fallback]. Enum members are non-empty strings and the
    inherited members are objects, so anything found is truthy. *)
Definition table_get_or {E} (table : list (string * E)) (key : string)
  (fallback : E) : looked_up E :=
  match table_get table key with
  | Some x => x
  | None => Member fallback
  end.

(** The elements of an array. *)
Definition items_of (v : value) : list value :=
  match v with VArray items => items | _ => [] end.

(** [v === s] for a string [s]. *)
Definition strict_eq_string (v : value) (s : string) : bool :=
  match v with
  | VString t => String.eqb t s
  | _ => false
  end.

End Js.

(* ===================================================================== *)
(** ** The fenced-block pattern *)
(* ===================================================================== *)

Module Fence.
Import JsString.

Definition fence : string := "```".
Definition fence_json : string := "```json".

(** Greedy [\s*]. *)
Definition skip_spaces : string -> string := trimStart.

(** [\s*```] matches at the head of [s]. A back-quote is not white space,
    so the greedy [\s*] never has to give a character back. *)
Definition closes_here (s : string) : bool :=
  starts_with fence (skip_spaces s).

(** The lazy group [([\s\S]*?)] followed by [\s*```]: the shortest prefix
    after which the closing fence matches. *)
Fixpoint lazy_capture (s : string) : option string :=
  if closes_here s then Some EmptyString
  else
    match s with
    | EmptyString => None
    | String c r =>
        match lazy_capture r with
        | Some g => Some (String c g)
        | None => None
        end
    end.

(** [output.match(/```json\s*([\s\S]*?)\s*```/)], group 1 of the match.
    The leftmost [```json] decides: a closing fence after a later
    [```json] would also close the first one, so when the attempt at the
    first occurrence fails every later attempt fails too. *)
Definition match_json_fence (output : string) : option string :=
  match after_first fence_json output with
  | None => None
  | Some rest => lazy_capture (skip_spaces rest)
  end.

(** [const jsonStr = jsonMatch ? jsonMatch[1] : output] *)
Definition jsonStr (output : string) : string :=
  match match_json_fence output with
  | Some g => g
  | None => output
  end.

End Fence.

(* ===================================================================== *)
(** ** A reference JSON decoder *)
(* ===================================================================== *)

(** [JSON.parse] belongs to the platform. The parsing layer below takes
    the decoder as a parameter; this executable decoder of the JSON
    grammar instantiates it in the worked examples. *)
Module Json.
Import JsString Js.

Definition dquote : ascii := ascii_of_nat 34.
Definition backslash : ascii := ascii_of_nat 92.

Definition is_json_space (c : ascii) : bool :=
  let n := nat_of_ascii c in
  Nat.eqb n 32 || Nat.eqb n 9 || Nat.eqb n 10 || Nat.eqb n 13.

Fixpoint skip_ws (s : string) : string :=
  match s with
  | EmptyString => EmptyString
  | String c r => if is_json_space c then skip_ws r else s
  end.

Definition digit (c : ascii) : option Z :=
  let n := nat_of_ascii c in
  if Nat.leb 48 n && Nat.leb n 57 then Some (Z.of_nat (n - 48)) else None.

Definition hex_digit (c : ascii) : option nat :=
  let n := nat_of_ascii c in
  if Nat.leb 48 n && Nat.leb n 57 then Some (n - 48)
  else if Nat.leb 65 n && Nat.leb n 70 then Some (n - 55)
  else if Nat.leb 97 n && Nat.leb n 102 then Some (n - 87)
  else None.

(** The UTF-8 bytes of the code unit [u] of a [\uXXXX] escape. A
    surrogate that is not part of a pair has no UTF-8 encoding; it is
    written in the three-byte form of its number. *)
Definition utf8 (u : N) : string :=
  (if u <? 128 then String (ascii_of_N u) EmptyString
   else if u <? 2048 then
     String (ascii_of_N (192 + u / 64))
       (String (ascii_of_N (128 + u mod 64)) EmptyString)
   else
     String (ascii_of_N (224 + u / 4096))
       (String (ascii_of_N (128 + (u / 64) mod 64))
          (String (ascii_of_N (128 + u mod 64)) EmptyString)))%N.

Definition high_surrogate (u : N) : bool := ((55296 <=? u) && (u <? 56320))%N.
Definition low_surrogate (u : N) : bool := ((56320 <=? u) && (u <? 57344))%N.

(** The UTF-8 bytes of the character that the surrogate pair [hi], [lo]
    stands for. *)
Definition utf8_pair (hi lo : N) : string :=
  (let cp := 65536 + (hi - 55296) * 1024 + (lo - 56320) in
   String (ascii_of_N (240 + cp / 262144))
     (String (ascii_of_N (128 + (cp / 4096) mod 64))
        (String (ascii_of_N (128 + (cp / 64) mod 64))
           (String (ascii_of_N (128 + cp mod 64)) EmptyString))))%N.

Definition hex4 (h1 h2 h3 h4 : ascii) : option N :=
  match hex_digit h1, hex_digit h2, hex_digit h3, hex_digit h4 with
  | Some a, Some b, Some c, Some d =>
      Some (((N.of_nat a * 16 + N.of_nat b) * 16 + N.of_nat c) * 16 + N.of_nat d)%N
  | _, _, _, _ => None
  end.

(** After the opening quote: the decoded characters up to the closing
    quote, and the text after it. Two [\u] escapes that form a surrogate
    pair give one character. *)
Fixpoint string_body (s : string) : option (string * string) :=
  match s with
  | EmptyString => None
  | String c r =>
      if Ascii.eqb c dquote then Some (EmptyString, r)
      else if Ascii.eqb c backslash then
        match r with
        | String e r1 =>
            let plain (x : ascii) :=
              match string_body r1 with
              | Some (t, rest) => Some (String x t, rest)
              | None => None
              end in
            if Ascii.eqb e dquote then plain dquote
            else if Ascii.eqb e backslash then plain backslash
            else if Ascii.eqb e "/" then plain "/"%char
            else if Ascii.eqb e "b" then plain (ascii_of_nat 8)
            else if Ascii.eqb e "f" then plain (ascii_of_nat 12)
            else if Ascii.eqb e "n" then plain (ascii_of_nat 10)
            else if Ascii.eqb e "r" then plain (ascii_of_nat 13)
            else if Ascii.eqb e "t" then plain (ascii_of_nat 9)
            else if Ascii.eqb e "u" then
              match r1 with
              | String h1 (String h2 (String h3 (String h4 r2))) =>
                  match hex4 h1 h2 h3 h4 with
                  | None => None
                  | Some u =>
                      let single :=
                        match string_body r2 with
                        | Some (t, rest) => Some (String.append (utf8 u) t, rest)
                        | None => None
                        end in
                      match r2 with
                      | String b1 (String b2
                          (String g1 (String g2 (String g3 (String g4 r3))))) =>
                          match hex4 g1 g2 g3 g4 with
                          | Some v =>
                              if high_surrogate u && low_surrogate v
                                 && Ascii.eqb b1 backslash && Ascii.eqb b2 "u"
                              then
                                match string_body r3 with
                                | Some (t, rest) =>
                                    Some (String.append (utf8_pair u v) t, rest)
                                | None => None
                                end
                              else single
                          | None => single
                          end
                      | _ => single
                      end
                  end
              | _ => None
              end
            else None
        | EmptyString => None
        end
      else if Nat.ltb (nat_of_ascii c) 32 then None
      else
        match string_body r with
        | Some (t, rest) => Some (String c t, rest)
        | None => None
        end
  end.

(** A run of decimal digits: their value, their count, the rest. *)
Fixpoint digits (s : string) (acc : Z) (count : nat) : Z * nat * string :=
  match s with
  | EmptyString => (acc, count, s)
  | String c r =>
      match digit c with
      | Some d => digits r (acc * 10 + d) (S count)
      | None => (acc, count, s)
      end
  end.

(** An optional minus sign; an integer part, a lone zero or digits not
    starting with zero; an optional fraction of one or more digits; an
    optional exponent. *)
Definition number_lexeme (s : string) : option (number * string) :=
  let '(neg, s1) :=
    match s with
    | String "-" r => (true, r)
    | _ => (false, s)
    end in
  let int_part :=
    match s1 with
    | String "0" r => Some (0%Z, r)
    | _ =>
        match digits s1 0 0 with
        | (_, O, _) => None
        | (v, S _, r) => Some (v, r)
        end
    end in
  match int_part with
  | None => None
  | Some (i, s2) =>
      let frac :=
        match s2 with
        | String "." r =>
            match digits r i 0 with
            | (_, O, _) => None
            | (v, S k, r') => Some (v, S k, r')
            end
        | _ => Some (i, O, s2)
        end in
      match frac with
      | None => None
      | Some (m, k, s3) =>
          let expo :=
            match s3 with
            | String e r =>
                if Ascii.eqb e "e" || Ascii.eqb e "E" then
                  let '(eneg, r1) :=
                    match r with
                    | String "-" r' => (true, r')
                    | String "+" r' => (false, r')
                    | _ => (false, r)
                    end in
                  match digits r1 0 0 with
                  | (_, O, _) => None
                  | (v, S _, r2) => Some ((if eneg then - v else v)%Z, r2)
                  end
                else Some (0%Z, s3)
            | EmptyString => Some (0%Z, s3)
            end in
          match expo with
          | None => None
          | Some (x, s4) =>
              Some ({| mantissa := if neg then - m else m;
                       exponent10 := x - Z.of_nat k |}, s4)
          end
      end
  end.

(** Defining a property: a repeated name keeps its place and takes the
    later value. *)
Fixpoint set_prop (k : string) (v : value) (props : list (string * value))
  : list (string * value) :=
  match props with
  | [] => [(k, v)]
  | (k', v') :: r =>
      if String.eqb k k' then (k, v) :: r else (k', v') :: set_prop k v r
  end.

Definition literal (word : string) (v : value) (s : string)
  : option (value * string) :=
  match strip_prefix word s with
  | Some rest => Some (v, rest)
  | None => None
  end.

Fixpoint parse_value (fuel : nat) (s : string) : option (value * string) :=
  match fuel with
  | O => None
  | S fuel' =>
      match skip_ws s with
      | EmptyString => None
      | String c r =>
          if Ascii.eqb c "{" then
            match skip_ws r with
            | String "}" r' => Some (VObject [], r')
            | _ => parse_members fuel' r []
            end
          else if Ascii.eqb c "[" then
            match skip_ws r with
            | String "]" r' => Some (VArray [], r')
            | _ => parse_elements fuel' r []
            end
          else if Ascii.eqb c dquote then
            match string_body r with
            | Some (t, rest) => Some (VString t, rest)
            | None => None
            end
          else if Ascii.eqb c "t" then literal "true" (VBool true) (String c r)
          else if Ascii.eqb c "f" then literal "false" (VBool false) (String c r)
          else if Ascii.eqb c "n" then literal "null" VNull (String c r)
          else
            match number_lexeme (String c r) with
            | Some (n, rest) => Some (VNumber n, rest)
            | None => None
            end
      end
  end
with parse_elements (fuel : nat) (s : string) (acc : list value)
  : option (value * string) :=
  match fuel with
  | O => None
  | S fuel' =>
      match parse_value fuel' s with
      | None => None
      | Some (v, r) =>
          match skip_ws r with
          | String "," r' => parse_elements fuel' r' (acc ++ [v])
          | String "]" r' => Some (VArray (acc ++ [v]), r')
          | _ => None
          end
      end
  end
with parse_members (fuel : nat) (s : string) (acc : list (string * value))
  : option (value * string) :=
  match fuel with
  | O => None
  | S fuel' =>
      match skip_ws s with
      | String c r =>
          if Ascii.eqb c dquote then
            match string_body r with
            | None => None
            | Some (k, r1) =>
                match skip_ws r1 with
                | String ":" r2 =>
                    match parse_value fuel' r2 with
                    | None => None
                    | Some (v, r3) =>
                        match skip_ws r3 with
                        | String "," r4 => parse_members fuel' r4 (set_prop k v acc)
                        | String "}" r4 => Some (VObject (set_prop k v acc), r4)
                        | _ => None
                        end
                    end
                | _ => None
                end
            end
          else None
      | EmptyString => None
      end
  end.

(** [JSON.parse(text)]: [None] stands for the SyntaxError. *)
Definition parse (text : string) : option value :=
  match parse_value (2 * String.length text + 2) text with
  | Some (v, rest) =>
      match skip_ws rest with
      | EmptyString => Some v
      | _ => None
      end
  | None => None
  end.

(** Example texts are written with single quotes for readability;
    [dq] puts the double quotes of JSON in their place. *)
Fixpoint dq (s : string) : string :=
  match s with
  | EmptyString => EmptyString
  | String c r => String (if Ascii.eqb c "'" then dquote else c) (dq r)
  end.

End Json.

(* ===================================================================== *)
(** ** types.ts *)
(* ===================================================================== *)

Module Types.

Inductive DebateRole := MODERATOR | CHALLENGER | DEFENDER.

Inductive CLIType := CLAUDE | CODEX | GEMINI.

Inductive DebatePhase :=
| OPENING | ROUND | FINAL
| BUILD_CHECK | CODE_ANALYSIS | ISSUE_DEFENSE | VERDICT_ASSIGNMENT | PARALLEL_FIX.

Inductive DebateStatus := PENDING | IN_PROGRESS | COMPLETED | FAILED | TIMEOUT.

Inductive IssueSeverity := CRITICAL | HIGH | MEDIUM | LOW.

Inductive IssueType := BUG | SECURITY | PERFORMANCE | DESIGN.

(** The run-time value of each member of the string enum [CLIType]. *)
Definition CLIType_value (c : CLIType) : string :=
  match c with
  | CLAUDE => "claude"
  | CODEX => "codex"
  | GEMINI => "gemini"
  end.

Definition IssueType_value (t : IssueType) : string :=
  match t with
  | BUG => "bug"
  | SECURITY => "security"
  | PERFORMANCE => "performance"
  | DESIGN => "design"
  end.

Definition IssueSeverity_value (s : IssueSeverity) : string :=
  match s with
  | CRITICAL => "critical"
  | HIGH => "high"
  | MEDIUM => "medium"
  | LOW => "low"
  end.

Definition CLIType_eqb (a b : CLIType) : bool :=
  match a, b with
  | CLAUDE, CLAUDE | CODEX, CODEX | GEMINI, GEMINI => true
  | _, _ => false
  end.

Definition DebateRole_eqb (a b : DebateRole) : bool :=
  match a, b with
  | MODERATOR, MODERATOR | CHALLENGER, CHALLENGER | DEFENDER, DEFENDER => true
  | _, _ => false
  end.

(** [AgentExecuteResult] *)
Record AgentExecuteResult := {
  success : bool;
  output : string;
  error : option string;
  duration : Z
}.

(** [CodeIssue]. [type], [severity] and [assignedTo] hold whatever the
    table look-ups of the parser produced; [description] and the three
    optional fields hold the decoded payload values as they are. *)
Record CodeIssue := {
  issue_id : string;
  issue_type : Js.looked_up IssueType;
  issue_severity : Js.looked_up IssueSeverity;
  issue_description : Js.value;
  issue_filePath : Js.value;
  issue_lineNumber : Js.value;
  issue_suggestedFix : Js.value;
  issue_assignedTo : option (Js.looked_up CLIType)
}.

(** [{ ...issue, assignedTo: cli }] *)
Definition with_assignedTo (issue : CodeIssue) (cli : Js.looked_up CLIType)
  : CodeIssue :=
  {| issue_id := issue_id issue;
     issue_type := issue_type issue;
     issue_severity := issue_severity issue;
     issue_description := issue_description issue;
     issue_filePath := issue_filePath issue;
     issue_lineNumber := issue_lineNumber issue;
     issue_suggestedFix := issue_suggestedFix issue;
     issue_assignedTo := Some cli |}.

End Types.

(* ===================================================================== *)
(** ** code-review.ts: the structured-output parsing layer *)
(* ===================================================================== *)

Module Parsing.
Import JsString Js Fence Types.
Local Open Scope js_scope.

Section WithDecoder.

(** [JSON.parse]; [None] is its SyntaxError. *)
Variable JSON_parse : string -> option value.

Definition decode (text : string) : completion value :=
  match JSON_parse text with
  | Some v => Normal v
  | None => Throw SyntaxError
  end.

Definition typeMap : list (string * IssueType) :=
  [ ("bug", BUG); ("security", SECURITY);
    ("performance", PERFORMANCE); ("design", DESIGN) ].

(** [typeMap[type?.toLowerCase()] || IssueType.BUG] *)
Definition parseIssueType (type : value) : completion (looked_up IssueType) :=
  key <- opt_toLowerCase type ;;
  Normal (table_get_or typeMap (property_key key) BUG).

Definition severityMap : list (string * IssueSeverity) :=
  [ ("critical", CRITICAL); ("high", HIGH); ("medium", MEDIUM); ("low", LOW) ].

(** [severityMap[severity?.toLowerCase()] || IssueSeverity.MEDIUM] *)
Definition parseSeverity (severity : value) : completion (looked_up IssueSeverity) :=
  key <- opt_toLowerCase severity ;;
  Normal (table_get_or severityMap (property_key key) MEDIUM).

Definition cliMap : list (string * CLIType) :=
  [ ("claude", CLAUDE); ("codex", CODEX); ("gemini", GEMINI) ].

(** [cliMap[cli?.toLowerCase()] || CLIType.CLAUDE] *)
Definition parseCLIType (cli : value) : completion (looked_up CLIType) :=
  key <- opt_toLowerCase cli ;;
  Normal (table_get_or cliMap (property_key key) CLAUDE).

(** [a || b] on values. *)
Definition or_else (a b : value) : value := if truthy a then a else b.

(** The callback of [parsed.issues.map((issue, index) => ...)]. *)
Definition issue_of (index : nat) (issue : value) : completion CodeIssue :=
  ty <- get issue "type" ;;
  ty' <- parseIssueType ty ;;
  sev <- get issue "severity" ;;
  sev' <- parseSeverity sev ;;
  desc <- get issue "description" ;;
  fp <- get issue "filePath" ;;
  ln <- get issue "lineNumber" ;;
  fix_ <- get issue "suggestedFix" ;;
  Normal {| issue_id := "issue-" ++ decimal (index + 1);
            issue_type := ty';
            issue_severity := sev';
            issue_description := or_else desc (VString EmptyString);
            issue_filePath := fp;
            issue_lineNumber := ln;
            issue_suggestedFix := fix_;
            issue_assignedTo := None |}.

(** [items.map(callback)] from index [index] on. *)
Fixpoint map_from (index : nat) (items : list value) : completion (list CodeIssue) :=
  match items with
  | [] => Normal []
  | x :: r =>
      i <- issue_of index x ;;
      rest <- map_from (S index) r ;;
      Normal (i :: rest)
  end.

(** The [try] block of [parseIssuesFromOutput]: [Some] is its [return],
    [None] is falling out of the [if]. *)
Definition parseIssues_try (output : string) : completion (option (list CodeIssue)) :=
  parsed <- decode (jsonStr output) ;;
  issues <- get parsed "issues" ;;
  if truthy issues && isArray issues then
    r <- map_from 0 (items_of issues) ;;
    Normal (Some r)
  else Normal None.

Definition parseIssuesFromOutput (output : string) : list CodeIssue :=
  match parseIssues_try output with
  | Normal (Some r) => r
  | Normal None => []
  | Throw _ => []
  end.

(** [entries.find((c) => c.issueId === id)] *)
Fixpoint find_entry (entries : list value) (id : string) : completion (option value) :=
  match entries with
  | [] => Normal None
  | c :: r =>
      x <- get c "issueId" ;;
      if strict_eq_string x id then Normal (Some c) else find_entry r id
  end.

(** The [for (const issue of issues)] loop of [parseVerdictAndAssign]. *)
Fixpoint assign_loop (entries : list value) (issues : list CodeIssue)
  : completion (list CodeIssue) :=
  match issues with
  | [] => Normal []
  | issue :: r =>
      confirmed <- find_entry entries (issue_id issue) ;;
      flag <- match confirmed with
              | Some c => get c "confirmed"
              | None => Normal VUndefined
              end ;;
      if truthy flag then
        a <- match confirmed with
             | Some c => get c "assignTo"
             | None => Normal VUndefined
             end ;;
        cli <- parseCLIType a ;;
        rest <- assign_loop entries r ;;
        Normal (with_assignedTo issue cli :: rest)
      else assign_loop entries r
  end.

Definition parseVerdict_try (output : string) (issues : list CodeIssue)
  : completion (option (list CodeIssue)) :=
  parsed <- decode (jsonStr output) ;;
  entries <- get parsed "confirmedIssues" ;;
  if truthy entries && isArray entries then
    r <- assign_loop (items_of entries) issues ;;
    Normal (Some r)
  else Normal None.

Definition parseVerdictAndAssign (output : string) (issues : list CodeIssue)
  : list CodeIssue :=
  match parseVerdict_try output issues with
  | Normal (Some r) => r
  | Normal None => issues
  | Throw _ => issues
  end.

End WithDecoder.

End Parsing.

(* ===================================================================== *)
(** ** agents: the three backends and [createAgent] *)
(* ===================================================================== *)

Module Agents.
Import JsString Js Types.

(** An instance of one of the three subclasses of [BaseCLIAgent]. *)
Record ICLIAgent := {
  cliType : CLIType;
  role : DebateRole;
  timeout : Z;
  extraArgs : list string
}.

(** [timeout = 300000] as a default parameter. *)
Definition default_timeout (t : option Z) : Z :=
  match t with Some x => x | None => 300000%Z end.

Definition ClaudeAgent (r : DebateRole) (t : option Z) : ICLIAgent :=
  {| cliType := CLAUDE; role := r; timeout := default_timeout t;
     extraArgs := ["--print"] |}.

Definition CodexAgent (r : DebateRole) (t : option Z) : ICLIAgent :=
  {| cliType := CODEX; role := r; timeout := default_timeout t;
     extraArgs := [] |}.

Definition GeminiAgent (r : DebateRole) (t : option Z) : ICLIAgent :=
  {| cliType := GEMINI; role := r; timeout := default_timeout t;
     extraArgs := ["--yolo"; "-o"; "text"] |}.

Definition getCommand (a : ICLIAgent) : string :=
  match cliType a with
  | CLAUDE => "claude"
  | CODEX => "codex"
  | GEMINI => "gemini"
  end.

(** [prompt.replace(/"/g, '\\"')] between two double quotes. *)
Fixpoint escape_quotes (s : string) : string :=
  match s with
  | EmptyString => EmptyString
  | String c r =>
      if Ascii.eqb c Json.dquote
      then String Json.backslash (String Json.dquote (escape_quotes r))
      else String c (escape_quotes r)
  end.

Definition quoted (prompt : string) : string :=
  String Json.dquote (escape_quotes prompt ++ String Json.dquote EmptyString).

Definition getArgs (a : ICLIAgent) (prompt : string) : list string :=
  match cliType a with
  | CLAUDE => ["--print"; "-p"; quoted prompt] ++ extraArgs a
  | CODEX => ["--approval-mode"; "full-auto"; quoted prompt] ++ extraArgs a
  | GEMINI => [quoted prompt; "--yolo"; "-o"; "text"] ++ extraArgs a
  end.

Definition unsupported : string := "不支持的 CLI 类型: ".

(** [createAgent]. At run time a [CLIType] is a string; the [switch]
    compares it with the three enum values and its [default] throws. *)
Definition createAgent (cli : string) (r : DebateRole) (t : option Z)
  : completion ICLIAgent :=
  if String.eqb cli (CLIType_value CLAUDE) then Normal (ClaudeAgent r t)
  else if String.eqb cli (CLIType_value CODEX) then Normal (CodexAgent r t)
  else if String.eqb cli (CLIType_value GEMINI) then Normal (GeminiAgent r t)
  else Throw (Error (unsupported ++ cli)).

(** The agent [createAgent] builds for a member of the enum. *)
Definition agent_of (c : CLIType) (r : DebateRole) (t : option Z) : ICLIAgent :=
  match c with
  | CLAUDE => ClaudeAgent r t
  | CODEX => CodexAgent r t
  | GEMINI => GeminiAgent r t
  end.

End Agents.

(* ===================================================================== *)
(** ** agents/base-agent.ts: [BaseCLIAgent.execute] *)
(* ===================================================================== *)

(** The promise executor of [execute] builds the command line, spawns
    the child process, installs a timer and four event handlers and
    returns. What happens next is decided by the events the runtime
    delivers; each handler is a transition on the variables the closure
    captures. When [spawn] throws, the executor throws with it and the
    promise is rejected. *)
Module Execute.
Import JsString Types Agents.

Inductive event :=
| StdoutData (chunk : string)
| StderrData (chunk : string)
| Close (code : option nat)
| SpawnError (message : string)
| TimerFires.

(** An event and the reading of [Date.now()] while it is handled. *)
Record delivery := { now : Z; what : event }.

Record closure := {
  output_acc : string;
  errorOutput : string;
  resolved : bool;
  (** the timer is pending: neither fired nor cleared *)
  timer_pending : bool;
  (** signals sent with [childProcess.kill] *)
  killed : list string;
  (** chunks handed to [options.onChunk] *)
  chunks : list string;
  (** the arguments of the calls to [resolve], latest first *)
  settled : list AgentExecuteResult
}.


(** After the executor has run: nothing read, timer armed. *)
Definition started : closure :=
  {| output_acc := EmptyString; errorOutput := EmptyString; resolved := false;
     timer_pending := true; killed := []; chunks := []; settled := [] |}.

Definition timeout_error : string := "执行超时".
Definition exit_code_prefix : string := "退出码: ".

(** [`${code}`] for the exit code of a close event. *)
Definition render_code (code : option nat) : string :=
  match code with
  | Some n => decimal n
  | None => "null"
  end.

Definition is_zero_code (code : option nat) : bool :=
  match code with Some O => true | _ => false end.

(** [errorOutput || `退出码: ${code}`] *)
Definition exit_error (errorOutput : string) (code : option nat) : string :=
  if String.eqb errorOutput EmptyString
  then exit_code_prefix ++ render_code code
  else errorOutput.

Definition on_timer (start t : Z) (c : closure) : closure :=
  if resolved c then
    {| output_acc := output_acc c; errorOutput := errorOutput c;
       resolved := resolved c; timer_pending := false; killed := killed c;
       chunks := chunks c; settled := settled c |}
  else
    {| output_acc := output_acc c; errorOutput := errorOutput c;
       resolved := true; timer_pending := false;
       killed := "SIGTERM" :: killed c;
       chunks := chunks c;
       settled := {| success := false; output := output_acc c;
                     error := Some timeout_error;
                     duration := t - start |} :: settled c |}.

Definition on_stdout (chunk : string) (c : closure) : closure :=
  {| output_acc := output_acc c ++ chunk; errorOutput := errorOutput c;
     resolved := resolved c; timer_pending := timer_pending c;
     killed := killed c; chunks := chunk :: chunks c; settled := settled c |}.

Definition on_stderr (chunk : string) (c : closure) : closure :=
  {| output_acc := output_acc c; errorOutput := errorOutput c ++ chunk;
     resolved := resolved c; timer_pending := timer_pending c;
     killed := killed c; chunks := chunks c; settled := settled c |}.

Definition on_close (start t : Z) (code : option nat) (c : closure) : closure :=
  if resolved c then c
  else
    {| output_acc := output_acc c; errorOutput := errorOutput c;
       resolved := true; timer_pending := false; killed := killed c;
       chunks := chunks c;
       settled := {| success := is_zero_code code;
                     output := trim (output_acc c);
                     error := if is_zero_code code then None
                              else Some (exit_error (errorOutput c) code);
                     duration := t - start |} :: settled c |}.

Definition on_error (start t : Z) (message : string) (c : closure) : closure :=
  if resolved c then c
  else
    {| output_acc := output_acc c; errorOutput := errorOutput c;
       resolved := true; timer_pending := false; killed := killed c;
       chunks := chunks c;
       settled := {| success := false; output := EmptyString;
                     error := Some message;
                     duration := t - start |} :: settled c |}.

(** One delivery. The runtime runs the timer callback only while the
    timer is pending. *)
Definition step (start : Z) (c : closure) (d : delivery) : closure :=
  match what d with
  | StdoutData chunk => on_stdout chunk c
  | StderrData chunk => on_stderr chunk c
  | Close code => on_close start (now d) code c
  | SpawnError message => on_error start (now d) message c
  | TimerFires => if timer_pending c then on_timer start (now d) c else c
  end.

Definition deliver (start : Z) (trace : list delivery) : closure :=
  fold_left (step start) trace started.

(** What the handlers make of the promise: the argument of the first
    call to [resolve]. No handler calls a reject function. *)
Definition promise (c : closure) : option AgentExecuteResult :=
  last (map Some (settled c)) None.







(** The standard output and standard error read along a trace. *)
Fixpoint stdout_of (trace : list delivery) : string :=
  match trace with
  | [] => EmptyString
  | d :: r =>
      match what d with
      | StdoutData chunk => chunk ++ stdout_of r
      | _ => stdout_of r
      end
  end.

Fixpoint stderr_of (trace : list delivery) : string :=
  match trace with
  | [] => EmptyString
  | d :: r =>
      match what d with
      | StderrData chunk => chunk ++ stderr_of r
      | _ => stderr_of r
      end
  end.

(** The four outcomes of the contract, for the delivery [d] that settles
    the promise after the deliveries [before]. *)
Inductive outcome (start : Z) (before : list delivery) (d : delivery)
  : AgentExecuteResult -> list string -> Prop :=
| Succeeded :
    what d = Close (Some 0) ->
    outcome start before d
      {| success := true; output := trim (stdout_of before);
         error := None; duration := now d - start |} []
| ExitedNonZero code :
    what d = Close code ->
    code <> Some 0 ->
    outcome start before d
      {| success := false; output := trim (stdout_of before);
         error := Some (if String.eqb (stderr_of before) EmptyString
                        then (exit_code_prefix ++ render_code code)%string
                        else stderr_of before);
         duration := now d - start |} []
| TimedOut :
    what d = TimerFires ->
    outcome start before d
      {| success := false; output := stdout_of before;
         error := Some timeout_error; duration := now d - start |}
      ["SIGTERM"]
| LaunchFailed message :
    what d = SpawnError message ->
    outcome start before d
      {| success := false; output := EmptyString;
         error := Some message; duration := now d - start |} [].

(** A delivery that can settle the promise. *)
Definition settles (d : delivery) : bool :=
  match what d with
  | Close _ | SpawnError _ | TimerFires => true
  | _ => false
  end.

(** What holds of the closure after any trace. While the promise is
    pending the timer is pending and nothing but data was delivered; once
    it is settled, it was settled by one delivery, with the outcome of
    that delivery, and stays so. *)
Inductive invariant (start : Z) (trace : list delivery) (c : closure) : Prop :=
| Pending :
    resolved c = false ->
    timer_pending c = true ->
    settled c = [] ->
    killed c = [] ->
    output_acc c = stdout_of trace ->
    errorOutput c = stderr_of trace ->
    Forall (fun d => settles d = false) trace ->
    invariant start trace c
| Settled before d after r :
    resolved c = true ->
    timer_pending c = false ->
    trace = before ++ d :: after ->
    Forall (fun x => settles x = false) before ->
    settles d = true ->
    settled c = [r] ->
    outcome start before d r (killed c) ->
    invariant start trace c.

End Execute.

(* ===================================================================== *)
(** ** What the orchestrators share: the world, the state, the effects *)
(* ===================================================================== *)

Module Runtime.
Import JsString Types Agents.

(** [DebateMessage] *)
Record DebateMessage := {
  msg_id : string;
  msg_role : DebateRole;
  msg_cliType : CLIType;
  content : string;
  timestamp : Z;
  phase : DebatePhase;
  roundNumber : option nat
}.

(** [DebateEvent]: the event type with the part of [data] that
    identifies it. *)
Inductive DebateEvent :=
| debate_start
| debate_end (status : DebateStatus)
| phase_start (p : DebatePhase)
| phase_end (p : DebatePhase)
| round_start (n : nat)
| round_end (n : nat)
| message_start (r : DebateRole) (c : CLIType)
| message_chunk (chunk : string)
| message_end (id : string)
| error_event (message : string).

(** What a build command's child process does. *)
Inductive build_outcome :=
| BuildClosed (code : option nat) (out : list string) (err : string)
| BuildSpawnError (message : string).

(** The environment of a run. Every consultation is numbered by the
    count of consultations made before it, so that the same agent may
    answer differently each time.
    - [isAvailable a]: the result of the probe [a.isAvailable()];
    - [execute n a prompt]: the chunks handed to [onChunk] while the
      promise of [a.execute({prompt, ...})] is awaited, and the way that
      promise settles, fulfilled ([inl]) or rejected with an error
      message ([inr]). The data handler of [execute] is not guarded by
      its [resolved] flag: the chunks are those of the child of this
      invocation and those that a child of an earlier invocation, whose
      promise its timer has settled, writes in the meantime;
    - [uuidv4 n], [clock n]: a fresh identifier, a reading of the clock;
    - [build n command path]: the fate of the build command, which is
      taken to be spawned and to end. *)
Record World := {
  isAvailable : ICLIAgent -> bool;
  execute : nat -> ICLIAgent -> string -> list string * (AgentExecuteResult + string);
  uuidv4 : nat -> string;
  clock : nat -> Z;
  build : nat -> string -> string -> build_outcome
}.

(** The mutable state of an orchestrator during [run]: its transcript,
    the events delivered to the listeners, the [result] object under
    construction, the prompts handed to executors, and the count of
    consultations of the world. Lists grow at the end. *)
Record state (R : Type) := {
  messages : list DebateMessage;
  events : list DebateEvent;
  invocations : list (ICLIAgent * string);
  consulted : nat;
  result : R
}.
Arguments messages {R} s.
Arguments events {R} s.
Arguments invocations {R} s.
Arguments consulted {R} s.
Arguments result {R} s.

(** An awaited computation either yields a value or throws an [Error]
    with a message. *)
Inductive outcome (A : Type) :=
| Ok (a : A)
| Raise (message : string).
Arguments Ok {A} a.
Arguments Raise {A} message.

Definition M (R A : Type) : Type := state R -> outcome A * state R.

Definition ret {R A} (a : A) : M R A := fun s => (Ok a, s).

Definition bind {R A B} (c : M R A) (k : A -> M R B) : M R B :=
  fun s =>
    match c s with
    | (Ok a, s') => k a s'
    | (Raise m, s') => (Raise m, s')
    end.

Declare Scope run_scope.
Delimit Scope run_scope with run.
Notation "x <- c ;; k" := (bind c (fun x => k))
  (at level 61, c at next level, right associativity) : run_scope.
Notation "c ;; k" := (bind c (fun _ => k))
  (at level 61, right associativity) : run_scope.
Local Open Scope run_scope.

(** [throw new Error(message)] *)
Definition raise {R A} (message : string) : M R A := fun s => (Raise message, s).

(** [try { body } catch (error) { handler(error.message) }] *)
Definition try_catch {R A} (body : M R A) (handler : string -> M R A) : M R A :=
  fun s =>
    match body s with
    | (Ok a, s') => (Ok a, s')
    | (Raise m, s') => handler m s'
    end.

(** [this.emit(type, data)] *)
Definition emit {R} (e : DebateEvent) : M R unit :=
  fun s =>
    (Ok tt, {| messages := messages s; events := events s ++ [e];
               invocations := invocations s; consulted := consulted s;
               result := result s |}).

(** The number of the next consultation of the world. *)
Definition consult {R} : M R nat :=
  fun s =>
    (Ok (consulted s),
     {| messages := messages s; events := events s;
        invocations := invocations s; consulted := S (consulted s);
        result := result s |}).

Definition get_result {R} : M R R := fun s => (Ok (result s), s).

Definition update_result {R} (f : R -> R) : M R unit :=
  fun s =>
    (Ok tt, {| messages := messages s; events := events s;
               invocations := invocations s; consulted := consulted s;
               result := f (result s) |}).

Definition get_messages {R} : M R (list DebateMessage) :=
  fun s => (Ok (messages s), s).

(** [this.messages.push(message)] *)
Definition push_message {R} (m : DebateMessage) : M R unit :=
  fun s =>
    (Ok tt, {| messages := messages s ++ [m]; events := events s;
               invocations := invocations s; consulted := consulted s;
               result := result s |}).

Definition record_invocation {R} (a : ICLIAgent) (prompt : string) : M R unit :=
  fun s =>
    (Ok tt, {| messages := messages s; events := events s;
               invocations := invocations s ++ [(a, prompt)];
               consulted := consulted s; result := result s |}).

Fixpoint for_each {R A} (f : A -> M R unit) (l : list A) : M R unit :=
  match l with
  | [] => ret tt
  | x :: r => f x ;; for_each f r
  end.

Section InWorld.

Variable w : World.

Definition fresh_uuid {R} : M R string := n <- consult ;; ret (uuidv4 w n).

(** [Date.now()], [new Date()] *)
Definition date_now {R} : M R Z := n <- consult ;; ret (clock w n).

(** [await agent.execute({ prompt, onChunk })] with the [onChunk] of the
    orchestrators, which republishes a chunk when streaming is on. The
    chunks are those that arrive while the promise is awaited; what a
    child writes after a timeout has settled its promise arrives later
    (see [received]). *)
Definition await_execute {R} (streaming : bool) (a : ICLIAgent) (prompt : string)
  : M R AgentExecuteResult :=
  n <- consult ;;
  record_invocation a prompt ;;
  let '(streamed, settled) := execute w n a prompt in
  (if streaming then for_each (fun c => emit (message_chunk c)) streamed
   else ret tt) ;;
  match settled with
  | inl r => ret r
  | inr message => raise message
  end.

(** [createMessage]: the message is appended to the transcript. *)
Definition createMessage {R} (r : DebateRole) (c : CLIType) (text : string)
  (p : DebatePhase) (round : option nat) : M R DebateMessage :=
  id <- fresh_uuid ;;
  t <- date_now ;;
  let m := {| msg_id := id; msg_role := r; msg_cliType := c; content := text;
              timestamp := t; phase := p; roundNumber := round |} in
  push_message m ;;
  ret m.

End InWorld.

(** [`${result.error}`] *)
Definition render_error (e : option string) : string :=
  match e with
  | Some m => m
  | None => "undefined"
  end.

(** [errors.join(', ')] *)
Fixpoint join (sep : string) (l : list string) : string :=
  match l with
  | [] => EmptyString
  | [x] => x
  | x :: r => x ++ sep ++ join sep r
  end.

(** The events by which the chunks of an invocation are republished. *)
Definition chunk_events (streaming : bool) (l : list string) : list DebateEvent :=
  if streaming then map message_chunk l else [].


(** A world in which every invocation is fulfilled with a success. *)
Definition all_succeed (w : World) : Prop :=
  forall n a prompt,
    exists streamed r, execute w n a prompt = (streamed, inl r) /\ success r = true.

(** [returns c s P]: from the state [s] the computation [c] completes
    without throwing, with a value and a final state that satisfy [P]. *)
Definition returns {R A} (c : M R A) (s : state R) (P : A -> state R -> Prop) : Prop :=
  exists a s', c s = (Ok a, s') /\ P a s'.

(** The world [w] with another answer to the availability probes. *)
Definition with_probe (w : World) (probe : ICLIAgent -> bool) : World :=
  {| isAvailable := probe; execute := execute w; uuidv4 := uuidv4 w;
     clock := clock w; build := build w |}.

(** The state in which [run] starts. *)
Definition fresh {R} (initial : R) (consultations : nat) : state R :=
  {| messages := []; events := []; invocations := [];
     consulted := consultations; result := initial |}.

End Runtime.

(* ===================================================================== *)
(** ** orchestrator.ts: the debate orchestrator *)
(* ===================================================================== *)

Module Debate.
Import JsString Types Agents Runtime.
Local Open Scope run_scope.

(** [AgentConfig], as far as the orchestrators read it. *)
Record AgentConfig := {
  cfg_cliType : CLIType;
  cfg_timeout : option Z
}.

(** [DebateConfig]. [rounds] counts the iterations of
    [for (let i = 1; i <= rounds; i++)]. *)
Record DebateConfig := {
  topic : string;
  rounds : nat;
  moderator : AgentConfig;
  challenger : AgentConfig;
  defender : AgentConfig;
  streaming : bool
}.

Record RoundResult := {
  round_number : nat;
  challengerMessage : DebateMessage;
  defenderMessage : DebateMessage;
  moderatorEvaluation : DebateMessage;
  round_duration : Z
}.

Record DebateResult := {
  id : string;
  result_topic : string;
  status : DebateStatus;
  opening : option DebateMessage;
  round_results : list RoundResult;
  finalVerdict : option DebateMessage;
  startTime : Z;
  endTime : option Z;
  totalDuration : option Z;
  error : option string
}.

Definition set_status (st : DebateStatus) (r : DebateResult) : DebateResult :=
  {| id := id r; result_topic := result_topic r; status := st;
     opening := opening r; round_results := round_results r;
     finalVerdict := finalVerdict r; startTime := startTime r;
     endTime := endTime r; totalDuration := totalDuration r; error := error r |}.

Definition set_opening (m : DebateMessage) (r : DebateResult) : DebateResult :=
  {| id := id r; result_topic := result_topic r; status := status r;
     opening := Some m; round_results := round_results r;
     finalVerdict := finalVerdict r; startTime := startTime r;
     endTime := endTime r; totalDuration := totalDuration r; error := error r |}.

Definition push_round (x : RoundResult) (r : DebateResult) : DebateResult :=
  {| id := id r; result_topic := result_topic r; status := status r;
     opening := opening r; round_results := round_results r ++ [x];
     finalVerdict := finalVerdict r; startTime := startTime r;
     endTime := endTime r; totalDuration := totalDuration r; error := error r |}.

Definition set_finalVerdict (m : DebateMessage) (r : DebateResult) : DebateResult :=
  {| id := id r; result_topic := result_topic r; status := status r;
     opening := opening r; round_results := round_results r;
     finalVerdict := Some m; startTime := startTime r;
     endTime := endTime r; totalDuration := totalDuration r; error := error r |}.

Definition set_error (m : string) (r : DebateResult) : DebateResult :=
  {| id := id r; result_topic := result_topic r; status := status r;
     opening := opening r; round_results := round_results r;
     finalVerdict := finalVerdict r; startTime := startTime r;
     endTime := endTime r; totalDuration := totalDuration r; error := Some m |}.

Definition set_endTime (t : Z) (r : DebateResult) : DebateResult :=
  {| id := id r; result_topic := result_topic r; status := status r;
     opening := opening r; round_results := round_results r;
     finalVerdict := finalVerdict r; startTime := startTime r;
     endTime := Some t; totalDuration := Some (t - startTime r)%Z; error := error r |}.

Section Orchestrator.

Variable w : World.
Variable config : DebateConfig.

(** prompts.ts *)
Variable getModeratorOpeningPrompt : string -> string.
Variable getChallengerPrompt : string -> nat -> list DebateMessage -> string.
Variable getDefenderPrompt : string -> nat -> list DebateMessage -> string.
Variable getModeratorEvaluationPrompt : string -> nat -> list DebateMessage -> string.
Variable getModeratorFinalVerdictPrompt : string -> list DebateMessage -> string.

(** The three agents the constructor creates. *)
Definition the_moderator : ICLIAgent :=
  agent_of (cfg_cliType (moderator config)) MODERATOR (cfg_timeout (moderator config)).
Definition the_challenger : ICLIAgent :=
  agent_of (cfg_cliType (challenger config)) CHALLENGER (cfg_timeout (challenger config)).
Definition the_defender : ICLIAgent :=
  agent_of (cfg_cliType (defender config)) DEFENDER (cfg_timeout (defender config)).

Definition unavailable (label : string) (c : AgentConfig) : string :=
  label ++ " CLI (" ++ CLIType_value (cfg_cliType c) ++ ") 不可用".

(** [checkAgentsAvailable] *)
Definition checkAgentsAvailable : bool * list string :=
  let errors :=
    (if isAvailable w the_moderator then []
     else [unavailable "主持人" (moderator config)])
    ++ (if isAvailable w the_challenger then []
        else [unavailable "挑战者" (challenger config)])
    ++ (if isAvailable w the_defender then []
        else [unavailable "辩护者" (defender config)]) in
  (Nat.eqb (List.length errors) 0, errors).

(** [executeOpening] *)
Definition executeOpening : M DebateResult DebateMessage :=
  emit (phase_start OPENING) ;;
  let prompt := getModeratorOpeningPrompt (topic config) in
  emit (message_start MODERATOR (cfg_cliType (moderator config))) ;;
  r <- await_execute w (streaming config) the_moderator prompt ;;
  if negb (success r) then raise ("主持人开场失败: " ++ render_error (Types.error r))
  else
    message <- createMessage w MODERATOR (cfg_cliType (moderator config))
                 (output r) OPENING None ;;
    emit (message_end (msg_id message)) ;;
    emit (phase_end OPENING) ;;
    ret message.

(** [executeRound] *)
Definition executeRound (n : nat) : M DebateResult RoundResult :=
  started <- date_now w ;;
  emit (round_start n) ;;
  history <- get_messages ;;
  let challengerPrompt := getChallengerPrompt (topic config) n history in
  emit (message_start CHALLENGER (cfg_cliType (challenger config))) ;;
  challengerResult <- await_execute w (streaming config) the_challenger challengerPrompt ;;
  if negb (success challengerResult)
  then raise ("挑战者质疑失败: " ++ render_error (Types.error challengerResult))
  else
    challengerMsg <- createMessage w CHALLENGER (cfg_cliType (challenger config))
                       (output challengerResult) ROUND (Some n) ;;
    emit (message_end (msg_id challengerMsg)) ;;
    history <- get_messages ;;
    let defenderPrompt := getDefenderPrompt (topic config) n history in
    emit (message_start DEFENDER (cfg_cliType (defender config))) ;;
    defenderResult <- await_execute w (streaming config) the_defender defenderPrompt ;;
    if negb (success defenderResult)
    then raise ("辩护者回应失败: " ++ render_error (Types.error defenderResult))
    else
      defenderMsg <- createMessage w DEFENDER (cfg_cliType (defender config))
                       (output defenderResult) ROUND (Some n) ;;
      emit (message_end (msg_id defenderMsg)) ;;
      history <- get_messages ;;
      let evaluationPrompt := getModeratorEvaluationPrompt (topic config) n history in
      emit (message_start MODERATOR (cfg_cliType (moderator config))) ;;
      evaluationResult <- await_execute w (streaming config) the_moderator evaluationPrompt ;;
      if negb (success evaluationResult)
      then raise ("主持人评估失败: " ++ render_error (Types.error evaluationResult))
      else
        evaluation <- createMessage w MODERATOR (cfg_cliType (moderator config))
                        (output evaluationResult) ROUND (Some n) ;;
        emit (message_end (msg_id evaluation)) ;;
        finished <- date_now w ;;
        let roundResult :=
          {| round_number := n; challengerMessage := challengerMsg;
             defenderMessage := defenderMsg; moderatorEvaluation := evaluation;
             round_duration := (finished - started)%Z |} in
        emit (round_end n) ;;
        ret roundResult.

(** [executeFinalVerdict] *)
Definition executeFinalVerdict : M DebateResult DebateMessage :=
  emit (phase_start FINAL) ;;
  history <- get_messages ;;
  let prompt := getModeratorFinalVerdictPrompt (topic config) history in
  emit (message_start MODERATOR (cfg_cliType (moderator config))) ;;
  r <- await_execute w (streaming config) the_moderator prompt ;;
  if negb (success r) then raise ("最终裁决失败: " ++ render_error (Types.error r))
  else
    message <- createMessage w MODERATOR (cfg_cliType (moderator config))
                 (output r) FINAL None ;;
    emit (message_end (msg_id message)) ;;
    emit (phase_end FINAL) ;;
    ret message.

(** [for (let i = i0; i <= rounds; i++)], with [remaining] iterations
    to go. *)
Fixpoint rounds_from (i remaining : nat) : M DebateResult unit :=
  match remaining with
  | O => ret tt
  | S k =>
      roundResult <- executeRound i ;;
      update_result (push_round roundResult) ;;
      rounds_from (S i) k
  end.

(** The [try] block of [run]. *)
Definition run_try : M DebateResult DebateResult :=
  let '(available, errors) := checkAgentsAvailable in
  if negb available then raise ("Agent 不可用: " ++ join ", " errors)
  else
    update_result (set_status IN_PROGRESS) ;;
    emit debate_start ;;
    o <- executeOpening ;;
    update_result (set_opening o) ;;
    rounds_from 1 (rounds config) ;;
    f <- executeFinalVerdict ;;
    update_result (set_finalVerdict f) ;;
    update_result (set_status COMPLETED) ;;
    t <- date_now w ;;
    update_result (set_endTime t) ;;
    r <- get_result ;;
    emit (debate_end (status r)) ;;
    ret r.

(** The [catch] block of [run]. *)
Definition run_catch (message : string) : M DebateResult DebateResult :=
  update_result (set_status FAILED) ;;
  update_result (set_error message) ;;
  t <- date_now w ;;
  update_result (set_endTime t) ;;
  emit (error_event message) ;;
  r <- get_result ;;
  emit (debate_end (status r)) ;;
  ret r.

(** [run]: the returned result together with the final state of the
    orchestrator (transcript, events, invocations). *)
Definition run : outcome DebateResult * state DebateResult :=
  let debateId := uuidv4 w 0 in
  let start := clock w 1 in
  try_catch run_try run_catch
    (fresh {| id := debateId; result_topic := topic config; status := PENDING;
              opening := None; round_results := []; finalVerdict := None;
              startTime := start; endTime := None; totalDuration := None;
              error := None |} 2).

End Orchestrator.

(** The messages of a round, in the order they are created. *)
Definition round_messages (r : RoundResult) : list DebateMessage :=
  [challengerMessage r; defenderMessage r; moderatorEvaluation r].

(** The round result of round [n] holds the three messages of round
    [n]: challenger, defender, moderator. *)
Definition round_of (n : nat) (r : RoundResult) : Prop :=
  round_number r = n
  /\ Forall (fun m => phase m = ROUND /\ roundNumber m = Some n) (round_messages r)
  /\ map msg_role (round_messages r) = [CHALLENGER; DEFENDER; MODERATOR].

End Debate.

(* ===================================================================== *)
(** ** code-review.ts: the code-review orchestrator *)
(* ===================================================================== *)

Module CodeReview.
Import JsString Js Types Agents Runtime.
Local Open Scope run_scope.

Definition AgentConfig := Debate.AgentConfig.
Definition cfg_cliType := Debate.cfg_cliType.
Definition cfg_timeout := Debate.cfg_timeout.

(** [CodeReviewConfig] *)
Record CodeReviewConfig := {
  path : string;
  focus : option (list IssueType);
  buildCommand : option string;
  autoFix : bool;
  challenger : AgentConfig;
  defender : AgentConfig;
  moderator : AgentConfig;
  fixers : option (list AgentConfig);
  streaming : bool
}.

Record BuildCheckResult := {
  build_success : bool;
  build_command : string;
  build_output : string;
  build_errors : option (list string);
  build_duration : Z
}.

Inductive FixStatus := pending | in_progress | completed | failed.

(** [FixTask] *)
Record FixTask := {
  task_id : string;
  task_issue : CodeIssue;
  assignedCLI : CLIType;
  task_status : FixStatus;
  task_result : option string;
  task_duration : option Z
}.

(** [CodeReviewResult] *)
Record CodeReviewResult := {
  id : string;
  result_path : string;
  status : DebateStatus;
  buildCheck : option BuildCheckResult;
  issues : list CodeIssue;
  defenseResponses : option (list DebateMessage);
  verdict : option DebateMessage;
  fixTasks : option (list FixTask);
  startTime : Z;
  endTime : option Z;
  totalDuration : option Z;
  error : option string
}.

Definition set_status (st : DebateStatus) (r : CodeReviewResult) : CodeReviewResult :=
  {| id := id r; result_path := result_path r; status := st;
     buildCheck := buildCheck r; issues := issues r;
     defenseResponses := defenseResponses r; verdict := verdict r;
     fixTasks := fixTasks r; startTime := startTime r; endTime := endTime r;
     totalDuration := totalDuration r; error := error r |}.

Definition set_buildCheck (b : BuildCheckResult) (r : CodeReviewResult) : CodeReviewResult :=
  {| id := id r; result_path := result_path r; status := status r;
     buildCheck := Some b; issues := issues r;
     defenseResponses := defenseResponses r; verdict := verdict r;
     fixTasks := fixTasks r; startTime := startTime r; endTime := endTime r;
     totalDuration := totalDuration r; error := error r |}.

Definition set_issues (l : list CodeIssue) (r : CodeReviewResult) : CodeReviewResult :=
  {| id := id r; result_path := result_path r; status := status r;
     buildCheck := buildCheck r; issues := l;
     defenseResponses := defenseResponses r; verdict := verdict r;
     fixTasks := fixTasks r; startTime := startTime r; endTime := endTime r;
     totalDuration := totalDuration r; error := error r |}.

Definition set_defenseResponses (l : list DebateMessage) (r : CodeReviewResult)
  : CodeReviewResult :=
  {| id := id r; result_path := result_path r; status := status r;
     buildCheck := buildCheck r; issues := issues r;
     defenseResponses := Some l; verdict := verdict r;
     fixTasks := fixTasks r; startTime := startTime r; endTime := endTime r;
     totalDuration := totalDuration r; error := error r |}.

Definition set_verdict (m : DebateMessage) (r : CodeReviewResult) : CodeReviewResult :=
  {| id := id r; result_path := result_path r; status := status r;
     buildCheck := buildCheck r; issues := issues r;
     defenseResponses := defenseResponses r; verdict := Some m;
     fixTasks := fixTasks r; startTime := startTime r; endTime := endTime r;
     totalDuration := totalDuration r; error := error r |}.

Definition set_fixTasks (l : list FixTask) (r : CodeReviewResult) : CodeReviewResult :=
  {| id := id r; result_path := result_path r; status := status r;
     buildCheck := buildCheck r; issues := issues r;
     defenseResponses := defenseResponses r; verdict := verdict r;
     fixTasks := Some l; startTime := startTime r; endTime := endTime r;
     totalDuration := totalDuration r; error := error r |}.

Definition set_error (m : string) (r : CodeReviewResult) : CodeReviewResult :=
  {| id := id r; result_path := result_path r; status := status r;
     buildCheck := buildCheck r; issues := issues r;
     defenseResponses := defenseResponses r; verdict := verdict r;
     fixTasks := fixTasks r; startTime := startTime r; endTime := endTime r;
     totalDuration := totalDuration r; error := Some m |}.

Definition set_endTime (t : Z) (r : CodeReviewResult) : CodeReviewResult :=
  {| id := id r; result_path := result_path r; status := status r;
     buildCheck := buildCheck r; issues := issues r;
     defenseResponses := defenseResponses r; verdict := verdict r;
     fixTasks := fixTasks r; startTime := startTime r; endTime := Some t;
     totalDuration := Some (t - startTime r)%Z; error := error r |}.

(** [this.fixers]: a [Map] from backend to agent, in insertion order. *)
Definition FixerMap := list (CLIType * ICLIAgent).

Fixpoint fixers_get (m : FixerMap) (c : CLIType) : option ICLIAgent :=
  match m with
  | [] => None
  | (k, a) :: r => if CLIType_eqb c k then Some a else fixers_get r c
  end.

Definition fixers_has (m : FixerMap) (c : CLIType) : bool :=
  match fixers_get m c with Some _ => true | None => false end.

(** The part of the constructor that fills [this.fixers]. *)
Definition configured_fixers (l : list AgentConfig) : FixerMap :=
  fold_left
    (fun m fixer =>
       if fixers_has m (cfg_cliType fixer) then m
       else m ++ [(cfg_cliType fixer,
                   agent_of (cfg_cliType fixer) DEFENDER (cfg_timeout fixer))])
    l [].

Definition default_fixers : FixerMap :=
  [ (CLAUDE, agent_of CLAUDE DEFENDER None);
    (CODEX, agent_of CODEX DEFENDER None);
    (GEMINI, agent_of GEMINI DEFENDER None) ].

Definition make_fixers (config : CodeReviewConfig) : FixerMap :=
  let m := match fixers config with
           | Some l => configured_fixers l
           | None => []
           end in
  if Nat.eqb (List.length m) 0 then default_fixers else m.

(** Keys of [issuesByCliType]: what [issue.assignedTo || CLIType.CLAUDE]
    yields. Two keys are the same key when they are the same enum string
    or the same inherited object. *)
Definition fix_key (issue : CodeIssue) : looked_up CLIType :=
  match issue_assignedTo issue with
  | Some k => k
  | None => Member CLAUDE
  end.

Definition key_eqb (a b : looked_up CLIType) : bool :=
  match a, b with
  | Member x, Member y => CLIType_eqb x y
  | Inherited n, Inherited m => String.eqb n m
  | _, _ => false
  end.

(** [if (!map.has(cli)) map.set(cli, []); map.get(cli).push(issue)] *)
Fixpoint group_push (k : looked_up CLIType) (issue : CodeIssue)
  (groups : list (looked_up CLIType * list CodeIssue))
  : list (looked_up CLIType * list CodeIssue) :=
  match groups with
  | [] => [(k, [issue])]
  | (k', l) :: r =>
      if key_eqb k k' then (k', l ++ [issue]) :: r
      else (k', l) :: group_push k issue r
  end.

Definition issuesByCliType (l : list CodeIssue)
  : list (looked_up CLIType * list CodeIssue) :=
  fold_left (fun groups issue => group_push (fix_key issue) issue groups) l [].

(** [this.fixers.get(cliType)]: an inherited object is no key of the map. *)
Definition fixer_for (m : FixerMap) (k : looked_up CLIType)
  : option (CLIType * ICLIAgent) :=
  match k with
  | Member c =>
      match fixers_get m c with
      | Some a => Some (c, a)
      | None => None
      end
  | Inherited _ => None
  end.

(** The calls [this.executeFixTask(fixer, cliType, issue)] made by the two
    nested loops, in the order they are made. *)
Definition planned_tasks (m : FixerMap) (l : list CodeIssue)
  : list (ICLIAgent * CLIType * CodeIssue) :=
  flat_map
    (fun group =>
       match fixer_for m (fst group) with
       | None => []
       | Some (c, fixer) => map (fun issue => (fixer, c, issue)) (snd group)
       end)
    (issuesByCliType l).

(** [text.split('\n').filter(Boolean)] *)
Fixpoint split_lines (s : string) (line : string) : list string :=
  match s with
  | EmptyString => [line]
  | String c r =>
      if Ascii.eqb c (ascii_of_nat 10) then line :: split_lines r EmptyString
      else split_lines r (line ++ String c EmptyString)
  end.

Definition nonempty_lines (s : string) : list string :=
  filter (fun l => negb (String.eqb l EmptyString)) (split_lines s EmptyString).

Section Orchestrator.

Variable JSON_parse : string -> option value.
Variable w : World.
Variable config : CodeReviewConfig.

(** prompts.ts *)
Variable getCodeReviewChallengerPrompt : string -> option (list IssueType) -> string.
Variable getCodeReviewDefenderPrompt : string -> list CodeIssue -> string.
Variable getCodeReviewVerdictPrompt : string -> list CodeIssue -> string -> string.
Variable getFixTaskPrompt : CodeIssue -> string -> string.

Definition the_challenger : ICLIAgent :=
  agent_of (cfg_cliType (challenger config)) CHALLENGER (cfg_timeout (challenger config)).
Definition the_defender : ICLIAgent :=
  agent_of (cfg_cliType (defender config)) DEFENDER (cfg_timeout (defender config)).
Definition the_moderator : ICLIAgent :=
  agent_of (cfg_cliType (moderator config)) MODERATOR (cfg_timeout (moderator config)).
Definition the_fixers : FixerMap := make_fixers config.

(** [executeBuildCheck]. The promise resolves on [close], after the
    phase-end event, or on [error]. After a failed spawn Node emits
    [close] directly after [error]: the close handler, which is not
    guarded, reads the clock and publishes the end of the phase before
    [run] goes on; its call of [resolve] comes second and has no effect.
    [spawn] is taken to return a child process. *)
Definition executeBuildCheck : M CodeReviewResult BuildCheckResult :=
  emit (phase_start BUILD_CHECK) ;;
  let command := match buildCommand config with
                 | Some c => if String.eqb c EmptyString then "npm run build" else c
                 | None => "npm run build"
                 end in
  started <- date_now w ;;
  n <- consult ;;
  match build w n command (path config) with
  | BuildClosed code out err =>
      (if streaming config then for_each (fun c => emit (message_chunk c)) out
       else ret tt) ;;
      finished <- date_now w ;;
      let r := {| build_success := Execute.is_zero_code code;
                  build_command := command;
                  build_output := String.concat EmptyString out ++ err;
                  build_errors := if Execute.is_zero_code code then None
                                  else Some (nonempty_lines err);
                  build_duration := (finished - started)%Z |} in
      emit (phase_end BUILD_CHECK) ;;
      ret r
  | BuildSpawnError message =>
      finished <- date_now w ;;
      let r := {| build_success := false; build_command := command;
                  build_output := EmptyString; build_errors := Some [message];
                  build_duration := (finished - started)%Z |} in
      _ <- date_now w ;;
      emit (phase_end BUILD_CHECK) ;;
      ret r
  end.

(** [executeChallengerAnalysis] *)
Definition executeChallengerAnalysis : M CodeReviewResult (list CodeIssue) :=
  emit (phase_start CODE_ANALYSIS) ;;
  let prompt := getCodeReviewChallengerPrompt (path config) (focus config) in
  emit (message_start CHALLENGER (cfg_cliType (challenger config))) ;;
  r <- await_execute w (streaming config) the_challenger prompt ;;
  if negb (success r) then raise ("挑战者分析失败: " ++ render_error (Types.error r))
  else
    let found := Parsing.parseIssuesFromOutput JSON_parse (output r) in
    message <- createMessage w CHALLENGER (cfg_cliType (challenger config))
                 (output r) CODE_ANALYSIS None ;;
    emit (message_end (msg_id message)) ;;
    emit (phase_end CODE_ANALYSIS) ;;
    ret found.

(** [executeDefenderResponse] *)
Definition executeDefenderResponse (l : list CodeIssue)
  : M CodeReviewResult DebateMessage :=
  emit (phase_start ISSUE_DEFENSE) ;;
  let prompt := getCodeReviewDefenderPrompt (path config) l in
  emit (message_start DEFENDER (cfg_cliType (defender config))) ;;
  r <- await_execute w (streaming config) the_defender prompt ;;
  if negb (success r) then raise ("辩护者回应失败: " ++ render_error (Types.error r))
  else
    message <- createMessage w DEFENDER (cfg_cliType (defender config))
                 (output r) ISSUE_DEFENSE None ;;
    emit (message_end (msg_id message)) ;;
    emit (phase_end ISSUE_DEFENSE) ;;
    ret message.

(** [executeModeratorVerdict] *)
Definition executeModeratorVerdict (l : list CodeIssue) (defenseResponse : string)
  : M CodeReviewResult (DebateMessage * list CodeIssue) :=
  emit (phase_start VERDICT_ASSIGNMENT) ;;
  let prompt := getCodeReviewVerdictPrompt (path config) l defenseResponse in
  emit (message_start MODERATOR (cfg_cliType (moderator config))) ;;
  r <- await_execute w (streaming config) the_moderator prompt ;;
  if negb (success r) then raise ("主持人裁决失败: " ++ render_error (Types.error r))
  else
    message <- createMessage w MODERATOR (cfg_cliType (moderator config))
                 (output r) VERDICT_ASSIGNMENT None ;;
    let confirmedIssues := Parsing.parseVerdictAndAssign JSON_parse (output r) l in
    emit (message_end (msg_id message)) ;;
    emit (phase_end VERDICT_ASSIGNMENT) ;;
    ret (message, confirmedIssues).

(** A fix task between its start and the settling of its executor. *)
Record running := {
  run_task : FixTask;
  run_started : Z;
  run_streamed : list string;
  run_settled : AgentExecuteResult + string
}.

(** [executeFixTask] up to its [await]: the task object is created in
    progress, the start event is emitted and the fixer is invoked. *)
Definition start_fix (plan : ICLIAgent * CLIType * CodeIssue)
  : M CodeReviewResult running :=
  let '(fixer, cli, issue) := plan in
  taskId <- fresh_uuid w ;;
  started <- date_now w ;;
  emit (message_start DEFENDER cli) ;;
  let prompt := getFixTaskPrompt issue (path config) in
  n <- consult ;;
  record_invocation fixer prompt ;;
  let '(streamed, settled) := execute w n fixer prompt in
  ret {| run_task := {| task_id := taskId; task_issue := issue; assignedCLI := cli;
                        task_status := in_progress; task_result := None;
                        task_duration := None |};
         run_started := started; run_streamed := streamed;
         run_settled := settled |}.

(** [executeFixTask] from its [await] on: the [try] fills the task from
    the result, the [catch] from the error. *)
Definition finish_fix (r : running) : M CodeReviewResult FixTask :=
  (if streaming config then for_each (fun c => emit (message_chunk c)) (run_streamed r)
   else ret tt) ;;
  finished <- date_now w ;;
  let t := run_task r in
  match run_settled r with
  | inl res =>
      emit (message_end (task_id t)) ;;
      ret {| task_id := task_id t; task_issue := task_issue t;
             assignedCLI := assignedCLI t;
             task_status := if success res then completed else failed;
             task_result := Some (output res);
             task_duration := Some (finished - run_started r)%Z |}
  | inr message =>
      ret {| task_id := task_id t; task_issue := task_issue t;
             assignedCLI := assignedCLI t;
             task_status := failed;
             task_result := Some message;
             task_duration := Some (finished - run_started r)%Z |}
  end.

Fixpoint traverse {A B} (f : A -> M CodeReviewResult B) (l : list A)
  : M CodeReviewResult (list B) :=
  match l with
  | [] => ret []
  | x :: r => y <- f x ;; ys <- traverse f r ;; ret (y :: ys)
  end.

(** [executeParallelFix]. The loops start every task; [Promise.all]
    waits for all of them and keeps the order of the calls. The tasks
    are taken to settle in the order they were started: each task reads
    only its own executor's result, so another order changes clock
    readings and the order of events, nothing else. *)
Definition executeParallelFix (l : list CodeIssue) : M CodeReviewResult (list FixTask) :=
  if negb (autoFix config) || Nat.eqb (List.length l) 0 then ret []
  else
    emit (phase_start PARALLEL_FIX) ;;
    started <- traverse start_fix (planned_tasks the_fixers l) ;;
    tasks <- traverse finish_fix started ;;
    emit (phase_end PARALLEL_FIX) ;;
    ret tasks.

(** Phase 0 of [run]: [if (this.config.buildCommand) { ... }]. A failed
    build publishes an error event and the run goes on. *)
Definition build_phase : M CodeReviewResult unit :=
  match buildCommand config with
  | Some c =>
      if String.eqb c EmptyString then ret tt
      else
        b <- executeBuildCheck ;;
        update_result (set_buildCheck b) ;;
        if negb (build_success b) then emit (error_event "构建失败") else ret tt
  | None => ret tt
  end.

(** The [try] block of [run]. *)
Definition run_try : M CodeReviewResult CodeReviewResult :=
  update_result (set_status IN_PROGRESS) ;;
  emit debate_start ;;
  build_phase ;;
  found <- executeChallengerAnalysis ;;
  update_result (set_issues found) ;;
  if Nat.eqb (List.length found) 0 then
    update_result (set_status COMPLETED) ;;
    t <- date_now w ;;
    update_result (set_endTime t) ;;
    r <- get_result ;;
    emit (debate_end (status r)) ;;
    ret r
  else
    defenseMessage <- executeDefenderResponse found ;;
    update_result (set_defenseResponses [defenseMessage]) ;;
    vc <- executeModeratorVerdict found (content defenseMessage) ;;
    update_result (set_verdict (fst vc)) ;;
    update_result (set_issues (snd vc)) ;;
    (if autoFix config && negb (Nat.eqb (List.length (snd vc)) 0) then
       tasks <- executeParallelFix (snd vc) ;;
       update_result (set_fixTasks tasks)
     else ret tt) ;;
    update_result (set_status COMPLETED) ;;
    t <- date_now w ;;
    update_result (set_endTime t) ;;
    r <- get_result ;;
    emit (debate_end (status r)) ;;
    ret r.

(** The [catch] block of [run]. *)
Definition run_catch (message : string) : M CodeReviewResult CodeReviewResult :=
  update_result (set_status FAILED) ;;
  update_result (set_error message) ;;
  t <- date_now w ;;
  update_result (set_endTime t) ;;
  emit (error_event message) ;;
  r <- get_result ;;
  emit (debate_end (status r)) ;;
  ret r.

Definition run : outcome CodeReviewResult * state CodeReviewResult :=
  let reviewId := uuidv4 w 0 in
  let start := clock w 1 in
  try_catch run_try run_catch
    (fresh {| id := reviewId; result_path := path config; status := PENDING;
              buildCheck := None; issues := []; defenseResponses := None;
              verdict := None; fixTasks := None; startTime := start;
              endTime := None; totalDuration := None; error := None |} 2).

End Orchestrator.

(** The backend an issue is to be fixed by has a fixer in the map. *)
Definition has_fixer (m : FixerMap) (issue : CodeIssue) : bool :=
  match fixer_for m (fix_key issue) with
  | Some _ => true
  | None => false
  end.

(** The issues of the groups that have a fixer, group after group. *)
Definition served (m : FixerMap) (groups : list (looked_up CLIType * list CodeIssue))
  : list CodeIssue :=
  flat_map (fun g => match fixer_for m (fst g) with
                     | Some _ => snd g
                     | None => []
                     end) groups.

(** What the fan-out leaves alone: the transcript and the result. *)
Definition untouched (s s' : state CodeReviewResult) : Prop :=
  messages s' = messages s /\ result s' = result s.

(** A started task is in progress and holds the way its own invocation
    settles. *)
Definition started_for (w : World) (config : CodeReviewConfig)
  (getFixTaskPrompt : CodeIssue -> string -> string)
  (plan : ICLIAgent * CLIType * CodeIssue) (r : running) : Prop :=
  let '(fixer, c, issue) := plan in
  task_issue (run_task r) = issue
  /\ assignedCLI (run_task r) = c
  /\ task_status (run_task r) = in_progress
  /\ exists n, run_settled r
               = snd (execute w n fixer (getFixTaskPrompt issue (path config))).

(** Two results that differ at most in their build check. *)
Definition besides_build (r r' : CodeReviewResult) : Prop :=
  id r' = id r /\ result_path r' = result_path r /\ status r' = status r
  /\ issues r' = issues r /\ defenseResponses r' = defenseResponses r
  /\ verdict r' = verdict r /\ fixTasks r' = fixTasks r
  /\ startTime r' = startTime r /\ error r' = error r.

(** The task [t] is terminal and records how the promise [settled] of
    its own executor settled: completed or failed by the success flag,
    with the output as result; failed with the message of a rejection. *)
Definition records (t : FixTask) (settled : AgentExecuteResult + string) : Prop :=
  task_duration t <> None
  /\ match settled with
     | inl res =>
         task_status t = (if success res then completed else failed)
         /\ task_result t = Some (output res)
     | inr message =>
         task_status t = failed /\ task_result t = Some message
     end.

(** The task [t] was run by the fixer of the backend its issue is
    assigned to, on the prompt of its issue, and records what became of
    that invocation, whatever became of the others. *)
Definition settled_on_its_own (w : World) (config : CodeReviewConfig)
  (getFixTaskPrompt : CodeIssue -> string -> string) (t : FixTask) : Prop :=
  exists n fixer,
    fix_key (task_issue t) = Member (assignedCLI t)
    /\ fixers_get (make_fixers config) (assignedCLI t) = Some fixer
    /\ records t (snd (execute w n fixer
                         (getFixTaskPrompt (task_issue t) (path config)))).

End CodeReview.

(* ===================================================================== *)
(** ** What the parsing layer is expected to do *)
(* ===================================================================== *)

(** The notions the statements about the parsing layer are phrased in.
    They follow the wording of the contract, not the code. *)
Module ParsingContract.
Import JsString Js Fence Types.

Fixpoint ends_with_char (c : ascii) (s : string) : bool :=
  match s with
  | EmptyString => false
  | String a EmptyString => Ascii.eqb a c
  | String _ r => ends_with_char c r
  end.

(** The text of a JSON object: from its opening to its closing brace. *)
Definition object_text (s : string) : bool :=
  starts_with "{" s && ends_with_char "}" s.

(** [c] is one of the bytes of [s]. *)
Fixpoint has_byte (c : ascii) (s : string) : bool :=
  match s with
  | EmptyString => false
  | String a r => Ascii.eqb c a || has_byte c r
  end.

(** A byte that occurs in no white-space character. *)
Definition solid_byte (c : ascii) : bool :=
  forallb (fun w => negb (has_byte c w)) white_space.

(** No triple back-quote begins within [s]: none lies in [s], and none
    begins at the end of [s] when back-quotes follow. *)
Definition fence_free (s : string) : bool :=
  negb (contains fence (s ++ "``")).

(** The member of each enum that a name denotes. *)
Definition type_named (name : string) : option IssueType :=
  find (fun t => String.eqb name (IssueType_value t))
       [BUG; SECURITY; PERFORMANCE; DESIGN].

Definition severity_named (name : string) : option IssueSeverity :=
  find (fun s => String.eqb name (IssueSeverity_value s))
       [CRITICAL; HIGH; MEDIUM; LOW].

Definition backend_named (name : string) : option CLIType :=
  find (fun c => String.eqb name (CLIType_value c)) [CLAUDE; CODEX; GEMINI].

(** The type and severity an issue object of a payload declares, the
    names read without regard to case. *)
Definition declared (item : value) : option (IssueType * IssueSeverity) :=
  match item with
  | VObject props =>
      match assoc "type" props, assoc "severity" props with
      | Some (VString t), Some (VString s) =>
          match type_named (toLowerCase t), severity_named (toLowerCase s) with
          | Some t', Some s' => Some (t', s')
          | _, _ => None
          end
      | _, _ => None
      end
  | _ => None
  end.

(** The identifier of the issue at position [i] (from zero). *)
Definition generated_id (i : nat) : string := "issue-" ++ decimal (i + 1).

(** An entry of [confirmedIssues] refers to the issue [id]. *)
Definition refers_to (id : string) (entry : value) : bool :=
  match entry with
  | VObject props =>
      match assoc "issueId" props with
      | Some v => strict_eq_string v id
      | None => false
      end
  | _ => false
  end.

(** The entry that decides an issue: the first that refers to it. *)
Definition deciding_entry (entries : list value) (id : string) : option value :=
  find (refers_to id) entries.

Definition marked_confirmed (entry : value) : bool :=
  match entry with
  | VObject props =>
      match assoc "confirmed" props with
      | Some v => truthy v
      | None => false
      end
  | _ => false
  end.

(** The backend an entry assigns: the one its [assignTo] names, read
    without regard to case, and claude when it names none. *)
Definition assigned_backend (entry : value) : CLIType :=
  match entry with
  | VObject props =>
      match assoc "assignTo" props with
      | Some (VString s) =>
          match backend_named (toLowerCase s) with
          | Some c => c
          | None => CLAUDE
          end
      | _ => CLAUDE
      end
  | _ => CLAUDE
  end.

(** The issues a verdict keeps, each with its assignment. *)
Definition verdict_kept (entries : list value) (issues : list CodeIssue)
  : list CodeIssue :=
  flat_map
    (fun issue =>
       match deciding_entry entries (issue_id issue) with
       | Some entry =>
           if marked_confirmed entry
           then [with_assignedTo issue (Member (assigned_backend entry))]
           else []
       | None => []
       end)
    issues.

(** An entry the matching loop can read: not [null], and its [assignTo]
    absent, [null], or a string that is not, in lower case, a name that
    every object inherits. *)
Definition readable_entry (entry : value) : bool :=
  match entry with
  | VUndefined | VNull => false
  | VObject props =>
      match assoc "assignTo" props with
      | None | Some VUndefined | Some VNull => true
      | Some (VString s) => negb (inherited (toLowerCase s))
      | Some _ => false
      end
  | _ => true
  end.

(** An [assignTo] that cannot be lowered: present, and neither [null]
    nor a string. *)
Definition unusable_assignee (entry : value) : bool :=
  match entry with
  | VObject props =>
      match assoc "assignTo" props with
      | None | Some VUndefined | Some VNull | Some (VString _) => false
      | Some _ => true
      end
  | _ => false
  end.

(** Reading the entries on behalf of the issue [id] throws: the search
    for an entry that refers to [id] meets a [null] entry first, or the
    entry it finds is marked confirmed and its [assignTo] is unusable. *)
Fixpoint reading_throws (entries : list value) (id : string) : bool :=
  match entries with
  | [] => false
  | VNull :: _ | VUndefined :: _ => true
  | e :: r =>
      if refers_to id e then marked_confirmed e && unusable_assignee e
      else reading_throws r id
  end.

(** An issue to which some entry with [confirmed] equal to [true]
    refers. *)
Definition referenced_confirmed (entries : list value) (issue : CodeIssue) : bool :=
  existsb
    (fun entry =>
       refers_to (issue_id issue) entry
       && match entry with
          | VObject props =>
              match assoc "confirmed" props with
              | Some (VBool true) => true
              | _ => false
              end
          | _ => false
          end)
    entries.

End ParsingContract.

(* ===================================================================== *)
(** ** Worked inputs *)
(* ===================================================================== *)

Module Samples.
Import JsString Js Fence Types Json Execute.
Local Open Scope string_scope.

Definition nl : string := String (ascii_of_nat 10) EmptyString.

(** A challenger's answer: prose, a fenced payload of two issues, prose. *)
Definition review_pre : string := "Two problems found." ++ nl.

Definition review_body : string :=
  dq "{'issues':[{'type':'Security','severity':'HIGH','description':'query built by concatenation','filePath':'db.ts','lineNumber':12,'id':'first'},{'type':'design','severity':'low','description':'duplicated helper'}]}".

Definition review_post : string := nl ++ "End of review.".

Definition review_output : string :=
  review_pre ++ fence_json ++ nl ++ review_body ++ nl ++ fence ++ review_post.

Definition review_items : list value :=
  [ VObject [ ("type", VString "Security"); ("severity", VString "HIGH");
              ("description", VString "query built by concatenation");
              ("filePath", VString "db.ts");
              ("lineNumber", VNumber {| mantissa := 12; exponent10 := 0 |});
              ("id", VString "first") ];
    VObject [ ("type", VString "design"); ("severity", VString "low");
              ("description", VString "duplicated helper") ] ].

Definition review_declared : list (IssueType * IssueSeverity) :=
  [ (SECURITY, HIGH); (DESIGN, LOW) ].

(** The issues parsed from that answer. *)
Definition review_issues : list CodeIssue :=
  Parsing.parseIssuesFromOutput Json.parse review_output.

(** The first of them as a verdict that confirms it for codex keeps it. *)
Definition kept_first : CodeIssue :=
  {| issue_id := "issue-1";
     issue_type := Member SECURITY;
     issue_severity := Member HIGH;
     issue_description := VString "query built by concatenation";
     issue_filePath := VString "db.ts";
     issue_lineNumber := VNumber {| mantissa := 12; exponent10 := 0 |};
     issue_suggestedFix := VUndefined;
     issue_assignedTo := Some (Member CODEX) |}.

(** The first of them as it was parsed. *)
Definition kept_first_unassigned : CodeIssue :=
  {| issue_id := "issue-1";
     issue_type := Member SECURITY;
     issue_severity := Member HIGH;
     issue_description := VString "query built by concatenation";
     issue_filePath := VString "db.ts";
     issue_lineNumber := VNumber {| mantissa := 12; exponent10 := 0 |};
     issue_suggestedFix := VUndefined;
     issue_assignedTo := None |}.

(** An answer without any payload. *)
Definition plain_output : string := "I found no problems in this code.".

(** An empty payload with a no-break space, a line feed and a narrow
    no-break space around it inside the fence. *)
Definition padded_body : string :=
  of_bytes [194; 160; 10] ++ "{}" ++ of_bytes [226; 128; 175; 32].

Definition padded_output : string := fence_json ++ padded_body ++ fence.

(** A payload whose suggested fix quotes code between back-quotes. *)
Definition quoting_body : string :=
  dq "{'issues':[{'type':'bug','severity':'high','description':'unchecked index','suggestedFix':'guard the read: ```if (i < n) use(a[i])```'}]}".

Definition quoting_items : list value :=
  [ VObject [ ("type", VString "bug"); ("severity", VString "high");
              ("description", VString "unchecked index");
              ("suggestedFix",
               VString "guard the read: ```if (i < n) use(a[i])```") ] ].

Definition quoting_output : string :=
  fence_json ++ nl ++ quoting_body ++ nl ++ fence.

(** That payload before the first of its triple back-quotes, and behind
    them. *)
Definition quoting_before : string :=
  dq "{'issues':[{'type':'bug','severity':'high','description':'unchecked index','suggestedFix':'guard the read: ".

Definition quoting_after : string := dq "if (i < n) use(a[i])```'}]}".

(** A payload whose type and severity are names every object inherits. *)
Definition inherited_output : string :=
  fence_json ++ nl
  ++ dq "{'issues':[{'type':'constructor','severity':'__proto__','description':'d'}]}"
  ++ nl ++ fence.

(** A payload whose first issue has a number for a type. *)
Definition numeric_type_output : string :=
  fence_json ++ nl
  ++ dq "{'issues':[{'type':3,'severity':'low'},{'type':'bug','severity':'low'}]}"
  ++ nl ++ fence.

(** Verdicts on the two issues of [review_output]. *)
Definition fenced (body : string) : string :=
  fence_json ++ nl ++ dq body ++ nl ++ fence.

Definition verdict_output : string :=
  fenced "{'verdict':'one real problem','confirmedIssues':[{'issueId':'issue-1','confirmed':true,'assignTo':'Codex'},{'issueId':'issue-2','confirmed':false}],'summary':'fix the query'}".

Definition verdict_entries : list value :=
  [ VObject [ ("issueId", VString "issue-1"); ("confirmed", VBool true);
              ("assignTo", VString "Codex") ];
    VObject [ ("issueId", VString "issue-2"); ("confirmed", VBool false) ] ].

Definition verdict_props : list (string * value) :=
  [ ("verdict", VString "one real problem");
    ("confirmedIssues", VArray verdict_entries);
    ("summary", VString "fix the query") ].

Definition verdict_numeric_assignee : string :=
  fenced "{'confirmedIssues':[{'issueId':'issue-1','confirmed':true,'assignTo':7}]}".

Definition numeric_assignee_entries : list value :=
  [ VObject [ ("issueId", VString "issue-1"); ("confirmed", VBool true);
              ("assignTo", VNumber {| mantissa := 7; exponent10 := 0 |}) ] ].

(** A verdict with a [null] entry, and one that is no object. *)
Definition verdict_null_entry : string :=
  fenced "{'confirmedIssues':[null,{'issueId':'issue-1','confirmed':true}]}".

Definition null_entries : list value :=
  [ VNull; VObject [ ("issueId", VString "issue-1"); ("confirmed", VBool true) ] ].

Definition verdict_no_object : string := fenced "[]".

Definition verdict_said_twice : string :=
  fenced "{'confirmedIssues':[{'issueId':'issue-1','confirmed':false},{'issueId':'issue-1','confirmed':true}]}".

Definition verdict_in_words : string :=
  fenced "{'confirmedIssues':[{'issueId':'issue-1','confirmed':'no'}]}".

Definition verdict_inherited_assignee : string :=
  fenced "{'confirmedIssues':[{'issueId':'issue-1','confirmed':true,'assignTo':'constructor'}]}".

(** The [confirmedIssues] array a verdict decodes to, if it does. *)
Definition confirmed_entries (output : string) : option (list value) :=
  match Json.parse (jsonStr output) with
  | Some (VObject props) =>
      match assoc "confirmedIssues" props with
      | Some (VArray entries) => Some entries
      | _ => None
      end
  | _ => None
  end.

(** The identifiers of the issues to which some entry of the decoded
    verdict refers with [confirmed] equal to [true]. *)
Definition referenced_as_confirmed (output : string) (issues : list CodeIssue)
  : option (list string) :=
  match confirmed_entries output with
  | Some entries =>
      Some (map issue_id
              (filter (ParsingContract.referenced_confirmed entries) issues))
  | None => None
  end.

(** The run of a process that prints, is killed by the timer and then
    closes: the close that follows the timeout changes nothing. *)
Definition killed_then_closed : list delivery :=
  [ {| now := 5; what := StdoutData " partial " |};
    {| now := 100; what := TimerFires |};
    {| now := 101; what := Close None |} ].








(** Worlds. Identifiers and clock readings are numbered; builds pass. *)
Definition numbered_uuid (n : nat) : string := "id-" ++ decimal n.

Definition answering (probe : Agents.ICLIAgent -> bool)
  (answer : Agents.ICLIAgent -> list string * (AgentExecuteResult + string))
  : Runtime.World :=
  {| Runtime.isAvailable := probe;
     Runtime.execute := fun _ a _ => answer a;
     Runtime.uuidv4 := numbered_uuid;
     Runtime.clock := fun n => Z.of_nat (10 * n);
     Runtime.build := fun _ _ _ => Runtime.BuildClosed (Some 0) [] EmptyString |}.

Definition says (text : string) : list string * (AgentExecuteResult + string) :=
  ([text],
   inl {| success := true; output := text; error := None; duration := 7 |}).

(** Every executor is available and answers. *)
Definition obliging (text : string) : Runtime.World :=
  answering (fun _ => true) (fun _ => says text).

(** The same, but the defender's program is not installed. *)
Definition without_defender (text : string) : Runtime.World :=
  answering (fun a => negb (DebateRole_eqb (Agents.role a) DEFENDER))
            (fun _ => says text).

(** The codex executor always fails, with what it printed; the others
    succeed. *)
Definition codex_fails : Runtime.World :=
  answering (fun _ => true)
    (fun a => match Agents.cliType a with
              | CODEX =>
                  (["patch rejected"],
                   inl {| success := false; output := "patch rejected";
                          error := Some "exit 1"; duration := 3 |})
              | _ => says "fixed"
              end).

(** The codex executor always fails, before it prints anything; the
    others succeed. *)
Definition codex_fails_silently : Runtime.World :=
  answering (fun _ => true)
    (fun a => match Agents.cliType a with
              | CODEX =>
                  ([],
                   inl {| success := false; output := EmptyString;
                          error := Some "exit 127"; duration := 1 |})
              | _ => says "fixed"
              end).

Definition bound (c : CLIType) : Debate.AgentConfig :=
  {| Debate.cfg_cliType := c; Debate.cfg_timeout := None |}.

(** Debates on the topic X. *)
Definition debate (n : nat) : Debate.DebateConfig :=
  {| Debate.topic := "X"; Debate.rounds := n;
     Debate.moderator := bound GEMINI; Debate.challenger := bound CLAUDE;
     Debate.defender := bound CODEX; Debate.streaming := true |}.

(** Stand-ins for the prompt templates. *)
Definition opening_prompt (topic : string) : string := "open " ++ topic.
Definition round_prompt (who : string) (topic : string) (n : nat)
  (history : list Runtime.DebateMessage) : string :=
  who ++ " on " ++ topic ++ ", round " ++ decimal n ++ ", after "
  ++ decimal (List.length history) ++ " messages".
Definition final_prompt (topic : string) (history : list Runtime.DebateMessage)
  : string :=
  "conclude " ++ topic ++ " after " ++ decimal (List.length history) ++ " messages".

Definition run_debate (w : Runtime.World) (n : nat) :=
  Debate.run w (debate n) opening_prompt (round_prompt "challenge")
    (round_prompt "defend") (round_prompt "evaluate") final_prompt.

(** Reviews of the path [src]. *)
Definition review (fixers : option (list Debate.AgentConfig))
  : CodeReview.CodeReviewConfig :=
  {| CodeReview.path := "src"; CodeReview.focus := None;
     CodeReview.buildCommand := None; CodeReview.autoFix := true;
     CodeReview.challenger := bound CLAUDE; CodeReview.defender := bound CODEX;
     CodeReview.moderator := bound GEMINI; CodeReview.fixers := fixers;
     CodeReview.streaming := false |}.

Definition analysis_prompt (path : string) (focus : option (list IssueType))
  : string := "review " ++ path.
Definition defense_prompt (path : string) (l : list CodeIssue) : string :=
  "defend " ++ path.
Definition verdict_prompt (path : string) (l : list CodeIssue) (defense : string)
  : string := "judge " ++ path.
Definition fix_prompt (issue : CodeIssue) (path : string) : string :=
  "fix " ++ issue_id issue ++ " in " ++ path.

Definition run_review (w : Runtime.World) (fixers : option (list Debate.AgentConfig)) :=
  CodeReview.run Json.parse w (review fixers) analysis_prompt defense_prompt
    verdict_prompt fix_prompt.

(** Three confirmed issues, assigned to the three backends. *)
Definition assigned (n : nat) (c : CLIType) : CodeIssue :=
  {| issue_id := "issue-" ++ decimal n; issue_type := Member BUG;
     issue_severity := Member HIGH; issue_description := VString "d";
     issue_filePath := VUndefined; issue_lineNumber := VUndefined;
     issue_suggestedFix := VUndefined; issue_assignedTo := Some (Member c) |}.

Definition three_issues : list CodeIssue :=
  [assigned 1 CLAUDE; assigned 2 CODEX; assigned 3 GEMINI].

Definition blank_result : CodeReview.CodeReviewResult :=
  {| CodeReview.id := "review"; CodeReview.result_path := "src";
     CodeReview.status := IN_PROGRESS; CodeReview.buildCheck := None;
     CodeReview.issues := []; CodeReview.defenseResponses := None;
     CodeReview.verdict := None; CodeReview.fixTasks := None;
     CodeReview.startTime := 0; CodeReview.endTime := None;
     CodeReview.totalDuration := None; CodeReview.error := None |}.

(** The remediation phase on its own, from a fresh state. *)
Definition run_fixes (w : Runtime.World) (fixers : option (list Debate.AgentConfig))
  (l : list CodeIssue) :=
  CodeReview.executeParallelFix w (review fixers) fix_prompt l
    (Runtime.fresh blank_result 0).

End Samples.

(* ===================================================================== *)
(** ** What the executor, the agents and the parsers are observed to do *)
(* ===================================================================== *)

Module Observations.
Import JsString Js Fence Types Parsing Agents Execute.

(** The chunks of standard output along a trace, in order of arrival. *)
Fixpoint stdout_chunks (trace : list delivery) : list string :=
  match trace with
  | [] => []
  | d :: r =>
      match what d with
      | StdoutData chunk => chunk :: stdout_chunks r
      | _ => stdout_chunks r
      end
  end.

(** [item.name] for the names the parser reads, where reading does not
    throw. *)
Definition field (item : value) (name : string) : value :=
  match item with
  | VObject props =>
      match assoc name props with
      | Some x => x
      | None => VUndefined
      end
  | _ => VUndefined
  end.

(** An issue made from an element of the [issues] array: the element is
    neither [null] nor [undefined], and the issue carries its
    description, or the empty string for a falsy one, and its three
    optional fields as they are; it is assigned to nobody. *)
Definition converted (item : value) (issue : CodeIssue) : Prop :=
  item <> VNull /\ item <> VUndefined
  /\ issue_description issue = or_else (field item "description") (VString EmptyString)
  /\ issue_filePath issue = field item "filePath"
  /\ issue_lineNumber issue = field item "lineNumber"
  /\ issue_suggestedFix issue = field item "suggestedFix"
  /\ issue_assignedTo issue = None.

(** An element of the [issues] array that the parser can convert: not
    [null], with a type and a severity that are strings or missing. *)
Definition nameable (v : value) : bool :=
  match v with
  | VUndefined | VNull | VString _ => true
  | _ => false
  end.

Definition convertible (item : value) : bool :=
  match item with
  | VUndefined | VNull => false
  | _ => nameable (field item "type") && nameable (field item "severity")
  end.

(** A value that names no entry of a table and no member that every
    object inherits: a missing value, or a string that in lower case is
    neither a key of the table nor a name of [Object.prototype]. *)
Definition unnamed {E} (table : list (string * E)) (v : value) : bool :=
  match v with
  | VUndefined | VNull =>
      match assoc "undefined" table with Some _ => false | None => true end
  | VString s =>
      match assoc (toLowerCase s) table with
      | Some _ => false
      | None => negb (inherited (toLowerCase s))
      end
  | _ => false
  end.

(** [kept] is made from [issues] by dropping some and giving each of
    the others an assignment, the order unchanged. *)
Inductive selection : list CodeIssue -> list CodeIssue -> Prop :=
| selection_nil : selection [] []
| selection_drop issue issues kept :
    selection issues kept -> selection (issue :: issues) kept
| selection_keep issue cli issues kept :
    selection issues kept ->
    selection (issue :: issues) (with_assignedTo issue cli :: kept).

End Observations.

(* ===================================================================== *)
(** ** The plan of the remediation phase *)
(* ===================================================================== *)

Module FixPlan.
Import JsString Js Types Agents Runtime CodeReview.

(** The first configuration of a backend in a list of fixer
    configurations. *)
Definition first_config (l : list AgentConfig) (c : CLIType) : option AgentConfig :=
  find (fun f => CLIType_eqb (cfg_cliType f) c) l.

(** The keys of a list in the order of their first appearance. *)
Fixpoint first_seen (keys : list (looked_up CLIType)) : list (looked_up CLIType) :=
  match keys with
  | [] => []
  | k :: r => k :: filter (fun k' => negb (key_eqb k' k)) (first_seen r)
  end.

(** The issues of a list that go to the backend [k]. *)
Definition issues_for (k : looked_up CLIType) (l : list CodeIssue) : list CodeIssue :=
  filter (fun i => key_eqb (fix_key i) k) l.

(** The groups of [issuesByCliType]: one per backend, in the order the
    backends first appear, each with its issues in their order. *)
Definition groups_of (l : list CodeIssue) : list (looked_up CLIType * list CodeIssue) :=
  map (fun k => (k, issues_for k l)) (first_seen (map fix_key l)).

(** The issues that get a task, in the order of the tasks. *)
Definition task_order (m : FixerMap) (l : list CodeIssue) : list CodeIssue :=
  flat_map (fun k => match fixer_for m k with
                     | Some _ => issues_for k l
                     | None => []
                     end)
           (first_seen (map fix_key l)).

(** What the loop of the constructor keeps true of the map. *)
Definition well_formed (m : FixerMap) : Prop :=
  NoDup (map fst m)
  /\ Forall (fun e => cliType (snd e) = fst e /\ role (snd e) = DEFENDER) m.

End FixPlan.

(* ===================================================================== *)
(** ** Outcomes of a run, whatever the world answers *)
(* ===================================================================== *)

Module RunLogic.
Import JsString Types Agents Runtime.
Local Open Scope run_scope.

(** [ensures c s Q E]: from the state [s] the computation [c] either
    completes with a value and a state that satisfy [Q], or throws with a
    message and a state that satisfy [E]. *)
Definition ensures {R A} (c : M R A) (s : state R)
  (Q : A -> state R -> Prop) (E : string -> state R -> Prop) : Prop :=
  match c s with
  | (Ok a, s') => Q a s'
  | (Raise m, s') => E m s'
  end.

(** [always F c]: whatever [c] does, completing or throwing, the state it
    leaves is related by [F] to the state it started from. *)
Definition always {R A} (F : state R -> state R -> Prop) (c : M R A) : Prop :=
  forall s, F s (snd (c s)).

(** An event published between the start and the end of a run: not the
    start or end of the run, not an error, and a chunk only when
    streaming is on. *)
Definition body_event (streaming : bool) (e : DebateEvent) : bool :=
  match e with
  | debate_start | debate_end _ | error_event _ => false
  | message_chunk _ => streaming
  | _ => true
  end.

(** The error event by which a failed build is reported. *)
Definition build_event (e : DebateEvent) : bool :=
  match e with
  | error_event m => String.eqb m "构建失败"
  | _ => false
  end.

(** An event published between the start and the end of a code review:
    as for a debate, or the report of a failed build. *)
Definition review_event (streaming : bool) (e : DebateEvent) : bool :=
  body_event streaming e || build_event e.

(** The events of [s'] are those of [s] followed by events that satisfy
    [P]. *)
Definition publishes {R} (P : DebateEvent -> bool) (s s' : state R) : Prop :=
  exists added, events s' = events s ++ added /\ forallb P added = true.

End RunLogic.

(* ===================================================================== *)
(** ** What a debate leaves behind *)
(* ===================================================================== *)

Module DebateProgress.
Import JsString Types Agents Runtime Debate.

Definition option_list {A} (o : option A) : list A :=
  match o with Some x => [x] | None => [] end.

(** What a round that fails leaves in the transcript: the messages of
    the speakers that had answered, at most two, all of this round. *)
Definition partial_round (n : nat) (l : list DebateMessage) : Prop :=
  List.length l <= 2
  /\ Forall (fun m => phase m = ROUND /\ roundNumber m = Some n) l.

(** The transcript [msgs] is accounted for by the result [r]: it is the
    opening message, the messages of the recorded rounds, the messages
    of a round that failed, and the final verdict, each if there is one.
    Rounds are recorded in order, numbered from 1 and complete; a final
    verdict comes only after all the rounds. *)
Definition progress (config : DebateConfig) (r : DebateResult)
  (msgs : list DebateMessage) : Prop :=
  exists l,
    msgs = option_list (opening r) ++ flat_map round_messages (round_results r)
           ++ l ++ option_list (finalVerdict r)
    /\ partial_round (S (List.length (round_results r))) l
    /\ (opening r = None -> round_results r = [] /\ l = [])
    /\ (finalVerdict r <> None ->
        l = [] /\ List.length (round_results r) = rounds config /\ opening r <> None)
    /\ List.length (round_results r) <= rounds config
    /\ (forall j rr, nth_error (round_results r) j = Some rr -> round_of (S j) rr).

(** The fields of the result that [run] sets once, before the [try]. *)
Definition identified (w : World) (config : DebateConfig) (r : DebateResult) : Prop :=
  id r = uuidv4 w 0 /\ result_topic r = topic config /\ startTime r = clock w 1.

(** How a run of the debate ends, for the events published from the
    start of the run on: Completed, with the start of the run first and
    its end last; or Failed, with the error and the end of the run last,
    after the start of the run if the run got that far. In between come
    only events of phases, rounds and messages, with chunks only when
    streaming is on. *)
Definition ending (streaming : bool) (r : DebateResult) (evs : list DebateEvent) : Prop :=
  (status r = COMPLETED /\ error r = None /\ finalVerdict r <> None
   /\ exists inner,
        evs = debate_start :: inner ++ [debate_end COMPLETED]
        /\ forallb (RunLogic.body_event streaming) inner = true)
  \/ (status r = FAILED /\ finalVerdict r = None
      /\ exists m pre inner,
           error r = Some m
           /\ evs = pre ++ inner ++ [error_event m; debate_end FAILED]
           /\ (pre = [] \/ pre = [debate_start])
           /\ forallb (RunLogic.body_event streaming) inner = true).

(** The result a run returns. *)
Definition settled_run (w : World) (config : DebateConfig) (r : DebateResult)
  (st : state DebateResult) : Prop :=
  result st = r
  /\ identified w config r
  /\ (exists t, endTime r = Some t /\ totalDuration r = Some (t - startTime r)%Z)
  /\ progress config r (messages st)
  /\ ending (streaming config) r (events st).

(** The state in which the [try] block of [run] throws. *)
Definition thrown (w : World) (config : DebateConfig) (s : state DebateResult) : Prop :=
  finalVerdict (result s) = None
  /\ identified w config (result s)
  /\ progress config (result s) (messages s)
  /\ exists pre inner,
       events s = pre ++ inner
       /\ (pre = [] \/ pre = [debate_start])
       /\ forallb (RunLogic.body_event (streaming config)) inner = true.

End DebateProgress.

(* ===================================================================== *)
(** ** The invocations of a debate *)
(* ===================================================================== *)

Module DebateScript.
Import JsString Types Agents Runtime Debate.

Section Script.

Variable config : DebateConfig.
Variable getModeratorOpeningPrompt : string -> string.
Variable getChallengerPrompt : string -> nat -> list DebateMessage -> string.
Variable getDefenderPrompt : string -> nat -> list DebateMessage -> string.
Variable getModeratorEvaluationPrompt : string -> nat -> list DebateMessage -> string.
Variable getModeratorFinalVerdictPrompt : string -> list DebateMessage -> string.

(** The three invocations of round [n], which starts when the transcript
    holds [pos] messages: each prompt is built from the messages that
    precede the answer it asks for. *)
Definition round_script (n pos : nat) (msgs : list DebateMessage)
  : list (ICLIAgent * string) :=
  [ (the_challenger config, getChallengerPrompt (topic config) n (firstn pos msgs));
    (the_defender config, getDefenderPrompt (topic config) n (firstn (pos + 1) msgs));
    (the_moderator config,
     getModeratorEvaluationPrompt (topic config) n (firstn (pos + 2) msgs)) ].

Fixpoint rounds_script (n k pos : nat) (msgs : list DebateMessage)
  : list (ICLIAgent * string) :=
  match k with
  | O => []
  | S k' => round_script n pos msgs ++ rounds_script (S n) k' (pos + 3) msgs
  end.

(** The invocations of a debate whose transcript is [msgs]. *)
Definition debate_script (msgs : list DebateMessage) : list (ICLIAgent * string) :=
  (the_moderator config, getModeratorOpeningPrompt (topic config))
  :: rounds_script 1 (rounds config) 1 msgs
  ++ [(the_moderator config,
       getModeratorFinalVerdictPrompt (topic config)
         (firstn (1 + 3 * rounds config) msgs))].

End Script.

(** The message [m] records a successful answer to the invocation [inv]:
    it carries the role and the backend of the executor invoked and the
    output of the invocation. *)
Definition answered_by (w : World) (inv : ICLIAgent * string) (m : DebateMessage) : Prop :=
  msg_role m = role (fst inv)
  /\ msg_cliType m = cliType (fst inv)
  /\ exists n streamed r,
       execute w n (fst inv) (snd inv) = (streamed, inl r)
       /\ success r = true
       /\ content m = output r.

End DebateScript.

(* ===================================================================== *)
(** ** What a review leaves behind *)
(* ===================================================================== *)

Module ReviewProgress.
Import JsString Js Types Agents Runtime CodeReview RunLogic.
Import DebateProgress.

(** The fields of the result that [run] sets once, before the [try]. *)
Definition identified (w : World) (config : CodeReviewConfig) (r : CodeReviewResult)
  : Prop :=
  id r = uuidv4 w 0 /\ result_path r = path config /\ startTime r = clock w 1.

Definition defenses (r : CodeReviewResult) : list DebateMessage :=
  match defenseResponses r with Some l => l | None => [] end.

(** The transcript [msgs] and the result [r] of a review agree. The
    transcript is the message of the analysis, of the defense and of the
    verdict, each if the phase succeeded, and nothing else; the result
    holds the defense only after an analysis, the verdict only after a
    defense, and fix tasks only after a verdict, with auto-fix on and
    some issue confirmed; its issues are what the parsers make of the
    recorded messages. *)
Definition progress (JSON_parse : string -> option value) (config : CodeReviewConfig)
  (r : CodeReviewResult) (msgs : list DebateMessage) : Prop :=
  exists analysis,
    msgs = analysis ++ defenses r ++ option_list (verdict r)
    /\ List.length analysis <= 1
    /\ Forall (fun m => phase m = CODE_ANALYSIS /\ msg_role m = CHALLENGER) analysis
    /\ (analysis = [] -> issues r = [] /\ defenseResponses r = None)
    /\ (forall l, defenseResponses r = Some l ->
                  exists d, l = [d] /\ phase d = ISSUE_DEFENSE /\ msg_role d = DEFENDER)
    /\ (forall v, verdict r = Some v ->
                  defenseResponses r <> None
                  /\ phase v = VERDICT_ASSIGNMENT /\ msg_role v = MODERATOR)
    /\ (fixTasks r <> None ->
        verdict r <> None /\ autoFix config = true /\ issues r <> [])
    /\ (forall a, analysis = [a] ->
                  issues r
                  = match verdict r with
                    | Some v =>
                        Parsing.parseVerdictAndAssign JSON_parse (content v)
                          (Parsing.parseIssuesFromOutput JSON_parse (content a))
                    | None => Parsing.parseIssuesFromOutput JSON_parse (content a)
                    end).

(** How many executors a run invoked: one per phase it entered, three
    at most, and one per fix task. *)
Definition attempts (r : CodeReviewResult) (invs : list (ICLIAgent * string)) : Prop :=
  match fixTasks r with
  | Some tasks => List.length invs = 3 + List.length tasks
  | None => 1 <= List.length invs <= 3
  end.

(** What the result says of the build check: there is one exactly when
    a build command is configured, it ran that command, and its failure
    was reported by an error event. A successful check has no list of
    errors and a failed one has a list, which may be empty. The start
    and the end of the phase were published, also when spawning the
    command failed with an error event. *)
Definition build_checked (config : CodeReviewConfig) (r : CodeReviewResult)
  (evs : list DebateEvent) : Prop :=
  match buildCheck r with
  | Some b =>
      buildCommand config = Some (build_command b)
      /\ build_command b <> EmptyString
      /\ (build_success b = true <-> build_errors b = None)
      /\ (build_success b = false -> In (error_event "构建失败") evs)
      /\ (build_success b = false -> exists l, build_errors b = Some l)
      /\ In (phase_start BUILD_CHECK) evs
      /\ In (phase_end BUILD_CHECK) evs
  | None => buildCommand config = None \/ buildCommand config = Some EmptyString
  end.

(** How a review ends: as a debate does, except that the start of the
    run is always published and that a failed run has neither verdict
    nor fix tasks. *)
Definition ending (streaming : bool) (r : CodeReviewResult) (evs : list DebateEvent)
  : Prop :=
  (status r = COMPLETED /\ error r = None
   /\ exists inner,
        evs = debate_start :: inner ++ [debate_end COMPLETED]
        /\ forallb (review_event streaming) inner = true)
  \/ (status r = FAILED /\ verdict r = None /\ fixTasks r = None
      /\ exists m inner,
           error r = Some m
           /\ evs = debate_start :: inner ++ [error_event m; debate_end FAILED]
           /\ forallb (review_event streaming) inner = true).

(** The invocation [executeFixTask] makes for a planned task, and the
    invocations of the whole fan-out, in the order of the tasks. *)
Definition invocation_of (config : CodeReviewConfig)
  (getFixTaskPrompt : CodeIssue -> string -> string)
  (plan : ICLIAgent * CLIType * CodeIssue) : ICLIAgent * string :=
  (fst (fst plan), getFixTaskPrompt (snd plan) (path config)).

Definition fix_invocations (config : CodeReviewConfig)
  (getFixTaskPrompt : CodeIssue -> string -> string) (l : list CodeIssue)
  : list (ICLIAgent * string) :=
  if negb (autoFix config) || Nat.eqb (List.length l) 0 then []
  else map (invocation_of config getFixTaskPrompt)
         (planned_tasks (make_fixers config) l).

Definition settled_run (JSON_parse : string -> option value) (w : World)
  (config : CodeReviewConfig) (r : CodeReviewResult) (st : state CodeReviewResult)
  : Prop :=
  result st = r
  /\ identified w config r
  /\ (exists t, endTime r = Some t /\ totalDuration r = Some (t - startTime r)%Z)
  /\ progress JSON_parse config r (messages st)
  /\ attempts r (invocations st)
  /\ build_checked config r (events st)
  /\ ending (streaming config) r (events st).

(** What the fan-out leaves alone, and the invocations it adds. *)
Definition fanned (added : list (ICLIAgent * string)) (s s' : state CodeReviewResult)
  : Prop :=
  messages s' = messages s /\ result s' = result s
  /\ invocations s' = invocations s ++ added.

(** The state in which the [try] block of [run] throws. *)
Definition thrown (JSON_parse : string -> option value) (w : World)
  (config : CodeReviewConfig) (s : state CodeReviewResult) : Prop :=
  verdict (result s) = None
  /\ fixTasks (result s) = None
  /\ identified w config (result s)
  /\ progress JSON_parse config (result s) (messages s)
  /\ 1 <= List.length (invocations s) <= 3
  /\ build_checked config (result s) (events s)
  /\ exists inner,
       events s = debate_start :: inner
       /\ forallb (review_event (streaming config)) inner = true.

End ReviewProgress.

(* ===================================================================== *)
(** ** The invocations of a review *)
(* ===================================================================== *)

Module ReviewScript.
Import JsString Js Types Agents Runtime CodeReview DebateScript ReviewProgress.

Section Script.

Variable JSON_parse : string -> option value.
Variable config : CodeReviewConfig.
Variable getCodeReviewChallengerPrompt : string -> option (list IssueType) -> string.
Variable getCodeReviewDefenderPrompt : string -> list CodeIssue -> string.
Variable getCodeReviewVerdictPrompt : string -> list CodeIssue -> string -> string.
Variable getFixTaskPrompt : CodeIssue -> string -> string.

(** The invocations of a review whose transcript is [msgs]: the analysis
    is always asked for; the defense is asked for when the recorded
    analysis parses to some issue, with these issues; the verdict when a
    defense is recorded, with the same issues and the text of the
    defense; the fixes when a verdict is recorded, for the issues that
    the verdict's parser keeps. *)
Definition review_script (msgs : list DebateMessage) : list (ICLIAgent * string) :=
  (the_challenger config,
   getCodeReviewChallengerPrompt (path config) (focus config))
  :: match msgs with
     | [] => []
     | a :: later =>
         let found := Parsing.parseIssuesFromOutput JSON_parse (content a) in
         if Nat.eqb (List.length found) 0 then []
         else
           (the_defender config, getCodeReviewDefenderPrompt (path config) found)
           :: match later with
              | [] => []
              | d :: later' =>
                  (the_moderator config,
                   getCodeReviewVerdictPrompt (path config) found (content d))
                  :: match later' with
                     | [] => []
                     | v :: _ =>
                         fix_invocations config getFixTaskPrompt
                           (Parsing.parseVerdictAndAssign JSON_parse (content v) found)
                     end
              end
     end.

(** The invocations [invs] are the ones the transcript [msgs] accounts
    for, and each message records the answer to the invocation of the
    same rank. *)
Definition scripted (w : World) (msgs : list DebateMessage)
  (invs : list (ICLIAgent * string)) : Prop :=
  invs = review_script msgs
  /\ Forall2 (answered_by w) (firstn (List.length msgs) invs) msgs.

End Script.

End ReviewScript.

(* ===================================================================== *)
(** ** The command line (the second part of test.ts) *)
(* ===================================================================== *)

Module Cli.
Import JsString Js Types.

Inductive Command := debate | review | help.

Definition Command_value (c : Command) : string :=
  match c with debate => "debate" | review => "review" | help => "help" end.

(** A Number that [parseInt] returns: a double with an integer value, or
    an infinity. [-0] is kept as [0]; [NaN] is the absence of a number. *)
Inductive integer :=
| Finite (z : Z)
| Infinity (negative : bool).

Definition negated (x : integer) : integer :=
  match x with
  | Finite z => Finite (- z)
  | Infinity negative => Infinity (negb negative)
  end.

(** The double nearest to the integer [n], not negative: [n] itself
    while it has at most 53 bits; otherwise its 53 leading bits, rounded
    to nearest with ties to the even significand; an infinity from
    [2 ^ 1024] on. *)
Definition nearest_double (n : Z) : integer :=
  let bits := (Z.log2 n + 1)%Z in
  if (bits <=? 53)%Z then Finite n
  else
    let shift := (bits - 53)%Z in
    let q := Z.shiftr n shift in
    let rest := (n - Z.shiftl q shift)%Z in
    let half := Z.shiftl 1 (shift - 1) in
    let q' := if (half <? rest)%Z || ((rest =? half)%Z && Z.odd q)
              then (q + 1)%Z else q in
    let v := Z.shiftl q' shift in
    if (2 ^ 1024 <=? v)%Z then Infinity false else Finite v.

(** [ParsedArgs]. An optional field is [None] while it is [undefined];
    [streaming] is set from the start. *)
Record ParsedArgs := {
  command : Command;
  topic : option string;
  path : option string;
  challenger : option (looked_up CLIType);
  defender : option (looked_up CLIType);
  moderator : option (looked_up CLIType);
  rounds : option integer;
  focus : option (list (looked_up IssueType));
  autoFix : option bool;
  buildCommand : option string;
  streaming : bool
}.

(** [parseCLIType] of the command line. Its argument is an element of
    [args], a string, or [undefined] past the end. *)
Definition parseCLIType (cli : option string) : looked_up CLIType :=
  table_get_or Parsing.cliMap
    (match cli with Some s => toLowerCase s | None => "undefined" end) CLAUDE.

(** [s.split(',')] *)
Fixpoint split_commas (s : string) (piece : string) : list string :=
  match s with
  | EmptyString => [piece]
  | String c r =>
      if Ascii.eqb c "," then piece :: split_commas r EmptyString
      else split_commas r (piece ++ String c EmptyString)
  end.

(** [parseIssueTypes] *)
Definition parseIssueTypes (focus : option string) : list (looked_up IssueType) :=
  match focus with
  | None => []
  | Some s =>
      if String.eqb s EmptyString then []
      else map (fun f => table_get_or Parsing.typeMap (toLowerCase (trim f)) BUG)
             (split_commas s EmptyString)
  end.

(** [parseInt(s, 10)]: leading white space is skipped, then a sign is
    read, then the longest run of decimal digits; [None] is [NaN], the
    result when there is no digit, as for [undefined]. The result is the
    double nearest to the mathematical value of the digits, with the
    sign. *)
Definition parseInt (s : option string) : option integer :=
  match s with
  | None => None
  | Some s =>
      let t := trimStart s in
      let '(negative, u) :=
        match t with
        | String "-" r => (true, r)
        | String "+" r => (false, r)
        | _ => (false, t)
        end in
      let '(n, count, _) := Json.digits u 0%Z 0 in
      match count with
      | O => None
      | S _ => Some (if negative then negated (nearest_double n)
                     else nearest_double n)
      end
  end.

(** [parseInt(s, 10) || 2]: zero and [NaN] are falsy, an infinity is
    not. *)
Definition rounds_of (s : option string) : integer :=
  match parseInt s with
  | Some (Finite n) => if Z.eqb n 0 then Finite 2 else Finite n
  | Some (Infinity negative) => Infinity negative
  | None => Finite 2
  end.

Definition initial : ParsedArgs :=
  {| command := help; topic := None; path := None; challenger := None;
     defender := None; moderator := None; rounds := None; focus := None;
     autoFix := None; buildCommand := None; streaming := true |}.

Definition set_command (c : Command) (r : ParsedArgs) : ParsedArgs :=
  {| command := c; topic := topic r; path := path r; challenger := challenger r;
     defender := defender r; moderator := moderator r; rounds := rounds r;
     focus := focus r; autoFix := autoFix r; buildCommand := buildCommand r;
     streaming := streaming r |}.

Definition set_topic (v : option string) (r : ParsedArgs) : ParsedArgs :=
  {| command := command r; topic := v; path := path r; challenger := challenger r;
     defender := defender r; moderator := moderator r; rounds := rounds r;
     focus := focus r; autoFix := autoFix r; buildCommand := buildCommand r;
     streaming := streaming r |}.

Definition set_path (v : option string) (r : ParsedArgs) : ParsedArgs :=
  {| command := command r; topic := topic r; path := v; challenger := challenger r;
     defender := defender r; moderator := moderator r; rounds := rounds r;
     focus := focus r; autoFix := autoFix r; buildCommand := buildCommand r;
     streaming := streaming r |}.

Definition set_challenger (c : looked_up CLIType) (r : ParsedArgs) : ParsedArgs :=
  {| command := command r; topic := topic r; path := path r; challenger := Some c;
     defender := defender r; moderator := moderator r; rounds := rounds r;
     focus := focus r; autoFix := autoFix r; buildCommand := buildCommand r;
     streaming := streaming r |}.

Definition set_defender (c : looked_up CLIType) (r : ParsedArgs) : ParsedArgs :=
  {| command := command r; topic := topic r; path := path r;
     challenger := challenger r; defender := Some c; moderator := moderator r;
     rounds := rounds r; focus := focus r; autoFix := autoFix r;
     buildCommand := buildCommand r; streaming := streaming r |}.

Definition set_moderator (c : looked_up CLIType) (r : ParsedArgs) : ParsedArgs :=
  {| command := command r; topic := topic r; path := path r;
     challenger := challenger r; defender := defender r; moderator := Some c;
     rounds := rounds r; focus := focus r; autoFix := autoFix r;
     buildCommand := buildCommand r; streaming := streaming r |}.

Definition set_rounds (n : integer) (r : ParsedArgs) : ParsedArgs :=
  {| command := command r; topic := topic r; path := path r;
     challenger := challenger r; defender := defender r; moderator := moderator r;
     rounds := Some n; focus := focus r; autoFix := autoFix r;
     buildCommand := buildCommand r; streaming := streaming r |}.

Definition set_focus (l : list (looked_up IssueType)) (r : ParsedArgs) : ParsedArgs :=
  {| command := command r; topic := topic r; path := path r;
     challenger := challenger r; defender := defender r; moderator := moderator r;
     rounds := rounds r; focus := Some l; autoFix := autoFix r;
     buildCommand := buildCommand r; streaming := streaming r |}.

Definition set_autoFix (b : bool) (r : ParsedArgs) : ParsedArgs :=
  {| command := command r; topic := topic r; path := path r;
     challenger := challenger r; defender := defender r; moderator := moderator r;
     rounds := rounds r; focus := focus r; autoFix := Some b;
     buildCommand := buildCommand r; streaming := streaming r |}.

Definition set_buildCommand (v : option string) (r : ParsedArgs) : ParsedArgs :=
  {| command := command r; topic := topic r; path := path r;
     challenger := challenger r; defender := defender r; moderator := moderator r;
     rounds := rounds r; focus := focus r; autoFix := autoFix r;
     buildCommand := v; streaming := streaming r |}.

Definition set_streaming (b : bool) (r : ParsedArgs) : ParsedArgs :=
  {| command := command r; topic := topic r; path := path r;
     challenger := challenger r; defender := defender r; moderator := moderator r;
     rounds := rounds r; focus := focus r; autoFix := autoFix r;
     buildCommand := buildCommand r; streaming := b |}.

(** The [while] loop of [parseArgs], on the arguments from index [i]
    on. [next] is the branch of an option that reads [args[++i]]: the
    following argument, whatever it is, or [undefined] past the end,
    after which the loop is over. *)
Fixpoint parseArgs_loop (args : list string) (result : ParsedArgs) : ParsedArgs :=
  match args with
  | [] => result
  | arg :: rest =>
      let next (assign : option string -> ParsedArgs) : ParsedArgs :=
        match rest with
        | [] => assign None
        | v :: rest' => parseArgs_loop rest' (assign (Some v))
        end in
      if String.eqb arg "debate" then parseArgs_loop rest (set_command debate result)
      else if String.eqb arg "review" then parseArgs_loop rest (set_command review result)
      else if String.eqb arg "help" then parseArgs_loop rest (set_command help result)
      else if String.eqb arg "--topic" || String.eqb arg "-t" then
        next (fun v => set_topic v result)
      else if String.eqb arg "--path" || String.eqb arg "-p" then
        next (fun v => set_path v result)
      else if String.eqb arg "--challenger" || String.eqb arg "-c" then
        next (fun v => set_challenger (parseCLIType v) result)
      else if String.eqb arg "--defender" || String.eqb arg "-d" then
        next (fun v => set_defender (parseCLIType v) result)
      else if String.eqb arg "--moderator" || String.eqb arg "-m" then
        next (fun v => set_moderator (parseCLIType v) result)
      else if String.eqb arg "--rounds" || String.eqb arg "-r" then
        next (fun v => set_rounds (rounds_of v) result)
      else if String.eqb arg "--focus" || String.eqb arg "-f" then
        next (fun v => set_focus (parseIssueTypes v) result)
      else if String.eqb arg "--auto-fix" then
        parseArgs_loop rest (set_autoFix true result)
      else if String.eqb arg "--build" then
        next (fun v => set_buildCommand v result)
      else if String.eqb arg "--no-stream" then
        parseArgs_loop rest (set_streaming false result)
      else parseArgs_loop rest result
  end.

(** [parseArgs] *)
Definition parseArgs (args : list string) : ParsedArgs := parseArgs_loop args initial.

(** ** What the properties of the command line are stated with *)

(** [v] is the argument that follows an occurrence of one of the two
    spellings of an option. *)
Definition follows (long short : string) (v : string) (args : list string) : Prop :=
  exists pre o post, args = pre ++ o :: v :: post /\ (o = long \/ o = short).

(** A string that starts with a decimal digit. *)
Definition starts_with_digit (s : string) : bool :=
  match s with
  | String c _ => match Json.digit c with Some _ => true | None => false end
  | EmptyString => false
  end.



End Cli.

(* ===================================================================== *)
(** ** The prompts of a debate (prompts.ts) *)
(* ===================================================================== *)

Module Prompts.
Import JsString Types Runtime.

Definition newline : string := String (ascii_of_nat 10) EmptyString.

(** [getRoleLabel] *)
Definition getRoleLabel (role : DebateRole) : string :=
  match role with
  | MODERATOR => "主持人"
  | CHALLENGER => "挑战者"
  | DEFENDER => "辩护者"
  end.

(** The callback of [messages.map] in [formatHistory]. *)
Definition history_block (m : DebateMessage) : string :=
  "【" ++ getRoleLabel (msg_role m) ++ "】:" ++ newline ++ content m.

Definition history_separator : string :=
  newline ++ newline ++ "---" ++ newline ++ newline.

(** [formatHistory] *)
Definition formatHistory (messages : list DebateMessage) : string :=
  if Nat.eqb (List.length messages) 0 then EmptyString
  else join history_separator (map history_block messages).

(** [getModeratorOpeningPrompt] *)
Definition getModeratorOpeningPrompt (topic : string) : string :=
  "你是一场技术辩论的主持人。

## 辩题
"
  ++ topic
  ++ "

## 你的任务
作为主持人，请进行开场介绍：
1. 欢迎观众并介绍今天的辩题
2. 简要说明辩题的背景和重要性
3. 介绍辩论规则：挑战者将提出质疑，辩护者将进行回应
4. 宣布辩论开始

## 输出要求
- 使用中文
- 保持专业、客观的主持风格
- 控制在 200-300 字".

(** [getModeratorEvaluationPrompt] *)
Definition getModeratorEvaluationPrompt (topic : string) (roundNumber : nat)
  (history : list DebateMessage) : string :=
  "你是一场技术辩论的主持人。

## 辩题
"
  ++ topic
  ++ "

## 当前回合
第 "
  ++ decimal roundNumber
  ++ " 回合

## 对话历史
"
  ++ formatHistory history
  ++ "

## 你的任务
作为主持人，请对本回合进行评估：
1. 总结挑战者提出的核心问题
2. 评价辩护者的回应质量
3. 指出双方论点的优缺点
4. 引导进入下一回合（如有）

## 输出要求
- 使用中文
- 保持客观公正
- 控制在 150-250 字".

(** [getModeratorFinalVerdictPrompt] *)
Definition getModeratorFinalVerdictPrompt (topic : string)
  (history : list DebateMessage) : string :=
  "你是一场技术辩论的主持人。

## 辩题
"
  ++ topic
  ++ "

## 完整对话历史
"
  ++ formatHistory history
  ++ "

## 你的任务
作为主持人，请给出最终裁决：
1. 回顾整场辩论的核心争议点
2. 评估双方的论证质量和说服力
3. 指出哪方的论点更有说服力，并说明原因
4. 给出你的最终结论和建议
5. 感谢双方的精彩辩论

## 输出要求
- 使用中文
- 保持客观公正，有理有据
- 控制在 300-400 字".

(** [getChallengerPrompt] *)
Definition getChallengerPrompt (topic : string) (roundNumber : nat)
  (history : list DebateMessage) : string :=
  (let isFirstRound := Nat.eqb roundNumber 1 in
  "你是一场技术辩论的挑战者。

## 辩题
"
  ++ topic
  ++ "

## 当前回合
第 "
  ++ decimal roundNumber
  ++ " 回合

"
  ++ (if Nat.ltb 0 (List.length history)
      then "## 对话历史" ++ newline ++ formatHistory history
      else EmptyString)
  ++ "

## 你的任务
作为挑战者，你需要"
  ++ (if isFirstRound then "首先提出" else "继续深入")
  ++ "质疑：
"
  ++ (if isFirstRound
      then "1. 针对辩题提出核心质疑
2. 指出可能存在的问题或风险
3. 提出具体的反对理由"
      else "1. 基于之前的讨论，提出更深入的质疑
2. 针对辩护者的回应找出漏洞
3. 提出新的角度或证据")
  ++ "

## 输出要求
- 使用中文
- 保持逻辑清晰，论据充分
- 态度专业但有攻击性
- 控制在 200-300 字").

(** [getDefenderPrompt] *)
Definition getDefenderPrompt (topic : string) (roundNumber : nat)
  (history : list DebateMessage) : string :=
  "你是一场技术辩论的辩护者。

## 辩题
"
  ++ topic
  ++ "

## 当前回合
第 "
  ++ decimal roundNumber
  ++ " 回合

## 对话历史
"
  ++ formatHistory history
  ++ "

## 你的任务
作为辩护者，你需要回应挑战者的质疑：
1. 直接回应挑战者提出的核心问题
2. 提供有力的论据和证据支持你的立场
3. 指出挑战者论点中的不足之处
4. 强化你的核心观点

## 输出要求
- 使用中文
- 保持逻辑清晰，论据充分
- 态度专业且有说服力
- 控制在 200-300 字".

(** The prompt [p] quotes every message of [h]: it contains the block
    that [formatHistory] makes of the message, the label of its role
    and its content. *)
Definition quotes (h : list DebateMessage) (p : string) : Prop :=
  forall m, In m h -> contains (history_block m) p = true.

End Prompts.

(* ===================================================================== *)
(** ** Further worked inputs *)
(* ===================================================================== *)

Module Scenarios.
Import JsString Js Types Samples.

(** A debate of two rounds on the topic X without streaming. *)
Definition quiet_debate : Debate.DebateConfig :=
  {| Debate.topic := "X"; Debate.rounds := 2;
     Debate.moderator := bound GEMINI; Debate.challenger := bound CLAUDE;
     Debate.defender := bound CODEX; Debate.streaming := false |}.

(** Two fixer configurations of codex, the first with a timeout. *)
Definition codex_twice : list Debate.AgentConfig :=
  [ {| Debate.cfg_cliType := CODEX; Debate.cfg_timeout := Some 1000%Z |};
    bound CODEX ].

(** Issues of two backends, interleaved. *)
Definition interleaved : list CodeIssue :=
  [assigned 1 GEMINI; assigned 2 CLAUDE; assigned 3 GEMINI].

(** A command line. *)
Definition review_args : list string :=
  ["review"; "-p"; "src"; "--focus"; "Security, perf"; "--auto-fix"; "--no-stream"].

End Scenarios.


(* ===================================================================== *)
(** ** Facts about strings *)
(* ===================================================================== *)

Module StringFacts.
Import JsString Fence ParsingContract.
Local Open Scope string_scope.

Lemma append_assoc (a b c : string) :
  ((a ++ b) ++ c)%string = (a ++ (b ++ c))%string.
Proof. induction a; simpl; congruence. Qed.

Lemma append_empty_r (s : string) : (s ++ EmptyString)%string = s.
Proof. induction s; simpl; congruence. Qed.

Lemma length_app (a b : string) :
  String.length (a ++ b) = String.length a + String.length b.
Proof. induction a; simpl; congruence. Qed.

Lemma strip_prefix_app (p rest : string) : strip_prefix p (p ++ rest) = Some rest.
Proof. induction p; simpl; [reflexivity|]. now rewrite Ascii.eqb_refl. Qed.

Lemma strip_prefix_sound (p s r : string) :
  strip_prefix p s = Some r -> s = p ++ r.
Proof.
  revert s. induction p as [|a p IH]; intros s H.
  - cbn in H. now injection H as <-.
  - destruct s as [|b s]; [discriminate|]. cbn in H.
    destruct (Ascii.eqb_spec a b) as [<-|]; [|discriminate].
    cbn. f_equal. now apply IH.
Qed.

Lemma strip_prefix_app_l (p s t r : string) :
  strip_prefix p s = Some r -> strip_prefix p (s ++ t) = Some (r ++ t).
Proof.
  revert s. induction p as [|a p IH]; intros s H.
  - cbn in H. injection H as <-. reflexivity.
  - destruct s as [|b s]; [discriminate|]. cbn in H |- *.
    destruct (Ascii.eqb a b); [now apply IH | discriminate].
Qed.

(** A prefix of [s ++ t] lies within [s], or covers [s] and goes on in [t]. *)
Lemma strip_prefix_app_inv (p : string) :
  forall s t r,
    strip_prefix p (s ++ t) = Some r ->
    (exists r', strip_prefix p s = Some r' /\ r = r' ++ t)
    \/ (exists q, p = s ++ q /\ strip_prefix q t = Some r).
Proof.
  induction p as [|a p IH]; intros s t r H.
  - left. exists s. simpl in *. split; congruence.
  - destruct s as [|b s].
    + right. exists (String a p). split; [reflexivity | exact H].
    + simpl in H. destruct (Ascii.eqb_spec a b) as [->|]; [|discriminate].
      destruct (IH s t r H) as [(r' & H1 & H2) | (q & H1 & H2)].
      * left. exists r'. simpl. rewrite Ascii.eqb_refl. auto.
      * right. exists q. simpl. split; congruence.
Qed.

(** *** White space *)

Lemma has_byte_app (c : ascii) (a b : string) :
  has_byte c (a ++ b) = has_byte c a || has_byte c b.
Proof. induction a as [|x a IH]; simpl; [reflexivity|]. now rewrite IH, orb_assoc. Qed.

Lemma strip_any_sound (ps : list string) (s r : string) :
  strip_any ps s = Some r -> exists w, In w ps /\ strip_prefix w s = Some r.
Proof.
  induction ps as [|p ps IH]; simpl; [discriminate|].
  destruct (strip_prefix p s) as [x|] eqn:E.
  - intros [= <-]. exists p. auto.
  - intros H. destruct (IH H) as (w & Hin & Hw). exists w. auto.
Qed.

Lemma strip_any_hit (ps : list string) (w s r : string) :
  In w ps -> strip_prefix w s = Some r -> strip_any ps s <> None.
Proof.
  induction ps as [|p ps IH]; simpl; [tauto|].
  intros [->|Hin] Hw.
  - now rewrite Hw.
  - destruct (strip_prefix p s); [discriminate | eauto].
Qed.

Lemma strip_space_sound (s r : string) :
  strip_space s = Some r ->
  exists w, In w white_space /\ strip_prefix w s = Some r.
Proof. apply strip_any_sound. Qed.

Lemma white_space_nonempty (w : string) : In w white_space -> w <> EmptyString.
Proof.
  intros Hin ->. revert Hin. unfold white_space. cbn [In of_bytes].
  intuition discriminate.
Qed.

(** No white-space character is the beginning of another one. *)
Lemma white_space_prefix_free (w p x : string) :
  In w white_space -> In p white_space -> strip_prefix w p = Some x -> w = p.
Proof.
  intros Hw Hp H.
  assert (G : forallb (fun w => forallb (fun p =>
                match strip_prefix w p with
                | Some EmptyString => true
                | Some _ => false
                | None => true
                end) white_space) white_space = true) by (vm_compute; reflexivity).
  rewrite forallb_forall in G. specialize (G w Hw).
  rewrite forallb_forall in G. specialize (G p Hp).
  rewrite H in G. destruct x; [|discriminate].
  apply strip_prefix_sound in H. now rewrite append_empty_r in H.
Qed.

Lemma strip_space_shorter (s r : string) :
  strip_space s = Some r -> String.length r < String.length s.
Proof.
  intros H. destruct (strip_space_sound _ _ H) as (w & Hin & Hw).
  apply strip_prefix_sound in Hw. subst s. rewrite length_app.
  pose proof (white_space_nonempty w Hin). destruct w; [congruence|]. simpl. lia.
Qed.

(** Two prefixes of one text: one is a prefix of the other. *)
Lemma strip_prefix_both (p q : string) :
  forall s r1 r2,
    strip_prefix p s = Some r1 -> strip_prefix q s = Some r2 ->
    (exists x, strip_prefix p q = Some x) \/ (exists x, strip_prefix q p = Some x).
Proof.
  revert q. induction p as [|a p IH]; intros q s r1 r2 H1 H2.
  - left. now exists q.
  - destruct q as [|b q]; [right; now exists (String a p)|].
    destruct s as [|c s]; [discriminate|]. simpl in H1, H2.
    destruct (Ascii.eqb_spec a c) as [->|]; [|discriminate].
    destruct (Ascii.eqb_spec b c) as [->|]; [|discriminate].
    simpl. rewrite Ascii.eqb_refl. eauto.
Qed.

Lemma strip_space_unique (w s r : string) :
  In w white_space -> strip_prefix w s = Some r -> strip_space s = Some r.
Proof.
  intros Hin Hw.
  destruct (strip_space s) as [r'|] eqn:E.
  - destruct (strip_space_sound _ _ E) as (p & Hp & Hps).
    assert (w = p).
    { destruct (strip_prefix_both _ _ _ _ _ Hw Hps) as [(x & Hx) | (x & Hx)].
      - eapply white_space_prefix_free; eauto.
      - symmetry. eapply white_space_prefix_free; eauto. }
    subst p. congruence.
  - exfalso. eapply strip_any_hit; eauto.
Qed.

Lemma strip_space_app (s t r : string) :
  strip_space s = Some r -> strip_space (s ++ t) = Some (r ++ t).
Proof.
  intros H. destruct (strip_space_sound _ _ H) as (w & Hin & Hw).
  apply (strip_space_unique w); [exact Hin|]. now apply strip_prefix_app_l.
Qed.

(** A text that starts with no white space still does so when a byte of
    no white-space character follows it. *)
Lemma strip_space_app_none (s : string) (c : ascii) (t : string) :
  strip_space s = None -> solid_byte c = true ->
  strip_space (s ++ String c t) = None.
Proof.
  intros Hs Hc. destruct (strip_space (s ++ String c t)) as [r|] eqn:E; [|reflexivity].
  exfalso. destruct (strip_space_sound _ _ E) as (w & Hin & Hw).
  apply strip_prefix_app_inv in Hw. destruct Hw as [(r' & Hw & _) | (q & Hq & Hqt)].
  - eapply strip_any_hit; eauto.
  - destruct q as [|d q].
    + rewrite append_empty_r in Hq. subst w.
      eapply (strip_any_hit white_space s s EmptyString); eauto.
      pose proof (strip_prefix_app s EmptyString) as G.
      now rewrite append_empty_r in G.
    + simpl in Hqt. destruct (Ascii.eqb_spec d c) as [->|]; [|discriminate].
      unfold solid_byte in Hc. rewrite forallb_forall in Hc.
      specialize (Hc w Hin). rewrite Hq, has_byte_app in Hc. simpl in Hc.
      rewrite Ascii.eqb_refl in Hc. rewrite orb_true_r in Hc. discriminate.
Qed.

Lemma strip_space_solid (c : ascii) (s : string) :
  solid_byte c = true -> strip_space (String c s) = None.
Proof. intros Hc. now apply (strip_space_app_none EmptyString c s). Qed.

Lemma trimStart_upto_enough (n : nat) :
  forall m s, String.length s <= n -> String.length s <= m ->
              trimStart_upto n s = trimStart_upto m s.
Proof.
  induction n as [|n IH]; intros m s Hn Hm.
  - destruct s; [|simpl in Hn; lia]. destruct m; reflexivity.
  - destruct m as [|m].
    + destruct s; [reflexivity | simpl in Hm; lia].
    + simpl. destruct (strip_space s) as [r|] eqn:E; [|reflexivity].
      apply strip_space_shorter in E. apply IH; lia.
Qed.

(** The equation of [trimStart]. *)
Lemma trimStart_eq (s : string) :
  trimStart s = match strip_space s with
                | Some r => trimStart r
                | None => s
                end.
Proof.
  unfold trimStart. destruct s as [|c s]; [reflexivity|].
  cbn [String.length trimStart_upto].
  destruct (strip_space (String c s)) as [r|] eqn:E; [|reflexivity].
  apply strip_space_shorter in E. cbn [String.length] in E.
  apply trimStart_upto_enough; lia.
Qed.

Lemma trimStart_solid (s : string) : strip_space s = None -> trimStart s = s.
Proof. intros H. now rewrite trimStart_eq, H. Qed.

Lemma by_length (P : string -> Prop) :
  (forall s, (forall r, String.length r < String.length s -> P r) -> P s) ->
  forall s, P s.
Proof.
  intros step s.
  assert (G : forall n r, String.length r < n -> P r).
  { induction n as [|n IH]; intros r Hr; [lia|].
    apply step. intros r' Hr'. apply IH. lia. }
  apply (G (S (String.length s))). lia.
Qed.

(** What [trimStart] leaves starts with no white space. *)
Lemma trimStart_head (s : string) : strip_space (trimStart s) = None.
Proof.
  induction s as [s IH] using by_length. rewrite trimStart_eq.
  destruct (strip_space s) as [r|] eqn:E; [|exact E].
  apply IH. now apply strip_space_shorter.
Qed.

Lemma trimStart_idem (s : string) : trimStart (trimStart s) = trimStart s.
Proof. apply trimStart_solid, trimStart_head. Qed.

Lemma trimStart_length (s : string) : String.length (trimStart s) <= String.length s.
Proof.
  induction s as [s IH] using by_length. rewrite trimStart_eq.
  destruct (strip_space s) as [r|] eqn:E; [|lia].
  pose proof (strip_space_shorter _ _ E). specialize (IH r H). lia.
Qed.

Lemma all_spaces_eq (s : string) :
  all_spaces s = match s with
                 | EmptyString => true
                 | String _ _ =>
                     match strip_space s with
                     | Some r => all_spaces r
                     | None => false
                     end
                 end.
Proof.
  unfold all_spaces. rewrite trimStart_eq. destruct s as [|c s]; [reflexivity|].
  destruct (strip_space (String c s)); reflexivity.
Qed.

Lemma all_spaces_trimStart (s : string) :
  all_spaces s = true <-> trimStart s = EmptyString.
Proof. unfold all_spaces. destruct (trimStart s); split; congruence. Qed.

(** White space before a text is skipped with the white space the text
    begins with. *)
Lemma trimStart_app (gap s : string) :
  all_spaces gap = true -> trimStart (gap ++ s) = trimStart s.
Proof.
  induction gap as [gap IH] using by_length. intros H.
  rewrite all_spaces_eq in H. destruct gap as [|c gap]; [reflexivity|].
  destruct (strip_space (String c gap)) as [r|] eqn:E; [|discriminate].
  rewrite (trimStart_eq (String c gap ++ s)), (strip_space_app _ s _ E).
  apply IH; [now apply strip_space_shorter | exact H].
Qed.

Lemma all_spaces_app (a b : string) :
  all_spaces a = true -> all_spaces (a ++ b) = all_spaces b.
Proof. intros H. unfold all_spaces. now rewrite trimStart_app. Qed.

Lemma trimStart_split (s : string) :
  exists ws, s = ws ++ trimStart s /\ all_spaces ws = true.
Proof.
  induction s as [s IH] using by_length. rewrite trimStart_eq.
  destruct (strip_space s) as [r|] eqn:E; [|now exists EmptyString].
  destruct (IH r (strip_space_shorter _ _ E)) as (ws & Hr & Hws).
  destruct (strip_space_sound _ _ E) as (w & Hin & Hw).
  pose proof (strip_prefix_sound _ _ _ Hw) as Hs.
  exists (w ++ ws). split.
  - rewrite append_assoc, <- Hr. exact Hs.
  - rewrite all_spaces_eq.
    pose proof (white_space_nonempty w Hin) as Hne.
    destruct (w ++ ws) as [|c x] eqn:Ex; [reflexivity|]. rewrite <- Ex.
    rewrite (strip_space_unique w (w ++ ws) ws Hin (strip_prefix_app w ws)).
    exact Hws.
Qed.

(** One white-space character is white space. *)
Lemma all_spaces_one (w : string) : In w white_space -> all_spaces w = true.
Proof.
  intros Hin. rewrite all_spaces_eq.
  pose proof (white_space_nonempty w Hin). destruct w as [|c w]; [congruence|].
  pose proof (strip_prefix_app (String c w) EmptyString) as G.
  rewrite append_empty_r in G.
  now rewrite (strip_space_unique _ _ _ Hin G).
Qed.

(** *** Trimming *)

Lemma trimEnd_eq (c : ascii) (r : string) :
  trimEnd (String c r)
  = if all_spaces (String c r) then EmptyString else String c (trimEnd r).
Proof. reflexivity. Qed.


(** What [trimEnd] removes is white space. *)
Lemma trimEnd_split (s : string) :
  exists ws, s = trimEnd s ++ ws /\ all_spaces ws = true.
Proof.
  induction s as [|c r IH]; [now exists EmptyString|].
  rewrite trimEnd_eq. destruct (all_spaces (String c r)) eqn:E.
  - now exists (String c r).
  - destruct IH as (ws & Hr & Hws). exists ws. split; [|exact Hws].
    cbn. now rewrite <- Hr.
Qed.

Lemma strip_space_prefix_none (g t : string) :
  strip_space (g ++ t) = None -> strip_space g = None.
Proof.
  intros H. destruct (strip_space g) as [r|] eqn:E; [|reflexivity].
  rewrite (strip_space_app _ t _ E) in H. discriminate.
Qed.

Lemma trimEnd_idem (s : string) : trimEnd (trimEnd s) = trimEnd s.
Proof.
  induction s as [|c r IH]; [reflexivity|].
  rewrite trimEnd_eq. destruct (all_spaces (String c r)) eqn:E; [reflexivity|].
  rewrite trimEnd_eq, IH.
  destruct (all_spaces (String c (trimEnd r))) eqn:E'; [exfalso | reflexivity].
  destruct (trimEnd_split r) as (ws & Hr & Hws).
  rewrite Hr in E. change (String c (trimEnd r ++ ws)) with (String c (trimEnd r) ++ ws) in E.
  rewrite (all_spaces_app _ ws E') in E. congruence.
Qed.

(** Trimming at the end keeps a head that is not white space. *)
Lemma trimEnd_head (s : string) : strip_space s = None -> strip_space (trimEnd s) = None.
Proof.
  intros H. destruct (trimEnd_split s) as (ws & Hs & _).
  rewrite Hs in H. exact (strip_space_prefix_none _ _ H).
Qed.

(** [trim] is idempotent: a trimmed text has no white space left at
    either end. *)
Lemma trim_idem (s : string) : trim (trim s) = trim s.
Proof.
  unfold trim.
  rewrite (trimStart_solid (trimEnd (trimStart s))).
  - apply trimEnd_idem.
  - apply trimEnd_head, trimStart_head.
Qed.

(** White space holds no byte of the other characters. *)
Lemma all_spaces_bytes (c : ascii) (s : string) :
  solid_byte c = true -> all_spaces s = true -> has_byte c s = false.
Proof.
  intros Hc. induction s as [s IH] using by_length. intros H.
  rewrite all_spaces_eq in H. destruct s as [|a s]; [reflexivity|].
  destruct (strip_space (String a s)) as [r|] eqn:E; [|discriminate].
  destruct (strip_space_sound _ _ E) as (w & Hin & Hw).
  rewrite (strip_prefix_sound _ _ _ Hw), has_byte_app.
  rewrite (IH r (strip_space_shorter _ _ E) H), orb_false_r.
  unfold solid_byte in Hc. rewrite forallb_forall in Hc.
  specialize (Hc w Hin). now apply negb_true_iff in Hc.
Qed.

Lemma ends_with_char_has_byte (c : ascii) (s : string) :
  ends_with_char c s = true -> has_byte c s = true.
Proof.
  induction s as [|a r IH]; [discriminate|]. intros H. cbn [has_byte].
  destruct r as [|b r].
  - simpl in H. apply Ascii.eqb_eq in H. subst a. now rewrite Ascii.eqb_refl.
  - rewrite (IH H). apply orb_true_r.
Qed.

Lemma ends_with_char_split (c : ascii) (s : string) :
  ends_with_char c s = true -> exists x, s = x ++ String c EmptyString.
Proof.
  induction s as [|a r IH]; [discriminate|]. intros H. destruct r as [|b r].
  - simpl in H. apply Ascii.eqb_eq in H. subst a. now exists EmptyString.
  - destruct (IH H) as (x & Hx). exists (String a x). cbn. now rewrite <- Hx.
Qed.

Lemma ends_with_char_app (c : ascii) (a s : string) :
  s <> EmptyString -> ends_with_char c (a ++ s) = ends_with_char c s.
Proof.
  intros Hs. induction a as [|x a IH]; [reflexivity|].
  cbn [append ends_with_char]. destruct (a ++ s) as [|y r] eqn:E; [|exact IH].
  destruct a; [cbn in E; congruence | discriminate].
Qed.



(** *** Occurrences *)

Lemma contains_cons_false p c s :
  contains p (String c s) = false ->
  strip_prefix p (String c s) = None /\ contains p s = false.
Proof.
  unfold contains. simpl.
  destruct (strip_prefix p (String c s)); [discriminate|]. auto.
Qed.

Lemma after_first_hit p s r : strip_prefix p s = Some r -> after_first p s = Some r.
Proof. intros H. destruct s; simpl; now rewrite H. Qed.

Lemma after_first_miss p c s :
  strip_prefix p (String c s) = None -> after_first p (String c s) = after_first p s.
Proof. intros H. simpl after_first. now rewrite H. Qed.

Lemma contains_hit p s r : strip_prefix p s = Some r -> contains p s = true.
Proof. intros H. unfold contains. now rewrite (after_first_hit _ _ _ H). Qed.

(** An occurrence in a tail is an occurrence in the text. *)
Lemma contains_tail (p a s : string) :
  contains p (a ++ s) = false -> contains p s = false.
Proof.
  induction a as [|c a IH]; [auto|]. intros H.
  change (String c a ++ s) with (String c (a ++ s)) in H.
  apply contains_cons_false in H. now apply IH.
Qed.

(** An occurrence in a beginning is an occurrence in the text. *)
Lemma contains_front (p s t : string) :
  contains p (s ++ t) = false -> contains p s = false.
Proof.
  induction s as [|c s IH]; intros H.
  - destruct (contains p EmptyString) eqn:E; [|reflexivity].
    unfold contains in E. cbn [after_first] in E.
    destruct (strip_prefix p EmptyString) as [x|] eqn:Ex; [|discriminate].
    apply (strip_prefix_app_l _ _ t) in Ex. apply contains_hit in Ex.
    cbn in Ex. cbn in H. congruence.
  - change (String c s ++ t) with (String c (s ++ t)) in H.
    apply contains_cons_false in H. destruct H as [Hn Hr].
    unfold contains. cbn [after_first].
    destruct (strip_prefix p (String c s)) as [x|] eqn:Ex.
    + apply (strip_prefix_app_l _ _ t) in Ex.
      change (String c s ++ t) with (String c (s ++ t)) in Ex. congruence.
    + exact (IH Hr).
Qed.

(** What [after_first] returns follows the first occurrence. *)
Lemma after_first_sound (p : string) (c0 : ascii) (p0 : string) :
  p = String c0 p0 ->
  forall s r, after_first p s = Some r ->
              exists pre, s = pre ++ p ++ r /\ contains p pre = false.
Proof.
  intros Hp. induction s as [|c s IH]; intros r H.
  - cbn in H. destruct (strip_prefix p EmptyString) as [x|] eqn:E.
    + subst p. discriminate.
    + discriminate.
  - cbn [after_first] in H.
    destruct (strip_prefix p (String c s)) as [x|] eqn:E.
    + injection H as <-. exists EmptyString. split.
      * exact (strip_prefix_sound _ _ _ E).
      * subst p. reflexivity.
    + destruct (IH r H) as (pre & Hs & Hpre). exists (String c pre). split.
      * cbn. now rewrite Hs.
      * unfold contains. cbn [after_first].
        destruct (strip_prefix p (String c pre)) as [y|] eqn:Ey.
        -- apply (strip_prefix_app_l _ _ (p ++ r)) in Ey.
           rewrite Hs in E. cbn in E, Ey. congruence.
        -- exact Hpre.
Qed.

Lemma fence_json_no_overlap (s q t r : string) :
  fence_json = String.append s q -> s <> EmptyString ->
  strip_prefix q (fence_json ++ t) = Some r -> q = EmptyString.
Proof.
  unfold fence_json. intros E Hs H.
  destruct s as [|c1 s]; [congruence|].
  repeat (destruct s as [|? s];
          [ simpl in E; injection E as; subst; simpl in H; try discriminate; reflexivity
          | simpl in E; try discriminate ]).
  all: injection E as; subst; try discriminate.
Qed.

(** The first [```json] of a text is the one no [```json] precedes. *)
Lemma after_first_fence_json (pre rest : string) :
  contains fence_json pre = false ->
  after_first fence_json (pre ++ fence_json ++ rest) = Some rest.
Proof.
  induction pre as [|c pre IH]; intros H.
  - apply after_first_hit. exact (strip_prefix_app fence_json rest).
  - apply contains_cons_false in H. destruct H as [Hnone Hrest].
    change (String c pre ++ fence_json ++ rest)
      with (String c (pre ++ fence_json ++ rest)).
    rewrite after_first_miss; [now apply IH|].
    destruct (strip_prefix fence_json (String c (pre ++ fence_json ++ rest)))
      as [r|] eqn:E; [exfalso | reflexivity].
    change (String c (pre ++ fence_json ++ rest))
      with (String c pre ++ (fence_json ++ rest)) in E.
    apply strip_prefix_app_inv in E.
    destruct E as [(r' & E & _) | (q & E1 & E2)]; [congruence|].
    assert (q = EmptyString)
      by (eapply fence_json_no_overlap; eauto; discriminate).
    subst q. rewrite append_empty_r in E1.
    rewrite <- E1 in Hnone.
    pose proof (strip_prefix_app fence_json EmptyString) as E3.
    rewrite append_empty_r in E3. congruence.
Qed.

(** *** The fence pattern *)

Lemma skip_spaces_app (gap s : string) :
  all_spaces gap = true -> skip_spaces (gap ++ s) = skip_spaces s.
Proof. apply trimStart_app. Qed.

Lemma skip_spaces_solid (c : ascii) (s : string) :
  solid_byte c = true -> skip_spaces (String c s) = String c s.
Proof. intros H. apply trimStart_solid. now apply strip_space_solid. Qed.

Lemma skip_spaces_split (s : string) :
  exists ws, s = ws ++ skip_spaces s /\ all_spaces ws = true.
Proof. apply trimStart_split. Qed.

(** A text that ends with a closing brace has a first solid character:
    skipping white space leaves a non-empty text that ends the same. *)
Lemma skip_spaces_ends (s t : string) :
  ends_with_char "}" s = true ->
  exists s', s' <> EmptyString /\ ends_with_char "}" s' = true
             /\ skip_spaces (s ++ t) = s' ++ t
             /\ (forall p, contains p s = false -> contains p s' = false).
Proof.
  intros H. destruct (skip_spaces_split s) as (ws & Hs & Hws).
  unfold skip_spaces in *. set (s' := trimStart s) in *.
  assert (Hne : s' <> EmptyString).
  { intros E. rewrite E, append_empty_r in Hs. subst ws.
    pose proof (all_spaces_bytes "}" s eq_refl Hws) as G.
    rewrite (ends_with_char_has_byte _ _ H) in G. discriminate. }
  assert (He : ends_with_char "}" s' = true).
  { rewrite Hs in H. now rewrite ends_with_char_app in H. }
  exists s'. repeat split; auto.
  - rewrite Hs at 1. rewrite append_assoc, trimStart_app by exact Hws.
    apply trimStart_solid.
    destruct (ends_with_char_split _ _ He) as (x & Hx).
    rewrite Hx, append_assoc. apply strip_space_app_none; [|reflexivity].
    apply (strip_space_prefix_none x (String "}" EmptyString)).
    rewrite <- Hx. apply trimStart_head.
  - intros p Hp. rewrite Hs in Hp. exact (contains_tail _ _ _ Hp).
Qed.

Lemma ends_with_char_app_one (s q : string) (c : ascii) :
  String.append s q = String c EmptyString -> s <> EmptyString -> s = String c EmptyString.
Proof.
  destruct s as [|a s]; [congruence|]. simpl. intros E _.
  injection E as -> E. destruct s; [reflexivity | discriminate].
Qed.

(** No closing fence is seen at a place from which the text runs on to a
    closing brace without meeting three back-quotes. *)
Lemma closes_here_inside (s t : string) :
  ends_with_char "}" s = true ->
  contains fence s = false ->
  closes_here (s ++ t) = false.
Proof.
  intros He Hc.
  destruct (skip_spaces_ends s t He) as (s' & Hne & He' & Hs & Hc').
  specialize (Hc' fence Hc).
  unfold closes_here, starts_with. rewrite Hs.
  destruct (strip_prefix fence (s' ++ t)) as [r|] eqn:E; [exfalso | reflexivity].
  apply strip_prefix_app_inv in E.
  destruct E as [(r' & E & _) | (q & E1 & _)].
  - apply contains_hit in E. congruence.
  - unfold fence in E1.
    destruct s' as [|a s']; [congruence|].
    simpl in E1. injection E1 as <- E1.
    destruct s' as [|b s']; [discriminate He'|].
    simpl in E1. injection E1 as <- E1.
    destruct s' as [|c s']; [discriminate He'|].
    simpl in E1. injection E1 as <- E1.
    destruct s' as [|d s']; [discriminate He' | discriminate E1].
Qed.

Lemma ends_with_char_tail (c a : ascii) (s : string) :
  s <> EmptyString -> ends_with_char c (String a s) = true -> ends_with_char c s = true.
Proof. destruct s; [congruence | auto]. Qed.

Lemma lazy_capture_here (s : string) :
  closes_here s = true -> lazy_capture s = Some EmptyString.
Proof. intros H. destruct s; cbn [lazy_capture]; now rewrite H. Qed.

(** The lazy group stops at the end of the block's text. *)
Lemma lazy_capture_body (body tail : string) :
  ends_with_char "}" body = true ->
  contains fence body = false ->
  closes_here tail = true ->
  lazy_capture (body ++ tail) = Some body.
Proof.
  intros He Hc Ht. induction body as [|c body IH]; [discriminate|].
  change (String c body ++ tail) with (String c (body ++ tail)).
  cbn [lazy_capture].
  change (String c (body ++ tail)) with (String c body ++ tail).
  rewrite (closes_here_inside _ tail He Hc).
  apply contains_cons_false in Hc. destruct Hc as [_ Hc].
  destruct body as [|c' body].
  - change (EmptyString ++ tail) with tail.
    now rewrite (lazy_capture_here tail Ht).
  - rewrite IH; auto.
Qed.

Lemma closes_here_fence (s x : string) :
  strip_prefix fence s = Some x -> closes_here s = true.
Proof.
  intros H. pose proof (strip_prefix_sound _ _ _ H) as ->.
  unfold closes_here, skip_spaces.
  rewrite (trimStart_solid (fence ++ x)); [|now apply (strip_space_solid "`")].
  unfold starts_with. now rewrite strip_prefix_app.
Qed.

Lemma closes_here_gap (gap post : string) :
  all_spaces gap = true -> closes_here (gap ++ fence ++ post) = true.
Proof.
  intros H. unfold closes_here. rewrite skip_spaces_app by exact H.
  apply (closes_here_fence _ post), strip_prefix_app.
Qed.

Lemma closes_here_split (s : string) :
  closes_here s = true ->
  exists ws post, s = ws ++ fence ++ post /\ all_spaces ws = true.
Proof.
  unfold closes_here, starts_with. intros H.
  destruct (strip_prefix fence (skip_spaces s)) as [post|] eqn:E; [|discriminate].
  apply strip_prefix_sound in E.
  destruct (skip_spaces_split s) as (ws & Hs & Hws).
  exists ws, post. rewrite <- E. auto.
Qed.

Lemma closes_here_app (gap s : string) :
  all_spaces gap = true -> closes_here (gap ++ s) = closes_here s.
Proof. intros H. unfold closes_here. now rewrite skip_spaces_app. Qed.

(** The pattern applied to a text whose first [```json] fence opens a
    block holding [body]. *)
Lemma jsonStr_fenced (pre gap1 body gap2 post : string) :
  contains fence_json pre = false ->
  all_spaces gap1 = true ->
  all_spaces gap2 = true ->
  object_text body = true ->
  contains fence body = false ->
  jsonStr (pre ++ fence_json ++ gap1 ++ body ++ gap2 ++ fence ++ post) = body.
Proof.
  intros Hpre Hg1 Hg2 Hobj Hbody.
  unfold object_text in Hobj. apply andb_true_iff in Hobj. destruct Hobj as [Hs He].
  unfold jsonStr, match_json_fence.
  rewrite after_first_fence_json by exact Hpre.
  rewrite skip_spaces_app by exact Hg1.
  destruct body as [|c body]; [discriminate|].
  unfold starts_with in Hs. cbn [strip_prefix] in Hs.
  destruct (Ascii.eqb_spec "{" c) as [<-|]; [|discriminate].
  change (String "{" body ++ gap2 ++ fence ++ post)
    with (String "{" (body ++ gap2 ++ fence ++ post)).
  rewrite skip_spaces_solid by reflexivity.
  change (String "{" (body ++ gap2 ++ fence ++ post))
    with (String "{" body ++ (gap2 ++ fence ++ post)).
  rewrite lazy_capture_body; auto using closes_here_gap.
Qed.

(** The lazy group: what it captures is followed by the closing fence,
    ends with no white space and holds no fence. *)
Lemma lazy_capture_sound (s : string) :
  forall g, lazy_capture s = Some g ->
            (exists tail, s = g ++ tail /\ closes_here tail = true)
            /\ trimEnd g = g
            /\ contains fence g = false.
Proof.
  induction s as [|c r IH]; intros g H.
  - cbn [lazy_capture] in H. destruct (closes_here EmptyString) eqn:E; [|discriminate].
    discriminate E.
  - cbn [lazy_capture] in H. destruct (closes_here (String c r)) eqn:E.
    + injection H as <-. split; [|split; reflexivity].
      now exists (String c r).
    + destruct (lazy_capture r) as [g'|] eqn:Eg; [|discriminate].
      injection H as <-. destruct (IH g' eq_refl) as ((tail & Hr & Ht) & He & Hc).
      split; [|split].
      * exists tail. cbn. now rewrite <- Hr.
      * rewrite trimEnd_eq, He.
        destruct (all_spaces (String c g')) eqn:Hs; [exfalso | reflexivity].
        rewrite Hr in E. change (String c (g' ++ tail)) with (String c g' ++ tail) in E.
        rewrite (closes_here_app _ tail Hs) in E. congruence.
      * unfold contains. cbn [after_first].
        destruct (strip_prefix fence (String c g')) as [x|] eqn:Ex.
        -- apply (strip_prefix_app_l _ _ tail) in Ex.
           change (String c g' ++ tail) with (String c (g' ++ tail)) in Ex.
           rewrite <- Hr in Ex. apply closes_here_fence in Ex. congruence.
        -- exact Hc.
Qed.

Lemma lazy_capture_head (s g : string) :
  trimStart s = s -> lazy_capture s = Some g -> trimStart g = g.
Proof.
  intros Hs H. destruct (lazy_capture_sound _ _ H) as ((tail & Hg & _) & _ & _).
  apply trimStart_solid, (strip_space_prefix_none g tail).
  rewrite <- Hg, <- Hs. apply trimStart_head.
Qed.

(** Without a triple back-quote no fence closes. *)
Lemma lazy_capture_none (s : string) :
  contains fence s = false -> lazy_capture s = None.
Proof.
  intros H. destruct (lazy_capture s) as [g|] eqn:E; [exfalso | reflexivity].
  destruct (lazy_capture_sound _ _ E) as ((tail & Hs & Ht) & _ & _).
  destruct (closes_here_split _ Ht) as (ws & post & Htail & _).
  rewrite Hs, Htail in H. apply contains_tail, contains_tail in H.
  rewrite (contains_hit _ _ _ (strip_prefix_app fence post)) in H. discriminate.
Qed.

Lemma fence_free_tail (a s : string) : fence_free (a ++ s) = true -> fence_free s = true.
Proof.
  unfold fence_free. rewrite !negb_true_iff, append_assoc. apply contains_tail.
Qed.

Lemma fence_free_contains (s : string) :
  fence_free s = true -> contains fence s = false.
Proof. unfold fence_free. rewrite negb_true_iff. apply contains_front. Qed.

(** Where the first triple back-quote lies behind [y], the closing fence
    matches at the head exactly when [y] is white space. *)
Lemma closes_here_first (y post : string) :
  fence_free y = true -> closes_here (y ++ fence ++ post) = all_spaces y.
Proof.
  intros H. destruct (skip_spaces_split y) as (ws & Hy & Hws).
  unfold skip_spaces in Hy. rewrite Hy at 1.
  rewrite append_assoc, closes_here_app by exact Hws.
  rewrite Hy in H. apply fence_free_tail in H.
  unfold all_spaces. pose proof (trimStart_head y) as Hh.
  destruct (trimStart y) as [|c y'] eqn:E.
  - exact (closes_here_fence (fence ++ post) post (strip_prefix_app fence post)).
  - unfold closes_here, skip_spaces.
    rewrite (trimStart_solid (String c y' ++ fence ++ post))
      by now apply (strip_space_app_none _ "`").
    unfold starts_with.
    destruct (strip_prefix fence (String c y' ++ fence ++ post)) as [r|] eqn:Er;
      [exfalso | reflexivity].
    unfold fence_free in H. apply negb_true_iff in H.
    apply strip_prefix_app_inv in Er. destruct Er as [(r' & Er & _) | (q & Eq & _)].
    + apply (strip_prefix_app_l _ _ "``") in Er. apply contains_hit in Er. congruence.
    + unfold fence in Eq. injection Eq as <- Eq.
      destruct y' as [|b y']; [discriminate H|]. injection Eq as <- Eq.
      destruct y' as [|d y']; [discriminate H|]. injection Eq as <- Eq.
      destruct y'; [discriminate H | discriminate Eq].
Qed.

(** The lazy group ends where the white space before the first triple
    back-quote begins. *)
Lemma lazy_capture_first (y post : string) :
  fence_free y = true -> lazy_capture (y ++ fence ++ post) = Some (trimEnd y).
Proof.
  induction y as [|c y IH]; intros H.
  - apply lazy_capture_here.
    exact (closes_here_fence (fence ++ post) post (strip_prefix_app fence post)).
  - change (String c y ++ fence ++ post) with (String c (y ++ fence ++ post)).
    cbn [lazy_capture].
    change (String c (y ++ fence ++ post)) with (String c y ++ fence ++ post).
    rewrite (closes_here_first _ post H), trimEnd_eq.
    destruct (all_spaces (String c y)); [reflexivity|].
    rewrite IH; [reflexivity|]. exact (fence_free_tail (String c EmptyString) y H).
Qed.

(** After the white space behind the opening fence the lazy group takes
    [x] up to the white space before the first triple back-quote. *)
Lemma lazy_capture_trimmed (x post : string) :
  fence_free x = true ->
  lazy_capture (skip_spaces (x ++ fence ++ post)) = Some (trim x).
Proof.
  intros Hx. destruct (skip_spaces_split x) as (ws & Hs & Hws). unfold skip_spaces in *.
  rewrite Hs at 1. rewrite append_assoc, trimStart_app by exact Hws.
  rewrite (trimStart_solid (trimStart x ++ fence ++ post)).
  - apply lazy_capture_first. rewrite Hs in Hx. exact (fence_free_tail _ _ Hx).
  - apply (strip_space_app_none _ "`"); [apply trimStart_head | reflexivity].
Qed.

(** The pattern applied to a text whose first [```json] is followed by
    [x] and then by the first triple back-quote after it: the group is
    [x] without the white space at its ends, whatever comes behind. *)
Lemma match_json_fence_first (pre x post : string) :
  contains fence_json pre = false ->
  fence_free x = true ->
  match_json_fence (pre ++ fence_json ++ x ++ fence ++ post) = Some (trim x).
Proof.
  intros Hpre Hx. unfold match_json_fence.
  rewrite after_first_fence_json by exact Hpre.
  now apply lazy_capture_trimmed.
Qed.

Lemma trim_app (gap x : string) : all_spaces gap = true -> trim (gap ++ x) = trim x.
Proof. intros H. unfold trim. now rewrite trimStart_app. Qed.

Lemma fence_none_fence_json (s : string) :
  contains fence s = false -> contains fence_json s = false.
Proof.
  intros H. destruct (contains fence_json s) eqn:E; [exfalso | reflexivity].
  unfold contains in E.
  destruct (after_first fence_json s) as [r|] eqn:Ea; [|discriminate].
  destruct (after_first_sound fence_json _ _ eq_refl _ _ Ea) as (pre & Hs & _).
  rewrite Hs in H. apply contains_tail in H.
  change (fence_json ++ r) with (fence ++ ("json" ++ r)) in H.
  rewrite (contains_hit _ _ _ (strip_prefix_app fence _)) in H. discriminate.
Qed.

(** Without an opening [```json], or without a triple back-quote behind
    the first one, the pattern finds nothing. *)
Lemma match_json_fence_unopened (output : string) :
  contains fence_json output = false -> match_json_fence output = None.
Proof.
  unfold contains, match_json_fence.
  now destruct (after_first fence_json output).
Qed.

Lemma match_json_fence_unclosed (pre rest : string) :
  contains fence_json pre = false ->
  contains fence rest = false ->
  match_json_fence (pre ++ fence_json ++ rest) = None.
Proof.
  intros Hpre Hrest. unfold match_json_fence.
  rewrite after_first_fence_json by exact Hpre.
  apply lazy_capture_none.
  destruct (skip_spaces_split rest) as (ws & Hs & _).
  rewrite Hs in Hrest. exact (contains_tail _ _ _ Hrest).
Qed.

End StringFacts.

(* ===================================================================== *)
(** ** Facts about the parsing layer *)
(* ===================================================================== *)

Module ParsingFacts.
Import JsString Js Fence Types Parsing ParsingContract Observations StringFacts.

Lemma type_named_value (name : string) (t : IssueType) :
  type_named name = Some t -> name = IssueType_value t.
Proof.
  unfold type_named. intros H. apply find_some in H. destruct H as [_ H].
  now apply String.eqb_eq in H.
Qed.

Lemma severity_named_value (name : string) (s : IssueSeverity) :
  severity_named name = Some s -> name = IssueSeverity_value s.
Proof.
  unfold severity_named. intros H. apply find_some in H. destruct H as [_ H].
  now apply String.eqb_eq in H.
Qed.

Lemma parseIssueType_named (t : string) (ty : IssueType) :
  type_named (toLowerCase t) = Some ty ->
  parseIssueType (VString t) = Normal (Member ty).
Proof.
  intros H. apply type_named_value in H. unfold parseIssueType. simpl.
  rewrite H. now destruct ty.
Qed.

Lemma parseSeverity_named (s : string) (sev : IssueSeverity) :
  severity_named (toLowerCase s) = Some sev ->
  parseSeverity (VString s) = Normal (Member sev).
Proof.
  intros H. apply severity_named_value in H. unfold parseSeverity. simpl.
  rewrite H. now destruct sev.
Qed.

(** An issue object that declares its type and severity is converted,
    whatever else it holds. *)
Lemma issue_of_declared (index : nat) (item : value) (ty : IssueType)
  (sev : IssueSeverity) :
  declared item = Some (ty, sev) ->
  exists i, issue_of index item = Normal i
            /\ issue_type i = Member ty /\ issue_severity i = Member sev.
Proof.
  unfold declared. destruct item as [| | | | |items|props]; try discriminate.
  destruct (assoc "type" props) as [[| | | |t| |]|] eqn:Et; try discriminate.
  destruct (assoc "severity" props) as [[| | | |s| |]|] eqn:Es; try discriminate.
  destruct (type_named (toLowerCase t)) as [ty'|] eqn:Ety; [|discriminate].
  destruct (severity_named (toLowerCase s)) as [sev'|] eqn:Esev; [|discriminate].
  intros [= <- <-].
  unfold issue_of, get. rewrite Et, Es. cbn [Js.bind].
  rewrite (parseIssueType_named _ _ Ety), (parseSeverity_named _ _ Esev).
  cbn [Js.bind].
  destruct (assoc "description" props), (assoc "filePath" props),
    (assoc "lineNumber" props), (assoc "suggestedFix" props);
    cbn [Js.bind]; eexists; (split; [reflexivity|]); split; reflexivity.
Qed.

Lemma map_from_declared (items : list value) :
  forall (index : nat) (decl : list (IssueType * IssueSeverity)),
    map declared items = map Some decl ->
    exists r, map_from index items = Normal r
              /\ List.length r = List.length items
              /\ map issue_type r = map (fun d => Member (fst d)) decl
              /\ map issue_severity r = map (fun d => Member (snd d)) decl.
Proof.
  induction items as [|item items IH]; intros index decl H.
  - destruct decl; [|discriminate]. exists []. repeat split.
  - destruct decl as [|[ty sev] decl]; [discriminate|].
    simpl in H. injection H as Hitem Hrest.
    destruct (issue_of_declared index item ty sev Hitem) as (i & Hi & Ht & Hs).
    destruct (IH (S index) decl Hrest) as (r & Hr & Hlen & Hts & Hss).
    exists (i :: r). cbn [map_from]. rewrite Hi. cbn [Js.bind]. rewrite Hr.
    cbn [Js.bind]. simpl. repeat split; congruence.
Qed.


(** What the defaults of the tables do give: a missing type, or a name
    that is neither a member's nor inherited, becomes [BUG]. *)
Lemma parseIssueType_fallback (type : value) :
  match type with
  | VUndefined | VNull => True
  | VString t =>
      type_named (toLowerCase t) = None /\ inherited (toLowerCase t) = false
  | _ => False
  end ->
  parseIssueType type = Normal (Member BUG).
Proof.
  destruct type as [| | | |t| |]; try contradiction; try reflexivity.
  intros [Hn Hi]. unfold parseIssueType. cbn [opt_toLowerCase Js.bind property_key].
  unfold table_get_or, table_get. rewrite Hi.
  unfold type_named in Hn. simpl in Hn. unfold typeMap. simpl.
  destruct (toLowerCase t =? "bug")%string; [discriminate|].
  destruct (toLowerCase t =? "security")%string; [discriminate|].
  destruct (toLowerCase t =? "performance")%string; [discriminate|].
  destruct (toLowerCase t =? "design")%string; [discriminate|].
  reflexivity.
Qed.

Lemma parseSeverity_fallback (severity : value) :
  match severity with
  | VUndefined | VNull => True
  | VString s =>
      severity_named (toLowerCase s) = None /\ inherited (toLowerCase s) = false
  | _ => False
  end ->
  parseSeverity severity = Normal (Member MEDIUM).
Proof.
  destruct severity as [| | | |s| |]; try contradiction; try reflexivity.
  intros [Hn Hi]. unfold parseSeverity. cbn [opt_toLowerCase Js.bind property_key].
  unfold table_get_or, table_get. rewrite Hi.
  unfold severity_named in Hn. simpl in Hn. unfold severityMap. simpl.
  destruct (toLowerCase s =? "critical")%string; [discriminate|].
  destruct (toLowerCase s =? "high")%string; [discriminate|].
  destruct (toLowerCase s =? "medium")%string; [discriminate|].
  destruct (toLowerCase s =? "low")%string; [discriminate|].
  reflexivity.
Qed.

(** A type or severity that is neither a string nor missing makes the
    conversion of the issue throw. *)
Lemma parseIssueType_not_a_string (type : value) :
  match type with
  | VUndefined | VNull | VString _ => False
  | _ => True
  end ->
  parseIssueType type = Throw TypeError.
Proof. destruct type; try contradiction; reflexivity. Qed.

Ltac step_binds :=
  repeat match goal with
         | |- context [Js.bind ?c _] =>
             let E := fresh "E" in destruct c eqn:E; cbn [Js.bind]
         end.

Lemma issue_of_id (index : nat) (item : value) (i : CodeIssue) :
  issue_of index item = Normal i -> issue_id i = generated_id index.
Proof.
  unfold issue_of. step_binds; try discriminate. now intros [= <-].
Qed.

Lemma map_from_ids (items : list value) :
  forall (index : nat) (r : list CodeIssue),
    map_from index items = Normal r ->
    List.length r = List.length items
    /\ map issue_id r = map generated_id (seq index (List.length items)).
Proof.
  induction items as [|item items IH]; intros index r H.
  - injection H as <-. split; reflexivity.
  - cbn [map_from] in H.
    destruct (issue_of index item) as [i|] eqn:Ei; cbn [Js.bind] in H; [|discriminate].
    destruct (map_from (S index) items) as [rest|] eqn:Er; cbn [Js.bind] in H;
      [|discriminate].
    injection H as <-. destruct (IH _ _ Er) as [Hlen Hids].
    simpl. rewrite Hlen, Hids, (issue_of_id _ _ _ Ei). split; reflexivity.
Qed.

Lemma to_uint_nonnil (n : nat) : Nat.to_uint n <> Decimal.Nil.
Proof.
  rewrite <- (DecimalNat.Unsigned.of_to n) at 1.
  rewrite DecimalNat.Unsigned.to_of. apply DecimalFacts.unorm_nonnil.
Qed.

Lemma decimal_injective (n m : nat) : decimal n = decimal m -> n = m.
Proof.
  unfold decimal. intros H.
  apply DecimalNat.Unsigned.to_uint_inj.
  pose proof (NilZero.usu _ (to_uint_nonnil n)) as Hn.
  pose proof (NilZero.usu _ (to_uint_nonnil m)) as Hm.
  rewrite H in Hn. congruence.
Qed.

Lemma generated_id_injective (i j : nat) : generated_id i = generated_id j -> i = j.
Proof.
  unfold generated_id. intros H. simpl in H. injection H as H.
  apply decimal_injective in H. lia.
Qed.

Lemma generated_ids_NoDup (n : nat) : NoDup (map generated_id (seq 0 n)).
Proof.
  apply Injective_map_NoDup; [|apply seq_NoDup].
  intros i j. apply generated_id_injective.
Qed.

Lemma find_entry_found (entries : list value) (id : string) (c : value) :
  find_entry entries id = Normal (Some c) ->
  In c entries /\ get c "issueId" = Normal (VString id).
Proof.
  induction entries as [|e entries IH]; cbn [find_entry]; [discriminate|].
  destruct (get e "issueId") as [x|] eqn:Ex; cbn [Js.bind]; [|discriminate].
  destruct (strict_eq_string x id) eqn:Eq.
  - intros [= <-]. split; [now left|].
    destruct x; try discriminate. apply String.eqb_eq in Eq. now subst.
  - intros H. destruct (IH H). split; [now right | assumption].
Qed.

(** The loop keeps issues of the list it is given, in order, and only
    adds an assignment to them. *)
Lemma assign_loop_keeps (entries : list value) (issues : list CodeIssue) :
  forall r, assign_loop entries issues = Normal r ->
            forall x, In x r ->
                      exists issue cli, In issue issues /\ x = with_assignedTo issue cli.
Proof.
  induction issues as [|issue issues IH]; intros r H x Hx.
  - injection H as <-. contradiction.
  - cbn [assign_loop] in H.
    destruct (find_entry entries (issue_id issue)) as [confirmed|];
      cbn [Js.bind] in H; [|discriminate].
    match type of H with
    | Js.bind ?c _ = _ => destruct c as [flag|]; cbn [Js.bind] in H; [|discriminate]
    end.
    destruct (truthy flag).
    + match type of H with
      | Js.bind ?c _ = _ => destruct c as [a|]; cbn [Js.bind] in H; [|discriminate]
      end.
      destruct (parseCLIType a) as [cli|]; cbn [Js.bind] in H; [|discriminate].
      destruct (assign_loop entries issues) as [rest|]; cbn [Js.bind] in H;
        [|discriminate].
      injection H as <-. destruct Hx as [<-|Hx].
      * exists issue, cli. split; [now left | reflexivity].
      * destruct (IH rest eq_refl x Hx) as (i & c & Hi & Hc).
        exists i, c. split; [now right | assumption].
    + destruct (IH r H x Hx) as (i & c & Hi & Hc).
      exists i, c. split; [now right | assumption].
Qed.


Lemma get_issueId_readable (id : string) (e : value) :
  readable_entry e = true ->
  exists x, get e "issueId" = Normal x /\ strict_eq_string x id = refers_to id e.
Proof.
  destruct e as [| | | | | |props]; try discriminate; intros _;
    try (exists VUndefined; split; reflexivity).
  unfold get, refers_to. destruct (assoc "issueId" props) as [x|].
  - now exists x.
  - now exists VUndefined.
Qed.

Lemma find_entry_readable (entries : list value) (id : string) :
  forallb readable_entry entries = true ->
  find_entry entries id = Normal (deciding_entry entries id).
Proof.
  unfold deciding_entry.
  induction entries as [|e entries IH]; [reflexivity|].
  cbn [forallb]. intros H. apply andb_true_iff in H. destruct H as [He Hr].
  cbn [find_entry find].
  destruct (get_issueId_readable id e He) as (x & Hg & Hs).
  rewrite Hg. cbn [Js.bind]. rewrite Hs.
  destruct (refers_to id e); [reflexivity | now apply IH].
Qed.

Lemma backend_named_assoc (k : string) :
  assoc k cliMap = backend_named k.
Proof.
  unfold backend_named, cliMap. simpl.
  destruct (k =? "claude")%string; [reflexivity|].
  destruct (k =? "codex")%string; [reflexivity|].
  destruct (k =? "gemini")%string; reflexivity.
Qed.

(** The assignment of a readable entry that refers to an issue. *)
Lemma assignment_readable (id : string) (e : value) :
  readable_entry e = true ->
  refers_to id e = true ->
  exists flag a,
    get e "confirmed" = Normal flag /\ truthy flag = marked_confirmed e
    /\ get e "assignTo" = Normal a
    /\ parseCLIType a = Normal (Member (assigned_backend e)).
Proof.
  destruct e as [| | | | | |props]; try discriminate.
  unfold readable_entry, refers_to, get, marked_confirmed, assigned_backend.
  intros Hr _.
  exists (match assoc "confirmed" props with Some v => v | None => VUndefined end).
  exists (match assoc "assignTo" props with Some v => v | None => VUndefined end).
  repeat split.
  - now destruct (assoc "confirmed" props).
  - now destruct (assoc "confirmed" props).
  - now destruct (assoc "assignTo" props).
  - destruct (assoc "assignTo" props) as [[| | | |s| |]|]; try discriminate;
      try reflexivity.
    apply negb_true_iff in Hr.
    unfold parseCLIType. cbn [opt_toLowerCase Js.bind property_key].
    unfold table_get_or, table_get. rewrite backend_named_assoc, Hr.
    now destruct (backend_named (toLowerCase s)).
Qed.

Lemma assign_loop_readable (entries : list value) (issues : list CodeIssue) :
  forallb readable_entry entries = true ->
  assign_loop entries issues = Normal (verdict_kept entries issues).
Proof.
  intros Hr. induction issues as [|issue issues IH]; [reflexivity|].
  cbn [assign_loop]. rewrite (find_entry_readable _ _ Hr). cbn [Js.bind].
  unfold verdict_kept. cbn [flat_map]. fold (verdict_kept entries issues).
  destruct (deciding_entry entries (issue_id issue)) as [e|] eqn:Ed.
  - unfold deciding_entry in Ed. apply find_some in Ed. destruct Ed as [Hin Href].
    assert (He : readable_entry e = true)
      by (rewrite forallb_forall in Hr; now apply Hr).
    destruct (assignment_readable _ _ He Href) as (flag & a & -> & Hflag & -> & Hcli).
    cbn [Js.bind]. rewrite Hflag.
    destruct (marked_confirmed e).
    + cbn [Js.bind]. rewrite Hcli. cbn [Js.bind]. rewrite IH. reflexivity.
    + rewrite IH. reflexivity.
  - cbn [Js.bind truthy]. rewrite IH. reflexivity.
Qed.

Lemma verdict_kept_assigned (entries : list value) (issues : list CodeIssue) :
  Forall (fun x => exists issue c,
              In issue issues /\ x = with_assignedTo issue (Member c))
         (verdict_kept entries issues).
Proof.
  apply Forall_forall. intros x Hx. unfold verdict_kept in Hx.
  apply in_flat_map in Hx. destruct Hx as (issue & Hin & Hx).
  destruct (deciding_entry entries (issue_id issue)) as [e|]; [|contradiction].
  destruct (marked_confirmed e); [|contradiction].
  destruct Hx as [<-|[]]. now exists issue, (assigned_backend e).
Qed.

Lemma get_field (item : value) (name : string) :
  item <> VNull -> item <> VUndefined -> get item name = Normal (field item name).
Proof.
  intros H1 H2. destruct item; try congruence; try reflexivity.
  unfold get, field. now destruct (assoc name props).
Qed.

Lemma parseIssueType_nameable (v : value) :
  nameable v = true -> exists t, parseIssueType v = Normal t.
Proof. destruct v; try discriminate; intros _; eexists; reflexivity. Qed.

Lemma parseSeverity_nameable (v : value) :
  nameable v = true -> exists t, parseSeverity v = Normal t.
Proof. destruct v; try discriminate; intros _; eexists; reflexivity. Qed.

Lemma parseIssueType_unnameable (v : value) :
  nameable v = false -> parseIssueType v = Throw TypeError.
Proof. destruct v; try discriminate; reflexivity. Qed.

Lemma parseSeverity_unnameable (v : value) :
  nameable v = false -> parseSeverity v = Throw TypeError.
Proof. destruct v; try discriminate; reflexivity. Qed.

Lemma convertible_not_nullish (item : value) :
  convertible item = true -> item <> VNull /\ item <> VUndefined.
Proof. destruct item; try discriminate; split; discriminate. Qed.

Lemma issue_of_convertible (index : nat) (item : value) :
  convertible item = true ->
  exists i, issue_of index item = Normal i /\ converted item i.
Proof.
  intros H. destruct (convertible_not_nullish item H) as [H1 H2].
  assert (Hc : nameable (field item "type") && nameable (field item "severity") = true)
    by (destruct item; try discriminate; exact H).
  apply andb_true_iff in Hc. destruct Hc as [Ht Hs].
  destruct (parseIssueType_nameable _ Ht) as (t & Et).
  destruct (parseSeverity_nameable _ Hs) as (sv & Es).
  unfold issue_of. rewrite !get_field by assumption. cbn [Js.bind].
  rewrite Et. cbn [Js.bind]. rewrite Es. cbn [Js.bind].
  eexists. split; [reflexivity|]. unfold converted. cbn. repeat split; assumption.
Qed.

Lemma issue_of_inconvertible (index : nat) (item : value) :
  convertible item = false -> exists e, issue_of index item = Throw e.
Proof.
  intros H. destruct item as [| |b|n|s|items|props];
    try (eexists; reflexivity).
  all: unfold convertible in H; apply andb_false_iff in H;
    unfold issue_of;
    rewrite !get_field by discriminate; cbn [Js.bind];
    destruct (nameable (field _ "type")) eqn:Et.
  all: try (rewrite (parseIssueType_unnameable _ Et); eexists; reflexivity).
  all: destruct (parseIssueType_nameable _ Et) as (t & ->); cbn [Js.bind];
    destruct H as [H|H]; [discriminate|];
    rewrite (parseSeverity_unnameable _ H); eexists; reflexivity.
Qed.

Lemma map_from_convertible (items : list value) :
  forall index,
    (forallb convertible items = true ->
     exists r, map_from index items = Normal r /\ Forall2 converted items r)
    /\ (forallb convertible items = false ->
        exists e, map_from index items = Throw e).
Proof.
  induction items as [|item items IH]; intros index; cbn [forallb map_from].
  - split; [|discriminate]. intros _. exists []. split; [reflexivity | constructor].
  - destruct (convertible item) eqn:Hc; cbn [andb].
    + destruct (issue_of_convertible index item Hc) as (i & Ei & Hi).
      rewrite Ei. cbn [Js.bind]. destruct (IH (S index)) as [IH1 IH2]. split.
      * intros H. destruct (IH1 H) as (r & Er & Hr). rewrite Er. cbn [Js.bind].
        exists (i :: r). split; [reflexivity | now constructor].
      * intros H. destruct (IH2 H) as (e & Ee). rewrite Ee. now exists e.
    + split; [discriminate|]. intros _.
      destruct (issue_of_inconvertible index item Hc) as (e & Ee).
      rewrite Ee. now exists e.
Qed.

(** What the callback makes of the element at a position of the array
    is the issue at that position of the result. *)
Lemma map_from_positions (items : list value) :
  forall (index : nat) (r : list CodeIssue),
    map_from index items = Normal r ->
    forall i item,
      nth_error items i = Some item ->
      exists issue,
        nth_error r i = Some issue /\ issue_of (index + i) item = Normal issue.
Proof.
  induction items as [|x items IH]; intros index r H i item Hi.
  - destruct i; discriminate.
  - cbn [map_from] in H.
    destruct (issue_of index x) as [y|] eqn:Ey; cbn [Js.bind] in H; [|discriminate].
    destruct (map_from (S index) items) as [rest|] eqn:Er; cbn [Js.bind] in H;
      [|discriminate].
    injection H as <-. destruct i as [|i].
    + injection Hi as <-. exists y. rewrite Nat.add_0_r. auto.
    + cbn [nth_error] in Hi |- *. destruct (IH _ _ Er i item Hi) as (issue & Hn & Ho).
      exists issue. split; [exact Hn|]. now rewrite Nat.add_succ_r.
Qed.

Lemma issue_of_converted (index : nat) (item : value) (issue : CodeIssue) :
  issue_of index item = Normal issue -> converted item issue.
Proof.
  intros H. destruct (convertible item) eqn:Hc.
  - destruct (issue_of_convertible index item Hc) as (i & Ei & Hi). congruence.
  - destruct (issue_of_inconvertible index item Hc) as (e & Ee). congruence.
Qed.

(** Where reading the entries for an issue throws, the search throws, or
    it finds a confirmed entry whose assignee cannot be lowered. *)
Lemma reading_throws_how (entries : list value) (id : string) :
  reading_throws entries id = true ->
  (exists e, find_entry entries id = Throw e)
  \/ (exists props,
        find_entry entries id = Normal (Some (VObject props))
        /\ marked_confirmed (VObject props) = true
        /\ unusable_assignee (VObject props) = true).
Proof.
  induction entries as [|c entries IH]; [discriminate|].
  destruct c as [| |b|n|s|items|props]; cbn [reading_throws find_entry get Js.bind];
    try (intros _; left; eexists; reflexivity);
    try (cbn [refers_to strict_eq_string]; exact IH).
  unfold refers_to.
  destruct (assoc "issueId" props) as [x|]; cbn [Js.bind strict_eq_string];
    [|exact IH].
  destruct (strict_eq_string x id); [|exact IH].
  intros H. apply andb_true_iff in H. right. exists props. tauto.
Qed.

Lemma assign_loop_head_throws (entries : list value) (issue : CodeIssue)
  (rest : list CodeIssue) :
  reading_throws entries (issue_id issue) = true ->
  exists e, assign_loop entries (issue :: rest) = Throw e.
Proof.
  intros H. cbn [assign_loop].
  destruct (reading_throws_how _ _ H) as [(e & ->) | (props & -> & Hm & Hu)].
  - exists e. reflexivity.
  - cbn [Js.bind]. unfold marked_confirmed in Hm. unfold unusable_assignee in Hu.
    unfold get.
    destruct (assoc "confirmed" props) as [flag|]; [|discriminate].
    cbn [Js.bind]. rewrite Hm.
    destruct (assoc "assignTo" props) as [[| |b|n|s|items|ps]|]; try discriminate;
      cbn [Js.bind]; eexists; reflexivity.
Qed.

Lemma assign_loop_throws (entries : list value) (issues : list CodeIssue)
  (issue : CodeIssue) :
  In issue issues ->
  reading_throws entries (issue_id issue) = true ->
  exists e, assign_loop entries issues = Throw e.
Proof.
  intros Hin H. induction issues as [|x issues IH]; [contradiction|].
  destruct Hin as [->|Hin]; [now apply assign_loop_head_throws|].
  destruct (IH Hin) as (e & He). cbn [assign_loop]. rewrite He.
  destruct (find_entry entries (issue_id x)) as [confirmed|e1]; cbn [Js.bind];
    [|now exists e1].
  match goal with
  | |- exists _, Js.bind ?c _ = _ =>
      destruct c as [flag|e2]; cbn [Js.bind]; [|now exists e2]
  end.
  destruct (truthy flag); [|now exists e].
  match goal with
  | |- exists _, Js.bind ?c _ = _ =>
      destruct c as [a|e3]; cbn [Js.bind]; [|now exists e3]
  end.
  destruct (parseCLIType a) as [cli|e4]; cbn [Js.bind]; [|now exists e4].
  now exists e.
Qed.

Section WithDecoder.

Variable JSON_parse : string -> option value.

(** C3, amended. A text whose first [```json] fence opens a block that
    holds the text of a JSON object free of three back-quotes in a row,
    and closes it, parses to one issue per issue object of the payload
    the text decodes to, with the types and severities the objects
    declare, in order. A text in which the fence pattern finds nothing
    and that does not decode parses to the empty list. A block whose
    text holds three back-quotes in a row is cut short there: what is
    decoded is the text [x] before the first of them, without the white
    space at its ends, and when that does not decode the result is the
    empty list. No exception leaves the function in any of these
    cases. *)
Theorem parseIssuesFromOutput_fenced_payload :
  (forall (pre gap1 body gap2 post : string) (props : list (string * value))
          (items : list value) (decl : list (IssueType * IssueSeverity)),
      contains fence_json pre = false ->
      all_spaces gap1 = true ->
      all_spaces gap2 = true ->
      object_text body = true ->
      contains fence body = false ->
      JSON_parse body = Some (VObject props) ->
      assoc "issues" props = Some (VArray items) ->
      map declared items = map Some decl ->
      let r := parseIssuesFromOutput JSON_parse
                 (pre ++ fence_json ++ gap1 ++ body ++ gap2 ++ fence ++ post)%string in
      List.length r = List.length items
      /\ map issue_type r = map (fun d => Member (fst d)) decl
      /\ map issue_severity r = map (fun d => Member (snd d)) decl)
  /\ (forall output : string,
         match_json_fence output = None ->
         JSON_parse output = None ->
         parseIssuesFromOutput JSON_parse output = [])
  /\ (forall pre gap1 x cut gap2 post : string,
         contains fence_json pre = false ->
         all_spaces gap1 = true ->
         fence_free x = true ->
         let output :=
           (pre ++ fence_json ++ gap1 ++ (x ++ fence ++ cut) ++ gap2 ++ fence ++ post)%string in
         jsonStr output = trim x
         /\ parseIssuesFromOutput JSON_parse output
            = parseIssuesFromOutput JSON_parse (trim x)
         /\ (JSON_parse (trim x) = None ->
             parseIssuesFromOutput JSON_parse output = [])).
Proof.
  split; [|split].
  - intros pre gap1 body gap2 post props items decl
      Hpre Hg1 Hg2 Hobj Hbody Hparse Hissues Hdecl r.
    subst r. unfold parseIssuesFromOutput, parseIssues_try, decode.
    rewrite jsonStr_fenced by assumption.
    rewrite Hparse. cbn [Js.bind get]. rewrite Hissues. cbn [Js.bind].
    cbn [truthy isArray andb items_of].
    destruct (map_from_declared items 0 decl Hdecl) as (r & Hr & Hlen & Ht & Hs).
    rewrite Hr. cbn [Js.bind]. auto.
  - intros output Hfence Hparse.
    unfold parseIssuesFromOutput, parseIssues_try, decode, jsonStr.
    rewrite Hfence, Hparse. reflexivity.
  - intros pre gap1 x cut gap2 post Hpre Hg1 Hx output.
    assert (E : jsonStr output = trim x).
    { subst output. unfold jsonStr.
      replace (pre ++ fence_json ++ gap1 ++ (x ++ fence ++ cut) ++ gap2 ++ fence ++ post)%string
        with (pre ++ fence_json ++ (gap1 ++ x) ++ fence ++ (cut ++ gap2 ++ fence ++ post))%string
        by (now rewrite !append_assoc).
      unfold match_json_fence. rewrite after_first_fence_json by exact Hpre.
      rewrite append_assoc, skip_spaces_app by exact Hg1.
      now rewrite lazy_capture_trimmed. }
    assert (E' : jsonStr (trim x) = trim x).
    { unfold jsonStr. rewrite match_json_fence_unopened; [reflexivity|].
      apply fence_free_contains in Hx.
      destruct (skip_spaces_split x) as (ws & Hs & _). unfold skip_spaces in Hs.
      rewrite Hs in Hx. apply contains_tail in Hx.
      destruct (trimEnd_split (trimStart x)) as (ws' & Hs' & _).
      rewrite Hs' in Hx. apply contains_front in Hx.
      apply fence_none_fence_json. exact Hx. }
    split; [exact E|]. split.
    + unfold parseIssuesFromOutput, parseIssues_try. now rewrite E, E'.
    + intros Hnone. unfold parseIssuesFromOutput, parseIssues_try, decode.
      now rewrite E, Hnone.
Qed.


Lemma parseIssuesFromOutput_ids (output : string) :
  map issue_id (parseIssuesFromOutput JSON_parse output)
  = map generated_id
      (seq 0 (List.length (parseIssuesFromOutput JSON_parse output))).
Proof.
  unfold parseIssuesFromOutput, parseIssues_try.
  destruct (decode JSON_parse (jsonStr output)) as [parsed|]; cbn [Js.bind];
    [|reflexivity].
  destruct (get parsed "issues") as [found|]; cbn [Js.bind]; [|reflexivity].
  destruct (truthy found && isArray found); [|reflexivity].
  destruct (map_from 0 (items_of found)) as [r|] eqn:Er; cbn [Js.bind];
    [|reflexivity].
  destruct (map_from_ids _ _ _ Er) as [Hlen Hids]. now rewrite Hlen.
Qed.

Lemma parseVerdictAndAssign_keeps (output : string) (issues : list CodeIssue)
  (x : CodeIssue) :
  In x (parseVerdictAndAssign JSON_parse output issues) ->
  exists issue, In issue issues /\ issue_id x = issue_id issue.
Proof.
  unfold parseVerdictAndAssign, parseVerdict_try.
  destruct (decode JSON_parse (jsonStr output)) as [parsed|]; cbn [Js.bind];
    [|now exists x].
  destruct (get parsed "confirmedIssues") as [entries|]; cbn [Js.bind];
    [|now exists x].
  destruct (truthy entries && isArray entries); [|now exists x].
  destruct (assign_loop (items_of entries) issues) as [r|] eqn:Er; cbn [Js.bind];
    [|now exists x].
  intros Hx. destruct (assign_loop_keeps _ _ _ Er x Hx) as (i & c & Hi & ->).
  now exists i.
Qed.

Lemma generated_id_of_member (l : list CodeIssue) (issue : CodeIssue) :
  map issue_id l = map generated_id (seq 0 (List.length l)) ->
  In issue l ->
  exists i, i < List.length l /\ issue_id issue = generated_id i.
Proof.
  intros Hids Hin.
  apply (in_map issue_id) in Hin. rewrite Hids in Hin.
  apply in_map_iff in Hin. destruct Hin as (i & Hi & Hseq).
  apply in_seq in Hseq. exists i. split; [lia | congruence].
Qed.

(** C10. The identifiers of the parsed issues are [issue-1] to
    [issue-N] by position, whatever the payload holds, hence pairwise
    distinct. They follow the order of the payload: when the [issues]
    array of the decoded payload can be converted, there is one issue
    per element, and the issue at each position is made from the
    element at that position and is named after the position, whatever
    the element holds; otherwise there is no issue. An issue kept by a
    verdict carries one of these identifiers, and an entry of a verdict
    that is matched with a parsed issue names one of them as its
    [issueId]. *)
Theorem issue_ids_are_positional (output : string) :
  let r := parseIssuesFromOutput JSON_parse output in
  map issue_id r = map generated_id (seq 0 (List.length r))
  /\ NoDup (map issue_id r)
  /\ (forall (props : list (string * value)) (items : list value),
         JSON_parse (jsonStr output) = Some (VObject props) ->
         assoc "issues" props = Some (VArray items) ->
         (forallb convertible items = true ->
          List.length r = List.length items
          /\ forall i item,
               nth_error items i = Some item ->
               exists issue,
                 nth_error r i = Some issue
                 /\ issue_id issue = generated_id i
                 /\ issue_of i item = Normal issue
                 /\ converted item issue)
         /\ (forallb convertible items = false -> r = []))
  /\ (forall (verdict : string) (kept : CodeIssue),
         In kept (parseVerdictAndAssign JSON_parse verdict r) ->
         exists i, i < List.length r /\ issue_id kept = generated_id i)
  /\ (forall (entries : list value) (issue : CodeIssue) (c : value),
         In issue r ->
         find_entry entries (issue_id issue) = Normal (Some c) ->
         exists i, i < List.length r
                   /\ get c "issueId" = Normal (VString (generated_id i))).
Proof.
  intros r. pose proof (parseIssuesFromOutput_ids output) as Hids. fold r in Hids.
  split; [exact Hids|]. split; [rewrite Hids; apply generated_ids_NoDup|].
  split; [|split].
  - intros props items Hparse Hissues.
    assert (E : r = match map_from 0 items with Normal l => l | Throw _ => [] end).
    { subst r. unfold parseIssuesFromOutput, parseIssues_try, decode.
      rewrite Hparse. cbn [Js.bind get]. rewrite Hissues.
      cbn [Js.bind truthy isArray andb items_of].
      now destruct (map_from 0 items). }
    split; intros Hall.
    + destruct (proj1 (map_from_convertible items 0) Hall) as (l & El & _).
      rewrite El in E. rewrite E. destruct (map_from_ids _ _ _ El) as [Hlen _].
      split; [exact Hlen|]. intros i item Hi.
      destruct (map_from_positions _ _ _ El i item Hi) as (issue & Hn & Ho).
      exists issue. cbn [Nat.add] in Ho.
      split; [exact Hn|]. split; [exact (issue_of_id _ _ _ Ho)|].
      split; [exact Ho | exact (issue_of_converted _ _ _ Ho)].
    + destruct (proj2 (map_from_convertible items 0) Hall) as (e & Ee).
      now rewrite Ee in E.
  - intros verdict kept Hk.
    destruct (parseVerdictAndAssign_keeps _ _ _ Hk) as (issue & Hin & ->).
    now apply generated_id_of_member.
  - intros entries issue c Hin Hfind.
    destruct (generated_id_of_member r issue Hids Hin) as (i & Hi & Hid).
    exists i. split; [assumption|].
    apply find_entry_found in Hfind. destruct Hfind as [_ Hget]. congruence.
Qed.


(** C4, amended. When the verdict decodes to an object whose
    [confirmedIssues] is an array of readable entries, the issues kept
    are, in their order, those whose first referring entry has a truthy
    [confirmed], each a copy of the issue with [assignedTo] set to the
    backend its entry names, claude by default; all others are dropped.
    When the verdict does not decode, decodes to something that is not
    an object, or decodes to an object without such an array, the list
    comes back as it was given; so it does when reading the entries for
    one of the issues throws, on a [null] entry or on a confirmed entry
    whose [assignTo] is neither missing, [null] nor a string. *)
Theorem parseVerdictAndAssign_contract (output : string) (issues : list CodeIssue) :
  (forall (props : list (string * value)) (entries : list value),
      JSON_parse (jsonStr output) = Some (VObject props) ->
      assoc "confirmedIssues" props = Some (VArray entries) ->
      forallb readable_entry entries = true ->
      parseVerdictAndAssign JSON_parse output issues = verdict_kept entries issues
      /\ Forall (fun x => exists issue c,
                     In issue issues /\ x = with_assignedTo issue (Member c))
                (parseVerdictAndAssign JSON_parse output issues))
  /\ (JSON_parse (jsonStr output) = None ->
      parseVerdictAndAssign JSON_parse output issues = issues)
  /\ (forall props : list (string * value),
         JSON_parse (jsonStr output) = Some (VObject props) ->
         (forall entries, assoc "confirmedIssues" props <> Some (VArray entries)) ->
         parseVerdictAndAssign JSON_parse output issues = issues)
  /\ (forall v : value,
         JSON_parse (jsonStr output) = Some v ->
         (forall props, v <> VObject props) ->
         parseVerdictAndAssign JSON_parse output issues = issues)
  /\ (forall (props : list (string * value)) (entries : list value)
             (issue : CodeIssue),
         JSON_parse (jsonStr output) = Some (VObject props) ->
         assoc "confirmedIssues" props = Some (VArray entries) ->
         In issue issues ->
         reading_throws entries (issue_id issue) = true ->
         parseVerdictAndAssign JSON_parse output issues = issues).
Proof.
  split; [|split; [|split; [|split]]].
  - intros props entries Hparse Harray Hread.
    assert (E : parseVerdictAndAssign JSON_parse output issues
                = verdict_kept entries issues).
    { unfold parseVerdictAndAssign, parseVerdict_try, decode.
      rewrite Hparse. cbn [Js.bind get]. rewrite Harray.
      cbn [Js.bind truthy isArray andb items_of].
      now rewrite (assign_loop_readable _ _ Hread). }
    split; [exact E|]. rewrite E. apply verdict_kept_assigned.
  - intros H. unfold parseVerdictAndAssign, parseVerdict_try, decode.
    now rewrite H.
  - intros props H Hno. unfold parseVerdictAndAssign, parseVerdict_try, decode.
    rewrite H. cbn [Js.bind get].
    destruct (assoc "confirmedIssues" props) as [[| |b|n|s|entries|ps]|];
      cbn [Js.bind isArray]; rewrite ?andb_false_r; try reflexivity.
    now destruct (Hno entries).
  - intros v H Hno. unfold parseVerdictAndAssign, parseVerdict_try, decode.
    rewrite H. cbn [Js.bind].
    destruct v as [| |b|n|s|items|props]; try reflexivity.
    now destruct (Hno props).
  - intros props entries issue Hparse Harray Hin Hthrows.
    unfold parseVerdictAndAssign, parseVerdict_try, decode.
    rewrite Hparse. cbn [Js.bind get]. rewrite Harray.
    cbn [Js.bind truthy isArray andb items_of].
    destruct (assign_loop_throws _ _ _ Hin Hthrows) as (e & ->). reflexivity.
Qed.

End WithDecoder.

End ParsingFacts.

(* ===================================================================== *)
(** ** The parsing layer on the worked inputs *)
(* ===================================================================== *)

Module ParsingCases.
Import JsString Js Fence Types Parsing ParsingContract Observations.
Import ParsingFacts Samples.

(** The two-issue answer satisfies the conditions of the theorem on
    fenced payloads and parses as it says; the plain answer parses to
    nothing; the answer whose payload quotes code is cut at the first
    triple back-quote of the payload, and what is left does not
    decode. *)
Lemma parseIssuesFromOutput_fenced_payload_witness :
  (contains fence_json review_pre = false
   /\ all_spaces nl = true
   /\ object_text review_body = true
   /\ contains fence review_body = false
   /\ Json.parse review_body = Some (VObject [("issues", VArray review_items)])
   /\ map declared review_items = map Some review_declared)
  /\ (let r := parseIssuesFromOutput Json.parse review_output in
      List.length r = List.length review_items
      /\ map issue_type r = map (fun d => Member (fst d)) review_declared
      /\ map issue_severity r = map (fun d => Member (snd d)) review_declared)
  /\ (match_json_fence plain_output = None
      /\ Json.parse plain_output = None
      /\ parseIssuesFromOutput Json.parse plain_output = [])
  /\ (quoting_body = (quoting_before ++ fence ++ quoting_after)%string
      /\ fence_free quoting_before = true
      /\ Json.parse (trim quoting_before) = None
      /\ jsonStr quoting_output = trim quoting_before
      /\ parseIssuesFromOutput Json.parse quoting_output = []).
Proof.
  split; [repeat split; vm_compute; reflexivity|].
  split; [|split].
  - apply (proj1 (parseIssuesFromOutput_fenced_payload Json.parse)
             review_pre nl review_body nl review_post
             [("issues", VArray review_items)] review_items review_declared);
      vm_compute; reflexivity.
  - split; [vm_compute; reflexivity|]. split; [vm_compute; reflexivity|].
    apply (proj1 (proj2 (parseIssuesFromOutput_fenced_payload Json.parse))
             plain_output);
      vm_compute; reflexivity.
  - assert (Hcut := proj2 (proj2 (parseIssuesFromOutput_fenced_payload Json.parse))
                      EmptyString nl quoting_before quoting_after nl EmptyString
                      eq_refl eq_refl eq_refl).
    cbv zeta in Hcut. destruct Hcut as (Hstr & _ & Hnone).
    assert (Hp : Json.parse (trim quoting_before) = None) by (vm_compute; reflexivity).
    split; [vm_compute; reflexivity|]. split; [vm_compute; reflexivity|].
    split; [exact Hp|]. split; [exact Hstr | exact (Hnone Hp)].
Defined.

(** C3 as stated fails. The payload of [quoting_output] is a well-formed
    JSON object with one issue of a declared type and severity, between
    a [```json] fence and a closing fence; its text quotes code between
    triple back-quotes, the pattern closes the block at the first of
    them, the cut text does not decode, and no issue is returned. *)
Lemma parseIssuesFromOutput_cut_at_inner_fence :
  quoting_output = (fence_json ++ nl ++ quoting_body ++ nl ++ fence)%string
  /\ object_text quoting_body = true
  /\ Json.parse quoting_body = Some (VObject [("issues", VArray quoting_items)])
  /\ map declared quoting_items = [Some (BUG, HIGH)]
  /\ Json.parse (jsonStr quoting_output) = None
  /\ parseIssuesFromOutput Json.parse quoting_output = []
  /\ List.length (parseIssuesFromOutput Json.parse quoting_output)
     <> List.length quoting_items.
Proof.
  repeat split; try (vm_compute; reflexivity).
  vm_compute. discriminate.
Qed.

(** C9, at the failing input. [constructor] is the name of no issue
    type and [__proto__] that of no severity, yet neither is coerced: the
    look-up in the object literal finds the member inherited from
    [Object.prototype], which is truthy, and the issue carries it. *)
Theorem parseIssueType_inherited_name :
  type_named (toLowerCase "constructor") = None
  /\ severity_named (toLowerCase "__proto__") = None
  /\ parseIssueType (VString "constructor") = Normal (Inherited "constructor")
  /\ parseSeverity (VString "__proto__") = Normal (Inherited "__proto__")
  /\ map issue_type (parseIssuesFromOutput Json.parse inherited_output)
     = [Inherited "constructor"]
  /\ map issue_severity (parseIssuesFromOutput Json.parse inherited_output)
     = [Inherited "__proto__"].
Proof. repeat split; vm_compute; reflexivity. Qed.

(** A type that is not a string is not coerced either: converting the
    issue throws, and the whole payload parses to nothing. *)
Example parseIssuesFromOutput_numeric_type :
  parseIssuesFromOutput Json.parse numeric_type_output = [].
Proof. vm_compute. reflexivity. Qed.

(** The identifiers of the two-issue answer and of what a verdict keeps
    of it. The two issues are made from the two elements of the payload,
    in their order; the [id] the payload supplies for its first issue is
    not used. *)
Lemma issue_ids_are_positional_witness :
  map issue_id review_issues = ["issue-1"; "issue-2"]
  /\ (Json.parse (jsonStr review_output)
      = Some (VObject [("issues", VArray review_items)])
      /\ forallb convertible review_items = true
      /\ List.length review_issues = List.length review_items
      /\ forall i item,
           nth_error review_items i = Some item ->
           exists issue,
             nth_error review_issues i = Some issue
             /\ issue_id issue = generated_id i
             /\ issue_of i item = Normal issue
             /\ converted item issue)
  /\ In kept_first (parseVerdictAndAssign Json.parse verdict_output review_issues)
  /\ exists i, i < List.length review_issues
               /\ issue_id kept_first = generated_id i.
Proof.
  assert (Hin : In kept_first
                   (parseVerdictAndAssign Json.parse verdict_output review_issues)).
  { vm_compute. left. reflexivity. }
  assert (Hparse : Json.parse (jsonStr review_output)
                   = Some (VObject [("issues", VArray review_items)]))
    by (vm_compute; reflexivity).
  assert (Hall : forallb convertible review_items = true) by reflexivity.
  pose proof (issue_ids_are_positional Json.parse review_output) as T.
  cbv zeta in T. destruct T as (_ & _ & Hpayload & Hkept & _).
  destruct (proj1 (Hpayload _ _ Hparse eq_refl) Hall) as [Hlen Hpos].
  split; [vm_compute; reflexivity|].
  split; [split; [exact Hparse | split; [exact Hall | split; [exact Hlen | exact Hpos]]]|].
  split; [exact Hin|].
  exact (Hkept verdict_output kept_first Hin).
Defined.

(** The verdict that confirms the first issue for codex and rejects the
    second; the plain answer taken as a verdict; a verdict that is an
    array; a verdict whose entry assigns the number 7, and one whose
    first entry is [null]. *)
Lemma parseVerdictAndAssign_contract_witness :
  (Json.parse (jsonStr verdict_output) = Some (VObject verdict_props)
   /\ assoc "confirmedIssues" verdict_props = Some (VArray verdict_entries)
   /\ forallb readable_entry verdict_entries = true)
  /\ (parseVerdictAndAssign Json.parse verdict_output review_issues
      = verdict_kept verdict_entries review_issues
      /\ Forall (fun x => exists issue c,
                     In issue review_issues
                     /\ x = with_assignedTo issue (Member c))
                (parseVerdictAndAssign Json.parse verdict_output review_issues))
  /\ (Json.parse (jsonStr plain_output) = None
      /\ parseVerdictAndAssign Json.parse plain_output review_issues = review_issues)
  /\ (Json.parse (jsonStr verdict_no_object) = Some (VArray [])
      /\ parseVerdictAndAssign Json.parse verdict_no_object review_issues
         = review_issues)
  /\ (confirmed_entries verdict_numeric_assignee = Some numeric_assignee_entries
      /\ reading_throws numeric_assignee_entries "issue-1" = true
      /\ parseVerdictAndAssign Json.parse verdict_numeric_assignee review_issues
         = review_issues)
  /\ (confirmed_entries verdict_null_entry = Some null_entries
      /\ reading_throws null_entries "issue-1" = true
      /\ parseVerdictAndAssign Json.parse verdict_null_entry review_issues
         = review_issues).
Proof.
  split; [repeat split; vm_compute; reflexivity|].
  split; [|split; [|split; [|split]]].
  - apply (proj1 (parseVerdictAndAssign_contract Json.parse verdict_output
                    review_issues) verdict_props verdict_entries);
      vm_compute; reflexivity.
  - split; [vm_compute; reflexivity|].
    apply (proj1 (proj2 (parseVerdictAndAssign_contract Json.parse plain_output
                           review_issues))).
    vm_compute; reflexivity.
  - split; [vm_compute; reflexivity|].
    apply (proj1 (proj2 (proj2 (proj2
             (parseVerdictAndAssign_contract Json.parse verdict_no_object
                review_issues)))) (VArray [])).
    + vm_compute; reflexivity.
    + discriminate.
  - split; [vm_compute; reflexivity|]. split; [reflexivity|].
    apply (proj2 (proj2 (proj2 (proj2
             (parseVerdictAndAssign_contract Json.parse verdict_numeric_assignee
                review_issues))))
             [("confirmedIssues", VArray numeric_assignee_entries)]
             numeric_assignee_entries kept_first_unassigned).
    + vm_compute; reflexivity.
    + reflexivity.
    + vm_compute. left. reflexivity.
    + reflexivity.
  - split; [vm_compute; reflexivity|]. split; [reflexivity|].
    apply (proj2 (proj2 (proj2 (proj2
             (parseVerdictAndAssign_contract Json.parse verdict_null_entry
                review_issues))))
             [("confirmedIssues", VArray null_entries)]
             null_entries kept_first_unassigned).
    + vm_compute; reflexivity.
    + reflexivity.
    + vm_compute. left. reflexivity.
    + reflexivity.
Defined.

Example verdict_output_kept :
  parseVerdictAndAssign Json.parse verdict_output review_issues = [kept_first].
Proof. vm_compute. reflexivity. Qed.

(** C4 as stated fails, on three verdicts that each decode to an object
    with a [confirmedIssues] array.
    - The entry confirming the first issue assigns it to the number 7:
      reading the assignment throws, and both issues come back,
      unassigned, where only the first was confirmed.
    - The first issue is rejected by one entry and confirmed by a later
      one: the first entry decides, and the issue is dropped.
    - The first issue is marked with the string [no]: a non-empty
      string counts as confirmed, and the issue is kept. *)
Lemma parseVerdictAndAssign_not_exactly_the_confirmed :
  (referenced_as_confirmed verdict_numeric_assignee review_issues = Some ["issue-1"]
   /\ parseVerdictAndAssign Json.parse verdict_numeric_assignee review_issues
      = review_issues
   /\ map issue_id review_issues = ["issue-1"; "issue-2"]
   /\ map issue_assignedTo review_issues = [None; None])
  /\ (referenced_as_confirmed verdict_said_twice review_issues = Some ["issue-1"]
      /\ parseVerdictAndAssign Json.parse verdict_said_twice review_issues = [])
  /\ (referenced_as_confirmed verdict_in_words review_issues = Some []
      /\ map issue_id
           (parseVerdictAndAssign Json.parse verdict_in_words review_issues)
         = ["issue-1"]).
Proof. repeat split; vm_compute; reflexivity. Qed.

(** An assignee that is a name every object inherits is not replaced by
    the default backend: the kept issue is assigned the inherited
    member. *)
Example parseVerdictAndAssign_inherited_assignee :
  map issue_assignedTo
    (parseVerdictAndAssign Json.parse verdict_inherited_assignee review_issues)
  = [Some (Inherited "constructor")].
Proof. vm_compute. reflexivity. Qed.

End ParsingCases.

(* ===================================================================== *)
(** ** Facts about [BaseCLIAgent.execute] *)
(* ===================================================================== *)

Module ExecuteFacts.
Import JsString Types Agents Execute StringFacts Samples.

Lemma stdout_of_app (a b : list delivery) :
  stdout_of (a ++ b) = (stdout_of a ++ stdout_of b)%string.
Proof.
  induction a as [|d a IH]; simpl; [reflexivity|].
  destruct (what d); rewrite IH; try reflexivity.
  now rewrite append_assoc.
Qed.

Lemma stderr_of_app (a b : list delivery) :
  stderr_of (a ++ b) = (stderr_of a ++ stderr_of b)%string.
Proof.
  induction a as [|d a IH]; simpl; [reflexivity|].
  destruct (what d); rewrite IH; try reflexivity.
  now rewrite append_assoc.
Qed.

Lemma invariant_started (start : Z) : invariant start [] started.
Proof. apply Pending; auto. Qed.

Lemma is_zero_code_true (code : option nat) :
  is_zero_code code = true -> code = Some 0.
Proof. destruct code as [[|n]|]; simpl; congruence. Qed.

Lemma is_zero_code_false (code : option nat) :
  is_zero_code code = false -> code <> Some 0.
Proof. destruct code as [[|n]|]; simpl; congruence. Qed.

Lemma invariant_step (start : Z) (trace : list delivery) (c : closure) (d : delivery) :
  invariant start trace c -> invariant start (trace ++ [d]) (step start c d).
Proof.
  intros [Hr Ht Hs Hk Ho He Hall | before d0 after r Hr Ht Htr Hall Hd Hs Hout].
  - (* the promise was pending *)
    unfold step. destruct (what d) eqn:Hw.
    + apply Pending; simpl; auto.
      * rewrite stdout_of_app, Ho. simpl. rewrite Hw.
        now rewrite append_empty_r.
      * rewrite stderr_of_app, He. simpl. rewrite Hw. now rewrite append_empty_r.
      * apply Forall_app; split; [assumption|].
        constructor; [|constructor]. unfold settles. now rewrite Hw.
    + apply Pending; simpl; auto.
      * rewrite stdout_of_app, Ho. simpl. rewrite Hw. now rewrite append_empty_r.
      * rewrite stderr_of_app, He. simpl. rewrite Hw.
        now rewrite append_empty_r.
      * apply Forall_app; split; [assumption|].
        constructor; [|constructor]. unfold settles. now rewrite Hw.
    + unfold on_close. rewrite Hr.
      eapply Settled with (before := trace) (d := d) (after := []); simpl; auto.
      * unfold settles. now rewrite Hw.
      * rewrite Hs. reflexivity.
      * rewrite Hk, Ho, He. destruct (is_zero_code code) eqn:Hz.
        -- apply is_zero_code_true in Hz. subst code. now apply Succeeded.
        -- apply is_zero_code_false in Hz. unfold exit_error.
           now apply ExitedNonZero.
    + unfold on_error. rewrite Hr.
      eapply Settled with (before := trace) (d := d) (after := []); simpl; auto.
      * unfold settles. now rewrite Hw.
      * rewrite Hs. reflexivity.
      * rewrite Hk. now apply LaunchFailed.
    + rewrite Ht. unfold on_timer. rewrite Hr.
      eapply Settled with (before := trace) (d := d) (after := []); simpl; auto.
      * unfold settles. now rewrite Hw.
      * rewrite Hs. reflexivity.
      * rewrite Hk, Ho. now apply TimedOut.
  - (* the promise was settled: the guards keep it *)
    assert (Htr' : trace ++ [d] = before ++ d0 :: (after ++ [d])).
    { rewrite Htr, <- List.app_assoc. reflexivity. }
    unfold step. destruct (what d) eqn:Hw.
    + eapply Settled with (r := r); simpl; eauto.
    + eapply Settled with (r := r); simpl; eauto.
    + unfold on_close. rewrite Hr. eapply Settled with (r := r); eauto.
    + unfold on_error. rewrite Hr. eapply Settled with (r := r); eauto.
    + rewrite Ht. eapply Settled with (r := r); eauto.
Qed.

Lemma invariant_deliver_from (start : Z) (later : list delivery) :
  forall (earlier : list delivery) (c : closure),
    invariant start earlier c ->
    invariant start (earlier ++ later) (fold_left (step start) later c).
Proof.
  induction later as [|d later IH]; intros earlier c Hinv; simpl.
  - now rewrite List.app_nil_r.
  - replace (earlier ++ d :: later) with ((earlier ++ [d]) ++ later)
      by (rewrite <- List.app_assoc; reflexivity).
    apply IH. now apply invariant_step.
Qed.

Lemma invariant_deliver (start : Z) (trace : list delivery) :
  invariant start trace (deliver start trace).
Proof.
  apply (invariant_deliver_from start trace [] started), invariant_started.
Qed.






Example killed_then_closed_promise :
  promise (deliver 0 killed_then_closed)
  = Some {| success := false; output := " partial ";
            error := Some timeout_error; duration := 100 |}.
Proof. reflexivity. Qed.

End ExecuteFacts.

(* ===================================================================== *)
(** ** Facts about [createAgent] *)
(* ===================================================================== *)

Module AgentsFacts.
Import JsString Js Types Agents ParsingContract.





End AgentsFacts.

(* ===================================================================== *)
(** ** Facts about the effects *)
(* ===================================================================== *)

Module RuntimeFacts.
Import JsString Types Agents Runtime.
Local Open Scope run_scope.

Lemma bind_ok {R A B} (c : M R A) (k : A -> M R B) (s s' : state R) (a : A) :
  c s = (Ok a, s') -> bind c k s = k a s'.
Proof. intros H. unfold bind. now rewrite H. Qed.

Lemma bind_raise {R A B} (c : M R A) (k : A -> M R B) (s s' : state R) (m : string) :
  c s = (Raise m, s') -> bind c k s = (Raise m, s').
Proof. intros H. unfold bind. now rewrite H. Qed.

(** Publishing chunks only adds their events. *)
Lemma for_each_chunks {R} (l : list string) (s : state R) :
  for_each (fun c => emit (message_chunk c)) l s
  = (Ok tt, {| messages := messages s;
               events := events s ++ map message_chunk l;
               invocations := invocations s; consulted := consulted s;
               result := result s |}).
Proof.
  revert s. induction l as [|c l IH]; intros s; cbn [for_each map].
  - unfold ret. rewrite List.app_nil_r. now destruct s.
  - unfold bind at 1. cbn [emit]. rewrite IH. cbn [messages events invocations
      consulted result]. now rewrite <- List.app_assoc.
Qed.

(** An invocation whose promise is fulfilled. *)
Lemma await_execute_fulfilled {R} (w : World) (streaming : bool) (a : ICLIAgent)
  (prompt : string) (s : state R) (streamed : list string) (r : AgentExecuteResult) :
  execute w (consulted s) a prompt = (streamed, inl r) ->
  await_execute w streaming a prompt s
  = (Ok r, {| messages := messages s;
              events := events s ++ chunk_events streaming streamed;
              invocations := invocations s ++ [(a, prompt)];
              consulted := S (consulted s);
              result := result s |}).
Proof.
  intros E. unfold await_execute, consult, record_invocation, bind at 1 2.
  cbn [messages events invocations consulted result]. rewrite E.
  unfold chunk_events. destruct streaming.
  - unfold bind. rewrite for_each_chunks. reflexivity.
  - unfold bind, ret. cbn. now rewrite List.app_nil_r.
Qed.

(** An invocation whose promise is rejected. *)
Lemma await_execute_rejected {R} (w : World) (streaming : bool) (a : ICLIAgent)
  (prompt : string) (s : state R) (streamed : list string) (m : string) :
  execute w (consulted s) a prompt = (streamed, inr m) ->
  await_execute w streaming a prompt s
  = (Raise m, {| messages := messages s;
                 events := events s ++ chunk_events streaming streamed;
                 invocations := invocations s ++ [(a, prompt)];
                 consulted := S (consulted s);
                 result := result s |}).
Proof.
  intros E. unfold await_execute, consult, record_invocation, bind at 1 2.
  cbn [messages events invocations consulted result]. rewrite E.
  unfold chunk_events. destruct streaming.
  - unfold bind. rewrite for_each_chunks. reflexivity.
  - unfold bind, ret, raise. cbn. now rewrite List.app_nil_r.
Qed.

Lemma createMessage_run {R} (w : World) (r : DebateRole) (c : CLIType)
  (text : string) (p : DebatePhase) (round : option nat) (s : state R) :
  createMessage w r c text p round s
  = (Ok {| msg_id := uuidv4 w (consulted s); msg_role := r; msg_cliType := c;
           content := text; timestamp := clock w (S (consulted s));
           phase := p; roundNumber := round |},
     {| messages := messages s
                    ++ [{| msg_id := uuidv4 w (consulted s); msg_role := r;
                           msg_cliType := c; content := text;
                           timestamp := clock w (S (consulted s));
                           phase := p; roundNumber := round |}];
        events := events s; invocations := invocations s;
        consulted := S (S (consulted s)); result := result s |}).
Proof. reflexivity. Qed.

Lemma returns_eq {R A} (c : M R A) (s s' : state R) (a : A)
  (P : A -> state R -> Prop) :
  c s = (Ok a, s') -> P a s' -> returns c s P.
Proof. intros H HP. now exists a, s'. Qed.

Lemma returns_bind {R A B} (c : M R A) (k : A -> M R B) (s : state R)
  (P : B -> state R -> Prop) :
  returns c s (fun a s1 => returns (k a) s1 P) -> returns (bind c k) s P.
Proof.
  intros (a & s1 & E & b & s2 & E2 & HP). exists b, s2.
  split; [|exact HP]. now rewrite (bind_ok _ _ _ _ _ E).
Qed.

Lemma returns_weaken {R A} (c : M R A) (s : state R) (P Q : A -> state R -> Prop) :
  returns c s P -> (forall a s', P a s' -> Q a s') -> returns c s Q.
Proof. intros (a & s' & E & HP) H. exists a, s'. auto. Qed.

Ltac simpl_state :=
  cbn [messages events invocations consulted result fst snd].

Ltac simpl_state_in H :=
  cbn [messages events invocations consulted result fst snd] in H.

(** A step whose head computes by itself. *)
Ltac run_head :=
  cbv beta iota zeta delta
    [createMessage Runtime.bind fresh_uuid date_now consult ret push_message emit
     update_result get_result get_messages record_invocation];
  reflexivity.

Ltac step :=
  cbv beta zeta;
  lazymatch goal with
  | |- returns (bind _ _) _ _ =>
      apply returns_bind; eapply returns_eq; [run_head|];
      simpl_state; cbv beta zeta
  | |- returns _ _ _ =>
      eapply returns_eq; [run_head|]; simpl_state; cbv beta zeta
  end.

(** The step of an invocation in a world where all succeed. *)
Ltac await Hok :=
  cbv beta zeta;
  lazymatch goal with
  | |- returns (bind (await_execute ?w ?st ?a ?p) ?k) ?s _ =>
      let streamed := fresh "streamed" in
      let r := fresh "r" in
      let E := fresh "E" in
      let Hs := fresh "Hs" in
      destruct (Hok (consulted s) a p) as (streamed & r & E & Hs);
      apply returns_bind; eapply returns_eq;
      [exact (await_execute_fulfilled w st a p s _ _ E)|];
      simpl_state; cbv beta zeta; rewrite Hs; cbn [negb]
  end.

End RuntimeFacts.

(* ===================================================================== *)
(** ** Facts about the debate orchestrator *)
(* ===================================================================== *)

Module DebateFacts.
Import JsString Types Agents Runtime Debate RuntimeFacts.
Local Open Scope run_scope.

Section Orchestrator.

Variable w : World.
Variable config : DebateConfig.
Variable getModeratorOpeningPrompt : string -> string.
Variable getChallengerPrompt : string -> nat -> list DebateMessage -> string.
Variable getDefenderPrompt : string -> nat -> list DebateMessage -> string.
Variable getModeratorEvaluationPrompt : string -> nat -> list DebateMessage -> string.
Variable getModeratorFinalVerdictPrompt : string -> list DebateMessage -> string.

(** The debate half of the pre-flight claim. *)
Lemma run_unavailable :
  isAvailable w (the_moderator config) && isAvailable w (the_challenger config)
  && isAvailable w (the_defender config) = false ->
  let errors := snd (checkAgentsAvailable w config) in
  let message := ("Agent 不可用: " ++ join ", " errors)%string in
  exists r st,
    run w config getModeratorOpeningPrompt getChallengerPrompt getDefenderPrompt
      getModeratorEvaluationPrompt getModeratorFinalVerdictPrompt = (Ok r, st)
    /\ status r = FAILED
    /\ Debate.error r = Some message
    /\ opening r = None /\ round_results r = [] /\ finalVerdict r = None
    /\ messages st = []
    /\ invocations st = []
    /\ events st = [error_event message; debate_end FAILED]
    /\ (isAvailable w (the_moderator config) = false <->
        In (unavailable "主持人" (moderator config)) errors)
    /\ (isAvailable w (the_challenger config) = false <->
        In (unavailable "挑战者" (challenger config)) errors)
    /\ (isAvailable w (the_defender config) = false <->
        In (unavailable "辩护者" (defender config)) errors).
Proof.
  intros H errors message. subst message errors.
  unfold run, try_catch, run_try, checkAgentsAvailable.
  destruct (isAvailable w (the_moderator config)),
    (isAvailable w (the_challenger config)),
    (isAvailable w (the_defender config)); try discriminate H;
    cbn [app List.length Nat.eqb negb snd];
    (eexists; eexists; split; [reflexivity|]);
    cbn [status Debate.error opening round_results finalVerdict messages
         invocations events app fst snd];
    repeat match goal with |- _ /\ _ => split end;
    try reflexivity;
    (split;
     [ intros Heq; try discriminate Heq; cbn; auto
     | intros Hin; try reflexivity; exfalso;
       unfold unavailable in Hin; cbn in Hin;
       repeat match goal with
              | Hx : _ \/ _ |- _ => destruct Hx
              | Hx : String _ _ = String _ _ |- _ => discriminate Hx
              | Hx : False |- _ => contradiction
              end ]).
Qed.

Section AllSucceed.

Hypothesis Hok : all_succeed w.

Lemma executeOpening_ok (s : state DebateResult) :
  returns (executeOpening w config getModeratorOpeningPrompt) s
    (fun m s' =>
       messages s' = messages s ++ [m]
       /\ result s' = result s
       /\ phase m = OPENING /\ msg_role m = MODERATOR /\ roundNumber m = None).
Proof.
  unfold executeOpening. step. step. await Hok. step. step. step. step.
  repeat split.
Qed.

Lemma executeFinalVerdict_ok (s : state DebateResult) :
  returns (executeFinalVerdict w config getModeratorFinalVerdictPrompt) s
    (fun m s' =>
       messages s' = messages s ++ [m]
       /\ result s' = result s
       /\ phase m = FINAL /\ msg_role m = MODERATOR /\ roundNumber m = None).
Proof.
  unfold executeFinalVerdict. step. step. step. await Hok. step. step. step. step.
  repeat split.
Qed.

Lemma executeRound_ok (n : nat) (s : state DebateResult) :
  returns (executeRound w config getChallengerPrompt getDefenderPrompt
             getModeratorEvaluationPrompt n) s
    (fun r s' =>
       messages s' = messages s ++ round_messages r
       /\ result s' = result s
       /\ round_of n r).
Proof.
  unfold executeRound. step. step. step. step. await Hok. step. step.
  step. step. await Hok. step. step. step. step. await Hok. step. step.
  step. step. step.
  unfold round_of, round_messages. cbn. rewrite <- !List.app_assoc.
  repeat split; repeat constructor.
Qed.

Lemma fold_push_round (rs : list RoundResult) :
  forall r : DebateResult,
    let r' := fold_left (fun acc x => push_round x acc) rs r in
    round_results r' = round_results r ++ rs
    /\ status r' = status r /\ opening r' = opening r
    /\ finalVerdict r' = finalVerdict r /\ Debate.error r' = Debate.error r.
Proof.
  induction rs as [|x rs IH]; intros r; cbn [fold_left].
  - cbv zeta. rewrite List.app_nil_r. repeat split.
  - destruct (IH (push_round x r)) as (H1 & H2 & H3 & H4 & H5).
    cbv zeta. rewrite H1, H2, H3, H4, H5. cbn. rewrite <- List.app_assoc.
    repeat split.
Qed.

Lemma rounds_from_ok (k : nat) :
  forall (i : nat) (s : state DebateResult),
    returns (rounds_from w config getChallengerPrompt getDefenderPrompt
               getModeratorEvaluationPrompt i k) s
      (fun _ s' =>
         exists rs,
           List.length rs = k
           /\ messages s' = messages s ++ flat_map round_messages rs
           /\ result s' = fold_left (fun acc x => push_round x acc) rs (result s)
           /\ forall j rr, nth_error rs j = Some rr -> round_of (i + j) rr).
Proof.
  induction k as [|k IH]; intros i s; cbn [rounds_from].
  - step. exists []. cbn. rewrite List.app_nil_r.
    split; [reflexivity|]. split; [reflexivity|]. split; [reflexivity|].
    intros [|j] rr; discriminate.
  - apply returns_bind.
    eapply returns_weaken; [apply executeRound_ok|].
    intros r1 s1 (Hm & Hr & Hround). cbv beta.
    step.
    eapply returns_weaken; [apply IH|].
    intros _ s2 (rs & Hlen & Hm2 & Hr2 & Hall). cbv beta in *.
    simpl_state_in Hm2. simpl_state_in Hr2.
    exists (r1 :: rs). cbn [List.length flat_map fold_left].
    rewrite Hm2, Hm, Hr2, Hr, <- List.app_assoc.
    split; [congruence|]. split; [reflexivity|]. split; [reflexivity|].
    intros [|j] x Hx; cbn in Hx.
    + injection Hx as <-. now rewrite Nat.add_0_r.
    + rewrite <- plus_n_Sm. now apply (Hall j).
Qed.

Lemma try_catch_ok {R A} (body : M R A) (handler : string -> M R A)
  (s s' : state R) (a : A) :
  body s = (Ok a, s') -> try_catch body handler s = (Ok a, s').
Proof. intros H. unfold try_catch. now rewrite H. Qed.

Hypothesis Hmoderator : isAvailable w (the_moderator config) = true.
Hypothesis Hchallenger : isAvailable w (the_challenger config) = true.
Hypothesis Hdefender : isAvailable w (the_defender config) = true.

Lemma run_try_ok (s : state DebateResult) :
  returns (run_try w config getModeratorOpeningPrompt getChallengerPrompt
             getDefenderPrompt getModeratorEvaluationPrompt
             getModeratorFinalVerdictPrompt) s
    (fun r s' =>
       exists o rs f,
         result s' = r
         /\ status r = COMPLETED
         /\ opening r = Some o
         /\ round_results r = round_results (result s) ++ rs
         /\ finalVerdict r = Some f
         /\ Debate.error r = Debate.error (result s)
         /\ List.length rs = rounds config
         /\ messages s' = messages s ++ [o] ++ flat_map round_messages rs ++ [f]
         /\ phase o = OPENING /\ phase f = FINAL
         /\ forall j rr, nth_error rs j = Some rr -> round_of (S j) rr).
Proof.
  unfold run_try, checkAgentsAvailable.
  rewrite Hmoderator, Hchallenger, Hdefender. cbn [app List.length Nat.eqb negb].
  step. step.
  apply returns_bind.
  eapply returns_weaken; [apply executeOpening_ok|].
  intros o s1 (Hm1 & Hr1 & Hphase_o & _). cbv beta.
  simpl_state_in Hm1. simpl_state_in Hr1.
  step.
  apply returns_bind.
  eapply returns_weaken; [apply rounds_from_ok|].
  intros _ s2 (rs & Hlen & Hm2 & Hr2 & Hall). cbv beta.
  simpl_state_in Hm2. simpl_state_in Hr2.
  apply returns_bind.
  eapply returns_weaken; [apply executeFinalVerdict_ok|].
  intros f s3 (Hm3 & Hr3 & Hphase_f & _). cbv beta.
  step. step. step. step. step. step. step.
  exists o, rs, f.
  rewrite Hr3, Hr2, Hr1, Hm3, Hm2, Hm1.
  destruct (fold_push_round rs (set_opening o (set_status IN_PROGRESS (result s))))
    as (F1 & F2 & F3 & F4 & F5).
  cbn [status opening round_results finalVerdict Debate.error set_endTime
       set_status set_finalVerdict].
  rewrite F1, F3, F5. cbn [round_results opening Debate.error set_opening set_status].
  rewrite <- !List.app_assoc.
  repeat match goal with |- _ /\ _ => split end; auto.
Qed.

(** C6. When the three executors are available and every invocation
    succeeds, a debate configured with [rounds] rounds returns a result
    with status Completed that holds exactly [rounds] round results,
    numbered from 1 in order, an opening message and a final-verdict
    message; and the transcript is the opening message, then the three
    messages of each round in round order, then the final verdict, with
    nothing between the opening and the final verdict when [rounds] is
    zero. *)
Theorem debate_run_completes :
  exists r st o f,
    run w config getModeratorOpeningPrompt getChallengerPrompt getDefenderPrompt
      getModeratorEvaluationPrompt getModeratorFinalVerdictPrompt = (Ok r, st)
    /\ status r = COMPLETED
    /\ Debate.error r = None
    /\ List.length (round_results r) = rounds config
    /\ opening r = Some o
    /\ finalVerdict r = Some f
    /\ messages st = [o] ++ flat_map round_messages (round_results r) ++ [f]
    /\ phase o = OPENING
    /\ phase f = FINAL
    /\ (forall j rr, nth_error (round_results r) j = Some rr -> round_of (S j) rr)
    /\ (rounds config = 0 -> messages st = [o; f]).
Proof.
  unfold run.
  match goal with
  | |- context [try_catch _ _ ?s0] =>
      destruct (run_try_ok s0)
        as (r & st & E & o & rs & f & Hres & Hst & Ho & Hrs & Hf & Herr & Hlen
            & Hmsgs & Hpo & Hpf & Hall)
  end.
  exists r, st, o, f. cbn in Hrs, Herr, Hmsgs. subst rs.
  rewrite (try_catch_ok _ _ _ _ _ E).
  repeat match goal with |- _ /\ _ => split end; auto.
  intros Hzero. rewrite Hzero in Hlen.
  destruct (round_results r); [exact Hmsgs | discriminate].
Qed.

End AllSucceed.

End Orchestrator.

End DebateFacts.

(* ===================================================================== *)
(** ** Facts about the code-review orchestrator *)
(* ===================================================================== *)

Module CodeReviewFacts.
Import JsString Js Types Agents Runtime CodeReview RuntimeFacts.
Local Open Scope run_scope.

Lemma key_eqb_eq (a b : looked_up CLIType) : key_eqb a b = true -> a = b.
Proof.
  destruct a as [x|n], b as [y|m]; cbn; try discriminate.
  - destruct x, y; cbn; congruence.
  - intros H. apply String.eqb_eq in H. congruence.
Qed.

Lemma key_eqb_refl (a : looked_up CLIType) : key_eqb a a = true.
Proof. destruct a as [x|n]; cbn; [now destruct x | apply String.eqb_refl]. Qed.

Section Grouping.

Variable m : FixerMap.

Lemma served_group_push (k : looked_up CLIType) (issue : CodeIssue)
  (groups : list (looked_up CLIType * list CodeIssue)) :
  Permutation (served m (group_push k issue groups))
    (served m groups ++ match fixer_for m k with Some _ => [issue] | None => [] end).
Proof.
  induction groups as [|[k' l] groups IH]; cbn [group_push served flat_map fst snd].
  - now rewrite List.app_nil_r.
  - destruct (key_eqb k k') eqn:E.
    + apply key_eqb_eq in E. subst k'. cbn [served flat_map fst snd].
      destruct (fixer_for m k).
      * fold (served m groups). rewrite <- !List.app_assoc.
        apply Permutation_app_head. apply Permutation_app_comm.
      * now rewrite List.app_nil_r.
    + cbn [served flat_map fst snd]. fold (served m (group_push k issue groups)).
      fold (served m groups). rewrite <- List.app_assoc.
      apply Permutation_app_head. exact IH.
Qed.

Lemma served_fold (l : list CodeIssue) :
  forall groups,
    Permutation
      (served m (fold_left (fun g issue => group_push (fix_key issue) issue g) l groups))
      (served m groups ++ filter (has_fixer m) l).
Proof.
  induction l as [|issue l IH]; intros groups; cbn [fold_left filter].
  - now rewrite List.app_nil_r.
  - rewrite IH, served_group_push. unfold has_fixer.
    destruct (fixer_for m (fix_key issue)).
    + rewrite <- List.app_assoc. reflexivity.
    + now rewrite List.app_nil_r.
Qed.

(** The issues of the planned tasks are the issues that have a fixer. *)
Lemma planned_tasks_issues (l : list CodeIssue) :
  Permutation (map snd (planned_tasks m l)) (filter (has_fixer m) l).
Proof.
  assert (H : map snd (planned_tasks m l) = served m (issuesByCliType l)).
  { unfold planned_tasks, served.
    induction (issuesByCliType l) as [|g gs IH]; [reflexivity|].
    cbn [flat_map]. rewrite map_app, IH. f_equal.
    destruct (fixer_for m (fst g)) as [[c fixer]|]; [|reflexivity].
    rewrite map_map. cbn [snd]. apply map_id. }
  rewrite H. unfold issuesByCliType. apply (served_fold l []).
Qed.

(** In a group every issue has the key of the group. *)
Lemma group_push_keys (k : looked_up CLIType) (issue : CodeIssue)
  (groups : list (looked_up CLIType * list CodeIssue)) :
  fix_key issue = k ->
  Forall (fun g => Forall (fun i => fix_key i = fst g) (snd g)) groups ->
  Forall (fun g => Forall (fun i => fix_key i = fst g) (snd g))
         (group_push k issue groups).
Proof.
  intros Hk. induction 1 as [|[k' l] groups Hg Hgs IH]; cbn [group_push].
  - repeat constructor. exact Hk.
  - destruct (key_eqb k k') eqn:E.
    + apply key_eqb_eq in E. subst k'. constructor; [|assumption].
      cbn [fst snd] in *. apply Forall_app. split; [assumption|].
      repeat constructor. exact Hk.
    + constructor; assumption.
Qed.

Lemma issuesByCliType_keys (l : list CodeIssue) :
  Forall (fun g => Forall (fun i => fix_key i = fst g) (snd g)) (issuesByCliType l).
Proof.
  unfold issuesByCliType.
  assert (H : forall groups,
             Forall (fun g => Forall (fun i => fix_key i = fst g) (snd g)) groups ->
             Forall (fun g => Forall (fun i => fix_key i = fst g) (snd g))
               (fold_left (fun g issue => group_push (fix_key issue) issue g) l groups)).
  { induction l as [|issue l IH]; intros groups Hg; cbn [fold_left]; [assumption|].
    apply IH. now apply group_push_keys. }
  apply H. constructor.
Qed.

(** Each planned task pairs an issue with the fixer of its own backend. *)
Lemma planned_tasks_fixers (l : list CodeIssue) :
  Forall (fun plan =>
            let '(fixer, c, issue) := plan in
            fix_key issue = Member c /\ fixers_get m c = Some fixer)
         (planned_tasks m l).
Proof.
  unfold planned_tasks. apply Forall_flat_map.
  pose proof (issuesByCliType_keys l) as H.
  induction H as [|[k l0] groups Hg _ IH]; constructor; [|assumption].
  cbn [fst snd] in *. unfold fixer_for.
  destruct k as [c|n]; [|constructor].
  destruct (fixers_get m c) as [fixer|] eqn:E; [|constructor].
  apply Forall_map. revert Hg. apply Forall_impl. intros i Hi. auto.
Qed.

End Grouping.

Section Orchestrator.

Variable JSON_parse : string -> option value.
Variable w : World.
Variable config : CodeReviewConfig.
Variable getCodeReviewChallengerPrompt : string -> option (list IssueType) -> string.
Variable getCodeReviewDefenderPrompt : string -> list CodeIssue -> string.
Variable getCodeReviewVerdictPrompt : string -> list CodeIssue -> string -> string.
Variable getFixTaskPrompt : CodeIssue -> string -> string.

(** A traversal whose steps each establish a relation between input and
    output establishes it between the lists. *)
Lemma traverse_returns {A B} (f : A -> M CodeReviewResult B) (Q : A -> B -> Prop)
  (F : state CodeReviewResult -> state CodeReviewResult -> Prop) :
  (forall s, F s s) ->
  (forall s1 s2 s3, F s1 s2 -> F s2 s3 -> F s1 s3) ->
  (forall x s, returns (f x) s (fun y s' => Q x y /\ F s s')) ->
  forall l s, returns (traverse f l) s (fun ys s' => Forall2 Q l ys /\ F s s').
Proof.
  intros Frefl Ftrans Hf. induction l as [|x l IH]; intros s; cbn [traverse].
  - eapply returns_eq; [reflexivity|]. split; [constructor | apply Frefl].
  - apply returns_bind. eapply returns_weaken; [apply Hf|].
    intros y s1 [Hy F1]. cbv beta.
    apply returns_bind. eapply returns_weaken; [apply IH|].
    intros ys s2 [Hys F2]. cbv beta.
    eapply returns_eq; [reflexivity|]. split; [now constructor | eauto].
Qed.

Lemma untouched_refl s : untouched s s.
Proof. split; reflexivity. Qed.

Lemma untouched_trans s1 s2 s3 : untouched s1 s2 -> untouched s2 s3 -> untouched s1 s3.
Proof. unfold untouched. intros [A B] [C D]. split; congruence. Qed.

Lemma start_fix_returns (plan : ICLIAgent * CLIType * CodeIssue)
  (s : state CodeReviewResult) :
  returns (start_fix w config getFixTaskPrompt plan) s
    (fun r s' => started_for w config getFixTaskPrompt plan r /\ untouched s s').
Proof.
  destruct plan as [[fixer c] issue]. unfold start_fix.
  step. step. step. step. step.
  match goal with
  | |- context [execute w ?n ?a ?p] =>
      destruct (execute w n a p) as [streamed settled] eqn:E
  end.
  step. split; [|split; reflexivity].
  cbn. repeat split. eexists. now rewrite E.
Qed.

Lemma finish_fix_returns (r : running) (s : state CodeReviewResult) :
  returns (finish_fix w config r) s
    (fun t s' =>
       (task_issue t = task_issue (run_task r)
        /\ assignedCLI t = assignedCLI (run_task r)
        /\ records t (run_settled r))
       /\ untouched s s').
Proof.
  unfold finish_fix. apply returns_bind.
  assert (Hchunks :
            returns (if streaming config
                     then for_each (fun c => emit (message_chunk c)) (run_streamed r)
                     else ret tt) s
              (fun _ s' => untouched s s')).
  { destruct (streaming config).
    - eapply returns_eq; [apply for_each_chunks|]. split; reflexivity.
    - eapply returns_eq; [reflexivity|]. split; reflexivity. }
  eapply returns_weaken; [exact Hchunks|].
  intros _ s1 [Hm Hr]. cbv beta. step.
  destruct (run_settled r) as [res|message].
  - step. step. unfold records. cbn. rewrite Hm, Hr.
    repeat split; discriminate.
  - step. unfold records. cbn. rewrite Hm, Hr. repeat split; discriminate.
Qed.

Lemma Forall2_compose {A B C} (P : A -> B -> Prop) (Q : B -> C -> Prop)
  (l1 : list A) (l2 : list B) (l3 : list C) :
  Forall2 P l1 l2 -> Forall2 Q l2 l3 ->
  Forall2 (fun a c => exists b, P a b /\ Q b c) l1 l3.
Proof.
  intros H. revert l3. induction H; intros l3 H3; inversion H3; subst;
    constructor; eauto.
Qed.

Lemma Forall2_map_eq {A B C} (f : A -> C) (g : B -> C) (l1 : list A) (l2 : list B) :
  Forall2 (fun a b => g b = f a) l1 l2 -> map g l2 = map f l1.
Proof. induction 1; cbn; congruence. Qed.

Lemma Forall2_Forall_r {A B} (P : A -> Prop) (Q : A -> B -> Prop) (R : B -> Prop)
  (l1 : list A) (l2 : list B) :
  Forall P l1 -> Forall2 Q l1 l2 -> (forall a b, P a -> Q a b -> R b) -> Forall R l2.
Proof.
  intros HP HQ Himp. induction HQ; inversion HP; subst; constructor; eauto.
Qed.

(** C5, amended. With auto-fix on and a non-empty list of confirmed
    issues, the fan-out returns, once every task it created is
    terminal, exactly one task for each issue whose backend (claude when
    the issue is unassigned) has a fixer in the fixer map, and none for
    the other issues; with the default fixer pool and issues assigned to
    backends that is one task per issue. Each task is completed or
    failed according to its own executor alone, with that executor's
    output (or the message of its rejection) as result and a duration;
    no outcome of one task changes another. The transcript and the
    result under construction are not touched. *)
Theorem executeParallelFix_fan_out (l : list CodeIssue) (s : state CodeReviewResult) :
  autoFix config = true ->
  l <> [] ->
  returns (executeParallelFix w config getFixTaskPrompt l) s
    (fun tasks s' =>
       Permutation (map task_issue tasks) (filter (has_fixer (make_fixers config)) l)
       /\ Forall (settled_on_its_own w config getFixTaskPrompt) tasks
       /\ Forall (fun t => task_status t = completed \/ task_status t = failed) tasks
       /\ (Forall (fun i => has_fixer (make_fixers config) i = true) l ->
           Permutation (map task_issue tasks) l)
       /\ messages s' = messages s
       /\ result s' = result s).
Proof.
  intros Hauto Hne. unfold executeParallelFix. rewrite Hauto.
  destruct l as [|i0 l0] eqn:El; [congruence|]. rewrite <- El. clear Hne.
  replace (negb true || Nat.eqb (List.length l) 0) with false
    by (rewrite El; reflexivity).
  step.
  apply returns_bind.
  eapply returns_weaken;
    [apply (traverse_returns _ (started_for w config getFixTaskPrompt) untouched
              untouched_refl untouched_trans
              start_fix_returns)|].
  intros started s1 [Hstarted U1]. cbv beta.
  apply returns_bind.
  eapply returns_weaken;
    [apply (traverse_returns _ _ untouched untouched_refl untouched_trans
              finish_fix_returns)|].
  intros tasks s2 [Hfinished U2]. cbv beta.
  step. step.
  pose proof (Forall2_compose _ _ _ _ _ Hstarted Hfinished) as Hboth.
  assert (Hissues : map task_issue tasks = map snd (planned_tasks (the_fixers config) l)).
  { apply Forall2_map_eq. revert Hboth. apply Forall2_impl.
    intros [[fixer c] issue] t (r & (Hi & _) & (Hi' & _)). cbn. congruence. }
  assert (Hown : Forall (settled_on_its_own w config getFixTaskPrompt) tasks).
  { apply (Forall2_Forall_r _ _ _ _ _ (planned_tasks_fixers (the_fixers config) l) Hboth).
    intros [[fixer c] issue] t [Hkey Hget] (r & (Hi & Hc & _ & n & Hn) & (Hi' & Hc' & Hrec)).
    exists n, fixer. rewrite Hi', Hi, Hc', Hc. rewrite <- Hn. auto. }
  split; [rewrite Hissues; apply planned_tasks_issues|].
  split; [exact Hown|].
  split.
  { revert Hown. apply Forall_impl. intros t (n & fixer & _ & _ & _ & Hrec).
    destruct (snd (execute w n fixer (getFixTaskPrompt (task_issue t) (path config))))
      as [res|message].
    - destruct Hrec as [Hst _]. rewrite Hst. destruct (success res); auto.
    - destruct Hrec as [Hst _]. auto. }
  split.
  { intros Hall. rewrite Hissues, planned_tasks_issues. unfold the_fixers.
    replace (filter (has_fixer (make_fixers config)) l) with l; [reflexivity|].
    clear -Hall. induction Hall as [|x l Hx _ IH]; cbn; [reflexivity|].
    rewrite Hx. congruence. }
  destruct U1 as [M1 R1], U2 as [M2 R2]. cbn in M1, R1.
  split; congruence.
Qed.

Lemma executeBuildCheck_returns (s : state CodeReviewResult) :
  returns (executeBuildCheck w config) s
    (fun _ s' =>
       messages s' = messages s /\ invocations s' = invocations s
       /\ result s' = result s).
Proof.
  unfold executeBuildCheck. step. step. step.
  destruct (build w _ _ _) as [code out err|message].
  - apply returns_bind.
    assert (Hchunks :
              forall s0 : state CodeReviewResult,
                returns (if streaming config
                         then for_each (fun c => emit (message_chunk c)) out
                         else ret tt) s0
                  (fun _ s' => messages s' = messages s0
                               /\ invocations s' = invocations s0
                               /\ result s' = result s0
                               /\ consulted s' = consulted s0)).
    { intros s0. destruct (streaming config).
      - eapply returns_eq; [apply for_each_chunks|]. repeat split.
      - eapply returns_eq; [reflexivity|]. repeat split. }
    eapply returns_weaken; [apply Hchunks|].
    intros _ s1 (Hm & Hi & Hr & _). cbv beta. simpl_state_in Hm.
    simpl_state_in Hi. simpl_state_in Hr.
    step. step. step. auto.
  - step. step. step. step. auto.
Qed.

Lemma build_phase_returns (s : state CodeReviewResult) :
  returns (build_phase w config) s
    (fun _ s' =>
       messages s' = messages s /\ invocations s' = invocations s
       /\ besides_build (result s) (result s')).
Proof.
  unfold build_phase.
  assert (Hskip : returns (ret tt) s
                    (fun (_ : unit) s' =>
                       messages s' = messages s /\ invocations s' = invocations s
                       /\ besides_build (result s) (result s'))).
  { eapply returns_eq; [reflexivity|]. unfold besides_build. repeat split. }
  destruct (buildCommand config) as [c|]; [|exact Hskip].
  destruct (String.eqb c EmptyString); [exact Hskip|].
  apply returns_bind. eapply returns_weaken; [apply executeBuildCheck_returns|].
  intros b s1 (Hm & Hi & Hr). cbv beta. step.
  destruct (negb (build_success b)); step; rewrite Hm, Hi, Hr;
    unfold besides_build; repeat split.
Qed.

Section NoIssues.

(** Whenever the challenger is asked for its analysis it answers with a
    success whose output parses to no issue. *)
Hypothesis Hnone :
  forall n,
    exists streamed r,
      execute w n (the_challenger config)
        (getCodeReviewChallengerPrompt (path config) (focus config))
      = (streamed, inl r)
      /\ success r = true
      /\ Parsing.parseIssuesFromOutput JSON_parse (output r) = [].

Lemma executeChallengerAnalysis_none (s : state CodeReviewResult) :
  returns (executeChallengerAnalysis JSON_parse w config
             getCodeReviewChallengerPrompt) s
    (fun found s' =>
       found = []
       /\ result s' = result s
       /\ invocations s'
          = invocations s
            ++ [(the_challenger config,
                 getCodeReviewChallengerPrompt (path config) (focus config))]
       /\ exists m, messages s' = messages s ++ [m]
                    /\ phase m = CODE_ANALYSIS /\ msg_role m = CHALLENGER).
Proof.
  unfold executeChallengerAnalysis. step. step. cbv beta zeta.
  match goal with
  | |- returns (bind (await_execute ?w0 ?st ?a ?p) ?k) ?s0 _ =>
      destruct (Hnone (consulted s0)) as (streamed & r & E & Hs & Hparse);
      apply returns_bind; eapply returns_eq;
      [exact (await_execute_fulfilled w0 st a p s0 _ _ E)|];
      simpl_state; cbv beta zeta; rewrite Hs; cbn [negb]
  end.
  step. step. step. step.
  rewrite Hparse. repeat split. eexists. repeat split.
Qed.

(** C8. A code-review run whose analysis yields no issue returns with
    status Completed, no error and an empty issue list; it has no
    defense response, no verdict and no fix tasks; its transcript holds
    the one message of the analysis, and the challenger is the only
    executor it invoked. *)
Theorem review_without_issues_completes :
  exists r st m,
    run JSON_parse w config getCodeReviewChallengerPrompt
      getCodeReviewDefenderPrompt getCodeReviewVerdictPrompt getFixTaskPrompt
    = (Ok r, st)
    /\ status r = COMPLETED
    /\ CodeReview.error r = None
    /\ issues r = []
    /\ defenseResponses r = None
    /\ verdict r = None
    /\ fixTasks r = None
    /\ messages st = [m]
    /\ phase m = CODE_ANALYSIS
    /\ msg_role m = CHALLENGER
    /\ invocations st
       = [(the_challenger config,
           getCodeReviewChallengerPrompt (path config) (focus config))].
Proof.
  unfold run.
  match goal with
  | |- context [try_catch _ _ ?s0] =>
      assert (H : returns
                    (run_try JSON_parse w config getCodeReviewChallengerPrompt
                       getCodeReviewDefenderPrompt getCodeReviewVerdictPrompt
                       getFixTaskPrompt) s0
                    (fun r st =>
                       exists m,
                         status r = COMPLETED
                         /\ CodeReview.error r = None
                         /\ issues r = []
                         /\ defenseResponses r = None
                         /\ verdict r = None
                         /\ fixTasks r = None
                         /\ messages st = [m]
                         /\ phase m = CODE_ANALYSIS
                         /\ msg_role m = CHALLENGER
                         /\ invocations st
                            = [(the_challenger config,
                                getCodeReviewChallengerPrompt (path config)
                                  (focus config))]))
  end.
  { unfold run_try. step. step.
    apply returns_bind. eapply returns_weaken; [apply build_phase_returns|].
    intros _ s1 (Hm1 & Hi1 & Hb). cbv beta.
    simpl_state_in Hm1. simpl_state_in Hi1. simpl_state_in Hb.
    destruct Hb as (_ & _ & _ & _ & Hd & Hv & Hf & _ & He). cbn in Hd, Hv, Hf, He.
    apply returns_bind.
    eapply returns_weaken; [apply executeChallengerAnalysis_none|].
    intros found s2 (-> & Hr2 & Hi2 & m & Hm2 & Hp & Hrole). cbv beta.
    step. cbn [List.length Nat.eqb]. step. step. step. step. step. step.
    exists m. cbn. rewrite Hr2, Hd, Hv, Hf, He, Hm2, Hm1, Hi2, Hi1.
    repeat split; assumption. }
  destruct H as (r & st & E & m & H).
  exists r, st, m. unfold try_catch. rewrite E. split; [reflexivity | exact H].
Qed.

End NoIssues.

(** The code-review run never consults the availability probes. *)
Lemma run_ignores_probes (probe : ICLIAgent -> bool) :
  run JSON_parse (with_probe w probe) config getCodeReviewChallengerPrompt
    getCodeReviewDefenderPrompt getCodeReviewVerdictPrompt getFixTaskPrompt
  = run JSON_parse w config getCodeReviewChallengerPrompt
      getCodeReviewDefenderPrompt getCodeReviewVerdictPrompt getFixTaskPrompt.
Proof. reflexivity. Qed.

End Orchestrator.

End CodeReviewFacts.

(* ===================================================================== *)
(** ** The orchestrators on the worked inputs *)
(* ===================================================================== *)

Module OrchestratorCases.
Import JsString Js Types Agents Runtime Samples.
Import RuntimeFacts DebateFacts CodeReviewFacts.

Lemma obliging_all_succeed (text : string) : all_succeed (obliging text).
Proof. intros n a prompt. do 2 eexists. split; reflexivity. Qed.

(** Scenario 1: topic X, one round, every backend available and
    successful. *)
Lemma debate_run_completes_witness :
  (all_succeed (obliging "fine")
   /\ isAvailable (obliging "fine") (Debate.the_moderator (debate 1)) = true
   /\ isAvailable (obliging "fine") (Debate.the_challenger (debate 1)) = true
   /\ isAvailable (obliging "fine") (Debate.the_defender (debate 1)) = true)
  /\ exists r st o f,
       run_debate (obliging "fine") 1 = (Ok r, st)
       /\ Debate.status r = COMPLETED
       /\ Debate.error r = None
       /\ List.length (Debate.round_results r) = Debate.rounds (debate 1)
       /\ Debate.opening r = Some o
       /\ Debate.finalVerdict r = Some f
       /\ messages st
          = [o] ++ flat_map Debate.round_messages (Debate.round_results r) ++ [f]
       /\ phase o = OPENING
       /\ phase f = FINAL
       /\ (forall j rr, nth_error (Debate.round_results r) j = Some rr ->
                        Debate.round_of (S j) rr)
       /\ (Debate.rounds (debate 1) = 0 -> messages st = [o; f]).
Proof.
  split.
  - split; [apply obliging_all_succeed|]. repeat split.
  - unfold run_debate.
    exact (debate_run_completes (obliging "fine") (debate 1) opening_prompt
             (round_prompt "challenge") (round_prompt "defend")
             (round_prompt "evaluate") final_prompt
             (obliging_all_succeed "fine") eq_refl eq_refl eq_refl).
Defined.

(** With no round the transcript is the opening and the final verdict,
    and the final phase starts right after the opening phase ends. *)
Example debate_without_rounds :
  map phase (messages (snd (run_debate (obliging "fine") 0))) = [OPENING; FINAL]
  /\ events (snd (run_debate (obliging "fine") 0))
     = [ debate_start; phase_start OPENING; message_start MODERATOR GEMINI;
         message_chunk "fine"; message_end "id-3"; phase_end OPENING;
         phase_start FINAL; message_start MODERATOR GEMINI;
         message_chunk "fine"; message_end "id-6"; phase_end FINAL;
         debate_end COMPLETED ].
Proof. split; vm_compute; reflexivity. Qed.

Example debate_with_two_rounds :
  map (fun m => (phase m, roundNumber m, msg_role m))
      (messages (snd (run_debate (obliging "fine") 2)))
  = [ (OPENING, None, MODERATOR);
      (ROUND, Some 1, CHALLENGER); (ROUND, Some 1, DEFENDER);
      (ROUND, Some 1, MODERATOR);
      (ROUND, Some 2, CHALLENGER); (ROUND, Some 2, DEFENDER);
      (ROUND, Some 2, MODERATOR);
      (FINAL, None, MODERATOR) ].
Proof. vm_compute. reflexivity. Qed.

(** Scenario 3: the analysis finds nothing. *)
Lemma review_without_issues_completes_witness :
  (forall n,
      exists streamed r,
        execute (obliging plain_output) n (CodeReview.the_challenger (review None))
          (analysis_prompt (CodeReview.path (review None))
             (CodeReview.focus (review None)))
        = (streamed, inl r)
        /\ success r = true
        /\ Parsing.parseIssuesFromOutput Json.parse (output r) = [])
  /\ exists r st m,
       run_review (obliging plain_output) None = (Ok r, st)
       /\ CodeReview.status r = COMPLETED
       /\ CodeReview.error r = None
       /\ CodeReview.issues r = []
       /\ CodeReview.defenseResponses r = None
       /\ CodeReview.verdict r = None
       /\ CodeReview.fixTasks r = None
       /\ messages st = [m]
       /\ phase m = CODE_ANALYSIS
       /\ msg_role m = CHALLENGER
       /\ invocations st
          = [(CodeReview.the_challenger (review None),
              analysis_prompt (CodeReview.path (review None))
                (CodeReview.focus (review None)))].
Proof.
  assert (H : forall n : nat,
             exists streamed r,
               execute (obliging plain_output) n
                 (CodeReview.the_challenger (review None))
                 (analysis_prompt (CodeReview.path (review None))
                    (CodeReview.focus (review None)))
               = (streamed, inl r)
               /\ success r = true
               /\ Parsing.parseIssuesFromOutput Json.parse (output r) = []).
  { intros n. do 2 eexists. split; [reflexivity|]. split; vm_compute; reflexivity. }
  split; [exact H|]. unfold run_review.
  exact (review_without_issues_completes Json.parse (obliging plain_output)
           (review None) analysis_prompt defense_prompt verdict_prompt fix_prompt H).
Defined.

(** Three issues for three backends, the codex fixer always failing. *)
Lemma executeParallelFix_fan_out_witness :
  (CodeReview.autoFix (review None) = true /\ three_issues <> [])
  /\ returns (CodeReview.executeParallelFix codex_fails (review None) fix_prompt
                three_issues)
       (fresh blank_result 0)
       (fun tasks s' =>
          Permutation (map CodeReview.task_issue tasks)
            (filter (CodeReview.has_fixer (CodeReview.make_fixers (review None)))
               three_issues)
          /\ Forall (CodeReview.settled_on_its_own codex_fails (review None) fix_prompt)
                    tasks
          /\ Forall (fun t => CodeReview.task_status t = CodeReview.completed
                              \/ CodeReview.task_status t = CodeReview.failed) tasks
          /\ (Forall (fun i => CodeReview.has_fixer
                                 (CodeReview.make_fixers (review None)) i = true)
                     three_issues ->
              Permutation (map CodeReview.task_issue tasks) three_issues)
          /\ messages s' = messages (fresh blank_result 0)
          /\ result s' = result (fresh blank_result 0)).
Proof.
  split; [split; [reflexivity | discriminate]|].
  apply (executeParallelFix_fan_out codex_fails (review None) fix_prompt
           three_issues (fresh blank_result 0)); [reflexivity | discriminate].
Defined.

Example fan_out_isolation :
  match fst (run_fixes codex_fails None three_issues) with
  | Ok tasks =>
      map (fun t => (CodeReview.assignedCLI t, CodeReview.task_status t,
                     CodeReview.task_result t, CodeReview.task_duration t)) tasks
      = [ (CLAUDE, CodeReview.completed, Some "fixed", Some 80%Z);
          (CODEX, CodeReview.failed, Some "patch rejected", Some 60%Z);
          (GEMINI, CodeReview.completed, Some "fixed", Some 40%Z) ]
  | Raise _ => False
  end.
Proof. vm_compute. reflexivity. Qed.

(** C5 as stated fails, in its two halves.
    - With claude as the only configured fixer, the issues assigned to
      codex and to gemini get no task: one task for three confirmed
      issues.
    - With the default fixers and a codex executor that always fails
      without printing anything, the failed task's result is the empty
      string. *)
Lemma executeParallelFix_not_one_task_each :
  (CodeReview.autoFix (review (Some [bound CLAUDE])) = true
   /\ List.length three_issues = 3
   /\ match fst (run_fixes codex_fails (Some [bound CLAUDE]) three_issues) with
      | Ok tasks => map (fun t => issue_id (CodeReview.task_issue t)) tasks = ["issue-1"]
      | Raise _ => False
      end)
  /\ match fst (run_fixes codex_fails_silently None three_issues) with
     | Ok tasks =>
         map (fun t => (CodeReview.assignedCLI t, CodeReview.task_status t,
                        CodeReview.task_result t)) tasks
         = [ (CLAUDE, CodeReview.completed, Some "fixed");
             (CODEX, CodeReview.failed, Some EmptyString);
             (GEMINI, CodeReview.completed, Some "fixed") ]
     | Raise _ => False
     end.
Proof.
  split; [split; [|split]|]; vm_compute; reflexivity.
Qed.

End OrchestratorCases.

(* ===================================================================== *)
(** ** The pre-flight availability check *)
(* ===================================================================== *)

Module Preflight.
Import JsString Js Types Agents Runtime Samples.
Import RuntimeFacts.

(** C2, amended. A debate run in which one of the three executors
    reports unavailable fails at once: its result has status Failed and
    the aggregated error, which names exactly the unavailable roles; no
    phase has started, no executor was invoked and the transcript is
    empty. A code-review run makes no availability check: what the
    executors report to the probe has no effect on it. *)
Theorem unavailable_executor_preflight :
  (forall (w : World) (config : Debate.DebateConfig)
          (p1 : string -> string)
          (p2 p3 p4 : string -> nat -> list DebateMessage -> string)
          (p5 : string -> list DebateMessage -> string),
      isAvailable w (Debate.the_moderator config)
      && isAvailable w (Debate.the_challenger config)
      && isAvailable w (Debate.the_defender config) = false ->
      let errors := snd (Debate.checkAgentsAvailable w config) in
      let message := ("Agent 不可用: " ++ join ", " errors)%string in
      exists r st,
        Debate.run w config p1 p2 p3 p4 p5 = (Ok r, st)
        /\ Debate.status r = FAILED
        /\ Debate.error r = Some message
        /\ Debate.opening r = None
        /\ Debate.round_results r = []
        /\ Debate.finalVerdict r = None
        /\ messages st = []
        /\ invocations st = []
        /\ events st = [error_event message; debate_end FAILED]
        /\ (isAvailable w (Debate.the_moderator config) = false <->
            In (Debate.unavailable "主持人" (Debate.moderator config)) errors)
        /\ (isAvailable w (Debate.the_challenger config) = false <->
            In (Debate.unavailable "挑战者" (Debate.challenger config)) errors)
        /\ (isAvailable w (Debate.the_defender config) = false <->
            In (Debate.unavailable "辩护者" (Debate.defender config)) errors))
  /\ (forall (JSON_parse : string -> option value) (w : World)
             (config : CodeReview.CodeReviewConfig)
             (p1 : string -> option (list IssueType) -> string)
             (p2 : string -> list CodeIssue -> string)
             (p3 : string -> list CodeIssue -> string -> string)
             (p4 : CodeIssue -> string -> string)
             (probe : ICLIAgent -> bool),
         CodeReview.run JSON_parse (with_probe w probe) config p1 p2 p3 p4
         = CodeReview.run JSON_parse w config p1 p2 p3 p4).
Proof.
  split.
  - intros w config p1 p2 p3 p4 p5 H. exact (DebateFacts.run_unavailable w config p1 p2 p3 p4 p5 H).
  - intros. apply CodeReviewFacts.run_ignores_probes.
Qed.

(** Scenario 2: the defender's backend is not installed. *)
Lemma unavailable_executor_preflight_witness :
  isAvailable (without_defender "fine") (Debate.the_moderator (debate 1))
  && isAvailable (without_defender "fine") (Debate.the_challenger (debate 1))
  && isAvailable (without_defender "fine") (Debate.the_defender (debate 1)) = false
  /\ exists r st,
       run_debate (without_defender "fine") 1 = (Ok r, st)
       /\ Debate.status r = FAILED
       /\ Debate.error r = Some "Agent 不可用: 辩护者 CLI (codex) 不可用"
       /\ messages st = []
       /\ invocations st = [].
Proof.
  split; [reflexivity|]. unfold run_debate.
  destruct (proj1 unavailable_executor_preflight (without_defender "fine") (debate 1)
              opening_prompt (round_prompt "challenge") (round_prompt "defend")
              (round_prompt "evaluate") final_prompt eq_refl)
    as (r & st & E & Hs & He & _ & _ & _ & Hm & Hi & _).
  exists r, st. split; [exact E|]. split; [exact Hs|].
  split; [exact He|]. split; assumption.
Defined.

(** C2 as stated fails for the code-review orchestrator. The defender
    reports unavailable; the run does not fail: the analysis phase runs,
    its message is created, and as the analysis finds nothing the run
    ends with status Completed and no error. *)
Lemma review_runs_with_unavailable_defender :
  isAvailable (without_defender plain_output)
    (CodeReview.the_defender (review None)) = false
  /\ match run_review (without_defender plain_output) None with
     | (Ok r, st) =>
         CodeReview.status r = COMPLETED
         /\ CodeReview.error r = None
         /\ map phase (messages st) = [CODE_ANALYSIS]
         /\ In (phase_start CODE_ANALYSIS) (events st)
     | (Raise _, _) => False
     end.
Proof.
  split; [reflexivity|]. vm_compute. repeat split. right. left. reflexivity.
Qed.

End Preflight.

(* ===================================================================== *)
(** ** The executor, the agents and the parsers *)
(* ===================================================================== *)

Module ObservationFacts.
Import JsString Js Fence Types Parsing Agents Execute ParsingContract.
Import StringFacts ParsingFacts ExecuteFacts Observations.

(* ---------- fence ---------- *)

(** X1. What the two parsers of code-review.ts decode from an answer:
    without a fenced json block, the whole answer; otherwise the text
    that comes after the first opening of a json fence and the white
    space behind it, that has no white space at either end and contains
    no triple back-quote, and that is followed, after white space only,
    by a triple back-quote. White space is any run of the white-space
    characters of JavaScript. Conversely, of an answer whose first
    opening of a json fence is followed by a text and then by the first
    triple back-quote behind it, that text is decoded, without the white
    space at its ends. *)
Theorem match_json_fence_capture (output : string) :
  (match_json_fence output = None -> jsonStr output = output)
  /\ (forall g : string,
         match_json_fence output = Some g ->
         jsonStr output = g
         /\ trim g = g
         /\ contains fence g = false
         /\ exists pre gap1 gap2 post,
              output = (pre ++ fence_json ++ gap1 ++ g ++ gap2 ++ fence ++ post)%string
              /\ contains fence_json pre = false
              /\ all_spaces gap1 = true
              /\ all_spaces gap2 = true)
  /\ (forall pre x post : string,
         output = (pre ++ fence_json ++ x ++ fence ++ post)%string ->
         contains fence_json pre = false ->
         fence_free x = true ->
         match_json_fence output = Some (trim x) /\ jsonStr output = trim x).
Proof.
  split; [|split].
  - intros H. unfold jsonStr. now rewrite H.
  - intros g H. split; [unfold jsonStr; now rewrite H|].
    unfold match_json_fence in H.
    destruct (after_first fence_json output) as [rest|] eqn:Ea; [|discriminate].
    destruct (after_first_sound fence_json _ _ eq_refl _ _ Ea) as (pre & Hout & Hpre).
    destruct (lazy_capture_sound _ _ H) as ((tail & Hs & Ht) & He & Hc).
    assert (Hstart : trimStart g = g).
    { apply (lazy_capture_head (skip_spaces rest)); [apply trimStart_idem | exact H]. }
    split; [unfold trim; now rewrite Hstart|]. split; [exact Hc|].
    destruct (skip_spaces_split rest) as (gap1 & Hrest & Hg1).
    destruct (closes_here_split tail Ht) as (gap2 & post & Htail & Hg2).
    exists pre, gap1, gap2, post. repeat split; try assumption.
    rewrite Hout. do 2 f_equal. rewrite Hrest at 1. f_equal.
    rewrite Hs. f_equal. exact Htail.
  - intros pre x post -> Hpre Hx.
    pose proof (match_json_fence_first pre x post Hpre Hx) as E.
    split; [exact E|]. unfold jsonStr. now rewrite E.
Qed.

(* ---------- execute ---------- *)

Lemma chunks_step (start : Z) (c : closure) (d : delivery) :
  chunks (step start c d)
  = match what d with
    | StdoutData chunk => chunk :: chunks c
    | _ => chunks c
    end.
Proof.
  unfold step. destruct (what d); try reflexivity.
  - unfold on_close. now destruct (resolved c).
  - unfold on_error. now destruct (resolved c).
  - destruct (timer_pending c); [|reflexivity].
    unfold on_timer. now destruct (resolved c).
Qed.

Lemma chunks_fold (start : Z) (trace : list delivery) :
  forall c, chunks (fold_left (step start) trace c)
            = rev (stdout_chunks trace) ++ chunks c.
Proof.
  induction trace as [|d trace IH]; intros c; cbn [fold_left stdout_chunks].
  - reflexivity.
  - rewrite IH, chunks_step. destruct (what d); try reflexivity.
    cbn [rev]. now rewrite <- List.app_assoc.
Qed.

Lemma stdout_of_chunks (trace : list delivery) :
  stdout_of trace = String.concat EmptyString (stdout_chunks trace).
Proof.
  induction trace as [|d trace IH]; cbn [stdout_of stdout_chunks]; [reflexivity|].
  destruct (what d); try exact IH.
  rewrite IH. cbn [String.concat].
  destruct (stdout_chunks trace); [|reflexivity].
  cbn. now rewrite append_empty_r.
Qed.

Lemma output_acc_fold (start : Z) (l : list delivery) :
  forall c, output_acc (fold_left (step start) l c)
            = (output_acc c ++ stdout_of l)%string.
Proof.
  induction l as [|d l IH]; intros c; cbn [fold_left stdout_of].
  - now rewrite append_empty_r.
  - rewrite IH. unfold step. destruct (what d); try reflexivity.
    + cbn. now rewrite append_assoc.
    + unfold on_close. now destruct (resolved c).
    + unfold on_error. now destruct (resolved c).
    + destruct (timer_pending c); [|reflexivity].
      unfold on_timer. now destruct (resolved c).
Qed.

Lemma stdout_chunks_app (a b : list delivery) :
  stdout_chunks (a ++ b) = stdout_chunks a ++ stdout_chunks b.
Proof.
  induction a as [|d a IH]; cbn [app stdout_chunks]; [reflexivity|].
  destruct (what d); rewrite IH; reflexivity.
Qed.

(** X2. Every chunk of standard output is handed to onChunk, once and in
    the order of arrival, whether or not the promise has settled by
    then, and the accumulated output is the concatenation of the chunks.
    A delivery that settles the promise is not a chunk, and the chunks
    that follow it are handed on all the same. *)
Theorem onChunk_receives_every_chunk (start : Z) (trace : list delivery) :
  let c := deliver start trace in
  rev (chunks c) = stdout_chunks trace
  /\ output_acc c = String.concat EmptyString (stdout_chunks trace)
  /\ (forall before d after,
         trace = before ++ d :: after ->
         settles d = true ->
         rev (chunks c) = stdout_chunks before ++ stdout_chunks after).
Proof.
  intros c. subst c.
  assert (H : rev (chunks (deliver start trace)) = stdout_chunks trace).
  { unfold deliver. rewrite chunks_fold. cbn [started chunks].
    rewrite List.app_nil_r. apply rev_involutive. }
  split; [exact H|]. split.
  - rewrite <- stdout_of_chunks. unfold deliver. now rewrite output_acc_fold.
  - intros before d after E Hd. rewrite H, E, stdout_chunks_app.
    cbn [stdout_chunks]. unfold settles in Hd. now destruct (what d).
Qed.

(** X3. After any deliveries the timer of execute is armed exactly while
    the promise is pending. A settled result is a success exactly when
    it carries no error; the output of a success has no white space at
    either end; and a signal was sent to the child only if the result is
    the timeout failure, in which case it is one SIGTERM. *)
Theorem execute_result_coherent (start : Z) (trace : list delivery) :
  let c := deliver start trace in
  timer_pending c = negb (resolved c)
  /\ (resolved c = true <-> promise c <> None)
  /\ (killed c = [] \/ killed c = ["SIGTERM"])
  /\ (forall r,
         promise c = Some r ->
         (success r = true <-> error r = None)
         /\ (success r = true -> trim (output r) = output r /\ killed c = [])
         /\ (killed c = ["SIGTERM"] ->
             success r = false /\ error r = Some timeout_error)).
Proof.
  intros c. subst c.
  destruct (invariant_deliver start trace)
    as [Hr Ht Hs Hk Ho He Hall | before d after r Hr Ht Htr Hall Hd Hs Hout].
  - rewrite Hr, Ht, Hk. unfold promise. rewrite Hs. cbn.
    repeat split; try discriminate; auto; try congruence.
  - rewrite Hr, Ht. unfold promise. rewrite Hs. cbn [map last negb].
    split; [reflexivity|]. split; [split; [discriminate | reflexivity]|].
    split; [destruct Hout; auto|].
    intros r' [= <-].
    destruct Hout as [Hw | code Hw Hcode | Hw | message Hw]; cbn [success error output].
    + repeat split; try discriminate; auto. apply trim_idem.
    + repeat split; try discriminate.
    + repeat split; try discriminate.
    + repeat split; try discriminate.
Qed.

(* ---------- agents ---------- *)

(** X5. The command line of the executor that createAgent builds for a
    backend: the program is named like the backend, and the flags the
    constructor passes on as extra arguments come after the fixed
    arguments, so the claude flag --print and the gemini flags --yolo -o
    text are each given twice, while codex gets no extra argument. *)
Theorem createAgent_command_line (c : CLIType) (r : DebateRole) (t : option Z)
  (prompt : string) :
  exists a,
    createAgent (CLIType_value c) r t = Normal a
    /\ getCommand a = CLIType_value c
    /\ getArgs a prompt
       = match c with
         | CLAUDE => ["--print"; "-p"; quoted prompt; "--print"]
         | CODEX => ["--approval-mode"; "full-auto"; quoted prompt]
         | GEMINI => [quoted prompt; "--yolo"; "-o"; "text"; "--yolo"; "-o"; "text"]
         end.
Proof. destruct c; eexists; repeat split. Qed.

(* ---------- parsing ---------- *)

Lemma assign_loop_selects (entries : list value) (issues : list CodeIssue) :
  forall r, assign_loop entries issues = Normal r -> selection issues r.
Proof.
  induction issues as [|issue issues IH]; intros r H.
  - injection H as <-. constructor.
  - cbn [assign_loop] in H.
    destruct (find_entry entries (issue_id issue)) as [confirmed|];
      cbn [Js.bind] in H; [|discriminate].
    match type of H with
    | Js.bind ?c _ = _ => destruct c as [flag|]; cbn [Js.bind] in H; [|discriminate]
    end.
    destruct (truthy flag).
    + match type of H with
      | Js.bind ?c _ = _ => destruct c as [a|]; cbn [Js.bind] in H; [|discriminate]
      end.
      destruct (parseCLIType a) as [cli|]; cbn [Js.bind] in H; [|discriminate].
      destruct (assign_loop entries issues) as [rest|]; cbn [Js.bind] in H;
        [|discriminate].
      injection H as <-. apply selection_keep. now apply IH.
    + apply selection_drop. now apply IH.
Qed.

Lemma selection_length (issues kept : list CodeIssue) :
  selection issues kept -> List.length kept <= List.length issues.
Proof. induction 1; cbn; lia. Qed.

Lemma table_get_or_unnamed {E} (table : list (string * E)) (v : value) (fallback : E) :
  unnamed table v = true ->
  Js.bind (opt_toLowerCase v)
    (fun key => Normal (table_get_or table (property_key key) fallback))
  = Normal (Member fallback).
Proof.
  unfold unnamed, table_get_or, table_get.
  destruct v as [| |b|n|s|items|props]; try discriminate;
    cbn [opt_toLowerCase Js.bind property_key].
  - destruct (assoc "undefined" table); [discriminate | reflexivity].
  - destruct (assoc "undefined" table); [discriminate | reflexivity].
  - destruct (assoc (toLowerCase s) table); [discriminate|].
    intros H. apply negb_true_iff in H. now rewrite H.
Qed.

(** X6. What the three look-up tables of code-review.ts fall back to: a
    type, severity or backend name that is missing, or that in lower
    case is neither a key of the table nor a name every object inherits,
    becomes bug, medium and claude. A value that is neither missing nor
    a string makes each of the three conversions throw. *)
Theorem table_fallbacks (v : value) :
  (unnamed typeMap v = true -> parseIssueType v = Normal (Member BUG))
  /\ (unnamed severityMap v = true -> parseSeverity v = Normal (Member MEDIUM))
  /\ (unnamed cliMap v = true -> parseCLIType v = Normal (Member CLAUDE))
  /\ (nameable v = false ->
      parseIssueType v = Throw TypeError
      /\ parseSeverity v = Throw TypeError
      /\ parseCLIType v = Throw TypeError).
Proof.
  split; [|split; [|split]].
  - apply table_get_or_unnamed.
  - apply table_get_or_unnamed.
  - apply table_get_or_unnamed.
  - destruct v; try discriminate; intros _; repeat split.
Qed.

Section WithDecoder.

Variable JSON_parse : string -> option value.

(** X7. parseIssuesFromOutput makes the issue list from the whole issues
    array or not at all: the result is empty, or it has one issue per
    element of the decoded array, in order, each with the description
    (the empty text for a falsy one), file path, line number and
    suggested fix of its element and no assignment. One element that is
    null, or whose type or severity is neither missing nor a string,
    empties the whole result. *)
Theorem parseIssuesFromOutput_all_or_nothing (output : string) :
  let r := parseIssuesFromOutput JSON_parse output in
  (r = []
   \/ exists props items,
        JSON_parse (jsonStr output) = Some (VObject props)
        /\ assoc "issues" props = Some (VArray items)
        /\ Forall2 converted items r)
  /\ (forall props items,
         JSON_parse (jsonStr output) = Some (VObject props) ->
         assoc "issues" props = Some (VArray items) ->
         (forallb convertible items = true -> Forall2 converted items r)
         /\ (forallb convertible items = false -> r = [])).
Proof.
  intros r. subst r. split.
  - unfold parseIssuesFromOutput, parseIssues_try, decode.
    destruct (JSON_parse (jsonStr output)) as [parsed|]; cbn [Js.bind]; [|now left].
    destruct parsed as [| |b|n|s|items|props]; cbn [get Js.bind truthy isArray andb];
      rewrite ?andb_false_r; try (now left).
    destruct (assoc "issues" props) as [[| |b|n|s|items|ps]|] eqn:Ei;
      cbn [Js.bind truthy isArray andb items_of]; rewrite ?andb_false_r;
      try (now left).
    destruct (map_from 0 items) as [r|e] eqn:Em; cbn [Js.bind]; [|now left].
    right. exists props, items. split; [reflexivity|]. split; [exact Ei|].
    destruct (forallb convertible items) eqn:Hall.
    + destruct (proj1 (map_from_convertible items 0) Hall) as (r' & Er & Hr).
      congruence.
    + destruct (proj2 (map_from_convertible items 0) Hall) as (e & Ee). congruence.
  - intros props items Hparse Hissues.
    unfold parseIssuesFromOutput, parseIssues_try, decode.
    rewrite Hparse. cbn [Js.bind get]. rewrite Hissues.
    cbn [Js.bind truthy isArray andb items_of]. split; intros Hall.
    + destruct (proj1 (map_from_convertible items 0) Hall) as (r' & -> & Hr).
      exact Hr.
    + destruct (proj2 (map_from_convertible items 0) Hall) as (e & ->).
      reflexivity.
Qed.

(** X8. parseVerdictAndAssign selects among the issues it is given: the
    result is the given list itself, or the given issues with some
    dropped and each of the others given an assignment, in the given
    order. It is never longer than the given list, and every issue in it
    is a given issue, apart from its assignment. *)
Theorem parseVerdictAndAssign_selects (output : string) (issues : list CodeIssue) :
  let r := parseVerdictAndAssign JSON_parse output issues in
  (r = issues \/ selection issues r)
  /\ List.length r <= List.length issues
  /\ (forall x, In x r -> exists issue,
          In issue issues
          /\ (x = issue \/ exists cli, x = with_assignedTo issue cli)).
Proof.
  intros r.
  assert (H : r = issues \/ selection issues r).
  { subst r. unfold parseVerdictAndAssign, parseVerdict_try.
    destruct (decode JSON_parse (jsonStr output)) as [parsed|]; cbn [Js.bind];
      [|now left].
    destruct (get parsed "confirmedIssues") as [entries|]; cbn [Js.bind];
      [|now left].
    destruct (truthy entries && isArray entries); [|now left].
    destruct (assign_loop (items_of entries) issues) as [kept|] eqn:Er;
      cbn [Js.bind]; [|now left].
    right. exact (assign_loop_selects _ _ _ Er). }
  split; [exact H|]. destruct H as [H|H].
  - rewrite H. split; [lia|]. intros x Hx. exists x. auto.
  - split; [now apply selection_length|].
    clear -H. induction H as [|issue issues kept _ IH|issue cli issues kept _ IH];
      intros x Hx.
    + contradiction.
    + destruct (IH x Hx) as (i & Hi & Hc). exists i. split; [now right | exact Hc].
    + destruct Hx as [<-|Hx].
      * exists issue. split; [now left|]. right. now exists cli.
      * destruct (IH x Hx) as (i & Hi & Hc). exists i. split; [now right | exact Hc].
Qed.

End WithDecoder.

End ObservationFacts.

(* ===================================================================== *)
(** ** The fixer map and the order of the fix tasks *)
(* ===================================================================== *)

Module FixPlanFacts.
Import JsString Js Types Agents Runtime CodeReview.
Import RuntimeFacts CodeReviewFacts FixPlan.

Lemma CLIType_eqb_eq (a b : CLIType) : CLIType_eqb a b = true <-> a = b.
Proof. destruct a, b; cbn; split; congruence. Qed.

Lemma fixers_get_app (m : FixerMap) (k c : CLIType) (a : ICLIAgent) :
  fixers_get (m ++ [(k, a)]) c
  = match fixers_get m c with
    | Some x => Some x
    | None => if CLIType_eqb c k then Some a else None
    end.
Proof.
  induction m as [|[k' a'] m IH]; cbn [app fixers_get]; [reflexivity|].
  destruct (CLIType_eqb c k'); [reflexivity | exact IH].
Qed.

Lemma fixers_get_In (m : FixerMap) (c : CLIType) (a : ICLIAgent) :
  fixers_get m c = Some a -> In (c, a) m.
Proof.
  induction m as [|[k a'] m IH]; cbn [fixers_get]; [discriminate|].
  destruct (CLIType_eqb c k) eqn:E.
  - apply CLIType_eqb_eq in E. subst k. intros [= ->]. now left.
  - intros H. right. now apply IH.
Qed.

Lemma fixers_get_None (m : FixerMap) (c : CLIType) :
  fixers_get m c = None -> ~ In c (map fst m).
Proof.
  induction m as [|[k a'] m IH]; cbn [fixers_get map fst]; [auto|].
  destruct (CLIType_eqb c k) eqn:E; [discriminate|].
  intros H [Hk|Hin].
  - subst k. destruct c; discriminate.
  - now apply IH.
Qed.

Lemma agent_of_cliType c r t : cliType (agent_of c r t) = c.
Proof. now destruct c. Qed.

Lemma agent_of_role c r t : role (agent_of c r t) = r.
Proof. now destruct c. Qed.

Lemma configured_fixers_from (l : list AgentConfig) :
  forall m,
    well_formed m ->
    let m' := fold_left
                (fun m fixer =>
                   if fixers_has m (cfg_cliType fixer) then m
                   else m ++ [(cfg_cliType fixer,
                               agent_of (cfg_cliType fixer) DEFENDER (cfg_timeout fixer))])
                l m in
    well_formed m'
    /\ List.length m <= List.length m'
    /\ (l <> [] -> m' <> [])
    /\ forall c,
         fixers_get m' c
         = match fixers_get m c with
           | Some a => Some a
           | None =>
               match first_config l c with
               | Some f => Some (agent_of c DEFENDER (cfg_timeout f))
               | None => None
               end
           end.
Proof.
  induction l as [|f l IH]; intros m Hm; cbn [fold_left].
  - cbv zeta. split; [exact Hm|]. split; [lia|]. split; [congruence|].
    intros c. cbn. now destruct (fixers_get m c).
  - destruct (fixers_has m (cfg_cliType f)) eqn:Ehas;
      unfold fixers_has in Ehas;
      destruct (fixers_get m (cfg_cliType f)) as [a|] eqn:E; try discriminate Ehas;
      clear Ehas.
    + destruct (IH m Hm) as (H1 & H2 & H3 & H4). cbv zeta.
      split; [exact H1|]. split; [exact H2|]. split.
      * intros _ Hnil. rewrite Hnil in H2. destruct m; [discriminate | cbn in H2; lia].
      * intros c. rewrite H4. destruct (fixers_get m c) as [x|] eqn:Ec; [reflexivity|].
        unfold first_config. cbn [find].
        destruct (CLIType_eqb (cfg_cliType f) c) eqn:Ef; [|reflexivity].
        apply CLIType_eqb_eq in Ef. congruence.
    + assert (Hm' : well_formed
                      (m ++ [(cfg_cliType f,
                              agent_of (cfg_cliType f) DEFENDER (cfg_timeout f))])).
      { destruct Hm as [Hnd Hall]. split.
        - rewrite map_app. cbn [map fst].
          apply NoDup_app_remove_l with (l := []). cbn.
          apply Permutation_NoDup with (l := cfg_cliType f :: map fst m).
          + apply Permutation_cons_append.
          + constructor; [now apply fixers_get_None | exact Hnd].
        - apply Forall_app. split; [exact Hall|]. constructor; [|constructor].
          cbn. split; [apply agent_of_cliType | apply agent_of_role]. }
      destruct (IH _ Hm') as (H1 & H2 & H3 & H4). cbv zeta.
      split; [exact H1|]. rewrite length_app in H2. cbn in H2.
      split; [lia|]. split.
      * intros _ Hnil. rewrite Hnil in H2. cbn in H2. lia.
      * intros c. rewrite H4, fixers_get_app.
        destruct (fixers_get m c) as [x|] eqn:Ec; [reflexivity|].
        unfold first_config. cbn [find].
        destruct (CLIType_eqb c (cfg_cliType f)) eqn:Ef.
        -- apply CLIType_eqb_eq in Ef. subst c.
           replace (CLIType_eqb (cfg_cliType f) (cfg_cliType f)) with true
             by (now destruct (cfg_cliType f)).
           reflexivity.
        -- replace (CLIType_eqb (cfg_cliType f) c) with false; [reflexivity|].
           destruct (cfg_cliType f), c; cbn in *; congruence.
Qed.

Lemma well_formed_default : well_formed default_fixers.
Proof.
  split.
  - cbn. repeat constructor; cbn; intuition discriminate.
  - repeat constructor.
Qed.

(** X9. The fixer map that the constructor of the review orchestrator
    builds is never empty and has at most one fixer per backend, each
    bound to the defender role and to the backend it is filed under. Of
    several configurations of one backend the first is used; with no
    configuration, or an empty list, the map holds the three backends
    with the default timeout. *)
Theorem make_fixers_map (config : CodeReviewConfig) :
  let m := make_fixers config in
  m <> []
  /\ NoDup (map fst m)
  /\ Forall (fun e => cliType (snd e) = fst e /\ role (snd e) = DEFENDER) m
  /\ (forall l, fixers config = Some l -> l <> [] ->
                forall c,
                  fixers_get m c
                  = match first_config l c with
                    | Some f => Some (agent_of c DEFENDER (cfg_timeout f))
                    | None => None
                    end)
  /\ (fixers config = None \/ fixers config = Some [] ->
      m = default_fixers
      /\ forall c, fixers_get m c = Some (agent_of c DEFENDER None)).
Proof.
  cbv zeta. unfold make_fixers.
  assert (Hempty : well_formed ([] : FixerMap)) by (split; constructor).
  destruct (fixers config) as [l|] eqn:Ef.
  - pose proof (configured_fixers_from l [] Hempty) as H. cbv zeta in H.
    change (fold_left _ l []) with (configured_fixers l) in H.
    destruct H as ((Hnd & Hall) & _ & Hne & Hget).
    destruct l as [|f l].
    + cbn. destruct well_formed_default as [Hd1 Hd2].
      split; [discriminate|]. split; [exact Hd1|]. split; [exact Hd2|].
      split; [intros l [= <-] H; congruence|].
      intros _. split; [reflexivity|]. intros c. now destruct c.
    + assert (Hm : configured_fixers (f :: l) <> []) by (apply Hne; discriminate).
      destruct (configured_fixers (f :: l)) as [|e m'] eqn:Em; [congruence|].
      cbn [List.length Nat.eqb].
      split; [discriminate|]. split; [exact Hnd|]. split; [exact Hall|].
      split.
      * intros l0 [= <-] _ c. exact (Hget c).
      * intros [H|H]; discriminate.
  - cbn. destruct well_formed_default as [Hd1 Hd2].
    split; [discriminate|]. split; [exact Hd1|]. split; [exact Hd2|].
    split; [intros l H; discriminate|].
    intros _. split; [reflexivity|]. intros c. now destruct c.
Qed.

(* ---------- the order of the tasks ---------- *)

Lemma key_eqb_sym (a b : looked_up CLIType) : key_eqb a b = key_eqb b a.
Proof.
  destruct a as [x|n], b as [y|m]; cbn; try reflexivity.
  - now destruct x, y.
  - apply String.eqb_sym.
Qed.

Lemma key_eqb_neq (a b : looked_up CLIType) : key_eqb a b = false -> a <> b.
Proof. intros H ->. now rewrite key_eqb_refl in H. Qed.

Lemma existsb_first_seen (k : looked_up CLIType) (keys : list (looked_up CLIType)) :
  existsb (key_eqb k) (first_seen keys) = existsb (key_eqb k) keys.
Proof.
  induction keys as [|x keys IH]; [reflexivity|]. cbn [first_seen existsb].
  destruct (key_eqb k x) eqn:E; [reflexivity|]. cbn [orb]. rewrite <- IH.
  clear IH. induction (first_seen keys) as [|y ys IH]; [reflexivity|].
  cbn [filter existsb]. destruct (key_eqb y x) eqn:Ey; cbn [negb existsb].
  - apply key_eqb_eq in Ey. subst y. now rewrite E.
  - now rewrite IH.
Qed.

Lemma first_seen_snoc (keys : list (looked_up CLIType)) (k : looked_up CLIType) :
  first_seen (keys ++ [k])
  = if existsb (key_eqb k) keys then first_seen keys else first_seen keys ++ [k].
Proof.
  induction keys as [|x keys IH]; [reflexivity|].
  cbn [app first_seen existsb]. rewrite IH.
  destruct (key_eqb k x) eqn:E; cbn [orb].
  - destruct (existsb (key_eqb k) keys); [reflexivity|].
    rewrite filter_app. cbn [filter]. rewrite E. cbn [negb].
    now rewrite List.app_nil_r.
  - destruct (existsb (key_eqb k) keys); [reflexivity|].
    rewrite filter_app. cbn [filter]. rewrite E. reflexivity.
Qed.

Lemma first_seen_NoDup (keys : list (looked_up CLIType)) : NoDup (first_seen keys).
Proof.
  induction keys as [|x keys IH]; cbn [first_seen]; constructor.
  - intros H. apply filter_In in H. destruct H as [_ H].
    now rewrite key_eqb_refl in H.
  - now apply NoDup_filter.
Qed.

Lemma existsb_key_false (k : looked_up CLIType) (ks : list (looked_up CLIType)) :
  existsb (key_eqb k) ks = false -> forall x, In x ks -> key_eqb k x = false.
Proof.
  intros H x Hx. destruct (key_eqb k x) eqn:E; [|reflexivity].
  assert (existsb (key_eqb k) ks = true) by (apply existsb_exists; eauto).
  congruence.
Qed.

Lemma not_In_key (k : looked_up CLIType) (ks : list (looked_up CLIType)) :
  ~ In k ks -> existsb (key_eqb k) ks = false.
Proof.
  intros H. destruct (existsb (key_eqb k) ks) eqn:E; [|reflexivity].
  apply existsb_exists in E. destruct E as (x & Hx & E).
  apply key_eqb_eq in E. now subst x.
Qed.

Lemma group_push_map (g : looked_up CLIType -> list CodeIssue)
  (k0 : looked_up CLIType) (i : CodeIssue) (ks : list (looked_up CLIType)) :
  NoDup ks ->
  group_push k0 i (map (fun k => (k, g k)) ks)
  = map (fun k => (k, if key_eqb k0 k then g k ++ [i] else g k)) ks
    ++ (if existsb (key_eqb k0) ks then [] else [(k0, [i])]).
Proof.
  induction 1 as [|k ks Hk Hnd IH]; cbn [map group_push existsb app]; [reflexivity|].
  destruct (key_eqb k0 k) eqn:E; cbn [orb].
  - apply key_eqb_eq in E. subst k0. rewrite List.app_nil_r. f_equal.
    apply map_ext_in. intros x Hx.
    now rewrite (existsb_key_false k ks (not_In_key k ks Hk) x Hx).
  - now rewrite IH.
Qed.

Lemma issues_for_snoc (k : looked_up CLIType) (l : list CodeIssue) (i : CodeIssue) :
  issues_for k (l ++ [i])
  = issues_for k l ++ (if key_eqb (fix_key i) k then [i] else []).
Proof. unfold issues_for. rewrite filter_app. reflexivity. Qed.

Lemma issues_for_none (k : looked_up CLIType) (l : list CodeIssue) :
  existsb (key_eqb k) (map fix_key l) = false -> issues_for k l = [].
Proof.
  unfold issues_for. induction l as [|i l IH]; [reflexivity|].
  cbn [map existsb filter]. intros H. apply orb_false_iff in H. destruct H as [H1 H2].
  rewrite key_eqb_sym, H1. now apply IH.
Qed.

Lemma groups_of_snoc (l : list CodeIssue) (i : CodeIssue) :
  group_push (fix_key i) i (groups_of l) = groups_of (l ++ [i]).
Proof.
  unfold groups_of. rewrite group_push_map by apply first_seen_NoDup.
  rewrite map_app. cbn [map]. rewrite first_seen_snoc, existsb_first_seen.
  destruct (existsb (key_eqb (fix_key i)) (map fix_key l)) eqn:E.
  - rewrite List.app_nil_r. apply map_ext. intros k.
    rewrite issues_for_snoc. destruct (key_eqb (fix_key i) k); [reflexivity|].
    now rewrite List.app_nil_r.
  - rewrite map_app. cbn [map]. f_equal.
    + apply map_ext_in. intros k Hk. rewrite issues_for_snoc.
      assert (Hf : key_eqb (fix_key i) k = false).
      { apply (existsb_key_false _ (first_seen (map fix_key l))); [|exact Hk].
        now rewrite existsb_first_seen. }
      rewrite Hf. now rewrite List.app_nil_r.
    + rewrite issues_for_snoc, key_eqb_refl, (issues_for_none _ _ E). reflexivity.
Qed.

Lemma issuesByCliType_groups (l : list CodeIssue) : issuesByCliType l = groups_of l.
Proof.
  unfold issuesByCliType.
  assert (H : forall l0,
             fold_left (fun groups issue => group_push (fix_key issue) issue groups)
               l (groups_of l0)
             = groups_of (l0 ++ l)).
  { induction l as [|i l IH]; intros l0; cbn [fold_left].
    - now rewrite List.app_nil_r.
    - rewrite groups_of_snoc, IH, <- List.app_assoc. reflexivity. }
  exact (H []).
Qed.

Lemma planned_tasks_order (m : FixerMap) (l : list CodeIssue) :
  map snd (planned_tasks m l) = task_order m l.
Proof.
  unfold planned_tasks, task_order. rewrite issuesByCliType_groups. unfold groups_of.
  induction (first_seen (map fix_key l)) as [|k ks IH]; [reflexivity|].
  cbn [map flat_map fst snd]. rewrite map_app, IH. f_equal.
  destruct (fixer_for m k) as [[c fixer]|]; [|reflexivity].
  rewrite map_map. cbn [snd]. apply map_id.
Qed.

Lemma issues_for_issues_for (k k' : looked_up CLIType) (l : list CodeIssue) :
  issues_for k (issues_for k' l) = if key_eqb k' k then issues_for k l else [].
Proof.
  unfold issues_for. induction l as [|i l IH]; cbn [filter].
  - now destruct (key_eqb k' k).
  - destruct (key_eqb (fix_key i) k') eqn:E1.
    + apply key_eqb_eq in E1. subst k'. cbn [filter].
      destruct (key_eqb (fix_key i) k); [now rewrite IH | exact IH].
    + rewrite IH. destruct (key_eqb k' k) eqn:E2; [|reflexivity].
      apply key_eqb_eq in E2. subst k'. now rewrite E1.
Qed.

Lemma task_order_for (m : FixerMap) (l : list CodeIssue) (k : looked_up CLIType) :
  issues_for k (task_order m l)
  = match fixer_for m k with
    | Some _ => issues_for k l
    | None => []
    end.
Proof.
  unfold task_order.
  assert (H : forall ks,
             NoDup ks ->
             issues_for k
               (flat_map (fun k' => match fixer_for m k' with
                                    | Some _ => issues_for k' l
                                    | None => []
                                    end) ks)
             = if existsb (key_eqb k) ks
               then match fixer_for m k with
                    | Some _ => issues_for k l
                    | None => []
                    end
               else []).
  { induction 1 as [|k' ks Hk Hnd IH]; [reflexivity|].
    cbn [flat_map existsb]. unfold issues_for at 1. rewrite filter_app.
    fold (issues_for k (match fixer_for m k' with
                        | Some _ => issues_for k' l | None => [] end)).
    fold (issues_for k (flat_map (fun k'0 => match fixer_for m k'0 with
                                             | Some _ => issues_for k'0 l
                                             | None => [] end) ks)).
    rewrite IH. destruct (key_eqb k k') eqn:E; cbn [orb].
    - apply key_eqb_eq in E. subst k'. rewrite (not_In_key k ks Hk).
      rewrite List.app_nil_r. destruct (fixer_for m k); [|reflexivity].
      now rewrite issues_for_issues_for, key_eqb_refl.
    - replace (issues_for k match fixer_for m k' with
                            | Some _ => issues_for k' l | None => [] end)
        with (@nil CodeIssue); [reflexivity|].
      destruct (fixer_for m k'); [|reflexivity].
      now rewrite issues_for_issues_for, key_eqb_sym, E. }
  rewrite (H _ (first_seen_NoDup _)), existsb_first_seen.
  destruct (existsb (key_eqb k) (map fix_key l)) eqn:E; [reflexivity|].
  rewrite (issues_for_none _ _ E). now destruct (fixer_for m k).
Qed.

Section Orchestrator.

Variable w : World.
Variable config : CodeReviewConfig.
Variable getFixTaskPrompt : CodeIssue -> string -> string.

(** X10. With auto-fix on and some issue to fix, the tasks that
    executeParallelFix returns come in the order of the groups: backend
    after backend in the order the backends first appear among the
    issues, and inside a backend in the order of the issues. Every task
    is filed under the backend its issue is assigned to, claude when
    unassigned; the tasks of a backend with a fixer are exactly its
    issues, and a backend without a fixer gets none. *)
Theorem executeParallelFix_order (l : list CodeIssue) (s : state CodeReviewResult) :
  autoFix config = true ->
  l <> [] ->
  returns (executeParallelFix w config getFixTaskPrompt l) s
    (fun tasks _ =>
       map task_issue tasks = task_order (make_fixers config) l
       /\ Forall (fun t => fix_key (task_issue t) = Member (assignedCLI t)) tasks
       /\ forall k,
            issues_for k (map task_issue tasks)
            = match fixer_for (make_fixers config) k with
              | Some _ => issues_for k l
              | None => []
              end).
Proof.
  intros Hauto Hne. unfold executeParallelFix. rewrite Hauto.
  destruct l as [|i0 l0] eqn:El; [congruence|]. rewrite <- El. clear Hne.
  replace (negb true || Nat.eqb (List.length l) 0) with false
    by (rewrite El; reflexivity).
  step.
  apply returns_bind.
  eapply returns_weaken;
    [apply (traverse_returns _ (started_for w config getFixTaskPrompt) untouched
              untouched_refl untouched_trans
              (start_fix_returns w config getFixTaskPrompt))|].
  intros started s1 [Hstarted U1]. cbv beta.
  apply returns_bind.
  eapply returns_weaken;
    [apply (traverse_returns _ _ untouched untouched_refl untouched_trans
              (finish_fix_returns w config))|].
  intros tasks s2 [Hfinished U2]. cbv beta.
  step. step.
  pose proof (Forall2_compose _ _ _ _ _ Hstarted Hfinished) as Hboth.
  assert (Hissues : map task_issue tasks = task_order (make_fixers config) l).
  { rewrite <- planned_tasks_order. apply Forall2_map_eq. revert Hboth.
    apply Forall2_impl.
    intros [[fixer c] issue] t (r & (Hi & _) & (Hi' & _)). cbn. congruence. }
  split; [exact Hissues|]. split.
  - apply (Forall2_Forall_r _ _ _ _ _
             (planned_tasks_fixers (the_fixers config) l) Hboth).
    intros [[fixer c] issue] t [Hkey Hget] (r & (Hi & Hc & _) & (Hi' & Hc' & _)).
    congruence.
  - intros k. rewrite Hissues. apply task_order_for.
Qed.

End Orchestrator.

End FixPlanFacts.

(* ===================================================================== *)
(** ** Reasoning about runs in any world *)
(* ===================================================================== *)

Module RunLogicFacts.
Import JsString Types Agents Runtime RuntimeFacts RunLogic.
Local Open Scope run_scope.

Lemma ensures_bind {R A B} (c : M R A) (k : A -> M R B) (s : state R)
  (Q : B -> state R -> Prop) (E : string -> state R -> Prop) :
  ensures c s (fun a s1 => ensures (k a) s1 Q E) E -> ensures (bind c k) s Q E.
Proof.
  unfold ensures, bind. destruct (c s) as [[a|m] s1]; auto.
Qed.

Lemma ensures_eq {R A} (c : M R A) (s s' : state R) (a : A)
  (Q : A -> state R -> Prop) (E : string -> state R -> Prop) :
  c s = (Ok a, s') -> Q a s' -> ensures c s Q E.
Proof. intros H HQ. unfold ensures. now rewrite H. Qed.

Lemma ensures_raise {R A} (m : string) (s : state R)
  (Q : A -> state R -> Prop) (E : string -> state R -> Prop) :
  E m s -> ensures (raise m) s Q E.
Proof. auto. Qed.

Lemma ensures_weaken {R A} (c : M R A) (s : state R)
  (Q Q' : A -> state R -> Prop) (E E' : string -> state R -> Prop) :
  ensures c s Q E ->
  (forall a s', Q a s' -> Q' a s') ->
  (forall m s', E m s' -> E' m s') ->
  ensures c s Q' E'.
Proof. unfold ensures. destruct (c s) as [[a|m] s1]; auto. Qed.

Lemma ensures_always {R A} (F : state R -> state R -> Prop) (c : M R A) (s : state R)
  (Q : A -> state R -> Prop) (E : string -> state R -> Prop) :
  always F c -> ensures c s Q E ->
  ensures c s (fun a s' => Q a s' /\ F s s') (fun m s' => E m s' /\ F s s').
Proof.
  intros HF. specialize (HF s). unfold ensures.
  destruct (c s) as [[a|m] s1]; cbn in HF; auto.
Qed.

Lemma always_ensures {R A} (F : state R -> state R -> Prop) (c : M R A) (s : state R) :
  always F c -> ensures c s (fun _ s' => F s s') (fun _ s' => F s s').
Proof.
  intros HF. specialize (HF s). unfold ensures.
  destruct (c s) as [[a|m] s1]; cbn in HF; auto.
Qed.

(** An invocation, whatever the world answers. *)
Lemma ensures_await {R} (w : World) (streaming : bool) (a : ICLIAgent)
  (prompt : string) (s : state R)
  (Q : AgentExecuteResult -> state R -> Prop) (E : string -> state R -> Prop) :
  (forall streamed,
      let s1 := {| messages := messages s;
                   events := events s ++ chunk_events streaming streamed;
                   invocations := invocations s ++ [(a, prompt)];
                   consulted := S (consulted s);
                   result := result s |} in
      (forall r, execute w (consulted s) a prompt = (streamed, inl r) -> Q r s1)
      /\ (forall m, execute w (consulted s) a prompt = (streamed, inr m) -> E m s1)) ->
  ensures (await_execute w streaming a prompt) s Q E.
Proof.
  intros H. unfold ensures.
  destruct (execute w (consulted s) a prompt) as [streamed [r|m]] eqn:Ex.
  - rewrite (await_execute_fulfilled w streaming a prompt s streamed r Ex).
    now apply (H streamed).
  - rewrite (await_execute_rejected w streaming a prompt s streamed m Ex).
    now apply (H streamed).
Qed.

Lemma ensures_try_catch {R A} (body : M R A) (handler : string -> M R A)
  (s : state R) (Q : A -> state R -> Prop) (E : string -> state R -> Prop) :
  ensures body s Q (fun m s1 => ensures (handler m) s1 Q E) ->
  ensures (try_catch body handler) s Q E.
Proof.
  unfold ensures, try_catch. destruct (body s) as [[a|m] s1]; auto.
Qed.

(** A handler that cannot throw makes [try]/[catch] return. *)
Lemma ensures_returns {R A} (c : M R A) (s : state R) (Q : A -> state R -> Prop) :
  ensures c s Q (fun _ _ => False) -> returns c s Q.
Proof.
  unfold ensures, returns. destruct (c s) as [[a|m] s1]; [eauto | contradiction].
Qed.

(* ---------- always ---------- *)

Section Always.

Context {R : Type}.
Variable F : state R -> state R -> Prop.
Hypothesis F_refl : forall s, F s s.
Hypothesis F_trans : forall s1 s2 s3, F s1 s2 -> F s2 s3 -> F s1 s3.

Lemma always_ret {A} (a : A) : always F (ret a).
Proof. intros s. apply F_refl. Qed.

Lemma always_raise {A} (m : string) : always F (@raise R A m).
Proof. intros s. apply F_refl. Qed.

Lemma always_bind {A B} (c : M R A) (k : A -> M R B) :
  always F c -> (forall a, always F (k a)) -> always F (bind c k).
Proof.
  intros Hc Hk s. unfold bind. specialize (Hc s).
  destruct (c s) as [[a|m] s1]; cbn in Hc |- *; [|exact Hc].
  eapply F_trans; [exact Hc | apply Hk].
Qed.

Lemma always_try_catch {A} (body : M R A) (handler : string -> M R A) :
  always F body -> (forall m, always F (handler m)) -> always F (try_catch body handler).
Proof.
  intros Hc Hk s. unfold try_catch. specialize (Hc s).
  destruct (body s) as [[a|m] s1]; cbn in Hc |- *; [exact Hc|].
  eapply F_trans; [exact Hc | apply Hk].
Qed.

Lemma always_for_each {A} (f : A -> M R unit) (l : list A) :
  (forall x, always F (f x)) -> always F (for_each f l).
Proof.
  intros Hf. induction l as [|x l IH]; cbn [for_each].
  - apply always_ret.
  - apply always_bind; [apply Hf | intros _; exact IH].
Qed.

End Always.

(* ---------- publishing ---------- *)

Lemma publishes_refl {R} (P : DebateEvent -> bool) (s : state R) : publishes P s s.
Proof. exists []. split; [now rewrite List.app_nil_r | reflexivity]. Qed.

Lemma publishes_trans {R} (P : DebateEvent -> bool) (s1 s2 s3 : state R) :
  publishes P s1 s2 -> publishes P s2 s3 -> publishes P s1 s3.
Proof.
  intros (a & Ha & Pa) (b & Hb & Pb). exists (a ++ b). split.
  - now rewrite Hb, Ha, List.app_assoc.
  - rewrite forallb_app, Pa, Pb. reflexivity.
Qed.

Lemma publishes_same {R} (P : DebateEvent -> bool) (s s' : state R) :
  events s' = events s -> publishes P s s'.
Proof. intros H. exists []. split; [now rewrite List.app_nil_r | reflexivity]. Qed.

Lemma always_emit {R} (P : DebateEvent -> bool) (e : DebateEvent) :
  P e = true -> always (publishes (R := R) P) (emit e).
Proof.
  intros H s. exists [e]. split; [reflexivity|]. cbn. now rewrite H.
Qed.

Lemma always_quiet {R A} (P : DebateEvent -> bool) (c : M R A) :
  (forall s, events (snd (c s)) = events s) -> always (publishes P) c.
Proof. intros H s. apply publishes_same, H. Qed.

Lemma always_chunks {R} (P : DebateEvent -> bool) (streaming : bool) (l : list string) :
  (streaming = true -> forall c, P (message_chunk c) = true) ->
  always (publishes (R := R) P)
    (if streaming then for_each (fun c => emit (message_chunk c)) l else ret tt).
Proof.
  intros HP. destruct streaming.
  - apply always_for_each; [apply publishes_refl | apply publishes_trans|].
    intros x. apply always_emit. now apply HP.
  - apply always_ret. apply publishes_refl.
Qed.

Lemma always_await {R} (P : DebateEvent -> bool) (w : World) (streaming : bool)
  (a : ICLIAgent) (prompt : string) :
  (streaming = true -> forall c, P (message_chunk c) = true) ->
  always (publishes (R := R) P) (await_execute w streaming a prompt).
Proof.
  intros HP. unfold await_execute.
  apply always_bind; [apply publishes_trans | now apply always_quiet |].
  intros n.
  apply always_bind; [apply publishes_trans | now apply always_quiet |].
  intros _. destruct (execute w n a prompt) as [streamed settled].
  apply always_bind; [apply publishes_trans | now apply always_chunks |].
  intros _. destruct settled.
  - apply always_ret, publishes_refl.
  - apply always_raise, publishes_refl.
Qed.

Lemma always_createMessage {R} (w : World) (P : DebateEvent -> bool)
  (r : DebateRole) (c : CLIType) (text : string) (p : DebatePhase) (round : option nat) :
  always (publishes (R := R) P) (createMessage w r c text p round).
Proof. now apply always_quiet. Qed.

Lemma always_date_now {R} (w : World) (P : DebateEvent -> bool) :
  always (publishes (R := R) P) (date_now w).
Proof. now apply always_quiet. Qed.

End RunLogicFacts.

(* ===================================================================== *)
(** ** Tactics for runs in any world *)
(* ===================================================================== *)

Module RunTactics.
Import JsString Types Agents Runtime RuntimeFacts RunLogic RunLogicFacts.
Local Open Scope run_scope.

Lemma pub_ret {R A} (P : DebateEvent -> bool) (a : A) :
  always (publishes (R := R) P) (ret a).
Proof. apply always_ret, publishes_refl. Qed.

Lemma pub_raise {R A} (P : DebateEvent -> bool) (m : string) :
  always (publishes (R := R) P) (@raise R A m).
Proof. apply always_raise, publishes_refl. Qed.

Lemma pub_bind {R A B} (P : DebateEvent -> bool) (c : M R A) (k : A -> M R B) :
  always (publishes P) c -> (forall a, always (publishes P) (k a)) ->
  always (publishes P) (bind c k).
Proof. apply always_bind, publishes_trans. Qed.

Lemma pub_try_catch {R A} (P : DebateEvent -> bool) (body : M R A)
  (handler : string -> M R A) :
  always (publishes P) body -> (forall m, always (publishes P) (handler m)) ->
  always (publishes P) (try_catch body handler).
Proof. apply always_try_catch, publishes_trans. Qed.

Ltac pub :=
  repeat first
    [ apply pub_ret
    | apply pub_raise
    | apply always_await; intros ?H ?c; first [exact H | cbn; rewrite H; reflexivity]
    | apply always_chunks; intros ?H ?c; first [exact H | cbn; rewrite H; reflexivity]
    | apply always_createMessage
    | apply always_date_now
    | apply always_emit; reflexivity
    | apply always_quiet; intros ?; reflexivity
    | apply pub_bind; [|intros ?]
    | match goal with
      | |- always _ (if ?b then _ else _) => destruct b
      | |- always _ (match ?x with _ => _ end) => destruct x
      | |- always _ (let '(_, _) := ?x in _) => destruct x
      end ].

Ltac estep :=
  cbv beta zeta;
  lazymatch goal with
  | |- ensures (bind _ _) _ _ _ =>
      apply ensures_bind; eapply ensures_eq; [run_head|];
      simpl_state; cbv beta zeta
  | |- ensures _ _ _ _ =>
      eapply ensures_eq; [run_head|]; simpl_state; cbv beta zeta
  end.

(** An invocation: the fulfilled and the rejected promise. *)
Ltac eawait :=
  cbv beta zeta;
  lazymatch goal with
  | |- ensures (bind (await_execute _ _ _ _) _) _ _ _ =>
      let streamed := fresh "streamed" in
      let r := fresh "r" in
      let m := fresh "m" in
      let Ex := fresh "Ex" in
      apply ensures_bind; apply ensures_await; intros streamed; cbv zeta;
      split; [intros r Ex | intros m Ex]; simpl_state; cbv beta zeta
  end.

End RunTactics.

(* ===================================================================== *)
(** ** Every debate settles *)
(* ===================================================================== *)

Module DebateRuns.
Import DebateProgress.
Import JsString Types Agents Runtime Debate RuntimeFacts DebateFacts.
Import RunLogic RunLogicFacts RunTactics.
Local Open Scope run_scope.

Section Orchestrator.

Variable w : World.
Variable config : DebateConfig.
Variable getModeratorOpeningPrompt : string -> string.
Variable getChallengerPrompt : string -> nat -> list DebateMessage -> string.
Variable getDefenderPrompt : string -> nat -> list DebateMessage -> string.
Variable getModeratorEvaluationPrompt : string -> nat -> list DebateMessage -> string.
Variable getModeratorFinalVerdictPrompt : string -> list DebateMessage -> string.

Let body := body_event (streaming config).



















End Orchestrator.

End DebateRuns.

(* ===================================================================== *)
(** ** A successful debate follows its script *)
(* ===================================================================== *)

Module DebateScriptFacts.
Import JsString Types Agents Runtime Debate RuntimeFacts DebateFacts.
Import FixPlanFacts DebateScript.
Local Open Scope run_scope.

Section Orchestrator.

Variable w : World.
Variable config : DebateConfig.
Variable getModeratorOpeningPrompt : string -> string.
Variable getChallengerPrompt : string -> nat -> list DebateMessage -> string.
Variable getDefenderPrompt : string -> nat -> list DebateMessage -> string.
Variable getModeratorEvaluationPrompt : string -> nat -> list DebateMessage -> string.
Variable getModeratorFinalVerdictPrompt : string -> list DebateMessage -> string.

Hypothesis Hok : all_succeed w.

Let rscript := rounds_script config getChallengerPrompt getDefenderPrompt
                 getModeratorEvaluationPrompt.

Lemma firstn_app_le {A} (j : nat) (a b : list A) :
  j <= List.length a -> firstn j (a ++ b) = firstn j a.
Proof.
  intros H. rewrite firstn_app. replace (j - List.length a) with 0 by lia.
  cbn. apply List.app_nil_r.
Qed.

Lemma firstn_app_plus {A} (j : nat) (a b : list A) :
  firstn (List.length a + j) (a ++ b) = a ++ firstn j b.
Proof. apply firstn_app_2. Qed.

Lemma firstn_app_exact {A} (a b : list A) : firstn (List.length a) (a ++ b) = a.
Proof.
  rewrite <- (Nat.add_0_r (List.length a)), firstn_app_plus. cbn.
  apply List.app_nil_r.
Qed.

Lemma rounds_script_stable (k : nat) :
  forall n pos msgs extra,
    pos + 3 * k <= List.length msgs ->
    rscript n k pos (msgs ++ extra) = rscript n k pos msgs.
Proof.
  unfold rscript.
  induction k as [|k IH]; intros n pos msgs extra H; cbn [rounds_script]; [reflexivity|].
  rewrite IH by lia. unfold round_script.
  rewrite !firstn_app_le by lia. reflexivity.
Qed.

Lemma rounds_script_length (k : nat) :
  forall n pos msgs, List.length (rscript n k pos msgs) = 3 * k.
Proof.
  unfold rscript. induction k as [|k IH]; intros n pos msgs; cbn [rounds_script];
    [reflexivity|].
  rewrite length_app, IH. cbn. lia.
Qed.

Lemma opening_script (s : state DebateResult) :
  returns (executeOpening w config getModeratorOpeningPrompt) s
    (fun m s' =>
       messages s' = messages s ++ [m]
       /\ invocations s'
          = invocations s
            ++ [(the_moderator config, getModeratorOpeningPrompt (topic config))]
       /\ answered_by w
            (the_moderator config, getModeratorOpeningPrompt (topic config)) m).
Proof.
  unfold executeOpening. step. step. await Hok. step. step. step. step.
  split; [reflexivity|]. split; [reflexivity|].
  unfold answered_by, the_moderator. cbn [fst snd msg_role msg_cliType content].
  rewrite agent_of_cliType, agent_of_role.
  split; [reflexivity|]. split; [reflexivity|].
  do 3 eexists. split; [exact E|]. split; [exact Hs | reflexivity].
Qed.

Lemma final_script (s : state DebateResult) :
  returns (executeFinalVerdict w config getModeratorFinalVerdictPrompt) s
    (fun m s' =>
       messages s' = messages s ++ [m]
       /\ invocations s'
          = invocations s
            ++ [(the_moderator config,
                 getModeratorFinalVerdictPrompt (topic config) (messages s))]
       /\ answered_by w
            (the_moderator config,
             getModeratorFinalVerdictPrompt (topic config) (messages s)) m).
Proof.
  unfold executeFinalVerdict. step. step. step. await Hok. step. step. step. step.
  split; [reflexivity|]. split; [reflexivity|].
  unfold answered_by, the_moderator. cbn [fst snd msg_role msg_cliType content].
  rewrite agent_of_cliType, agent_of_role.
  split; [reflexivity|]. split; [reflexivity|].
  do 3 eexists. split; [exact E|]. split; [exact Hs | reflexivity].
Qed.

Lemma round_script_of (n : nat) (s : state DebateResult) :
  returns (executeRound w config getChallengerPrompt getDefenderPrompt
             getModeratorEvaluationPrompt n) s
    (fun r s' =>
       messages s' = messages s ++ round_messages r
       /\ invocations s'
          = invocations s
            ++ round_script config getChallengerPrompt getDefenderPrompt
                 getModeratorEvaluationPrompt n (List.length (messages s))
                 (messages s')
       /\ Forall2 (answered_by w)
            (round_script config getChallengerPrompt getDefenderPrompt
               getModeratorEvaluationPrompt n (List.length (messages s))
               (messages s'))
            (round_messages r)).
Proof.
  unfold executeRound. step. step. step. step. await Hok. step. step.
  step. step. await Hok. step. step. step. step. await Hok. step. step.
  step. step. step.
  set (c := Build_DebateMessage _ CHALLENGER _ _ _ _ _) in *.
  set (d := Build_DebateMessage _ DEFENDER _ _ _ _ _) in *.
  set (e := Build_DebateMessage _ MODERATOR _ _ _ _ _) in *.
  unfold round_script, round_messages.
  cbn [challengerMessage defenderMessage moderatorEvaluation].
  assert (H0 : firstn (List.length (messages s)) (((messages s ++ [c]) ++ [d]) ++ [e])
               = messages s)
    by (rewrite <- !List.app_assoc; apply firstn_app_exact).
  assert (H1 : firstn (List.length (messages s) + 1)
                 (((messages s ++ [c]) ++ [d]) ++ [e])
               = messages s ++ [c])
    by (rewrite <- !List.app_assoc, firstn_app_plus; reflexivity).
  assert (H2 : firstn (List.length (messages s) + 2)
                 (((messages s ++ [c]) ++ [d]) ++ [e])
               = (messages s ++ [c]) ++ [d])
    by (rewrite <- !List.app_assoc, firstn_app_plus; reflexivity).
  rewrite H0, H1, H2.
  split; [now rewrite <- !List.app_assoc|].
  split; [now rewrite <- !List.app_assoc|].
  unfold answered_by, the_challenger, the_defender, the_moderator.
  constructor; [|constructor; [|constructor; [|constructor]]];
    cbn [fst snd]; rewrite ?agent_of_cliType, ?agent_of_role;
    (split; [reflexivity|]); (split; [reflexivity|]);
    do 3 eexists; (split; [eassumption|]); (split; [eassumption | reflexivity]).
Qed.

Lemma rounds_script_of (k : nat) :
  forall (i : nat) (s : state DebateResult),
    returns (rounds_from w config getChallengerPrompt getDefenderPrompt
               getModeratorEvaluationPrompt i k) s
      (fun _ s' =>
         exists added,
           messages s' = messages s ++ added
           /\ List.length added = 3 * k
           /\ invocations s'
              = invocations s ++ rscript i k (List.length (messages s)) (messages s')
           /\ Forall2 (answered_by w)
                (rscript i k (List.length (messages s)) (messages s')) added).
Proof.
  induction k as [|k IH]; intros i s; cbn [rounds_from].
  - step. exists []. cbn. rewrite !List.app_nil_r. repeat split. constructor.
  - apply returns_bind.
    eapply returns_weaken; [apply round_script_of|].
    intros r1 s1 (Hm & Hi & Ha). cbv beta. step.
    eapply returns_weaken; [apply IH|].
    intros _ s2 (added & Hm2 & Hlen & Hi2 & Ha2). cbv beta in *.
    simpl_state_in Hm2. simpl_state_in Hi2. simpl_state_in Ha2.
    assert (Hl1 : List.length (messages s1) = List.length (messages s) + 3)
      by (rewrite Hm, length_app; reflexivity).
    rewrite Hl1 in Hi2, Ha2.
    assert (Hstable :
              round_script config getChallengerPrompt getDefenderPrompt
                getModeratorEvaluationPrompt i (List.length (messages s)) (messages s2)
              = round_script config getChallengerPrompt getDefenderPrompt
                  getModeratorEvaluationPrompt i (List.length (messages s)) (messages s1)).
    { rewrite Hm2. unfold round_script. rewrite !firstn_app_le by lia. reflexivity. }
    exists (round_messages r1 ++ added).
    split; [now rewrite Hm2, Hm, <- List.app_assoc|].
    split; [rewrite length_app, Hlen; cbn; lia|].
    unfold rscript in *. cbn [rounds_script]. rewrite Hstable.
    split; [now rewrite Hi2, Hi, <- List.app_assoc|].
    now apply Forall2_app.
Qed.

Hypothesis Hmoderator : isAvailable w (the_moderator config) = true.
Hypothesis Hchallenger : isAvailable w (the_challenger config) = true.
Hypothesis Hdefender : isAvailable w (the_defender config) = true.

(** A debate in which every executor is available and every invocation
    succeeds follows the script of its transcript. *)
Lemma run_follows_script :
  exists r st,
    run w config getModeratorOpeningPrompt getChallengerPrompt getDefenderPrompt
      getModeratorEvaluationPrompt getModeratorFinalVerdictPrompt = (Ok r, st)
    /\ status r = COMPLETED
    /\ List.length (messages st) = 2 + 3 * rounds config
    /\ invocations st
       = debate_script config getModeratorOpeningPrompt getChallengerPrompt
           getDefenderPrompt getModeratorEvaluationPrompt
           getModeratorFinalVerdictPrompt (messages st)
    /\ Forall2 (answered_by w) (invocations st) (messages st).
Proof.
  unfold run.
  match goal with
  | |- context [try_catch _ _ ?s0] =>
      assert (H : returns
                    (run_try w config getModeratorOpeningPrompt getChallengerPrompt
                       getDefenderPrompt getModeratorEvaluationPrompt
                       getModeratorFinalVerdictPrompt) s0
                    (fun r st =>
                       status r = COMPLETED
                       /\ List.length (messages st) = 2 + 3 * rounds config
                       /\ invocations st
                          = debate_script config getModeratorOpeningPrompt
                              getChallengerPrompt getDefenderPrompt
                              getModeratorEvaluationPrompt
                              getModeratorFinalVerdictPrompt (messages st)
                       /\ Forall2 (answered_by w) (invocations st) (messages st)))
  end.
  { unfold run_try, checkAgentsAvailable.
    rewrite Hmoderator, Hchallenger, Hdefender. cbn [app List.length Nat.eqb negb].
    step. step.
    apply returns_bind. eapply returns_weaken; [apply opening_script|].
    intros o s1 (Hm1 & Hi1 & Ha1). cbv beta.
    cbn in Hm1, Hi1.
    step.
    apply returns_bind. eapply returns_weaken; [apply rounds_script_of|].
    intros _ s2 (added & Hm2 & Hlen & Hi2 & Ha2). cbv beta.
    simpl_state_in Hm2. simpl_state_in Hi2. simpl_state_in Ha2.
    rewrite Hm1 in Hi2, Ha2. cbn [List.length app] in Hi2, Ha2.
    apply returns_bind. eapply returns_weaken; [apply final_script|].
    intros f s3 (Hm3 & Hi3 & Ha3). cbv beta.
    step. step. step. step. step. step. step.
    assert (Hlen2 : List.length (messages s2) = 1 + 3 * rounds config).
    { rewrite Hm2, length_app, Hm1, Hlen. reflexivity. }
    assert (Hstable := rounds_script_stable (rounds config) 1 1 (messages s2) [f]).
    unfold rscript in *. rewrite Hm3.
    split; [reflexivity|].
    split; [rewrite length_app, Hlen2; cbn; lia|].
    unfold debate_script. rewrite Hstable by lia.
    rewrite <- Hlen2, firstn_app_exact.
    assert (Hinv : invocations s3
                   = (the_moderator config, getModeratorOpeningPrompt (topic config))
                     :: rounds_script config getChallengerPrompt getDefenderPrompt
                          getModeratorEvaluationPrompt 1 (rounds config) 1 (messages s2)
                     ++ [(the_moderator config,
                          getModeratorFinalVerdictPrompt (topic config) (messages s2))]).
    { rewrite Hi3, Hi2, Hi1. reflexivity. }
    split; [exact Hinv|]. rewrite Hinv, Hm2, Hm1. cbn [app].
    constructor; [exact Ha1|]. apply Forall2_app.
    - rewrite Hm2, Hm1 in Ha2. exact Ha2.
    - constructor; [|constructor]. rewrite Hm2, Hm1 in Ha3. exact Ha3. }
  destruct H as (r & st & E & H).
  exists r, st. unfold try_catch. rewrite E. split; [reflexivity | exact H].
Qed.

(** X14. In a debate in which every executor is available and every
    invocation succeeds, the executors are invoked in the order
    moderator, then challenger, defender and moderator for each round,
    then moderator; the prompt of each invocation after the first is
    built from exactly the messages created before it; and the
    transcript holds one message per invocation, in the same order, each
    carrying the role and backend of the executor invoked and the output
    it returned. *)
Theorem debate_prompts_follow_transcript :
  exists r st,
    run w config getModeratorOpeningPrompt getChallengerPrompt getDefenderPrompt
      getModeratorEvaluationPrompt getModeratorFinalVerdictPrompt = (Ok r, st)
    /\ status r = COMPLETED
    /\ List.length (messages st) = 2 + 3 * rounds config
    /\ invocations st
       = debate_script config getModeratorOpeningPrompt getChallengerPrompt
           getDefenderPrompt getModeratorEvaluationPrompt
           getModeratorFinalVerdictPrompt (messages st)
    /\ Forall2 (answered_by w) (invocations st) (messages st).
Proof. exact run_follows_script. Qed.

End Orchestrator.

End DebateScriptFacts.

(* ===================================================================== *)
(** ** Every review settles *)
(* ===================================================================== *)

Module ReviewRuns.
Import JsString Js Types Agents Runtime CodeReview RuntimeFacts CodeReviewFacts.
Import RunLogic RunLogicFacts RunTactics DebateProgress ReviewProgress.
Local Open Scope run_scope.

Section Orchestrator.

Variable JSON_parse : string -> option value.
Variable w : World.
Variable config : CodeReviewConfig.
Variable getCodeReviewChallengerPrompt : string -> option (list IssueType) -> string.
Variable getCodeReviewDefenderPrompt : string -> list CodeIssue -> string.
Variable getCodeReviewVerdictPrompt : string -> list CodeIssue -> string -> string.
Variable getFixTaskPrompt : CodeIssue -> string -> string.


(* ---------- events ---------- *)

Lemma executeBuildCheck_publishes :
  always (publishes (review_event (streaming config))) (executeBuildCheck w config).
Proof. unfold executeBuildCheck. pub. Qed.

Lemma build_phase_publishes : always (publishes (review_event (streaming config))) (build_phase w config).
Proof.
  unfold build_phase. destruct (buildCommand config) as [c|]; [|pub].
  destruct (String.eqb c EmptyString); [pub|].
  apply pub_bind; [apply executeBuildCheck_publishes|]. intros b. pub.
Qed.

Lemma analysis_publishes :
  always (publishes (review_event (streaming config)))
    (executeChallengerAnalysis JSON_parse w config getCodeReviewChallengerPrompt).
Proof. unfold executeChallengerAnalysis. pub. Qed.

Lemma defense_publishes (l : list CodeIssue) :
  always (publishes (review_event (streaming config)))
    (executeDefenderResponse w config getCodeReviewDefenderPrompt l).
Proof. unfold executeDefenderResponse. pub. Qed.

Lemma verdict_publishes (l : list CodeIssue) (defense : string) :
  always (publishes (review_event (streaming config)))
    (executeModeratorVerdict JSON_parse w config getCodeReviewVerdictPrompt l defense).
Proof. unfold executeModeratorVerdict. pub. Qed.

Lemma traverse_publishes {A B} (f : A -> M CodeReviewResult B) (l : list A) :
  (forall x, always (publishes (review_event (streaming config))) (f x)) ->
  always (publishes (review_event (streaming config))) (traverse f l).
Proof.
  intros Hf. induction l as [|x l IH]; cbn [traverse]; [pub|].
  apply pub_bind; [apply Hf|]. intros y.
  apply pub_bind; [apply IH|]. intros ys. pub.
Qed.

Lemma start_fix_publishes (plan : ICLIAgent * CLIType * CodeIssue) :
  always (publishes (review_event (streaming config))) (start_fix w config getFixTaskPrompt plan).
Proof. destruct plan as [[fixer c] issue]. unfold start_fix. pub. Qed.

Lemma finish_fix_publishes (r : running) :
  always (publishes (review_event (streaming config))) (finish_fix w config r).
Proof. unfold finish_fix. pub. Qed.

Lemma executeParallelFix_publishes (l : list CodeIssue) :
  always (publishes (review_event (streaming config))) (executeParallelFix w config getFixTaskPrompt l).
Proof.
  unfold executeParallelFix.
  destruct (negb (autoFix config) || Nat.eqb (List.length l) 0); [pub|].
  apply pub_bind; [pub|]. intros _.
  apply pub_bind; [apply traverse_publishes, start_fix_publishes|]. intros started.
  apply pub_bind; [apply traverse_publishes, finish_fix_publishes|]. intros tasks.
  pub.
Qed.

(* ---------- the phases ---------- *)

Lemma analysis_ensures (s : state CodeReviewResult) :
  ensures (executeChallengerAnalysis JSON_parse w config
             getCodeReviewChallengerPrompt) s
    (fun found s' =>
       exists a,
         messages s' = messages s ++ [a]
         /\ phase a = CODE_ANALYSIS /\ msg_role a = CHALLENGER
         /\ found = Parsing.parseIssuesFromOutput JSON_parse (content a)
         /\ result s' = result s
         /\ List.length (invocations s') = S (List.length (invocations s)))
    (fun _ s' =>
       messages s' = messages s /\ result s' = result s
       /\ List.length (invocations s') = S (List.length (invocations s))).
Proof.
  unfold executeChallengerAnalysis. estep. estep. eawait.
  - destruct (success r); cbn [negb].
    + estep. estep. estep. estep.
      rewrite length_app, Nat.add_1_r. eexists. repeat split.
    + apply ensures_raise. cbv beta. simpl_state.
      rewrite length_app, Nat.add_1_r. repeat split.
  - rewrite length_app, Nat.add_1_r. repeat split.
Qed.

Lemma defense_ensures (l : list CodeIssue) (s : state CodeReviewResult) :
  ensures (executeDefenderResponse w config getCodeReviewDefenderPrompt l) s
    (fun d s' =>
       messages s' = messages s ++ [d]
       /\ phase d = ISSUE_DEFENSE /\ msg_role d = DEFENDER
       /\ result s' = result s
       /\ List.length (invocations s') = S (List.length (invocations s)))
    (fun _ s' =>
       messages s' = messages s /\ result s' = result s
       /\ List.length (invocations s') = S (List.length (invocations s))).
Proof.
  unfold executeDefenderResponse. estep. estep. eawait.
  - destruct (success r); cbn [negb].
    + estep. estep. estep. estep.
      rewrite length_app, Nat.add_1_r. repeat split.
    + apply ensures_raise. cbv beta. simpl_state.
      rewrite length_app, Nat.add_1_r. repeat split.
  - rewrite length_app, Nat.add_1_r. repeat split.
Qed.

Lemma verdict_ensures (l : list CodeIssue) (defense : string)
  (s : state CodeReviewResult) :
  ensures (executeModeratorVerdict JSON_parse w config getCodeReviewVerdictPrompt
             l defense) s
    (fun vc s' =>
       messages s' = messages s ++ [fst vc]
       /\ phase (fst vc) = VERDICT_ASSIGNMENT /\ msg_role (fst vc) = MODERATOR
       /\ snd vc = Parsing.parseVerdictAndAssign JSON_parse (content (fst vc)) l
       /\ result s' = result s
       /\ List.length (invocations s') = S (List.length (invocations s)))
    (fun _ s' =>
       messages s' = messages s /\ result s' = result s
       /\ List.length (invocations s') = S (List.length (invocations s))).
Proof.
  unfold executeModeratorVerdict. estep. estep. eawait.
  - destruct (success r); cbn [negb].
    + estep. estep. estep. estep.
      rewrite length_app, Nat.add_1_r. repeat split.
    + apply ensures_raise. cbv beta. simpl_state.
      rewrite length_app, Nat.add_1_r. repeat split.
  - rewrite length_app, Nat.add_1_r. repeat split.
Qed.

Lemma traverse_start_fix (plans : list (ICLIAgent * CLIType * CodeIssue)) :
  forall s,
    returns (traverse (start_fix w config getFixTaskPrompt) plans) s
      (fun started s' =>
         List.length started = List.length plans
         /\ fanned (map (invocation_of config getFixTaskPrompt) plans) s s').
Proof.
  induction plans as [|[[fixer c] issue] plans IH]; intros s; cbn [traverse map].
  - step. split; [reflexivity|]. unfold fanned. rewrite List.app_nil_r. repeat split.
  - apply returns_bind. unfold start_fix at 1.
    step. step. step. step. step.
    match goal with
    | |- context [execute w ?n ?a ?p] =>
        destruct (execute w n a p) as [streamed settled]
    end.
    step.
    apply returns_bind. eapply returns_weaken; [apply IH|].
    intros started s1 (Hlen & Hm & Hr & Hi). cbv beta.
    simpl_state_in Hm. simpl_state_in Hr. simpl_state_in Hi.
    step. split; [cbn; congruence|]. unfold fanned. simpl_state.
    rewrite Hm, Hr, Hi, <- List.app_assoc. repeat split.
Qed.

Lemma finish_fix_fanned (r : running) (s : state CodeReviewResult) :
  returns (finish_fix w config r) s (fun _ s' => fanned [] s s').
Proof.
  unfold finish_fix, fanned. apply returns_bind.
  assert (Hchunks :
            returns (if streaming config
                     then for_each (fun c => emit (message_chunk c)) (run_streamed r)
                     else ret tt) s
              (fun _ s' => messages s' = messages s /\ result s' = result s
                           /\ invocations s' = invocations s)).
  { destruct (streaming config).
    - eapply returns_eq; [apply for_each_chunks|]. repeat split.
    - eapply returns_eq; [reflexivity|]. repeat split. }
  eapply returns_weaken; [exact Hchunks|].
  intros _ s1 (Hm & Hr & Hi). cbv beta. step.
  destruct (run_settled r) as [res|message].
  - step. step. rewrite Hm, Hr, Hi, List.app_nil_r. repeat split.
  - step. rewrite Hm, Hr, Hi, List.app_nil_r. repeat split.
Qed.

Lemma traverse_finish_fix (started : list running) :
  forall s,
    returns (traverse (finish_fix w config) started) s
      (fun tasks s' =>
         List.length tasks = List.length started /\ fanned [] s s').
Proof.
  induction started as [|r started IH]; intros s; cbn [traverse].
  - step. split; [reflexivity|]. unfold fanned. rewrite List.app_nil_r. repeat split.
  - apply returns_bind.
    eapply returns_weaken; [apply finish_fix_fanned|].
    intros t s1 (Hm & Hr & Hi). cbv beta.
    apply returns_bind. eapply returns_weaken; [apply IH|].
    intros tasks s2 (Hlen & Hm2 & Hr2 & Hi2). cbv beta.
    step. split; [cbn; congruence|]. unfold fanned. simpl_state.
    rewrite Hm2, Hr2, Hi2, Hm, Hr, Hi, !List.app_nil_r. repeat split.
Qed.

(** The fan-out never throws. *)
Lemma executeParallelFix_fanned (l : list CodeIssue) (s : state CodeReviewResult) :
  returns (executeParallelFix w config getFixTaskPrompt l) s
    (fun tasks s' =>
       fanned (fix_invocations config getFixTaskPrompt l) s s'
       /\ List.length tasks
          = List.length (fix_invocations config getFixTaskPrompt l)).
Proof.
  unfold executeParallelFix, fix_invocations.
  destruct (negb (autoFix config) || Nat.eqb (List.length l) 0).
  - step. unfold fanned. cbn. rewrite List.app_nil_r. repeat split.
  - step. apply returns_bind.
    eapply returns_weaken; [apply traverse_start_fix|].
    intros started s1 (Hlen & Hm & Hr & Hi). cbv beta.
    simpl_state_in Hm. simpl_state_in Hr. simpl_state_in Hi.
    apply returns_bind.
    eapply returns_weaken; [apply traverse_finish_fix|].
    intros tasks s2 (Hlen2 & Hm2 & Hr2 & Hi2). cbv beta.
    step. step. unfold fanned, the_fixers. simpl_state.
    rewrite Hm2, Hr2, Hi2, Hm, Hr, Hi, List.app_nil_r, length_map.
    repeat split. rewrite Hlen2, Hlen. reflexivity.
Qed.

Lemma executeBuildCheck_checked (s : state CodeReviewResult) :
  returns (executeBuildCheck w config) s
    (fun b s' =>
       messages s' = messages s /\ invocations s' = invocations s
       /\ result s' = result s
       /\ build_command b
          = match buildCommand config with
            | Some c => if String.eqb c EmptyString then "npm run build" else c
            | None => "npm run build"
            end
       /\ (build_success b = true <-> build_errors b = None)
       /\ (build_success b = false -> exists l, build_errors b = Some l)
       /\ In (phase_start BUILD_CHECK) (events s')
       /\ In (phase_end BUILD_CHECK) (events s')).
Proof.
  unfold executeBuildCheck. step. step. step.
  destruct (build w _ _ _) as [code out err|message].
  - apply returns_bind.
    assert (Hchunks :
              forall s0 : state CodeReviewResult,
                returns (if streaming config
                         then for_each (fun c => emit (message_chunk c)) out
                         else ret tt) s0
                  (fun _ s' => messages s' = messages s0
                               /\ invocations s' = invocations s0
                               /\ result s' = result s0
                               /\ exists added, events s' = events s0 ++ added)).
    { intros s0. destruct (streaming config).
      - eapply returns_eq; [apply for_each_chunks|]. repeat split.
        now exists (map message_chunk out).
      - eapply returns_eq; [reflexivity|]. repeat split.
        exists []. now rewrite List.app_nil_r. }
    eapply returns_weaken; [apply Hchunks|].
    intros _ s1 (Hm & Hi & Hr & added & He). cbv beta. simpl_state_in Hm.
    simpl_state_in Hi. simpl_state_in Hr. simpl_state_in He.
    step. step. step. cbn [build_success build_command build_errors].
    split; [exact Hm|]. split; [exact Hi|]. split; [exact Hr|].
    split; [reflexivity|].
    split; [destruct (Execute.is_zero_code code); split; congruence|].
    split; [destruct (Execute.is_zero_code code); [discriminate | eauto]|].
    rewrite He. split; apply in_or_app.
    + left. apply in_or_app. left. apply in_or_app. right. now left.
    + right. now left.
  - step. step. step. step. cbn [build_success build_command build_errors].
    split; [reflexivity|]. split; [reflexivity|]. split; [reflexivity|].
    split; [reflexivity|]. split; [split; congruence|]. split; [eauto|].
    split; apply in_or_app.
    + left. apply in_or_app. right. now left.
    + right. now left.
Qed.

Lemma build_phase_checked (s : state CodeReviewResult) :
  buildCheck (result s) = None ->
  returns (build_phase w config) s
    (fun _ s' =>
       messages s' = messages s /\ invocations s' = invocations s
       /\ besides_build (result s) (result s')
       /\ build_checked config (result s') (events s')).
Proof.
  intros Hnone. unfold build_phase, build_checked.
  destruct (buildCommand config) as [c|] eqn:Ec.
  2: { step. rewrite Hnone. unfold besides_build. repeat split. now left. }
  destruct (String.eqb c EmptyString) eqn:Ee.
  { step. rewrite Hnone. unfold besides_build. repeat split. right.
    apply String.eqb_eq in Ee. now subst c. }
  apply returns_bind. eapply returns_weaken; [apply executeBuildCheck_checked|].
  intros b s1 (Hm & Hi & Hr & Hc & Hiff & Hl & Hps & Hpe). cbv beta.
  rewrite Ec, Ee in Hc. step.
  assert (Hiff' := Hiff).
  destruct (build_success b) eqn:Hs; cbn [negb]; step;
    rewrite Hm, Hi, Hr; unfold besides_build;
    cbn [buildCheck set_buildCheck id result_path status issues defenseResponses
         verdict fixTasks startTime error];
    (split; [reflexivity|]); (split; [reflexivity|]);
    (split; [repeat split|]);
    (split; [now rewrite Hc|]);
    (split; [rewrite Hc; intros ->; discriminate|]);
    (split; [first [exact Hiff | rewrite Hs; exact Hiff]|]).
  - split; [intros H; congruence|]. split; [intros H; congruence|]. auto.
  - split; [intros _; apply in_or_app; right; now left|].
    split; [intros _; exact (Hl eq_refl)|].
    split; apply in_or_app; left; assumption.
Qed.

Lemma ensures_of_returns {A} (c : M CodeReviewResult A) (s : state CodeReviewResult)
  (Q : A -> state CodeReviewResult -> Prop)
  (E : string -> state CodeReviewResult -> Prop) :
  returns c s Q -> ensures c s Q E.
Proof. intros (a & s' & H & HQ). unfold ensures. now rewrite H. Qed.

Lemma build_checked_later (r r' : CodeReviewResult) (evs more : list DebateEvent) :
  buildCheck r' = buildCheck r ->
  build_checked config r evs -> build_checked config r' (evs ++ more).
Proof.
  unfold build_checked. intros ->. destruct (buildCheck r) as [b|]; [|auto].
  intros (H1 & H2 & H3 & H4 & H5 & H6 & H7).
  split; [exact H1|]. split; [exact H2|]. split; [exact H3|].
  split; [intros H; apply in_or_app; left; auto|]. split; [exact H5|].
  split; apply in_or_app; left; assumption.
Qed.

Lemma review_progress_fields (r r' : CodeReviewResult) (msgs : list DebateMessage) :
  issues r' = issues r -> defenseResponses r' = defenseResponses r ->
  verdict r' = verdict r -> fixTasks r' = fixTasks r ->
  progress JSON_parse config r msgs -> progress JSON_parse config r' msgs.
Proof. unfold progress, defenses. intros -> -> -> ->. auto. Qed.

Lemma review_run_catch_ensures (m : string) (s : state CodeReviewResult) :
  thrown JSON_parse w config s ->
  ensures (run_catch w m) s (settled_run JSON_parse w config) (fun _ _ => False).
Proof.
  intros (Hv & Hf & (Hid & Hpath & Hstart) & Hprog & Hinv & Hbuild
          & inner & Hev & Hinner).
  unfold run_catch. estep. estep. estep. estep. estep. estep. estep. estep.
  unfold settled_run. cbn [result].
  split; [reflexivity|]. split; [now repeat split|].
  split; [eexists; split; reflexivity|].
  split; [revert Hprog; apply review_progress_fields; reflexivity|].
  split; [unfold attempts; cbn; now rewrite Hf|].
  split.
  - rewrite <- List.app_assoc. revert Hbuild. now apply build_checked_later.
  - right. cbn. split; [reflexivity|]. split; [exact Hv|]. split; [exact Hf|].
    exists m, inner. split; [reflexivity|]. split; [|exact Hinner].
    rewrite Hev, <- !List.app_assoc. reflexivity.
Qed.

Lemma length_nonzero {A} (l : list A) : Nat.eqb (List.length l) 0 = false -> l <> [].
Proof. destruct l; [discriminate | discriminate]. Qed.

Lemma length_zero {A} (l : list A) : Nat.eqb (List.length l) 0 = true -> l = [].
Proof. destruct l; [reflexivity | discriminate]. Qed.

Lemma review_run_try_ensures :
  let s0 := fresh {| id := uuidv4 w 0; result_path := path config;
                     status := PENDING; buildCheck := None; issues := [];
                     defenseResponses := None; verdict := None; fixTasks := None;
                     startTime := clock w 1; endTime := None;
                     totalDuration := None; error := None |} 2 in
  ensures (run_try JSON_parse w config getCodeReviewChallengerPrompt
             getCodeReviewDefenderPrompt getCodeReviewVerdictPrompt
             getFixTaskPrompt) s0
    (settled_run JSON_parse w config)
    (fun _ s => thrown JSON_parse w config s).
Proof.
  intros s0. unfold run_try. estep. estep.
  (* build check *)
  apply ensures_bind.
  eapply ensures_weaken;
    [apply (ensures_always (publishes (review_event (streaming config))));
     [apply build_phase_publishes
     | apply (ensures_of_returns _ _ _ (fun _ _ => False)), build_phase_checked;
       reflexivity] | |].
  2: { intros m s1 [[] _]. }
  intros _ s1 ((Hm1 & Hi1 & Hb & Hbuild) & added1 & Hev1 & Hadd1).
  cbn in Hm1, Hi1, Hb, Hev1. cbv beta.
  destruct Hb as (B1 & B2 & B3 & B4 & B5 & B6 & B7 & B8 & B9).
  (* analysis *)
  apply ensures_bind.
  eapply ensures_weaken;
    [apply (ensures_always (publishes (review_event (streaming config))));
     [apply analysis_publishes | apply analysis_ensures] | |].
  2: { intros m s2 ((Hm2 & Hr2 & Hi2) & added2 & Hev2 & Hadd2).
       unfold thrown, identified, progress, defenses.
       rewrite Hr2, Hm2, Hi2, Hm1, Hi1, B1, B2, B4, B5, B6, B7, B8.
       split; [reflexivity|]. split; [reflexivity|]. split; [now repeat split|].
       split.
       { exists []. cbn. split; [reflexivity|]. split; [lia|].
         split; [constructor|]. split; [auto|].
         split; [intros l H; discriminate H|].
         split; [intros v H; discriminate H|].
         split; [intros H; congruence|]. intros a H; discriminate H. }
       split; [cbn; lia|]. split.
       { rewrite Hev2. revert Hbuild. now apply build_checked_later. }
       exists (added1 ++ added2).
       rewrite Hev2, Hev1, forallb_app, Hadd1, Hadd2. auto. }
  intros found s2 ((a & Hm2 & Hpa & Hra & Hfound & Hr2 & Hi2) & added2 & Hev2 & Hadd2).
  cbv beta. estep.
  destruct (Nat.eqb (List.length found) 0) eqn:Hzero.
  { (* nothing was found *)
    apply length_zero in Hzero.
    estep. estep. estep. estep. estep. estep.
    unfold settled_run, identified, progress, defenses, attempts, ending.
    cbn [result status CodeReview.error issues defenseResponses verdict fixTasks id
         result_path startTime endTime totalDuration buildCheck set_endTime
         set_status set_issues messages events invocations].
    rewrite Hr2, Hm2, Hi2, Hm1, Hi1, B1, B2, B5, B6, B7, B8, B9.
    split; [reflexivity|]. split; [now repeat split|].
    split; [eexists; split; reflexivity|].
    split.
    { exists [a]. cbn. split; [reflexivity|]. split; [lia|].
      split; [repeat constructor; assumption|].
      split; [intros H; discriminate H|].
      split; [intros l H; discriminate H|].
      split; [intros v H; discriminate H|].
      split; [intros H; congruence|]. intros a' [= <-]. exact Hfound. }
    split; [cbn; lia|]. split.
    { rewrite Hev2, <- List.app_assoc. revert Hbuild. apply build_checked_later.
      cbn. now rewrite ?Hr2. }
    left. split; [reflexivity|]. split; [reflexivity|].
    exists (added1 ++ added2).
    rewrite Hev2, Hev1, forallb_app, Hadd1, Hadd2, <- !List.app_assoc. auto. }
  apply length_nonzero in Hzero.
  (* defense *)
  apply ensures_bind.
  eapply ensures_weaken;
    [apply (ensures_always (publishes (review_event (streaming config))));
     [apply defense_publishes | apply defense_ensures] | |].
  2: { intros m s3 ((Hm3 & Hr3 & Hi3) & added3 & Hev3 & Hadd3).
       simpl_state_in Hm3. simpl_state_in Hr3. simpl_state_in Hi3.
       simpl_state_in Hev3.
       unfold thrown, identified, progress, defenses.
       rewrite Hr3, Hm3, Hi3, Hm2, Hi2, Hm1, Hi1.
       cbn [verdict fixTasks id result_path startTime issues defenseResponses
            set_issues buildCheck].
       rewrite Hr2, B1, B2, B5, B6, B7, B8.
       split; [reflexivity|]. split; [reflexivity|]. split; [now repeat split|].
       split.
       { exists [a]. cbn. split; [reflexivity|]. split; [lia|].
         split; [repeat constructor; assumption|].
         split; [intros H; discriminate H|].
         split; [intros l H; discriminate H|].
         split; [intros v H; discriminate H|].
         split; [intros H; congruence|]. intros a' [= <-]. exact Hfound. }
       split; [cbn; lia|]. split.
       { rewrite Hev3, Hev2, <- List.app_assoc. revert Hbuild.
         apply build_checked_later. cbn. now rewrite ?Hr2. }
       exists (added1 ++ added2 ++ added3).
       rewrite Hev3, Hev2, Hev1, !forallb_app, Hadd1, Hadd2, Hadd3,
         <- !List.app_assoc. auto. }
  intros d s3 ((Hm3 & Hpd & Hrd & Hr3 & Hi3) & added3 & Hev3 & Hadd3).
  simpl_state_in Hm3. simpl_state_in Hr3. simpl_state_in Hi3. simpl_state_in Hev3.
  cbv beta. estep.
  (* verdict *)
  apply ensures_bind.
  eapply ensures_weaken;
    [apply (ensures_always (publishes (review_event (streaming config))));
     [apply verdict_publishes | apply verdict_ensures] | |].
  2: { intros m s4 ((Hm4 & Hr4 & Hi4) & added4 & Hev4 & Hadd4).
       simpl_state_in Hm4. simpl_state_in Hr4. simpl_state_in Hi4.
       simpl_state_in Hev4.
       unfold thrown, identified, progress, defenses.
       rewrite Hr4, Hm4, Hi4, Hm3, Hi3, Hm2, Hi2, Hm1, Hi1.
       cbn [verdict fixTasks id result_path startTime issues defenseResponses
            set_issues set_defenseResponses buildCheck].
       rewrite Hr3.
       cbn [verdict fixTasks id result_path startTime issues defenseResponses
            set_issues set_defenseResponses buildCheck].
       rewrite Hr2, B1, B2, B6, B7, B8.
       split; [reflexivity|]. split; [reflexivity|]. split; [now repeat split|].
       split.
       { exists [a]. cbn. split; [reflexivity|]. split; [lia|].
         split; [repeat constructor; assumption|].
         split; [intros H; discriminate H|].
         split; [intros l [= <-]; exists d; auto|].
         split; [intros v H; discriminate H|].
         split; [intros H; congruence|]. intros a' [= <-]. exact Hfound. }
       split; [cbn; lia|]. split.
       { rewrite Hev4, Hev3, Hev2, <- !List.app_assoc. revert Hbuild.
         apply build_checked_later. cbn. rewrite ?Hr3. cbn. now rewrite ?Hr2. }
       exists (added1 ++ added2 ++ added3 ++ added4).
       rewrite Hev4, Hev3, Hev2, Hev1, !forallb_app, Hadd1, Hadd2, Hadd3, Hadd4,
         <- !List.app_assoc. auto. }
  intros [v confirmed] s4 ((Hm4 & Hpv & Hrv & Hconf & Hr4 & Hi4) & added4 & Hev4 & Hadd4).
  cbn [fst snd] in *.
  simpl_state_in Hm4. simpl_state_in Hr4. simpl_state_in Hi4. simpl_state_in Hev4.
  cbv beta. estep. estep.
  (* remediation *)
  apply ensures_bind.
  destruct (autoFix config && negb (Nat.eqb (List.length confirmed) 0)) eqn:Hfix.
  - apply andb_true_iff in Hfix. destruct Hfix as [Hauto Hsome].
    apply negb_true_iff, length_nonzero in Hsome.
    apply ensures_bind.
    eapply ensures_weaken;
      [apply (ensures_always (publishes (review_event (streaming config))));
       [apply executeParallelFix_publishes
       | apply (ensures_of_returns _ _ _ (fun _ _ => False)),
           executeParallelFix_fanned] | |].
    2: { intros m s5 [[] _]. }
    intros tasks s5 (((Hm5 & Hr5 & Hi5') & Hlen5) & added5 & Hev5 & Hadd5).
    simpl_state_in Hm5. simpl_state_in Hr5. simpl_state_in Hi5'. simpl_state_in Hev5.
    assert (Hi5 : List.length (invocations s5)
                  = List.length (invocations s4) + List.length tasks)
      by (rewrite Hi5', length_app, Hlen5; reflexivity).
    cbv beta. estep. estep. estep. estep. estep. estep. estep.
    unfold settled_run, identified, progress, defenses, attempts, ending.
    cbn [result status CodeReview.error issues defenseResponses verdict fixTasks id
         result_path startTime endTime totalDuration buildCheck set_endTime
         set_status set_issues set_fixTasks messages events invocations].
    rewrite Hr5, Hm5, Hi5.
    cbn [result status CodeReview.error issues defenseResponses verdict fixTasks id
         result_path startTime endTime totalDuration buildCheck set_endTime
         set_status set_issues set_verdict messages events invocations].
    rewrite Hr4, Hm4, Hi4.
    cbn [result status CodeReview.error issues defenseResponses verdict fixTasks id
         result_path startTime endTime totalDuration buildCheck set_endTime
         set_status set_issues set_defenseResponses messages events invocations].
    rewrite Hr3, Hm3, Hi3.
    cbn [result status CodeReview.error issues defenseResponses verdict fixTasks id
         result_path startTime endTime totalDuration buildCheck set_endTime
         set_status set_issues set_defenseResponses messages events invocations].
    rewrite Hr2, Hm2, Hi2, Hm1, Hi1, B1, B2, B8, B9.
    split; [reflexivity|]. split; [now repeat split|].
    split; [eexists; split; reflexivity|].
    split.
    { exists [a]. cbn. split; [now rewrite <- ?List.app_assoc|]. split; [lia|].
      split; [repeat constructor; assumption|].
      split; [intros H; discriminate H|].
      split; [intros l [= <-]; exists d; auto|].
      split; [intros v' [= <-]; repeat split; [discriminate | assumption..]|].
      split; [intros _; repeat split; [discriminate | assumption..]|].
      intros a' [= <-]. rewrite Hconf, Hfound. reflexivity. }
    split; [cbn; lia|]. split.
    { rewrite Hev5, Hev4, Hev3, Hev2, <- !List.app_assoc. revert Hbuild.
      apply build_checked_later. cbn. rewrite ?Hr5. cbn. rewrite ?Hr4. cbn.
      rewrite ?Hr3. cbn. now rewrite ?Hr2. }
    left. split; [reflexivity|]. split; [reflexivity|].
    exists (added1 ++ added2 ++ added3 ++ added4 ++ added5).
    rewrite Hev5, Hev4, Hev3, Hev2, Hev1, !forallb_app, Hadd1, Hadd2, Hadd3,
      Hadd4, Hadd5, <- !List.app_assoc. auto.
  - estep. estep. estep. estep. estep. estep. estep.
    unfold settled_run, identified, progress, defenses, attempts, ending.
    cbn [result status CodeReview.error issues defenseResponses verdict fixTasks id
         result_path startTime endTime totalDuration buildCheck set_endTime
         set_status set_issues set_verdict messages events invocations].
    rewrite Hr4, Hm4, Hi4.
    cbn [result status CodeReview.error issues defenseResponses verdict fixTasks id
         result_path startTime endTime totalDuration buildCheck set_endTime
         set_status set_issues set_defenseResponses messages events invocations].
    rewrite Hr3, Hm3, Hi3.
    cbn [result status CodeReview.error issues defenseResponses verdict fixTasks id
         result_path startTime endTime totalDuration buildCheck set_endTime
         set_status set_issues set_defenseResponses messages events invocations].
    rewrite Hr2, Hm2, Hi2, Hm1, Hi1, B1, B2, B7, B8, B9.
    split; [reflexivity|]. split; [now repeat split|].
    split; [eexists; split; reflexivity|].
    split.
    { exists [a]. cbn. split; [now rewrite <- ?List.app_assoc|]. split; [lia|].
      split; [repeat constructor; assumption|].
      split; [intros H; discriminate H|].
      split; [intros l [= <-]; exists d; auto|].
      split; [intros v' [= <-]; repeat split; [discriminate | assumption..]|].
      split; [intros H; congruence|].
      intros a' [= <-]. rewrite Hconf, Hfound. reflexivity. }
    split; [cbn; lia|]. split.
    { rewrite Hev4, Hev3, Hev2, <- !List.app_assoc. revert Hbuild.
      apply build_checked_later. cbn. rewrite ?Hr4. cbn.
      rewrite ?Hr3. cbn. now rewrite ?Hr2. }
    left. split; [reflexivity|]. split; [reflexivity|].
    exists (added1 ++ added2 ++ added3 ++ added4).
    rewrite Hev4, Hev3, Hev2, Hev1, !forallb_app, Hadd1, Hadd2, Hadd3,
      Hadd4, <- !List.app_assoc. auto.
Qed.

(** Every run returns a settled result. *)
Lemma review_run_outcome :
  exists r st,
    run JSON_parse w config getCodeReviewChallengerPrompt
      getCodeReviewDefenderPrompt getCodeReviewVerdictPrompt getFixTaskPrompt
    = (Ok r, st)
    /\ settled_run JSON_parse w config r st.
Proof.
  unfold run. apply ensures_returns, ensures_try_catch.
  eapply ensures_weaken; [apply review_run_try_ensures | auto |].
  intros m s Hs. now apply review_run_catch_ensures.
Qed.


(** X15. Whatever the executors and the build answer, and with listeners
    and prompt builders that return, run of the review orchestrator
    returns a result and never throws: the result has the identifier,
    the path and the start time set before the first phase, an end time
    and the duration counted from the start, and it is either completed
    with no error, or failed with an error, no verdict and no fix tasks. *)
Theorem review_run_settles :
  exists r st,
    run JSON_parse w config getCodeReviewChallengerPrompt
      getCodeReviewDefenderPrompt getCodeReviewVerdictPrompt getFixTaskPrompt
    = (Ok r, st)
    /\ result st = r
    /\ identified w config r
    /\ (exists t, endTime r = Some t /\ totalDuration r = Some (t - startTime r)%Z)
    /\ ((status r = COMPLETED /\ error r = None)
        \/ (status r = FAILED /\ verdict r = None /\ fixTasks r = None
            /\ exists m, error r = Some m)).
Proof.
  destruct review_run_outcome as (r & st & Hrun & Hres & Hid & Ht & _ & _ & _ & Hend).
  exists r, st. split; [exact Hrun|]. split; [exact Hres|]. split; [exact Hid|].
  split; [exact Ht|].
  destruct Hend as [(Hs & He & _) | (Hs & Hv & Hf & m & _ & Hm & _)].
  - left. now split.
  - right. split; [exact Hs|]. split; [exact Hv|]. split; [exact Hf|]. now exists m.
Qed.

(** X16. Whatever the executors answer, the transcript of a review is
    the analysis message, the defense message and the verdict message,
    each if that phase succeeded. The result holds a defense only after
    an analysis, a verdict only after a defense, and fix tasks only
    after a verdict with auto-fix on and some issue kept; its issues are
    what the parsers make of the recorded messages; and between one and
    three executors were invoked when there are no fix tasks, three and
    one per fix task otherwise. *)
Theorem review_transcript_accounted :
  exists r st,
    run JSON_parse w config getCodeReviewChallengerPrompt
      getCodeReviewDefenderPrompt getCodeReviewVerdictPrompt getFixTaskPrompt
    = (Ok r, st)
    /\ progress JSON_parse config r (messages st)
    /\ attempts r (invocations st).
Proof.
  destruct review_run_outcome as (r & st & Hrun & _ & _ & _ & Hp & Ha & _).
  now exists r, st.
Qed.

(** X17. The result of a review has a build check exactly when a
    non-empty build command is configured, and the check ran that
    command, so the default command of executeBuildCheck is never used
    by run. A build result is a success exactly when it has no list of
    errors; a failed build has a list, which may be empty, and is
    reported by an error event while the review goes on. The start and
    the end of the build phase are published, also when spawning the
    command fails with an error event. The build command is taken to be
    spawned without an exception and to end. *)
Theorem review_build_checked :
  exists r st,
    run JSON_parse w config getCodeReviewChallengerPrompt
      getCodeReviewDefenderPrompt getCodeReviewVerdictPrompt getFixTaskPrompt
    = (Ok r, st)
    /\ build_checked config r (events st).
Proof.
  destruct review_run_outcome as (r & st & Hrun & _ & _ & _ & _ & _ & Hb & _).
  now exists r, st.
Qed.


End Orchestrator.

End ReviewRuns.

(* ===================================================================== *)
(** ** A review follows its script *)
(* ===================================================================== *)

Module ReviewScriptFacts.
Import JsString Js Types Agents Runtime CodeReview RuntimeFacts CodeReviewFacts.
Import RunLogic RunLogicFacts RunTactics DebateScript ReviewProgress ReviewRuns.
Import ReviewScript.
Local Open Scope run_scope.

Section Orchestrator.

Variable JSON_parse : string -> option value.
Variable w : World.
Variable config : CodeReviewConfig.
Variable getCodeReviewChallengerPrompt : string -> option (list IssueType) -> string.
Variable getCodeReviewDefenderPrompt : string -> list CodeIssue -> string.
Variable getCodeReviewVerdictPrompt : string -> list CodeIssue -> string -> string.
Variable getFixTaskPrompt : CodeIssue -> string -> string.

Lemma answered (a : ICLIAgent) (prompt : string) (n : nat) (streamed : list string)
  (r : AgentExecuteResult) (m : DebateMessage) :
  execute w n a prompt = (streamed, inl r) ->
  success r = true ->
  msg_role m = role a -> msg_cliType m = cliType a -> content m = output r ->
  answered_by w (a, prompt) m.
Proof.
  intros Ex Hs Hr Hc Ho. unfold answered_by. cbn [fst snd].
  split; [exact Hr|]. split; [exact Hc|].
  exists n, streamed, r. auto.
Qed.

Lemma analysis_scripted (s : state CodeReviewResult) :
  let inv := (the_challenger config,
              getCodeReviewChallengerPrompt (path config) (focus config)) in
  ensures (executeChallengerAnalysis JSON_parse w config
             getCodeReviewChallengerPrompt) s
    (fun found s' =>
       exists a,
         messages s' = messages s ++ [a]
         /\ found = Parsing.parseIssuesFromOutput JSON_parse (content a)
         /\ invocations s' = invocations s ++ [inv]
         /\ answered_by w inv a)
    (fun _ s' =>
       messages s' = messages s /\ invocations s' = invocations s ++ [inv]).
Proof.
  intros inv. unfold executeChallengerAnalysis. estep. estep. eawait.
  - destruct (success r) eqn:Hs; cbn [negb].
    + estep. estep. estep. estep.
      eexists. split; [reflexivity|]. split; [reflexivity|].
      split; [reflexivity|].
      eapply answered; [exact Ex | exact Hs | | | reflexivity].
      * cbn. unfold the_challenger. now destruct (cfg_cliType (challenger config)).
      * cbn. unfold the_challenger. now destruct (cfg_cliType (challenger config)).
    + apply ensures_raise. cbv beta. simpl_state. split; reflexivity.
  - split; reflexivity.
Qed.

Lemma defense_scripted (l : list CodeIssue) (s : state CodeReviewResult) :
  let inv := (the_defender config, getCodeReviewDefenderPrompt (path config) l) in
  ensures (executeDefenderResponse w config getCodeReviewDefenderPrompt l) s
    (fun d s' =>
       messages s' = messages s ++ [d]
       /\ invocations s' = invocations s ++ [inv]
       /\ answered_by w inv d)
    (fun _ s' =>
       messages s' = messages s /\ invocations s' = invocations s ++ [inv]).
Proof.
  intros inv. unfold executeDefenderResponse. estep. estep. eawait.
  - destruct (success r) eqn:Hs; cbn [negb].
    + estep. estep. estep. estep.
      split; [reflexivity|]. split; [reflexivity|].
      eapply answered; [exact Ex | exact Hs | | | reflexivity].
      * cbn. unfold the_defender. now destruct (cfg_cliType (defender config)).
      * cbn. unfold the_defender. now destruct (cfg_cliType (defender config)).
    + apply ensures_raise. cbv beta. simpl_state. split; reflexivity.
  - split; reflexivity.
Qed.

Lemma verdict_scripted (l : list CodeIssue) (defense : string)
  (s : state CodeReviewResult) :
  let inv := (the_moderator config,
              getCodeReviewVerdictPrompt (path config) l defense) in
  ensures (executeModeratorVerdict JSON_parse w config getCodeReviewVerdictPrompt
             l defense) s
    (fun vc s' =>
       messages s' = messages s ++ [fst vc]
       /\ snd vc = Parsing.parseVerdictAndAssign JSON_parse (content (fst vc)) l
       /\ invocations s' = invocations s ++ [inv]
       /\ answered_by w inv (fst vc))
    (fun _ s' =>
       messages s' = messages s /\ invocations s' = invocations s ++ [inv]).
Proof.
  intros inv. unfold executeModeratorVerdict. estep. estep. eawait.
  - destruct (success r) eqn:Hs; cbn [negb].
    + estep. estep. estep. estep. cbn [fst snd].
      split; [reflexivity|]. split; [reflexivity|]. split; [reflexivity|].
      eapply answered; [exact Ex | exact Hs | | | reflexivity].
      * cbn. unfold the_moderator. now destruct (cfg_cliType (moderator config)).
      * cbn. unfold the_moderator. now destruct (cfg_cliType (moderator config)).
    + apply ensures_raise. cbv beta. simpl_state. split; reflexivity.
  - split; reflexivity.
Qed.

Let script_ok (s : state CodeReviewResult) : Prop :=
  scripted JSON_parse config getCodeReviewChallengerPrompt
    getCodeReviewDefenderPrompt getCodeReviewVerdictPrompt getFixTaskPrompt
    w (messages s) (invocations s).

Lemma run_try_scripted :
  let s0 := fresh {| id := uuidv4 w 0; result_path := path config;
                     status := PENDING; buildCheck := None; issues := [];
                     defenseResponses := None; verdict := None; fixTasks := None;
                     startTime := clock w 1; endTime := None;
                     totalDuration := None; error := None |} 2 in
  ensures (run_try JSON_parse w config getCodeReviewChallengerPrompt
             getCodeReviewDefenderPrompt getCodeReviewVerdictPrompt
             getFixTaskPrompt) s0
    (fun _ s => script_ok s) (fun _ s => script_ok s).
Proof.
  intros s0. unfold run_try, script_ok, scripted. estep. estep.
  apply ensures_bind.
  eapply ensures_weaken;
    [apply (ensures_of_returns _ _ _ (fun _ _ => False)), build_phase_checked;
     reflexivity | |].
  2: { intros m s1 []. }
  intros _ s1 (Hm1 & Hi1 & _). cbn in Hm1, Hi1. cbv beta.
  apply ensures_bind.
  eapply ensures_weaken; [apply analysis_scripted | |].
  2: { intros m s2 (Hm2 & Hi2). rewrite Hm2, Hi2, Hm1, Hi1. cbn.
       split; [reflexivity | constructor]. }
  intros found s2 (a & Hm2 & Hfound & Hi2 & Ha). cbv beta.
  rewrite Hm1 in Hm2. rewrite Hi1 in Hi2. cbn in Hm2, Hi2.
  estep.
  destruct (Nat.eqb (List.length found) 0) eqn:Hzero.
  { estep. estep. estep. estep. estep. estep.
    rewrite Hm2, Hi2. unfold review_script. rewrite <- Hfound, Hzero.
    split; [reflexivity|]. constructor; [exact Ha | constructor]. }
  apply ensures_bind.
  eapply ensures_weaken; [apply defense_scripted | |].
  2: { intros m s3 (Hm3 & Hi3). simpl_state_in Hm3. simpl_state_in Hi3.
       rewrite Hm3, Hi3, Hm2, Hi2. unfold review_script.
       rewrite <- Hfound, Hzero.
       split; [reflexivity|]. constructor; [exact Ha | constructor]. }
  intros d s3 (Hm3 & Hi3 & Hd).
  simpl_state_in Hm3. simpl_state_in Hi3. rewrite Hm2 in Hm3. rewrite Hi2 in Hi3.
  cbn in Hm3, Hi3. cbv beta. estep.
  apply ensures_bind.
  eapply ensures_weaken; [apply verdict_scripted | |].
  2: { intros m s4 (Hm4 & Hi4). simpl_state_in Hm4. simpl_state_in Hi4.
       rewrite Hm4, Hi4, Hm3, Hi3. unfold review_script.
       rewrite <- Hfound, Hzero.
       split; [reflexivity|].
       constructor; [exact Ha | constructor; [exact Hd | constructor]]. }
  intros [v confirmed] s4 (Hm4 & Hconf & Hi4 & Hv). cbn [fst snd] in *.
  simpl_state_in Hm4. simpl_state_in Hi4. rewrite Hm3 in Hm4. rewrite Hi3 in Hi4.
  cbn in Hm4, Hi4. cbv beta. estep. estep.
  assert (Hanswers :
            forall rest,
              Forall2 (answered_by w)
                (firstn 3
                   ((the_challenger config,
                     getCodeReviewChallengerPrompt (path config) (focus config))
                    :: (the_defender config,
                        getCodeReviewDefenderPrompt (path config) found)
                    :: (the_moderator config,
                        getCodeReviewVerdictPrompt (path config) found (content d))
                    :: rest))
                [a; d; v]).
  { intros rest. cbn.
    constructor; [exact Ha | constructor; [exact Hd | constructor; [exact Hv|constructor]]]. }
  apply ensures_bind.
  destruct (autoFix config && negb (Nat.eqb (List.length confirmed) 0)) eqn:Hfix.
  - apply ensures_bind.
    eapply ensures_weaken;
      [apply (ensures_of_returns _ _ _ (fun _ _ => False)),
         executeParallelFix_fanned | |].
    2: { intros m s5 []. }
    intros tasks s5 ((Hm5 & _ & Hi5) & _).
    simpl_state_in Hm5. simpl_state_in Hi5. rewrite Hm4 in Hm5. rewrite Hi4 in Hi5.
    cbn in Hi5.
    cbv beta. estep. estep. estep. estep. estep. estep. estep.
    rewrite Hm5, Hi5.
    unfold review_script. rewrite <- Hfound, Hzero, <- Hconf.
    split; [reflexivity|]. apply Hanswers.
  - estep. estep. estep. estep. estep. estep. estep.
    rewrite Hm4, Hi4.
    unfold review_script. rewrite <- Hfound, Hzero, <- Hconf.
    assert (Hnone : fix_invocations config getFixTaskPrompt confirmed = []).
    { unfold fix_invocations. apply andb_false_iff in Hfix.
      destruct Hfix as [-> | H]; [reflexivity|].
      apply negb_false_iff in H. rewrite H. now rewrite orb_true_r. }
    rewrite Hnone. split; [reflexivity|]. apply Hanswers.
Qed.

Lemma run_catch_scripted (m : string) (s : state CodeReviewResult) :
  script_ok s ->
  ensures (run_catch w m) s (fun _ s' => script_ok s') (fun _ _ => False).
Proof.
  intros H. unfold run_catch.
  estep. estep. estep. estep. estep. estep. estep. estep. exact H.
Qed.

Lemma run_scripted :
  exists r st,
    run JSON_parse w config getCodeReviewChallengerPrompt
      getCodeReviewDefenderPrompt getCodeReviewVerdictPrompt getFixTaskPrompt
    = (Ok r, st)
    /\ script_ok st.
Proof.
  unfold run. apply ensures_returns, ensures_try_catch.
  eapply ensures_weaken; [apply run_try_scripted | auto |].
  intros m s Hs. now apply run_catch_scripted.
Qed.

(** X19. Whatever the executors answer, the invocations of a review are
    the ones its transcript accounts for, in this order: the analysis is
    asked of the challenger; when the recorded analysis parses to some
    issue the defense is asked of the defender, with these issues; when
    a defense is recorded the verdict is asked of the moderator, with
    the same issues and the text of the defense; when a verdict is
    recorded the fixes are asked for, one per planned task, for the
    issues the parser of the verdict keeps. Each recorded message
    carries the role and backend of the executor invoked at its rank and
    the output that executor returned. *)
Theorem review_prompts_follow_transcript :
  exists r st,
    run JSON_parse w config getCodeReviewChallengerPrompt
      getCodeReviewDefenderPrompt getCodeReviewVerdictPrompt getFixTaskPrompt
    = (Ok r, st)
    /\ invocations st
       = review_script JSON_parse config getCodeReviewChallengerPrompt
           getCodeReviewDefenderPrompt getCodeReviewVerdictPrompt getFixTaskPrompt
           (messages st)
    /\ Forall2 (answered_by w)
         (firstn (List.length (messages st)) (invocations st)) (messages st).
Proof.
  destruct run_scripted as (r & st & Hrun & Hs & Ha).
  now exists r, st.
Qed.

End Orchestrator.

End ReviewScriptFacts.

(* ===================================================================== *)
(** ** The command line *)
(* ===================================================================== *)

Module CliFacts.
Import JsString Js Types Cli ParsingContract StringFacts.

(** Induction over an argument list two arguments at a time, as an
    option and its value are read. *)
Lemma args_ind (P : list string -> Prop) :
  P [] -> (forall a, P [a]) ->
  (forall a b l, P l -> P (b :: l) -> P (a :: b :: l)) ->
  forall l, P l.
Proof.
  intros H0 H1 H2.
  assert (H : forall l, P l /\ forall a, P (a :: l)).
  { induction l as [|b l [IH1 IH2]]; split; auto. }
  intros l. apply H.
Qed.

Lemma parseArgs_loop_cons (arg : string) (rest : list string) (result : ParsedArgs) :
  parseArgs_loop (arg :: rest) result =
  let next (assign : option string -> ParsedArgs) : ParsedArgs :=
    match rest with
    | [] => assign None
    | v :: rest' => parseArgs_loop rest' (assign (Some v))
    end in
  if String.eqb arg "debate" then parseArgs_loop rest (set_command debate result)
  else if String.eqb arg "review" then parseArgs_loop rest (set_command review result)
  else if String.eqb arg "help" then parseArgs_loop rest (set_command help result)
  else if String.eqb arg "--topic" || String.eqb arg "-t" then
    next (fun v => set_topic v result)
  else if String.eqb arg "--path" || String.eqb arg "-p" then
    next (fun v => set_path v result)
  else if String.eqb arg "--challenger" || String.eqb arg "-c" then
    next (fun v => set_challenger (parseCLIType v) result)
  else if String.eqb arg "--defender" || String.eqb arg "-d" then
    next (fun v => set_defender (parseCLIType v) result)
  else if String.eqb arg "--moderator" || String.eqb arg "-m" then
    next (fun v => set_moderator (parseCLIType v) result)
  else if String.eqb arg "--rounds" || String.eqb arg "-r" then
    next (fun v => set_rounds (rounds_of v) result)
  else if String.eqb arg "--focus" || String.eqb arg "-f" then
    next (fun v => set_focus (parseIssueTypes v) result)
  else if String.eqb arg "--auto-fix" then
    parseArgs_loop rest (set_autoFix true result)
  else if String.eqb arg "--build" then
    next (fun v => set_buildCommand v result)
  else if String.eqb arg "--no-stream" then
    parseArgs_loop rest (set_streaming false result)
  else parseArgs_loop rest result.
Proof. reflexivity. Qed.

(** A branch taken on a comparison of two different literals. *)
Ltac absurd_case :=
  match goal with
  | E : ?b = true |- _ =>
      let v := eval vm_compute in b in
      lazymatch v with
      | false => exfalso; vm_compute in E; discriminate E
      end
  end.

(** One turn of the loop, branch by branch. *)
Ltac scan :=
  rewrite parseArgs_loop_cons; cbv beta zeta;
  repeat match goal with
    | |- context [if String.eqb ?a ?b || String.eqb ?a ?c then _ else _] =>
        let E := fresh "E" in
        destruct (String.eqb a b || String.eqb a c) eqn:E
    | |- context [if String.eqb ?a ?b then _ else _] =>
        let E := fresh "E" in
        destruct (String.eqb a b) eqn:E;
        [apply String.eqb_eq in E; subst a|]
    end;
  try absurd_case.

(* ---------- rounds ---------- *)

Lemma rounds_of_nonzero (v : option string) : rounds_of v <> Finite 0.
Proof.
  unfold rounds_of. destruct (parseInt v) as [[n|negative]|]; try discriminate.
  destruct (Z.eqb n 0) eqn:E; [discriminate|]. apply Z.eqb_neq in E. congruence.
Qed.

Lemma rounds_kept (args : list string) :
  forall r, rounds r <> Some (Finite 0) ->
            rounds (parseArgs_loop args r) <> Some (Finite 0).
Proof.
  induction args as [|a|a b l IH1 IH2] using args_ind; intros r Hr.
  - exact Hr.
  - scan; cbn; try exact Hr; discriminate.
  - scan; try (apply IH1); try (apply IH2); cbn; try exact Hr; try discriminate.
    intros [= H]. revert H. apply rounds_of_nonzero.
Qed.

Lemma rounds_absent (args : list string) :
  forall r, ~ In "--rounds" args -> ~ In "-r" args ->
            rounds (parseArgs_loop args r) = rounds r.
Proof.
  induction args as [|a|a b l IH1 IH2] using args_ind; intros r H1 H2.
  - reflexivity.
  - scan; try reflexivity.
    match goal with
    | E : String.eqb _ "--rounds" || _ = true |- _ =>
        apply orb_true_iff in E; destruct E as [E|E]; apply String.eqb_eq in E;
        subst a; exfalso; [apply H1 | apply H2]; now left
    end.
  - assert (Hl1 : ~ In "--rounds" l) by (intros H; apply H1; right; now right).
    assert (Hl2 : ~ In "-r" l) by (intros H; apply H2; right; now right).
    assert (Hb1 : ~ In "--rounds" (b :: l)) by (intros H; apply H1; now right).
    assert (Hb2 : ~ In "-r" (b :: l)) by (intros H; apply H2; now right).
    scan; try (rewrite IH1 by assumption); try (rewrite IH2 by assumption);
      try reflexivity.
    match goal with
    | E : String.eqb _ "--rounds" || _ = true |- _ =>
        apply orb_true_iff in E; destruct E as [E|E]; apply String.eqb_eq in E;
        subst a; exfalso; [apply H1 | apply H2]; now left
    end.
Qed.

(* ---------- flags and commands ---------- *)

Lemma autoFix_given (args : list string) :
  forall r,
    autoFix (parseArgs_loop args r) = autoFix r
    \/ (autoFix (parseArgs_loop args r) = Some true /\ In "--auto-fix" args).
Proof.
  induction args as [|a|a b l IH1 IH2] using args_ind; intros r.
  - now left.
  - scan; cbn; auto.
  - scan;
      lazymatch goal with
      | |- context [parseArgs_loop l ?x] =>
          destruct (IH1 x) as [H|[H Hin]]; rewrite H; cbn; auto
      | |- context [parseArgs_loop (b :: l) ?x] =>
          destruct (IH2 x) as [H|[H Hin]]; rewrite H; cbn; auto
      end.
Qed.

Lemma streaming_given (args : list string) :
  forall r,
    streaming (parseArgs_loop args r) = streaming r
    \/ (streaming (parseArgs_loop args r) = false /\ In "--no-stream" args).
Proof.
  induction args as [|a|a b l IH1 IH2] using args_ind; intros r.
  - now left.
  - scan; cbn; auto.
  - scan;
      lazymatch goal with
      | |- context [parseArgs_loop l ?x] =>
          destruct (IH1 x) as [H|[H Hin]]; rewrite H; cbn; auto
      | |- context [parseArgs_loop (b :: l) ?x] =>
          destruct (IH2 x) as [H|[H Hin]]; rewrite H; cbn; auto
      end.
Qed.

Lemma command_given (args : list string) :
  forall r,
    command (parseArgs_loop args r) = command r
    \/ In (Command_value (command (parseArgs_loop args r))) args.
Proof.
  induction args as [|a|a b l IH1 IH2] using args_ind; intros r.
  - now left.
  - scan; cbn; auto.
  - scan;
      lazymatch goal with
      | |- context [parseArgs_loop l ?x] =>
          destruct (IH1 x) as [H|Hin]; [rewrite H; cbn; auto | right; right; now right]
      | |- context [parseArgs_loop (b :: l) ?x] =>
          destruct (IH2 x) as [H|Hin]; [rewrite H; cbn; auto | right; now right]
      end.
Qed.

Lemma follows_head (long short o v : string) (l : list string) :
  String.eqb o long || String.eqb o short = true -> follows long short v (o :: v :: l).
Proof.
  intros E. exists [], o, l. split; [reflexivity|].
  apply orb_true_iff in E. destruct E as [E|E]; apply String.eqb_eq in E; auto.
Qed.

Lemma follows_cons (long short v a : string) (l : list string) :
  follows long short v l -> follows long short v (a :: l).
Proof. intros (pre & o & post & -> & Ho). now exists (a :: pre), o, post. Qed.

Ltac value_given IH1 IH2 b l :=
  lazymatch goal with
  | |- context [parseArgs_loop l ?x] =>
      let H := fresh "H" in
      let v := fresh "v" in
      let Hf := fresh "Hf" in
      destruct (IH1 x) as [H|[H|(v & H & Hf)]];
      [rewrite H; cbn;
       first [now left
             | right; right; exists b; split;
               [reflexivity | now apply follows_head]]
      | auto
      | right; right; exists v; split; [exact H | now do 2 apply follows_cons]]
  | |- context [parseArgs_loop (b :: l) ?x] =>
      let H := fresh "H" in
      let v := fresh "v" in
      let Hf := fresh "Hf" in
      destruct (IH2 x) as [H|[H|(v & H & Hf)]];
      [rewrite H; cbn; auto
      | auto
      | right; right; exists v; split; [exact H | now apply follows_cons]]
  end.

Lemma topic_given (args : list string) :
  forall r,
    topic (parseArgs_loop args r) = topic r
    \/ topic (parseArgs_loop args r) = None
    \/ (exists v, topic (parseArgs_loop args r) = Some v
                  /\ follows "--topic" "-t" v args).
Proof.
  induction args as [|a|a b l IH1 IH2] using args_ind; intros r.
  - now left.
  - scan; cbn; auto.
  - scan; value_given IH1 IH2 b l.
Qed.

Lemma path_given (args : list string) :
  forall r,
    path (parseArgs_loop args r) = path r
    \/ path (parseArgs_loop args r) = None
    \/ (exists v, path (parseArgs_loop args r) = Some v
                  /\ follows "--path" "-p" v args).
Proof.
  induction args as [|a|a b l IH1 IH2] using args_ind; intros r.
  - now left.
  - scan; cbn; auto.
  - scan; value_given IH1 IH2 b l.
Qed.

Lemma buildCommand_given (args : list string) :
  forall r,
    buildCommand (parseArgs_loop args r) = buildCommand r
    \/ buildCommand (parseArgs_loop args r) = None
    \/ (exists v, buildCommand (parseArgs_loop args r) = Some v
                  /\ follows "--build" "--build" v args).
Proof.
  induction args as [|a|a b l IH1 IH2] using args_ind; intros r.
  - now left.
  - scan; cbn; auto.
  - scan;
      lazymatch goal with
      | |- context [parseArgs_loop l ?x] =>
          destruct (IH1 x) as [H|[H|(v & H & Hf)]];
          [rewrite H; cbn;
           first [now left
                 | right; right; exists b; split;
                   [reflexivity
                   | exists [], "--build", l; split; [reflexivity | now left]]]
          | auto
          | right; right; exists v; split; [exact H | now do 2 apply follows_cons]]
      | |- context [parseArgs_loop (b :: l) ?x] =>
          destruct (IH2 x) as [H|[H|(v & H & Hf)]];
          [rewrite H; cbn; auto
          | auto
          | right; right; exists v; split; [exact H | now apply follows_cons]]
      end.
Qed.

(* ---------- parseInt ---------- *)

Lemma digits_of_uint (d : Decimal.uint) :
  forall acc count,
    Json.digits (NilEmpty.string_of_uint d) (Z.of_nat acc) count
    = (Z.of_nat (Nat.of_uint_acc d acc), count + Decimal.nb_digits d, EmptyString).
Proof.
  induction d; intros acc count;
    cbn [NilEmpty.string_of_uint Json.digits Nat.of_uint_acc Decimal.nb_digits];
    try (rewrite Nat.add_0_r; reflexivity);
    rewrite Nat.tail_mul_spec;
    match goal with
    | |- context [Json.digit ?c] =>
        let v := eval vm_compute in (Json.digit c) in
        change (Json.digit c) with v
    end;
    cbv iota beta;
    match goal with
    | |- Json.digits _ ?z _ = (Z.of_nat (Nat.of_uint_acc _ ?n), _, _) =>
        replace z with (Z.of_nat n) by lia
    end;
    rewrite IHd; f_equal; f_equal; lia.
Qed.

Lemma digit_solid (c : ascii) (r : string) :
  starts_with_digit (String c r) = true -> solid_byte c = true.
Proof.
  destruct c as [[] [] [] [] [] [] [] []]; try discriminate; intros _; reflexivity.
Qed.

Lemma digit_no_sign (c : ascii) (r : string) :
  starts_with_digit (String c r) = true -> c <> "-"%char /\ c <> "+"%char.
Proof.
  destruct c as [[] [] [] [] [] [] [] []]; try discriminate; intros _;
    split; discriminate.
Qed.

Lemma parseInt_unsigned (s : string) :
  starts_with_digit s = true ->
  parseInt (Some s)
  = let '(n, count, _) := Json.digits s 0%Z 0 in
    match count with O => None | S _ => Some (nearest_double n) end.
Proof.
  destruct s as [|c r]; [discriminate|]. intros H. unfold parseInt.
  rewrite (trimStart_solid _ (strip_space_solid c r (digit_solid c r H))).
  destruct (digit_no_sign c r H) as [H1 H2].
  destruct c as [[] [] [] [] [] [] [] []]; try reflexivity; congruence.
Qed.

Lemma parseInt_negative (s : string) :
  starts_with_digit s = true ->
  parseInt (Some (String "-" s))
  = let '(n, count, _) := Json.digits s 0%Z 0 in
    match count with O => None | S _ => Some (negated (nearest_double n)) end.
Proof.
  intros _. unfold parseInt.
  now rewrite (trimStart_solid _ (strip_space_solid "-" s eq_refl)).
Qed.

(** Numbers of at most 53 bits are doubles. *)
Lemma nearest_double_exact (z : Z) :
  (0 <= z < 2 ^ 53)%Z -> nearest_double z = Finite z.
Proof.
  intros [H0 H]. unfold nearest_double.
  assert (Hb : (Z.log2 z + 1 <= 53)%Z).
  { destruct (Z.eq_dec z 0) as [->|Hz]; [cbn; lia|].
    assert (Z.log2 z < 53)%Z by (apply Z.log2_lt_pow2; lia). lia. }
  apply Z.leb_le in Hb. now rewrite Hb.
Qed.

(** The double nearest to a positive number is positive. *)
Lemma nearest_double_positive (z : Z) :
  (0 < z)%Z ->
  match nearest_double z with
  | Finite v => (0 < v)%Z
  | Infinity negative => negative = false
  end.
Proof.
  intros Hz. unfold nearest_double.
  destruct (Z.leb_spec (Z.log2 z + 1) 53) as [Hb|Hb]; [exact Hz|].
  cbv zeta. set (shift := (Z.log2 z + 1 - 53)%Z).
  set (q := Z.shiftr z shift).
  match goal with
  | |- context [Z.shiftl ?x shift] =>
      match x with
      | q => fail 1
      | _ => set (q' := x)
      end
  end.
  destruct (Z.leb_spec (2 ^ 1024) (Z.shiftl q' shift)); [reflexivity|].
  assert (Hs : (0 < shift)%Z) by (unfold shift; lia).
  assert (Hq : (0 < q)%Z).
  { unfold q. rewrite Z.shiftr_div_pow2 by lia.
    apply Z.div_str_pos. split; [apply Z.pow_pos_nonneg; lia|].
    apply Z.le_trans with (2 ^ Z.log2 z)%Z.
    - apply Z.pow_le_mono_r; unfold shift; lia.
    - apply Z.log2_spec. exact Hz. }
  assert (Hq' : (0 < q')%Z).
  { unfold q'. match goal with |- context [if ?b then _ else _] => destruct b end; lia. }
  rewrite Z.shiftl_mul_pow2 by lia. apply Z.mul_pos_pos; [exact Hq'|].
  apply Z.pow_pos_nonneg; lia.
Qed.

Lemma rounds_of_positive (v : string) (z : Z) :
  (0 < z)%Z ->
  parseInt (Some v) = Some (nearest_double z) ->
  rounds_of (Some v) = nearest_double z.
Proof.
  intros Hz E. unfold rounds_of. rewrite E.
  pose proof (nearest_double_positive z Hz) as Hp.
  destruct (nearest_double z) as [x|negative]; [|reflexivity].
  destruct (Z.eqb_spec x 0); [lia | reflexivity].
Qed.

Lemma rounds_of_negative (v : string) (z : Z) :
  (0 < z)%Z ->
  parseInt (Some v) = Some (negated (nearest_double z)) ->
  rounds_of (Some v) = negated (nearest_double z).
Proof.
  intros Hz E. unfold rounds_of. rewrite E.
  pose proof (nearest_double_positive z Hz) as Hp.
  destruct (nearest_double z) as [x|negative]; [|reflexivity].
  cbn [negated]. destruct (Z.eqb_spec (- x) 0); [lia | reflexivity].
Qed.

Lemma decimal_digits (n : nat) :
  starts_with_digit (decimal n) = true
  /\ exists count,
       Json.digits (decimal n) 0%Z 0 = (Z.of_nat n, S count, EmptyString).
Proof.
  unfold decimal, NilZero.string_of_uint.
  pose proof (ParsingFacts.to_uint_nonnil n) as Hnil.
  pose proof (DecimalNat.Unsigned.of_to n) as Hof.
  assert (Hs : match Nat.to_uint n with
               | Decimal.Nil => "0"
               | _ => NilEmpty.string_of_uint (Nat.to_uint n)
               end = NilEmpty.string_of_uint (Nat.to_uint n))
    by (destruct (Nat.to_uint n); [congruence | reflexivity..]).
  rewrite Hs. split.
  - destruct (Nat.to_uint n); [congruence | reflexivity..].
  - change 0%Z with (Z.of_nat 0). rewrite digits_of_uint.
    unfold Nat.of_uint in Hof. rewrite Hof.
    exists (pred (Decimal.nb_digits (Nat.to_uint n))).
    destruct (Nat.to_uint n); [congruence | reflexivity..].
Qed.

Lemma parseInt_decimal (n : nat) :
  parseInt (Some (decimal n)) = Some (nearest_double (Z.of_nat n)).
Proof.
  destruct (decimal_digits n) as (Hd & count & Hc).
  rewrite (parseInt_unsigned _ Hd), Hc. reflexivity.
Qed.

Lemma parseInt_minus_decimal (n : nat) :
  parseInt (Some ("-" ++ decimal n)%string)
  = Some (negated (nearest_double (Z.of_nat n))).
Proof.
  destruct (decimal_digits n) as (Hd & count & Hc).
  change ("-" ++ decimal n)%string with (String "-" (decimal n)).
  rewrite (parseInt_negative _ Hd), Hc. reflexivity.
Qed.

(* ---------- parseIssueTypes ---------- *)





(* ---------- the properties ---------- *)

(** X20. parseArgs never sets the number of rounds to zero: the field
    stays unset, or holds a number other than 0, since a value that
    parseInt reads as 0 or cannot read is replaced by 2. The field is
    set only if one of the two spellings of the rounds option occurs
    among the arguments. *)
Theorem parseArgs_rounds_never_zero (args : list string) :
  (rounds (parseArgs args) = None
   \/ exists n, rounds (parseArgs args) = Some n /\ n <> Finite 0)
  /\ (rounds (parseArgs args) = None \/ In "--rounds" args \/ In "-r" args).
Proof.
  split.
  - pose proof (rounds_kept args initial) as H.
    destruct (rounds (parseArgs_loop args initial)) as [n|] eqn:E;
      unfold parseArgs; rewrite E; [right | now left].
    exists n. split; [reflexivity|]. intros ->. apply H; [discriminate | reflexivity].
  - destruct (in_dec string_dec "--rounds" args) as [H1|H1]; [auto|].
    destruct (in_dec string_dec "-r" args) as [H2|H2]; [auto|].
    left. unfold parseArgs. now rewrite rounds_absent.
Qed.

(** X21. The rounds option in front of arguments that do not repeat it:
    a decimal numeral gives the double nearest to its number, which is
    the number itself below 2 to the 53, and, with a minus sign, the
    negative of that double, except that 0 gives 2; the option as the
    last argument, with no value, gives 2. *)
Theorem rounds_option_reads_decimal (o : string) (n : nat) (rest : list string) :
  o = "--rounds" \/ o = "-r" ->
  ~ In "--rounds" rest -> ~ In "-r" rest ->
  rounds (parseArgs (o :: decimal n :: rest))
  = Some (if Nat.eqb n 0 then Finite 2 else nearest_double (Z.of_nat n))
  /\ rounds (parseArgs (o :: ("-" ++ decimal n)%string :: rest))
     = Some (if Nat.eqb n 0 then Finite 2
             else negated (nearest_double (Z.of_nat n)))
  /\ rounds (parseArgs [o]) = Some (Finite 2)
  /\ ((Z.of_nat n < 2 ^ 53)%Z -> nearest_double (Z.of_nat n) = Finite (Z.of_nat n)).
Proof.
  intros Ho H1 H2.
  assert (Hread : forall v,
             rounds (parseArgs (o :: v :: rest)) = Some (rounds_of (Some v))).
  { intros v. unfold parseArgs.
    destruct Ho as [-> | ->]; rewrite parseArgs_loop_cons; cbv beta zeta;
      cbn [String.eqb Ascii.eqb Bool.eqb orb andb];
      now rewrite rounds_absent. }
  split; [|split; [|split]].
  - rewrite Hread. destruct n as [|n]; [reflexivity|]. cbn [Nat.eqb].
    f_equal. apply rounds_of_positive; [lia | apply parseInt_decimal].
  - rewrite Hread. destruct n as [|n]; [reflexivity|]. cbn [Nat.eqb].
    f_equal. apply rounds_of_negative; [lia | apply parseInt_minus_decimal].
  - destruct Ho as [-> | ->]; reflexivity.
  - intros Hn. apply nearest_double_exact. lia.
Qed.

(** Beyond 53 bits the number read is rounded: to the nearest double,
    to the even one of two that are equally near, and to an infinity
    from 2 to the 1024 on. White space of any kind before the numeral is
    skipped. *)
Example parseInt_rounds_to_double :
  parseInt (Some "9007199254740993") = Some (Finite 9007199254740992)
  /\ parseInt (Some "9007199254740995") = Some (Finite 9007199254740996)
  /\ parseInt (Some "-9007199254740993") = Some (Finite (-9007199254740992))
  /\ nearest_double (2 ^ 1024 - 2 ^ 970 - 1) = Finite (2 ^ 1024 - 2 ^ 971)
  /\ nearest_double (2 ^ 1024 - 2 ^ 970) = Infinity false
  /\ rounds_of (Some (of_bytes [194; 160] ++ "5 rounds")%string) = Finite 5
  /\ rounds_of (Some "0x10") = Finite 2
  /\ rounds_of (Some "many") = Finite 2.
Proof. repeat split; vm_compute; reflexivity. Qed.

(** X22. parseArgs reads only what is given: the command is help unless
    a command word occurs among the arguments; auto-fix is never set to
    false, and is set only if --auto-fix occurs; streaming is turned off
    only if --no-stream occurs; and a topic, a path or a build command
    is always the argument that follows an occurrence of its option. *)
Theorem parseArgs_reads_what_is_given (args : list string) :
  let r := parseArgs args in
  (command r = help \/ In (Command_value (command r)) args)
  /\ (autoFix r = None \/ (autoFix r = Some true /\ In "--auto-fix" args))
  /\ (streaming r = true \/ (streaming r = false /\ In "--no-stream" args))
  /\ (forall v, topic r = Some v -> follows "--topic" "-t" v args)
  /\ (forall v, path r = Some v -> follows "--path" "-p" v args)
  /\ (forall v, buildCommand r = Some v -> follows "--build" "--build" v args).
Proof.
  intros r. subst r. unfold parseArgs.
  split; [|split; [|split; [|split; [|split]]]].
  - destruct (command_given args initial) as [H|H]; [left; exact H | now right].
  - destruct (autoFix_given args initial) as [H|H]; [left; exact H | now right].
  - destruct (streaming_given args initial) as [H|H]; [left; exact H | now right].
  - intros v Hv. destruct (topic_given args initial) as [H|[H|(v' & H & Hf)]];
      rewrite H in Hv; try discriminate Hv. now injection Hv as <-.
  - intros v Hv. destruct (path_given args initial) as [H|[H|(v' & H & Hf)]];
      rewrite H in Hv; try discriminate Hv. now injection Hv as <-.
  - intros v Hv. destruct (buildCommand_given args initial) as [H|[H|(v' & H & Hf)]];
      rewrite H in Hv; try discriminate Hv. now injection Hv as <-.
Qed.




(** White space of any kind around a piece is removed, a no-break space
    as well as a blank. *)
Example parseIssueTypes_trims :
  parseIssueTypes (Some ("security" ++ of_bytes [194; 160] ++ ", Design ,"
                         ++ of_bytes [226; 128; 175] ++ "PERFORMANCE")%string)
  = [Member SECURITY; Member DESIGN; Member PERFORMANCE].
Proof. vm_compute. reflexivity. Qed.

End CliFacts.

(* ===================================================================== *)
(** ** The prompts of a debate *)
(* ===================================================================== *)

Module PromptsFacts.
Import JsString Types Runtime Debate Prompts DebateScript.

Lemma strip_prefix_app_r (p s r b : string) :
  strip_prefix p s = Some r -> strip_prefix p (s ++ b)%string = Some (r ++ b)%string.
Proof.
  revert s. induction p as [|a p IH]; intros s H; cbn in *.
  - now injection H as ->.
  - destruct s as [|c s]; [discriminate|]. cbn.
    destruct (Ascii.eqb a c); [now apply IH | discriminate].
Qed.

Lemma contains_cons (p : string) (c : ascii) (s : string) :
  contains p s = true -> contains p (String c s) = true.
Proof.
  unfold contains. cbn [after_first].
  destruct (strip_prefix p (String c s)); [reflexivity|]. auto.
Qed.

Lemma contains_app_r (p a s : string) :
  contains p s = true -> contains p (a ++ s)%string = true.
Proof.
  intros H. induction a as [|c a IH]; [exact H|]. cbn. now apply contains_cons.
Qed.

Lemma after_first_app (p s b : string) :
  after_first p s <> None -> after_first p (s ++ b)%string <> None.
Proof.
  induction s as [|c s IH].
  - cbn [after_first]. destruct (strip_prefix p EmptyString) as [r|] eqn:E;
      [|intros H; now elim H].
    intros _. destruct p; [|discriminate E].
    destruct b; cbn; discriminate.
  - cbn [after_first append].
    change (String c (s ++ b)%string) with (String c s ++ b)%string.
    destruct (strip_prefix p (String c s)) as [r|] eqn:E.
    + intros _. rewrite (strip_prefix_app_r _ _ _ b E). discriminate.
    + intros H. specialize (IH H).
      destruct (strip_prefix p (String c s ++ b)%string); [discriminate | exact IH].
Qed.

Lemma contains_app_l (p s b : string) :
  contains p s = true -> contains p (s ++ b)%string = true.
Proof.
  unfold contains. intros H.
  pose proof (after_first_app p s b) as Happ.
  destruct (after_first p s); [|discriminate H].
  destruct (after_first p (s ++ b)%string); [reflexivity|].
  elim Happ; [discriminate | reflexivity].
Qed.

Lemma contains_refl (p : string) : contains p p = true.
Proof.
  unfold contains.
  assert (H : strip_prefix p p = Some EmptyString).
  { induction p as [|c p IH]; [reflexivity|]. cbn. now rewrite Ascii.eqb_refl. }
  destruct p; cbn in *; [reflexivity|]. now rewrite H.
Qed.

Lemma join_quotes (sep : string) (l : list string) (x : string) :
  In x l -> contains x (join sep l) = true.
Proof.
  induction l as [|y l IH]; [intros []|].
  intros [->|H].
  - destruct l as [|z l]; cbn [join]; [apply contains_refl|].
    apply contains_app_l, contains_refl.
  - destruct l as [|z l]; [destruct H|]. cbn [join].
    apply contains_app_r, contains_app_r. now apply IH.
Qed.

Lemma formatHistory_quotes (h : list DebateMessage) : quotes h (formatHistory h).
Proof.
  intros m Hm. unfold formatHistory.
  destruct h as [|x h]; [destruct Hm|]. cbn [List.length Nat.eqb].
  apply join_quotes, in_map, Hm.
Qed.

Ltac inside H :=
  repeat first
    [ apply contains_app_l; solve [exact H | apply contains_refl]
    | solve [exact H | apply contains_refl]
    | apply contains_app_r ].

Lemma evaluation_quotes (topic : string) (n : nat) (h : list DebateMessage) :
  quotes h (getModeratorEvaluationPrompt topic n h).
Proof.
  intros m Hm. pose proof (formatHistory_quotes h m Hm) as H.
  unfold getModeratorEvaluationPrompt. inside H.
Qed.

Lemma final_quotes (topic : string) (h : list DebateMessage) :
  quotes h (getModeratorFinalVerdictPrompt topic h).
Proof.
  intros m Hm. pose proof (formatHistory_quotes h m Hm) as H.
  unfold getModeratorFinalVerdictPrompt. inside H.
Qed.

Lemma defender_quotes (topic : string) (n : nat) (h : list DebateMessage) :
  quotes h (getDefenderPrompt topic n h).
Proof.
  intros m Hm. pose proof (formatHistory_quotes h m Hm) as H.
  unfold getDefenderPrompt. inside H.
Qed.

Lemma challenger_quotes (topic : string) (n : nat) (h : list DebateMessage) :
  quotes h (getChallengerPrompt topic n h).
Proof.
  intros m Hm. pose proof (formatHistory_quotes h m Hm) as H.
  unfold getChallengerPrompt. cbv zeta.
  destruct h as [|x h]; [destruct Hm|]. cbn [List.length Nat.ltb Nat.leb].
  assert (H' : contains (history_block m)
                 ("## 对话历史" ++ newline ++ formatHistory (x :: h))%string = true)
    by (inside H).
  inside H'.
Qed.

Section Script.

Variable config : DebateConfig.

Let script := debate_script config getModeratorOpeningPrompt getChallengerPrompt
                getDefenderPrompt getModeratorEvaluationPrompt
                getModeratorFinalVerdictPrompt.

Lemma rounds_script_quotes (msgs : list DebateMessage) (k : nat) :
  forall n pos j inv,
    nth_error (rounds_script config getChallengerPrompt getDefenderPrompt
                 getModeratorEvaluationPrompt n k pos msgs) j = Some inv ->
    quotes (firstn (pos + j) msgs) (snd inv).
Proof.
  induction k as [|k IH]; intros n pos j inv; cbn [rounds_script].
  - destruct j; discriminate.
  - unfold round_script. cbn [app].
    destruct j as [|[|[|j]]]; cbn [nth_error].
    + intros [= <-]. rewrite Nat.add_0_r. apply challenger_quotes.
    + intros [= <-]. apply defender_quotes.
    + intros [= <-]. apply evaluation_quotes.
    + intros H. apply IH in H.
      replace (pos + S (S (S j))) with (pos + 3 + j) by lia. exact H.
Qed.

Lemma debate_script_quotes (msgs : list DebateMessage) (j : nat)
  (inv : Agents.ICLIAgent * string) :
  nth_error (script msgs) j = Some inv -> quotes (firstn j msgs) (snd inv).
Proof.
  unfold script, debate_script. destruct j as [|j]; cbn [nth_error].
  - intros _ m [].
  - intros H.
    destruct (Nat.lt_ge_cases j (3 * rounds config)) as [Hlt|Hge].
    + rewrite nth_error_app1 in H
        by (rewrite DebateScriptFacts.rounds_script_length; exact Hlt).
      apply rounds_script_quotes in H. exact H.
    + rewrite nth_error_app2 in H
        by (rewrite DebateScriptFacts.rounds_script_length; exact Hge).
      rewrite DebateScriptFacts.rounds_script_length in H.
      destruct (j - 3 * rounds config) as [|d] eqn:E; cbn [nth_error] in H.
      * injection H as <-. cbn [snd].
        replace (S j) with (1 + 3 * rounds config) by lia. apply final_quotes.
      * destruct d; discriminate H.
Qed.

End Script.

Lemma nth_error_firstn_In {A} (l : list A) (i j : nat) (x : A) :
  nth_error l i = Some x -> i < j -> In x (firstn j l).
Proof.
  revert i j. induction l as [|y l IH]; intros i j H Hlt.
  - destruct i; discriminate.
  - destruct j as [|j]; [lia|]. cbn [firstn].
    destruct i as [|i]; cbn [nth_error] in H.
    + injection H as ->. now left.
    + right. apply (IH i); [exact H | lia].
Qed.

(** X24. The prompts of a debate carry what they are given: each of the
    five contains the topic, and each of the four that take a history
    contains, for every message of the history, the label of its role
    followed by its content, as formatHistory lays them out. The history
    of no message is the empty text. *)
Theorem history_prompts_quote_the_transcript (topic : string) (n : nat)
  (h : list DebateMessage) :
  formatHistory [] = EmptyString
  /\ quotes h (formatHistory h)
  /\ quotes h (getChallengerPrompt topic n h)
  /\ quotes h (getDefenderPrompt topic n h)
  /\ quotes h (getModeratorEvaluationPrompt topic n h)
  /\ quotes h (getModeratorFinalVerdictPrompt topic h)
  /\ contains topic (getModeratorOpeningPrompt topic) = true
  /\ contains topic (getChallengerPrompt topic n h) = true
  /\ contains topic (getDefenderPrompt topic n h) = true
  /\ contains topic (getModeratorEvaluationPrompt topic n h) = true
  /\ contains topic (getModeratorFinalVerdictPrompt topic h) = true.
Proof.
  pose proof (contains_refl topic) as H.
  split; [reflexivity|]. split; [apply formatHistory_quotes|].
  split; [apply challenger_quotes|]. split; [apply defender_quotes|].
  split; [apply evaluation_quotes|]. split; [apply final_quotes|].
  split; [unfold getModeratorOpeningPrompt; inside H|].
  split; [unfold getChallengerPrompt; cbv zeta; inside H|].
  split; [unfold getDefenderPrompt; inside H|].
  split; [unfold getModeratorEvaluationPrompt; inside H|].
  unfold getModeratorFinalVerdictPrompt; inside H.
Qed.

(** X25. In a debate run with the prompts of prompts.ts, in which every
    executor is available and every invocation succeeds, every speaker
    is shown all that was said before: the prompt of each invocation
    contains, for each message recorded before that invocation, the
    label of its role followed by its content. *)
Theorem every_speaker_sees_the_debate (w : World) (config : DebateConfig) :
  all_succeed w ->
  isAvailable w (the_moderator config) = true ->
  isAvailable w (the_challenger config) = true ->
  isAvailable w (the_defender config) = true ->
  exists r st,
    run w config getModeratorOpeningPrompt getChallengerPrompt getDefenderPrompt
      getModeratorEvaluationPrompt getModeratorFinalVerdictPrompt = (Ok r, st)
    /\ status r = COMPLETED
    /\ List.length (invocations st) = List.length (messages st)
    /\ forall i j m inv,
         nth_error (messages st) i = Some m ->
         nth_error (invocations st) j = Some inv ->
         i < j ->
         contains (history_block m) (snd inv) = true.
Proof.
  intros Hok Hm Hc Hd.
  destruct (DebateScriptFacts.run_follows_script w config getModeratorOpeningPrompt
              getChallengerPrompt getDefenderPrompt getModeratorEvaluationPrompt
              getModeratorFinalVerdictPrompt Hok Hm Hc Hd)
    as (r & st & Hrun & Hs & Hlen & Hscript & Hans).
  exists r, st. split; [exact Hrun|]. split; [exact Hs|].
  split; [exact (Forall2_length Hans)|].
  intros i j m inv Hi Hj Hlt. rewrite Hscript in Hj.
  apply (debate_script_quotes config _ _ _ Hj).
  now apply (nth_error_firstn_In _ i).
Qed.

End PromptsFacts.

(* ===================================================================== *)
(** ** The further properties on worked inputs *)
(* ===================================================================== *)

Module WorkedCases.
Import JsString Js Fence Types Parsing Agents Execute Runtime Samples Scenarios.
Import Observations ObservationFacts FixPlan FixPlanFacts.
Import OrchestratorCases.

Lemma match_json_fence_capture_witness :
  match_json_fence review_output = Some review_body
  /\ jsonStr review_output = review_body
  /\ trim review_body = review_body
  /\ contains fence review_body = false
  /\ (padded_output
      = (EmptyString ++ fence_json ++ padded_body ++ fence ++ EmptyString)%string
      /\ contains fence_json EmptyString = false
      /\ ParsingContract.fence_free padded_body = true
      /\ trim padded_body = "{}"
      /\ jsonStr padded_output = trim padded_body).
Proof.
  assert (E : match_json_fence review_output = Some review_body)
    by (vm_compute; reflexivity).
  destruct (proj1 (proj2 (match_json_fence_capture review_output)) _ E)
    as (H1 & H2 & H3 & _).
  split; [exact E|]. split; [exact H1|]. split; [exact H2|]. split; [exact H3|].
  split; [reflexivity|]. split; [reflexivity|]. split; [reflexivity|].
  split; [vm_compute; reflexivity|].
  exact (proj2 (proj2 (proj2 (match_json_fence_capture padded_output))
                  EmptyString padded_body EmptyString eq_refl eq_refl eq_refl)).
Defined.

Lemma onChunk_receives_every_chunk_witness :
  settles {| now := 100; what := TimerFires |} = true
  /\ rev (chunks (deliver 0 killed_then_closed)) = [" partial "].
Proof.
  split; [reflexivity|].
  destruct (onChunk_receives_every_chunk 0 killed_then_closed) as (_ & _ & H).
  exact (H [ {| now := 5; what := StdoutData " partial " |} ]
           {| now := 100; what := TimerFires |}
           [ {| now := 101; what := Close None |} ] eq_refl eq_refl).
Defined.

Lemma execute_result_coherent_witness :
  exists r,
    promise (deliver 0 killed_then_closed) = Some r
    /\ killed (deliver 0 killed_then_closed) = ["SIGTERM"]
    /\ success r = false /\ error r = Some timeout_error.
Proof.
  destruct (execute_result_coherent 0 killed_then_closed) as (_ & _ & _ & H).
  eexists. split; [reflexivity|]. split; [reflexivity|].
  exact (proj2 (proj2 (H _ eq_refl)) eq_refl).
Defined.

Lemma table_fallbacks_witness :
  unnamed typeMap (VString "Typo") = true
  /\ parseIssueType (VString "Typo") = Normal (Member BUG)
  /\ nameable (VBool true) = false
  /\ parseSeverity (VBool true) = Throw TypeError.
Proof.
  split; [reflexivity|]. split.
  - exact (proj1 (table_fallbacks (VString "Typo")) eq_refl).
  - split; [reflexivity|].
    exact (proj1 (proj2 (proj2 (proj2 (proj2 (table_fallbacks (VBool true))))
                          eq_refl))).
Defined.

Lemma parseIssuesFromOutput_all_or_nothing_witness :
  Json.parse (jsonStr review_output) = Some (VObject [("issues", VArray review_items)])
  /\ forallb convertible review_items = true
  /\ Forall2 converted review_items (parseIssuesFromOutput Json.parse review_output).
Proof.
  assert (E : Json.parse (jsonStr review_output)
              = Some (VObject [("issues", VArray review_items)]))
    by (vm_compute; reflexivity).
  split; [exact E|]. split; [reflexivity|].
  exact (proj1 (proj2 (parseIssuesFromOutput_all_or_nothing Json.parse review_output)
                  _ _ E eq_refl) eq_refl).
Defined.

Lemma parseVerdictAndAssign_selects_witness :
  In kept_first (parseVerdictAndAssign Json.parse verdict_output review_issues)
  /\ exists issue,
       In issue review_issues
       /\ (kept_first = issue \/ exists cli, kept_first = with_assignedTo issue cli).
Proof.
  assert (Hin : In kept_first
                  (parseVerdictAndAssign Json.parse verdict_output review_issues))
    by (vm_compute; left; reflexivity).
  split; [exact Hin|].
  exact (proj2 (proj2 (parseVerdictAndAssign_selects Json.parse verdict_output
                         review_issues)) _ Hin).
Defined.

Lemma make_fixers_map_witness :
  CodeReview.fixers (review (Some codex_twice)) = Some codex_twice
  /\ codex_twice <> []
  /\ CodeReview.fixers_get (CodeReview.make_fixers (review (Some codex_twice))) CODEX
     = Some (agent_of CODEX DEFENDER (Some 1000%Z))
  /\ CodeReview.fixers_get (CodeReview.make_fixers (review (Some codex_twice))) CLAUDE
     = None.
Proof.
  split; [reflexivity|]. split; [discriminate|].
  destruct (make_fixers_map (review (Some codex_twice))) as (_ & _ & _ & H & _).
  split; [exact (H _ eq_refl ltac:(discriminate) CODEX)
         | exact (H _ eq_refl ltac:(discriminate) CLAUDE)].
Defined.

Lemma executeParallelFix_order_witness :
  CodeReview.autoFix (review None) = true
  /\ interleaved <> []
  /\ returns (CodeReview.executeParallelFix (obliging "fixed") (review None)
                fix_prompt interleaved)
       (fresh blank_result 0)
       (fun tasks _ =>
          map CodeReview.task_issue tasks
          = task_order (CodeReview.make_fixers (review None)) interleaved
          /\ Forall (fun t => CodeReview.fix_key (CodeReview.task_issue t)
                              = Member (CodeReview.assignedCLI t)) tasks
          /\ forall k,
               issues_for k (map CodeReview.task_issue tasks)
               = match CodeReview.fixer_for (CodeReview.make_fixers (review None)) k with
                 | Some _ => issues_for k interleaved
                 | None => []
                 end).
Proof.
  split; [reflexivity|]. split; [discriminate|].
  apply (executeParallelFix_order (obliging "fixed") (review None) fix_prompt
           interleaved (fresh blank_result 0)); [reflexivity | discriminate].
Defined.


Lemma debate_prompts_follow_transcript_witness :
  (all_succeed (obliging "fine")
   /\ isAvailable (obliging "fine") (Debate.the_moderator quiet_debate) = true
   /\ isAvailable (obliging "fine") (Debate.the_challenger quiet_debate) = true
   /\ isAvailable (obliging "fine") (Debate.the_defender quiet_debate) = true)
  /\ exists r st,
       Debate.run (obliging "fine") quiet_debate opening_prompt
         (round_prompt "challenge") (round_prompt "defend")
         (round_prompt "evaluate") final_prompt = (Ok r, st)
       /\ Debate.status r = COMPLETED
       /\ List.length (messages st) = 2 + 3 * Debate.rounds quiet_debate
       /\ invocations st
          = DebateScript.debate_script quiet_debate opening_prompt
              (round_prompt "challenge") (round_prompt "defend")
              (round_prompt "evaluate") final_prompt (messages st)
       /\ Forall2 (DebateScript.answered_by (obliging "fine"))
            (invocations st) (messages st).
Proof.
  split.
  - split; [apply obliging_all_succeed|]. repeat split.
  - exact (DebateScriptFacts.debate_prompts_follow_transcript (obliging "fine")
             quiet_debate opening_prompt (round_prompt "challenge")
             (round_prompt "defend") (round_prompt "evaluate") final_prompt
             (obliging_all_succeed "fine") eq_refl eq_refl eq_refl).
Defined.


Lemma rounds_option_reads_decimal_witness :
  ("-r" = "--rounds" \/ "-r" = "-r")
  /\ ~ In "--rounds" ["--no-stream"] /\ ~ In "-r" ["--no-stream"]
  /\ (Z.of_nat 3 < 2 ^ 53)%Z
  /\ Cli.rounds (Cli.parseArgs ["-r"; "3"; "--no-stream"])
     = Some (Cli.nearest_double 3)
  /\ Cli.rounds (Cli.parseArgs ["-r"; "-3"; "--no-stream"])
     = Some (Cli.negated (Cli.nearest_double 3))
  /\ Cli.rounds (Cli.parseArgs ["-r"]) = Some (Cli.Finite 2)
  /\ Cli.nearest_double 3 = Cli.Finite 3.
Proof.
  assert (H1 : ~ In "--rounds" ["--no-stream"]) by (intros [H|[]]; discriminate H).
  assert (H2 : ~ In "-r" ["--no-stream"]) by (intros [H|[]]; discriminate H).
  assert (H3 : (Z.of_nat 3 < 2 ^ 53)%Z) by reflexivity.
  split; [now right|]. split; [exact H1|]. split; [exact H2|]. split; [exact H3|].
  destruct (CliFacts.rounds_option_reads_decimal "-r" 3 ["--no-stream"]
              (or_intror eq_refl) H1 H2) as (A & B & C & D).
  split; [exact A|]. split; [exact B|]. split; [exact C | exact (D H3)].
Defined.

Lemma parseArgs_reads_what_is_given_witness :
  Cli.path (Cli.parseArgs review_args) = Some "src"
  /\ Cli.follows "--path" "-p" "src" review_args.
Proof.
  split; [reflexivity|].
  destruct (CliFacts.parseArgs_reads_what_is_given review_args)
    as (_ & _ & _ & _ & H & _).
  exact (H "src" eq_refl).
Defined.


Lemma history_prompts_quote_the_transcript_witness :
  exists m,
    In m (messages (snd (run_debate (obliging "fine") 1)))
    /\ contains (Prompts.history_block m)
         (Prompts.getModeratorFinalVerdictPrompt "X"
            (messages (snd (run_debate (obliging "fine") 1)))) = true.
Proof.
  destruct (PromptsFacts.history_prompts_quote_the_transcript "X" 1
              (messages (snd (run_debate (obliging "fine") 1))))
    as (_ & _ & _ & _ & _ & H & _).
  eexists. split; [|apply H]; vm_compute; left; reflexivity.
Defined.

Lemma every_speaker_sees_the_debate_witness :
  (all_succeed (obliging "fine")
   /\ isAvailable (obliging "fine") (Debate.the_moderator (debate 1)) = true
   /\ isAvailable (obliging "fine") (Debate.the_challenger (debate 1)) = true
   /\ isAvailable (obliging "fine") (Debate.the_defender (debate 1)) = true)
  /\ exists r st,
       Debate.run (obliging "fine") (debate 1) Prompts.getModeratorOpeningPrompt
         Prompts.getChallengerPrompt Prompts.getDefenderPrompt
         Prompts.getModeratorEvaluationPrompt
         Prompts.getModeratorFinalVerdictPrompt = (Ok r, st)
       /\ Debate.status r = COMPLETED
       /\ List.length (invocations st) = List.length (messages st)
       /\ forall i j m inv,
            nth_error (messages st) i = Some m ->
            nth_error (invocations st) j = Some inv ->
            i < j ->
            contains (Prompts.history_block m) (snd inv) = true.
Proof.
  split.
  - split; [apply obliging_all_succeed|]. repeat split.
  - exact (PromptsFacts.every_speaker_sees_the_debate (obliging "fine") (debate 1)
             (obliging_all_succeed "fine") eq_refl eq_refl eq_refl).
Defined.

End WorkedCases.
